(** * Ruge-Stuben setup kernels of pyamg ([amg_core/ruge_stuben.h])

    A shallow embedding of the C++ kernels and the properties proved of them.

    Conventions of the embedding.
    - The index type [I] of the templates is modelled by [Z]; the arrays the
      kernels handle hold far fewer than 2^31 entries, so no index arithmetic
      wraps.  An array is a [list]; [a.[i]] reads it and [a.[i <- v]] writes
      it.  Reading or writing out of range is undefined behaviour in C++; the
      model reads the default element and ignores the write.
    - The scalar types [T] and [F] of the templates are a type class
      [Scalar].  IEEE binary64 [float] is the instance of a [double]
      instantiation: its operations round, a division by zero gives an
      infinity or NaN, and a comparison with NaN is false, so the kernels
      run on concrete matrices exactly as compiled code does.  What is said
      of a computed value is said for every instance, with the operations of
      the instance in the order the kernel applies them.  The rationals [Q]
      are a second instance, kept for statements about the order of the
      stored values (comparisons, magnitudes, maxima, tests against zero),
      where they agree with binary64 on finite values; their sums, products
      and quotients are exact, unlike those of a [double].
    - A counted [for] loop is [for_range lo hi body], a fold of the loop body
      over the state the loop mutates. *)

From Stdlib Require Import ZArith List Lia QArith Qabs Floats Permutation.
From stdpp Require Import base list.

Local Open Scope Z_scope.

(** ** Arrays indexed by [Z] *)

Definition get {A} `{Inhabited A} (a : list A) (i : Z) : A :=
  if (0 <=? i) then a !!! Z.to_nat i else inhabitant.

Definition set {A} (a : list A) (i : Z) (v : A) : list A :=
  if (0 <=? i) then <[Z.to_nat i := v]> a else a.

Notation "a .[ i ]" := (get a i) (at level 1, left associativity, format "a .[ i ]").
Notation "a .[ i <- v ]" := (set a i v)
  (at level 1, left associativity, format "a .[ i  <-  v ]").

(** [std::vector<I> v(n, x)] and [std::fill]. *)
Definition filled {A} (n : Z) (x : A) : list A := replicate (Z.to_nat n) x.

(** ** Counted loops *)

Fixpoint for_loop {St} (k : nat) (i : Z) (body : Z -> St -> St) (st : St) : St :=
  match k with
  | O => st
  | S k' => for_loop k' (i + 1) body (body i st)
  end.

(** [for (I i = lo; i < hi; i++) body] *)
Definition for_range {St} (lo hi : Z) (body : Z -> St -> St) (st : St) : St :=
  for_loop (Z.to_nat (hi - lo)) lo body st.

(** ** Scalars *)

Class Scalar (T : Type) := {
  s_zero : T;
  s_one : T;
  s_add : T -> T -> T;
  s_sub : T -> T -> T;
  s_mul : T -> T -> T;
  s_div : T -> T -> T;
  s_opp : T -> T;
  s_ltb : T -> T -> bool;
  s_leb : T -> T -> bool;
  s_eqb : T -> T -> bool;
  (** the conversion [T(k)] or [double(k)] of an integer *)
  s_of_Z : Z -> T;
  (** [mynorm] of linalg.h on a real scalar: the absolute value *)
  mynorm : T -> T;
  (** [std::numeric_limits<F>::min()]: the least positive normalised value *)
  numeric_limits_min : T;
  (** the literal [1e-16] *)
  literal_1em16 : T;
}.

(** [a >= b] is [b <= a] and [a > b] is [b < a], for IEEE values too: both
    are false when an operand is NaN. *)
Definition s_geb {T} `{Scalar T} (a b : T) : bool := s_leb b a.
Definition s_gtb {T} `{Scalar T} (a b : T) : bool := s_ltb b a.

(** [std::max(a, b)] returns [(a < b) ? b : a]. *)
Definition std_max {T} `{Scalar T} (a b : T) : T := if s_ltb a b then b else a.

(** The smallest positive normalised binary64 value, 2^-1022, as a rational. *)
Definition Q_DBL_MIN : Q := 1 # (2 ^ 1022).

(** The rationals as scalars.  [<], [<=], [==] and the magnitude are those
    of binary64 on the finite values; the arithmetic is exact where binary64
    rounds, and [Qdiv] gives 0 for a quotient by zero where binary64 gives
    an infinity or NaN, so the instance does not stand for a [double] in a
    statement on the value of a sum, product or quotient. *)
#[export] Instance Q_Scalar : Scalar Q := {
  s_zero := 0%Q;
  s_one := 1%Q;
  s_add := Qplus;
  s_sub := Qminus;
  s_mul := Qmult;
  s_div := Qdiv;
  s_opp := Qopp;
  s_ltb := fun a b => negb (Qle_bool b a);
  s_leb := Qle_bool;
  s_eqb := Qeq_bool;
  s_of_Z := inject_Z;
  mynorm := Qabs;
  numeric_limits_min := Q_DBL_MIN;
  literal_1em16 := (1 # (10 ^ 16))%Q;
}.

(** Conversion of an [int] to binary64 (exact below 2^53). *)
Definition float_of_Z (z : Z) : float :=
  if z <? 0 then PrimFloat.opp (PrimFloat.of_uint63 (Uint63.of_Z (- z)))
  else PrimFloat.of_uint63 (Uint63.of_Z z).

(** A [double]: the operations and comparisons of IEEE binary64, rounding
    to nearest, ties to even. *)
#[export] Instance float_Scalar : Scalar float := {
  s_zero := 0%float;
  s_one := 1%float;
  s_add := PrimFloat.add;
  s_sub := PrimFloat.sub;
  s_mul := PrimFloat.mul;
  s_div := PrimFloat.div;
  s_opp := PrimFloat.opp;
  s_ltb := PrimFloat.ltb;
  s_leb := PrimFloat.leb;
  s_eqb := PrimFloat.eqb;
  s_of_Z := float_of_Z;
  mynorm := PrimFloat.abs;
  numeric_limits_min := 0x1p-1022%float;
  (* the binary64 value nearest to 1e-16 *)
  literal_1em16 := 0x1.cd2b297d889bcp-54%float;
}.

#[export] Instance Q_inhabited : Inhabited Q := populate 0%Q.
#[export] Instance float_inhabited : Inhabited float := populate 0%float.

(** ** Strength of connection *)

Section Strength.
Context {T : Type} `{Scalar T} `{Inhabited T}.

(** The first inner loop: the running maximum over the off-diagonal
    entries of row [i], started at [numeric_limits<F>::min()]. *)
Definition max_offdiagonal_of_row (Aj : list Z) (Ax : list T)
    (i row_start row_end : Z) : T :=
  for_range row_start row_end
    (fun jj m => if negb (Aj.[jj] =? i) then std_max m (mynorm Ax.[jj]) else m)
    numeric_limits_min.

(** The state the loops mutate: [nnz] and the three output arrays. *)
Record csr_out := { o_nnz : Z; o_p : list Z; o_j : list Z; o_x : list T }.

Definition push_entry (col : Z) (v : T) (st : csr_out) : csr_out :=
  {| o_nnz := o_nnz st + 1;
     o_p := o_p st;
     o_j := (o_j st).[o_nnz st <- col];
     o_x := (o_x st).[o_nnz st <- v] |}.

Definition strength_entry (Aj : list Z) (Ax : list T) (i : Z) (threshold : T)
    (jj : Z) (st : csr_out) : csr_out :=
  let norm_jj := mynorm Ax.[jj] in
  let st1 :=
    if s_geb norm_jj threshold then
      if negb (Aj.[jj] =? i) then push_entry Aj.[jj] Ax.[jj] st else st
    else st in
  if Aj.[jj] =? i then push_entry Aj.[jj] Ax.[jj] st1 else st1.

Definition strength_row (theta : T) (Ap Aj : list Z) (Ax : list T)
    (i : Z) (st : csr_out) : csr_out :=
  let row_start := Ap.[i] in
  let row_end := Ap.[i + 1] in
  let max_offdiagonal := max_offdiagonal_of_row Aj Ax i row_start row_end in
  let threshold := s_mul theta max_offdiagonal in
  let st' := for_range row_start row_end (strength_entry Aj Ax i threshold) st in
  {| o_nnz := o_nnz st'; o_p := (o_p st').[i + 1 <- o_nnz st'];
     o_j := o_j st'; o_x := o_x st' |}.

Definition classical_strength_of_connection (n_row : Z) (theta : T)
    (Ap Aj : list Z) (Ax : list T) (Sp Sj : list Z) (Sx : list T) : csr_out :=
  for_range 0 n_row (strength_row theta Ap Aj Ax)
    {| o_nnz := 0; o_p := Sp.[0 <- 0]; o_j := Sj; o_x := Sx |}.

(** [maximum_row_value]: the running maximum over all entries of row [i]. *)
Definition max_entry_of_row (Ax : list T) (row_start row_end : Z) : T :=
  for_range row_start row_end
    (fun jj m => std_max m (mynorm Ax.[jj])) numeric_limits_min.

Definition maximum_row_value (n_row : Z) (x : list T)
    (Ap Aj : list Z) (Ax : list T) : list T :=
  for_range 0 n_row
    (fun i x => x.[i <- max_entry_of_row Ax Ap.[i] Ap.[i + 1]]) x.
End Strength.

Arguments csr_out : clear implicits.


(** ** Node labels *)

Definition F_NODE : Z := 0.
Definition C_NODE : Z := 1.
Definition U_NODE : Z := 2.
Definition PRE_F_NODE : Z := 3.

(** [std::swap(a[x], a[y])] *)
Definition swap {A} `{Inhabited A} (a : list A) (x y : Z) : list A :=
  let t := a.[x] in (a.[x <- a.[y]]).[y <- t].

(** [for (I i = hi; i != -1; i--) body] *)
Fixpoint for_down_loop {St} (k : nat) (i : Z) (body : Z -> St -> St) (st : St) : St :=
  match k with
  | O => st
  | S k' => for_down_loop k' (i - 1) body (body i st)
  end.

Definition for_down {St} (hi : Z) (body : Z -> St -> St) (st : St) : St :=
  for_down_loop (Z.to_nat (hi + 1)) hi body st.

(** ** Ruge-Stuben C/F splitting *)

Module RS.

(** The arrays [rs_cf_splitting] mutates. *)
Record state := {
  lambda : list Z;
  interval_ptr : list Z;
  interval_count : list Z;
  index_to_node : list Z;
  node_to_index : list Z;
  splitting : list Z;
}.

Definition set_lambda (v : list Z) (st : state) : state :=
  {| lambda := v; interval_ptr := interval_ptr st;
     interval_count := interval_count st; index_to_node := index_to_node st;
     node_to_index := node_to_index st; splitting := splitting st |}.
Definition set_interval_ptr (v : list Z) (st : state) : state :=
  {| lambda := lambda st; interval_ptr := v;
     interval_count := interval_count st; index_to_node := index_to_node st;
     node_to_index := node_to_index st; splitting := splitting st |}.
Definition set_interval_count (v : list Z) (st : state) : state :=
  {| lambda := lambda st; interval_ptr := interval_ptr st;
     interval_count := v; index_to_node := index_to_node st;
     node_to_index := node_to_index st; splitting := splitting st |}.
Definition set_index_to_node (v : list Z) (st : state) : state :=
  {| lambda := lambda st; interval_ptr := interval_ptr st;
     interval_count := interval_count st; index_to_node := v;
     node_to_index := node_to_index st; splitting := splitting st |}.
Definition set_node_to_index (v : list Z) (st : state) : state :=
  {| lambda := lambda st; interval_ptr := interval_ptr st;
     interval_count := interval_count st; index_to_node := index_to_node st;
     node_to_index := v; splitting := splitting st |}.
Definition set_splitting (v : list Z) (st : state) : state :=
  {| lambda := lambda st; interval_ptr := interval_ptr st;
     interval_count := interval_count st; index_to_node := index_to_node st;
     node_to_index := node_to_index st; splitting := v |}.

(** The first loop: [lambda[i] = Tp[i+1] - Tp[i] + influence[i]] and the
    running [lambda_max]. *)
Definition compute_lambdas (n_nodes : Z) (Tp influence : list Z) : list Z * Z :=
  for_range 0 n_nodes
    (fun i '(lambda, lambda_max) =>
       let lambda := lambda.[i <- Tp.[i + 1] - Tp.[i] + influence.[i]] in
       (lambda, if lambda.[i] >? lambda_max then lambda.[i] else lambda_max))
    (filled n_nodes 0, 0).

(** [lambda_max = lambda_max*2; if (n_nodes+1 > lambda_max) lambda_max = n_nodes+1] *)
Definition table_size (n_nodes lambda_max : Z) : Z :=
  let lambda_max := lambda_max * 2 in
  if n_nodes + 1 >? lambda_max then n_nodes + 1 else lambda_max.

(** The counting sort of the nodes by lambda (three loops). *)
Definition count_lambdas (n_nodes : Z) (lambda interval_count : list Z) : list Z :=
  for_range 0 n_nodes
    (fun i cnt => cnt.[lambda.[i] <- cnt.[lambda.[i]] + 1]) interval_count.

Definition prefix_sums (lambda_max : Z) (interval_ptr interval_count : list Z)
    : list Z * list Z * Z :=
  for_range 0 lambda_max
    (fun i '(ptr, cnt, cumsum) =>
       let ptr := ptr.[i <- cumsum] in
       let cumsum := cumsum + cnt.[i] in
       let cnt := cnt.[i <- 0] in
       (ptr, cnt, cumsum))
    (interval_ptr, interval_count, 0).

Definition place_node (i : Z) (st : state) : state :=
  let lambda_i := (lambda st).[i] in
  let index := (interval_ptr st).[lambda_i] + (interval_count st).[lambda_i] in
  let st := set_index_to_node (index_to_node st).[index <- i] st in
  let st := set_node_to_index (node_to_index st).[i <- index] st in
  set_interval_count
    (interval_count st).[lambda_i <- (interval_count st).[lambda_i] + 1] st.

(** "all nodes with no neighbors become F nodes" *)
Definition mark_isolated (Tp Tj : list Z) (i : Z) (st : state) : state :=
  if ((lambda st).[i] =? 0)
     || (((lambda st).[i] =? 1) && (Tj.[Tp.[i]] =? i))
  then set_splitting (splitting st).[i <- F_NODE] st
  else st.

Definition init (n_nodes : Z) (Tp Tj influence splitting0 : list Z) : state :=
  let '(lambda, lambda_max) := compute_lambdas n_nodes Tp influence in
  let lambda_max := table_size n_nodes lambda_max in
  let interval_count := count_lambdas n_nodes lambda (filled lambda_max 0) in
  let '(interval_ptr, interval_count, _) :=
    prefix_sums lambda_max (filled lambda_max 0) interval_count in
  let st := {| lambda := lambda; interval_ptr := interval_ptr;
               interval_count := interval_count;
               index_to_node := filled n_nodes 0;
               node_to_index := filled n_nodes 0;
               splitting := splitting0 |} in
  let st := for_range 0 n_nodes place_node st in
  (* std::fill(splitting, splitting + n_nodes, U_NODE) *)
  let st := set_splitting
              (for_range 0 n_nodes (fun i s => s.[i <- U_NODE]) (splitting st)) st in
  for_range 0 n_nodes (mark_isolated Tp Tj) st.

(** "Search over this interval to make sure we process nodes in descending
    node order": the scan of positions
    [interval_ptr[lambda_i], interval_ptr[lambda_i] + interval_count[lambda_i])
    for the largest node, started at the node on top. *)
Definition find_max_node (lambda_i top_index i : Z) (st : state) : Z * Z :=
  for_range (interval_ptr st).[lambda_i]
            ((interval_ptr st).[lambda_i] + (interval_count st).[lambda_i])
    (fun j '(max_node, max_index) =>
       if (index_to_node st).[j] >? max_node
       then ((index_to_node st).[j], j)
       else (max_node, max_index))
    (i, top_index).

(** Exchange of the positions [x] and [y] in the permutation and its inverse. *)
Definition swap_positions (x y : Z) (st : state) : state :=
  let st := set_node_to_index
              (node_to_index st).[(index_to_node st).[x] <- y] st in
  let st := set_node_to_index
              (node_to_index st).[(index_to_node st).[y] <- x] st in
  set_index_to_node (swap (index_to_node st) x y) st.

(** "For each j in S^T_i /\ U": first loop over row [i] of T. *)
Definition mark_pre_f (Tj : list Z) (jj : Z) (st : state) : state :=
  let j := Tj.[jj] in
  if (splitting st).[j] =? U_NODE
  then set_splitting (splitting st).[j <- PRE_F_NODE] st
  else st.

(** "move k to the end of its current interval" and increment [lambda[k]]. *)
Definition increment_lambda (n_nodes : Z) (Sj : list Z) (kk : Z) (st : state)
    : state :=
  let k := Sj.[kk] in
  if (splitting st).[k] =? U_NODE then
    if (lambda st).[k] >=? n_nodes - 1 then st
    else
      let lambda_k := (lambda st).[k] in
      let old_pos := (node_to_index st).[k] in
      let new_pos :=
        (interval_ptr st).[lambda_k] + (interval_count st).[lambda_k] - 1 in
      let st := swap_positions old_pos new_pos st in
      let st := set_interval_count
                  (interval_count st).[lambda_k <- (interval_count st).[lambda_k] - 1] st in
      let st := set_interval_count
                  (interval_count st).[lambda_k + 1 <- (interval_count st).[lambda_k + 1] + 1] st in
      let st := set_interval_ptr (interval_ptr st).[lambda_k + 1 <- new_pos] st in
      set_lambda (lambda st).[k <- (lambda st).[k] + 1] st
  else st.

(** Second loop over row [i] of T: a PRE_F node becomes F and the U nodes of
    its row of S gain priority. *)
Definition settle_pre_f (n_nodes : Z) (Sp Sj Tj : list Z) (jj : Z) (st : state)
    : state :=
  let j := Tj.[jj] in
  if (splitting st).[j] =? PRE_F_NODE then
    let st := set_splitting (splitting st).[j <- F_NODE] st in
    for_range Sp.[j] Sp.[j + 1] (increment_lambda n_nodes Sj) st
  else st.

(** "move j to the beginning of its current interval" and decrement
    [lambda[j]]. *)
Definition decrement_lambda (Sj : list Z) (jj : Z) (st : state) : state :=
  let j := Sj.[jj] in
  if (splitting st).[j] =? U_NODE then
    if (lambda st).[j] =? 0 then st
    else
      let lambda_j := (lambda st).[j] in
      let old_pos := (node_to_index st).[j] in
      let new_pos := (interval_ptr st).[lambda_j] in
      let st := swap_positions old_pos new_pos st in
      let st := set_interval_count
                  (interval_count st).[lambda_j <- (interval_count st).[lambda_j] - 1] st in
      let st := set_interval_count
                  (interval_count st).[lambda_j - 1 <- (interval_count st).[lambda_j - 1] + 1] st in
      let st := set_interval_ptr
                  (interval_ptr st).[lambda_j <- (interval_ptr st).[lambda_j] + 1] st in
      let st := set_interval_ptr
                  (interval_ptr st).[lambda_j - 1 <-
                     (interval_ptr st).[lambda_j] - (interval_count st).[lambda_j - 1]] st in
      set_lambda (lambda st).[j <- (lambda st).[j] - 1] st
  else st.

(** The node the selection promotes at [top_index]: the scan's [max_index]
    is exchanged with [top_index]. *)
Definition bring_max_to_top (top_index : Z) (st : state) : state :=
  let i := (index_to_node st).[top_index] in
  let lambda_i := (lambda st).[i] in
  let '(max_node, max_index) := find_max_node lambda_i top_index i st in
  swap_positions top_index max_index st.

(** One iteration of the main loop, at position [top_index].  The [assert]
    is compiled out of a release build: the [else] branch runs for every
    label other than F_NODE. *)
Definition select_step (n_nodes : Z) (Sp Sj Tp Tj : list Z) (top_index : Z)
    (st : state) : state :=
  let i := (index_to_node st).[top_index] in
  let lambda_i := (lambda st).[i] in
  (* remove i from its interval *)
  let st := set_interval_count
              (interval_count st).[lambda_i <- (interval_count st).[lambda_i] - 1] st in
  if (splitting st).[i] =? F_NODE then st
  else
    let st := bring_max_to_top top_index st in
    let i := (index_to_node st).[top_index] in
    let st := set_splitting (splitting st).[i <- C_NODE] st in
    let st := for_range Tp.[i] Tp.[i + 1] (mark_pre_f Tj) st in
    let st := for_range Tp.[i] Tp.[i + 1] (settle_pre_f n_nodes Sp Sj Tj) st in
    for_range Sp.[i] Sp.[i + 1] (decrement_lambda Sj) st.

Definition rs_cf_splitting (n_nodes : Z) (Sp Sj Tp Tj influence splitting0 : list Z)
    : list Z :=
  splitting
    (for_down (n_nodes - 1) (select_step n_nodes Sp Sj Tp Tj)
       (init n_nodes Tp Tj influence splitting0)).

End RS.


(** ** CLJP splitting *)

Module CLJP.

(** What the kernel takes from outside this file: the colours
    [vertex_coloring_mis] (graph.h) writes into [coloring], the values the
    successive calls of [rand()] return after [srand(2448422)], and the
    platform's [RAND_MAX]. *)
Record externals := {
  mis_coloring : list Z;
  rand_sequence : list Z;
  RAND_MAX : Z;
}.

(** [*std::max_element(v.begin(), v.end())] *)
Definition max_element (v : list Z) : Z :=
  match v with
  | [] => 0
  | x :: r => fold_left (fun m y => if m <? y then y else m) r x
  end.

Section Kernel.
Context {T : Type} `{Scalar T} `{Inhabited T}.

(** The arrays and counters [cljp_naive_splitting] mutates. *)
Record state := {
  splitting : list Z;
  weight : list T;
  edgemark : list Z;
  c_dep_cache : list Z;
  D : list Z;
  Dlist : list Z;
  nD : Z;
  unassigned : Z;
  pass : Z;
}.

Definition set_splitting (v : list Z) (st : state) : state :=
  {| splitting := v; weight := weight st; edgemark := edgemark st; c_dep_cache := c_dep_cache st;
     D := D st; Dlist := Dlist st; nD := nD st; unassigned := unassigned st; pass := pass st |}.
Definition set_weight (v : list T) (st : state) : state :=
  {| splitting := splitting st; weight := v; edgemark := edgemark st; c_dep_cache := c_dep_cache st;
     D := D st; Dlist := Dlist st; nD := nD st; unassigned := unassigned st; pass := pass st |}.
Definition set_edgemark (v : list Z) (st : state) : state :=
  {| splitting := splitting st; weight := weight st; edgemark := v; c_dep_cache := c_dep_cache st;
     D := D st; Dlist := Dlist st; nD := nD st; unassigned := unassigned st; pass := pass st |}.
Definition set_c_dep_cache (v : list Z) (st : state) : state :=
  {| splitting := splitting st; weight := weight st; edgemark := edgemark st; c_dep_cache := v;
     D := D st; Dlist := Dlist st; nD := nD st; unassigned := unassigned st; pass := pass st |}.
Definition set_D (v : list Z) (st : state) : state :=
  {| splitting := splitting st; weight := weight st; edgemark := edgemark st; c_dep_cache := c_dep_cache st;
     D := v; Dlist := Dlist st; nD := nD st; unassigned := unassigned st; pass := pass st |}.
Definition set_Dlist (v : list Z) (st : state) : state :=
  {| splitting := splitting st; weight := weight st; edgemark := edgemark st; c_dep_cache := c_dep_cache st;
     D := D st; Dlist := v; nD := nD st; unassigned := unassigned st; pass := pass st |}.
Definition set_nD (v : Z) (st : state) : state :=
  {| splitting := splitting st; weight := weight st; edgemark := edgemark st; c_dep_cache := c_dep_cache st;
     D := D st; Dlist := Dlist st; nD := v; unassigned := unassigned st; pass := pass st |}.
Definition set_unassigned (v : Z) (st : state) : state :=
  {| splitting := splitting st; weight := weight st; edgemark := edgemark st; c_dep_cache := c_dep_cache st;
     D := D st; Dlist := Dlist st; nD := nD st; unassigned := v; pass := pass st |}.
Definition set_pass (v : Z) (st : state) : state :=
  {| splitting := splitting st; weight := weight st; edgemark := edgemark st; c_dep_cache := c_dep_cache st;
     D := D st; Dlist := Dlist st; nD := nD st; unassigned := unassigned st; pass := v |}.

(** "INITIALIZE WEIGHTS": the seed of each weight. *)
Definition seed_weights (n colorflag : Z) (ext : externals) : list T :=
  if colorflag =? 1 then
    let coloring := mis_coloring ext in
    let ncolors := max_element coloring + 1 in
    for_range 0 n
      (fun i w => w.[i <- s_div (s_of_Z coloring.[i]) (s_of_Z ncolors)])
      (filled n s_zero)
  else
    for_range 0 n
      (fun i w => w.[i <- s_div (s_of_Z (rand_sequence ext).[i])
                                (s_of_Z (RAND_MAX ext))])
      (filled n s_zero).

(** [weight[j]++] for every entry (i,j) of S off the diagonal. *)
Definition count_influence (n : Z) (Sp Sj : list Z) (weight : list T) : list T :=
  for_range 0 n
    (fun i w =>
       for_range Sp.[i] Sp.[i + 1]
         (fun jj w =>
            let j := Sj.[jj] in
            if negb (i =? j) then w.[j <- s_add w.[j] s_one] else w)
         w)
    weight.

(** A scan of the row [Xp[i] .. Xp[i+1]) of a graph that stops ([break]) at
    the first U neighbour of greater weight; [true] when it stopped. *)
Definition heavier_neighbour (Xp Xj : list Z) (i : Z) (st : state) : bool :=
  for_range Xp.[i] Xp.[i + 1]
    (fun jj found =>
       found ||
       (let j := Xj.[jj] in
        ((splitting st).[j] =? U_NODE)
        && s_gtb (weight st).[j] (weight st).[i]))
    false.

(** "SELECT INDEPENDENT SET": the body of the loop over the nodes. *)
Definition select_node (Sp Sj Tp Tj : list Z) (i : Z) (st : state) : state :=
  if (splitting st).[i] =? U_NODE then
    let st := set_D (D st).[i <- 1] st in
    (* check row (S_i^T) *)
    let st := if heavier_neighbour Sp Sj i st
              then set_D (D st).[i <- 0] st else st in
    (* check col (S_i) *)
    let st := if (D st).[i] =? 1 then
                if heavier_neighbour Tp Tj i st
                then set_D (D st).[i <- 0] st else st
              else st in
    if (D st).[i] =? 1 then
      let st := set_Dlist (Dlist st).[nD st <- i] st in
      let st := set_unassigned (unassigned st - 1) st in
      set_nD (nD st + 1) st
    else st
  else set_D (D st).[i <- 0] st.

Definition promote (i : Z) (st : state) : state :=
  set_splitting (splitting st).[(Dlist st).[i] <- C_NODE] st.

Definition select_independent_set (n : Z) (Sp Sj Tp Tj : list Z) (st : state)
    : state :=
  let st := set_nD 0 st in
  let st := for_range 0 n (select_node Sp Sj Tp Tj) st in
  for_range 0 (nD st) promote st.

(** "remove" the edge at [kk] into node [k]:
    [edgemark[kk] = 0; weight[k]--; if (weight[k] < 1) { splitting[k] = F_NODE; unassigned--; }] *)
Definition remove_edge (k kk : Z) (st : state) : state :=
  let st := set_edgemark (edgemark st).[kk <- 0] st in
  let st := set_weight (weight st).[k <- s_sub (weight st).[k] s_one] st in
  if s_ltb (weight st).[k] s_one then
    let st := set_splitting (splitting st).[k <- F_NODE] st in
    set_unassigned (unassigned st - 1) st
  else st.

(** P5: "nbrs that influence C points are not good C points". *)
Definition p5_edge (Sj : list Z) (jj : Z) (st : state) : state :=
  let j := Sj.[jj] in
  if ((splitting st).[j] =? U_NODE) && negb ((edgemark st).[jj] =? 0)
  then remove_edge j jj st
  else st.

Definition p5_node (Sp Sj : list Z) (iD : Z) (st : state) : state :=
  let c := (Dlist st).[iD] in
  for_range Sp.[c] Sp.[c + 1] (p5_edge Sj) st.

Definition p5 (Sp Sj : list Z) (st : state) : state :=
  for_range 0 (nD st) (p5_node Sp Sj) st.

(** P6: "If k and j both depend on c, a C point, and j influces k, then j is
    less valuable as a C point." *)
Definition p6_cache (Tj : list Z) (c jj : Z) (st : state) : state :=
  let j := Tj.[jj] in
  if (splitting st).[j] =? U_NODE
  then set_c_dep_cache (c_dep_cache st).[j <- c] st
  else st.

Definition p6_edge (Sj : list Z) (c kk : Z) (st : state) : state :=
  let k := Sj.[kk] in
  if ((splitting st).[k] =? U_NODE) && negb ((edgemark st).[kk] =? 0) then
    if (c_dep_cache st).[k] =? c then remove_edge k kk st else st
  else st.

Definition p6_row (Sp Sj Tj : list Z) (c jj : Z) (st : state) : state :=
  let j := Tj.[jj] in
  for_range Sp.[j] Sp.[j + 1] (p6_edge Sj c) st.

Definition p6_node (Sp Sj Tp Tj : list Z) (iD : Z) (st : state) : state :=
  let c := (Dlist st).[iD] in
  let st := for_range Tp.[c] Tp.[c + 1] (p6_cache Tj c) st in
  for_range Tp.[c] Tp.[c + 1] (p6_row Sp Sj Tj c) st.

Definition p6 (Sp Sj Tp Tj : list Z) (st : state) : state :=
  for_range 0 (nD st) (p6_node Sp Sj Tp Tj) st.

(** The body of [while (unassigned > 0)]. *)
Definition selection_pass (n : Z) (Sp Sj Tp Tj : list Z) (st : state) : state :=
  let st := set_pass (pass st + 1) st in
  let st := select_independent_set n Sp Sj Tp Tj st in
  let st := p5 Sp Sj st in
  p6 Sp Sj Tp Tj st.

(** [while (unassigned > 0)], run for at most [fuel] iterations: [None] when
    the condition still holds after them. *)
Fixpoint selection_loop (fuel : nat) (n : Z) (Sp Sj Tp Tj : list Z) (st : state)
    : option state :=
  if unassigned st >? 0 then
    match fuel with
    | O => None
    | S fuel' => selection_loop fuel' n Sp Sj Tp Tj (selection_pass n Sp Sj Tp Tj st)
    end
  else Some st.

(** The state on entry to the selection loop. *)
Definition init (n : Z) (Sp Sj : list Z) (splitting0 : list Z) (colorflag : Z)
    (ext : externals) : state :=
  let nnz := Sp.[n] in
  {| splitting := for_range 0 n (fun i s => s.[i <- U_NODE]) splitting0;
     weight := count_influence n Sp Sj (seed_weights n colorflag ext);
     edgemark := filled nnz 1;
     c_dep_cache := filled n (-1);
     D := filled n 0;
     Dlist := filled n 0;
     nD := 0;
     unassigned := n;
     pass := 0 |}.

(** The two loops after the selection loop. *)
Definition finish (n : Z) (Sp : list Z) (st : state) : state :=
  let st := set_edgemark
              (for_range 0 Sp.[n]
                 (fun i e => if e.[i] =? 0 then e.[i <- -1] else e) (edgemark st)) st in
  set_splitting
    (for_range 0 n
       (fun i s => if s.[i] =? U_NODE then s.[i <- F_NODE] else s) (splitting st)) st.

Definition cljp_naive_splitting (fuel : nat) (n : Z) (Sp Sj Tp Tj : list Z)
    (splitting0 : list Z) (colorflag : Z) (ext : externals) : option (list Z) :=
  match selection_loop fuel n Sp Sj Tp Tj (init n Sp Sj splitting0 colorflag ext) with
  | Some st => Some (splitting (finish n Sp st))
  | None => None
  end.

End Kernel.

Arguments state : clear implicits.

End CLJP.


(** ** Direct interpolation *)

Section Interpolation.
Context {T : Type} `{Scalar T} `{Inhabited T}.

(** The test [(splitting[Sj[jj]] == C_NODE) && (Sj[jj] != i)]. *)
Definition strong_C_entry (Sj splitting : list Z) (i jj : Z) : bool :=
  (splitting.[Sj.[jj]] =? C_NODE) && negb (Sj.[jj] =? i).

Definition rs_direct_interpolation_pass1 (n_nodes : Z) (Sp Sj splitting Bp : list Z)
    : list Z :=
  snd (for_range 0 n_nodes
         (fun i '(nnz, Bp) =>
            let nnz :=
              if splitting.[i] =? C_NODE then nnz + 1
              else for_range Sp.[i] Sp.[i + 1]
                     (fun jj nnz =>
                        if strong_C_entry Sj splitting i jj then nnz + 1 else nnz)
                     nnz in
            (nnz, Bp.[i + 1 <- nnz]))
         (0, Bp.[0 <- 0])).

(** [(sum_strong_pos, sum_strong_neg)] of row [i]. *)
Definition strong_sums (Sp Sj : list Z) (Sx : list T) (splitting : list Z) (i : Z)
    : T * T :=
  for_range Sp.[i] Sp.[i + 1]
    (fun jj '(sum_strong_pos, sum_strong_neg) =>
       if strong_C_entry Sj splitting i jj then
         if s_ltb Sx.[jj] s_zero
         then (sum_strong_pos, s_add sum_strong_neg Sx.[jj])
         else (s_add sum_strong_pos Sx.[jj], sum_strong_neg)
       else (sum_strong_pos, sum_strong_neg))
    (s_zero, s_zero).

(** [(sum_all_pos, sum_all_neg, diag)] of row [i] of A. *)
Definition row_sums (Ap Aj : list Z) (Ax : list T) (i : Z) : T * T * T :=
  for_range Ap.[i] Ap.[i + 1]
    (fun jj '(sum_all_pos, sum_all_neg, diag) =>
       if Aj.[jj] =? i then (sum_all_pos, sum_all_neg, s_add diag Ax.[jj])
       else if s_ltb Ax.[jj] s_zero
            then (sum_all_pos, s_add sum_all_neg Ax.[jj], diag)
            else (s_add sum_all_pos Ax.[jj], sum_all_neg, diag))
    (s_zero, s_zero, s_zero).

(** [(neg_coeff, pos_coeff)] of row [i]. *)
Definition direct_coefficients (Ap Aj : list Z) (Ax : list T)
    (Sp Sj : list Z) (Sx : list T) (splitting : list Z) (i : Z) : T * T :=
  let '(sum_strong_pos, sum_strong_neg) := strong_sums Sp Sj Sx splitting i in
  let '(sum_all_pos, sum_all_neg, diag) := row_sums Ap Aj Ax i in
  let alpha := s_div sum_all_neg sum_strong_neg in
  let beta := s_div sum_all_pos sum_strong_pos in
  let '(diag, beta) :=
    if s_eqb sum_strong_pos s_zero
    then (s_add diag sum_all_pos, s_zero)
    else (diag, beta) in
  (s_div (s_opp alpha) diag, s_div (s_opp beta) diag).

(** The last inner loop: the entries of row [i] of P, written from [nnz] on. *)
Definition direct_fill_entry (Sj : list Z) (Sx : list T) (splitting : list Z)
    (i : Z) (neg_coeff pos_coeff : T) (jj : Z) (st : Z * list Z * list T)
    : Z * list Z * list T :=
  let '(nnz, Bj, Bx) := st in
  if strong_C_entry Sj splitting i jj then
    let Bj := Bj.[nnz <- Sj.[jj]] in
    let Bx := if s_ltb Sx.[jj] s_zero
              then Bx.[nnz <- s_mul neg_coeff Sx.[jj]]
              else Bx.[nnz <- s_mul pos_coeff Sx.[jj]] in
    (nnz + 1, Bj, Bx)
  else (nnz, Bj, Bx).

Definition direct_row (Ap Aj : list Z) (Ax : list T) (Sp Sj : list Z) (Sx : list T)
    (splitting Bp : list Z) (i : Z) (B : list Z * list T) : list Z * list T :=
  let '(Bj, Bx) := B in
  if splitting.[i] =? C_NODE then (Bj.[Bp.[i] <- i], Bx.[Bp.[i] <- s_one])
  else
    let '(neg_coeff, pos_coeff) :=
      direct_coefficients Ap Aj Ax Sp Sj Sx splitting i in
    let '(_, Bj, Bx) :=
      for_range Sp.[i] Sp.[i + 1]
        (direct_fill_entry Sj Sx splitting i neg_coeff pos_coeff)
        (Bp.[i], Bj, Bx) in
    (Bj, Bx).

(** [map[i] = sum; sum += splitting[i]] *)
Definition coarse_map (n_nodes : Z) (splitting : list Z) : list Z :=
  fst (for_range 0 n_nodes
         (fun i '(map, sum) => (map.[i <- sum], sum + splitting.[i]))
         (filled n_nodes 0, 0)).

Definition remap_columns (n_nodes : Z) (splitting Bp Bj : list Z) : list Z :=
  let map := coarse_map n_nodes splitting in
  for_range 0 Bp.[n_nodes] (fun i Bj => Bj.[i <- map.[Bj.[i]]]) Bj.

Definition rs_direct_interpolation_pass2 (n_nodes : Z)
    (Ap Aj : list Z) (Ax : list T) (Sp Sj : list Z) (Sx : list T)
    (splitting Bp Bj : list Z) (Bx : list T) : list Z * list T :=
  let '(Bj, Bx) :=
    for_range 0 n_nodes (direct_row Ap Aj Ax Sp Sj Sx splitting Bp) (Bj, Bx) in
  (remap_columns n_nodes splitting Bp Bj, Bx).

End Interpolation.


(** ** Standard interpolation *)

(** The messages [rs_standard_interpolation_pass2] prints. *)
Inductive diagnostic :=
  | Inner_denominator_no_connection
  | Inner_denominator_cancelled
  | Outer_denominator_zero.

Section StandardInterpolation.
Context {T : Type} `{Scalar T} `{Inhabited T}.

Definition rs_standard_interpolation_pass1 (n_nodes : Z) (Sp Sj splitting Bp : list Z)
    : list Z :=
  snd (for_range 0 n_nodes
         (fun i '(nnz, Bp) =>
            let nnz :=
              if splitting.[i] =? C_NODE then nnz + 1
              else for_range Sp.[i] Sp.[i + 1]
                     (fun jj nnz =>
                        if (splitting.[Sj.[jj]] =? C_NODE) && negb (Sj.[jj] =? i)
                        then nnz + 1 else nnz)
                     nnz in
            (nnz, Bp.[i + 1 <- nnz]))
         (0, Bp.[0 <- 0])).

(** "Calculate denominator": the sum of row [i] of A, less the strong
    connections off the diagonal. *)
Definition standard_denominator (Ap : list Z) (Ax : list T)
    (Sp Sj : list Z) (Sx : list T) (i : Z) : T :=
  let denominator :=
    for_range Ap.[i] Ap.[i + 1] (fun mm d => s_add d Ax.[mm]) s_zero in
  for_range Sp.[i] Sp.[i + 1]
    (fun mm d => if negb (Sj.[mm] =? i) then s_sub d Sx.[mm] else d)
    denominator.

(** "Get a_kj": the search over row [k] of A has no [break], so the last
    entry in column [j] is the one kept; 0 when there is none. *)
Definition find_entry (Ap Aj : list Z) (Ax : list T) (k j : Z) : T :=
  for_range Ap.[k] Ap.[k + 1]
    (fun search_ind a_kj => if Aj.[search_ind] =? j then Ax.[search_ind] else a_kj)
    s_zero.

(** "Calculate sum for inner denominator": [(inner_denominator,
    inner_denom_added_to)]. *)
Definition inner_denominator (Ap Aj : list Z) (Ax : list T) (Sp Sj : list Z)
    (splitting : list Z) (i k : Z) (a_kj : T) : T * Z :=
  for_range Sp.[i] Sp.[i + 1]
    (fun ll (st : T * Z) =>
       if (splitting.[Sj.[ll]] =? C_NODE) && negb (Sj.[ll] =? i) then
         let l := Sj.[ll] in
         for_range Ap.[k] Ap.[k + 1]
           (fun search_ind '((inner, added) : T * Z) =>
              if (Aj.[search_ind] =? l)
                 && s_gtb (s_mul a_kj Ax.[search_ind]) s_zero
              then (s_add inner Ax.[search_ind], 1)
              else (inner, added))
           st
       else st)
    (s_zero, 0).

(** "Sum over strongly connected fine points": the body of the loop over
    [kk], on the numerator and the messages printed so far. *)
Definition standard_numerator_step (Ap Aj : list Z) (Ax : list T)
    (Sp Sj : list Z) (Sx : list T) (splitting : list Z) (i j kk : Z)
    (st : T * list diagnostic) : T * list diagnostic :=
  let '(numerator, log) := st in
  if (splitting.[Sj.[kk]] =? F_NODE) && negb (Sj.[kk] =? i) then
    let k := Sj.[kk] in
    let a_kj := find_entry Ap Aj Ax k j in
    if negb (s_eqb a_kj s_zero) then
      let '(inner, added) := inner_denominator Ap Aj Ax Sp Sj splitting i k a_kj in
      let log := if s_eqb inner s_zero && (added =? 0)
                 then log ++ [Inner_denominator_no_connection] else log in
      let log := if s_eqb inner s_zero && negb (added =? 0)
                 then log ++ [Inner_denominator_cancelled] else log in
      (s_add numerator (s_div (s_mul Sx.[kk] a_kj) inner), log)
    else (numerator, log)
  else (numerator, log).

(** "Set entries in P": the body of the loop over [jj]. *)
Definition standard_fill_entry (Ap Aj : list Z) (Ax : list T)
    (Sp Sj : list Z) (Sx : list T) (splitting : list Z) (i : Z) (denominator : T)
    (jj : Z) (st : Z * list Z * list T * list diagnostic)
    : Z * list Z * list T * list diagnostic :=
  let '(nnz, Bj, Bx, log) := st in
  if (splitting.[Sj.[jj]] =? C_NODE) && negb (Sj.[jj] =? i) then
    let Bj := Bj.[nnz <- Sj.[jj]] in
    let j := Sj.[jj] in
    let '(numerator, log) :=
      for_range Sp.[i] Sp.[i + 1]
        (standard_numerator_step Ap Aj Ax Sp Sj Sx splitting i j)
        (Sx.[jj], log) in
    let log := if s_eqb denominator s_zero
               then log ++ [Outer_denominator_zero] else log in
    let Bx := Bx.[nnz <- s_div (s_opp numerator) denominator] in
    (nnz + 1, Bj, Bx, log)
  else (nnz, Bj, Bx, log).

Definition standard_row (Ap Aj : list Z) (Ax : list T) (Sp Sj : list Z)
    (Sx : list T) (splitting Bp : list Z) (i : Z)
    (B : list Z * list T * list diagnostic) : list Z * list T * list diagnostic :=
  let '(Bj, Bx, log) := B in
  if splitting.[i] =? C_NODE then (Bj.[Bp.[i] <- i], Bx.[Bp.[i] <- s_one], log)
  else
    let denominator := standard_denominator Ap Ax Sp Sj Sx i in
    let '(_, Bj, Bx, log) :=
      for_range Sp.[i] Sp.[i + 1]
        (standard_fill_entry Ap Aj Ax Sp Sj Sx splitting i denominator)
        (Bp.[i], Bj, Bx, log) in
    (Bj, Bx, log).

(** Returns [Bj], [Bx] and the messages printed, in order. *)
Definition rs_standard_interpolation_pass2 (n_nodes : Z)
    (Ap Aj : list Z) (Ax : list T) (Sp Sj : list Z) (Sx : list T)
    (splitting Bp Bj : list Z) (Bx : list T)
    : list Z * list T * list diagnostic :=
  let '(Bj, Bx, log) :=
    for_range 0 n_nodes (standard_row Ap Aj Ax Sp Sj Sx splitting Bp)
      (Bj, Bx, []) in
  (remap_columns n_nodes splitting Bp Bj, Bx, log).

End StandardInterpolation.


(** ** Compatible relaxation helper *)

Module CR.
Section Kernel.
Context {T : Type} `{Scalar T} `{Inhabited T}.

(** Steps 3.1d, 3.1e: [e[pt] = |e[pt] / B[pt]|] over the F-points and the
    largest of them. *)
Definition scale_error (B : list T) (indices : list Z) (e : list T) : list T * T :=
  for_range 1 (indices.[0] + 1)
    (fun i '(e, inf_norm) =>
       let pt := indices.[i] in
       let e := e.[pt <- mynorm (s_div e.[pt] B.[pt])] in
       (e, if s_gtb e.[pt] inf_norm then e.[pt] else inf_norm))
    (e, s_zero).

(** The candidate set measure and the candidates [Uindex]. *)
Definition candidates (e : list T) (inf_norm thetacs : T) (indices : list Z)
    (gamma : list T) : list T * list Z :=
  for_range 1 (indices.[0] + 1)
    (fun i '(gamma, Uindex) =>
       let pt := indices.[i] in
       let gamma := gamma.[pt <- s_div e.[pt] inf_norm] in
       (gamma, if s_gtb gamma.[pt] thetacs then Uindex ++ [pt] else Uindex))
    (gamma, []).

(** Step 3.1f: [omega_i = |N_i \ C| + gamma_i]. *)
Definition initial_omega (n : Z) (A_rowptr A_colinds : list Z) (splitting : list Z)
    (gamma : list T) (Uindex : list Z) : list T :=
  for_range 0 (Z.of_nat (length Uindex))
    (fun i omega =>
       let pt := Uindex.[i] in
       let num_neighbors :=
         for_range A_rowptr.[pt] A_rowptr.[pt + 1]
           (fun j num =>
              if splitting.[A_colinds.[j]] =? 0 then num + 1 else num) 0 in
       omega.[pt <- s_add (s_of_Z num_neighbors) gamma.[pt]])
    (filled n s_zero).

(** "1. Add point i in U with maximal weight to C": the scan for it. *)
Definition heaviest (Uindex : list Z) (omega : list T) : T * Z :=
  for_range 0 (Z.of_nat (length Uindex))
    (fun i '(max_weight, new_pt) =>
       let pt := Uindex.[i] in
       if s_gtb omega.[pt] max_weight then (omega.[pt], pt)
       else (max_weight, new_pt))
    (s_zero, -1).

(** Steps 2 and 3 for the new C-point. *)
Definition remove_neighbours (A_rowptr A_colinds : list Z) (new_pt : Z)
    (omega : list T) : list Z * list T :=
  for_range A_rowptr.[new_pt] A_rowptr.[new_pt + 1]
    (fun i '(neighbors, omega) =>
       let temp := A_colinds.[i] in
       (neighbors ++ [temp], omega.[temp <- s_zero]))
    ([], omega).

Definition raise_second_neighbours (A_rowptr A_colinds : list Z)
    (neighbors : list Z) (omega : list T) : list T :=
  for_range 0 (Z.of_nat (length neighbors))
    (fun i omega =>
       let pt := neighbors.[i] in
       for_range A_rowptr.[pt] A_rowptr.[pt + 1]
         (fun j omega =>
            let temp := A_colinds.[j] in
            if negb (s_eqb omega.[temp] s_zero)
            then omega.[temp <- s_add omega.[temp] s_one]
            else omega)
         omega)
    omega.

(** [while (true)], run for at most [fuel] iterations; the state is
    [(splitting, gamma, omega)]. *)
Fixpoint independent_set (fuel : nat) (A_rowptr A_colinds Uindex : list Z)
    (st : list Z * list T * list T) : option (list Z * list T * list T) :=
  let '(splitting, gamma, omega) := st in
  let '(_, new_pt) := heaviest Uindex omega in
  if new_pt <? 0 then Some st
  else
    match fuel with
    | O => None
    | S fuel' =>
        let splitting := splitting.[new_pt <- 1] in
        let gamma := gamma.[new_pt <- s_zero] in
        let '(neighbors, omega) :=
          remove_neighbours A_rowptr A_colinds new_pt omega in
        let omega := raise_second_neighbours A_rowptr A_colinds neighbors omega in
        independent_set fuel' A_rowptr A_colinds Uindex (splitting, gamma, omega)
    end.

(** "Reorder indices array": [num_Fpts] is a reference to [indices[0]]. *)
Definition reorder_step (splitting : list Z) (i : Z) (st : list Z * Z * Z)
    : list Z * Z * Z :=
  let '(indices, next_Find, next_Cind) := st in
  if splitting.[i] =? 0 then
    let indices := indices.[next_Find <- i] in
    (indices.[0 <- indices.[0] + 1], next_Find + 1, next_Cind)
  else
    (indices.[next_Cind <- i], next_Find, next_Cind - 1).

Definition reorder_indices (n : Z) (splitting indices : list Z) : list Z :=
  let indices := indices.[0 <- 0] in
  let '(indices, _, _) :=
    for_range 0 n (reorder_step splitting) (indices, 1, n) in
  indices.

(** The outputs of [cr_helper]. *)
Record result := {
  r_e : list T;
  r_indices : list Z;
  r_splitting : list Z;
  r_gamma : list T;
  r_cost : list T;
}.

Definition cr_helper (fuel : nat) (A_rowptr A_colinds : list Z) (B e : list T)
    (indices splitting : list Z) (gamma : list T) (thetacs : T) (cost : list T)
    : option result :=
  let Annz := s_of_Z (Z.of_nat (length A_colinds)) in
  let n := Z.of_nat (length splitting) in
  let '(e, inf_norm) := scale_error B indices e in
  let cost := cost.[0 <- s_add cost.[0] (s_div (s_of_Z indices.[0]) Annz)] in
  let '(gamma, Uindex) := candidates e inf_norm thetacs indices gamma in
  let cost := cost.[0 <- s_add cost.[0] (s_div (s_of_Z indices.[0]) Annz)] in
  let omega := initial_omega n A_rowptr A_colinds splitting gamma Uindex in
  match independent_set fuel A_rowptr A_colinds Uindex (splitting, gamma, omega) with
  | None => None
  | Some (splitting, gamma, _) =>
      Some {| r_e := e;
              r_indices := reorder_indices n splitting indices;
              r_splitting := splitting;
              r_gamma := gamma;
              r_cost := cost |}
  end.

End Kernel.
Arguments result : clear implicits.
End CR.


(** ** Approximate ideal restriction *)

Module AIR.
Section Kernel.
Context {T : Type} `{Scalar T} `{Inhabited T}.

(** [std::sort(first, last, sort_2nd())]: some rearrangement of the pairs
    into ascending order of their second components; the order it leaves
    equal elements in is unspecified, so the sort is a parameter. *)
Variable std_sort : list (Z * T) -> list (Z * T).

(** [least_squares(A0, b0, x, m, n, is_col_major)] of linalg.h: the vector
    it stores at [x[0 .. n)]. *)
Variable least_squares : list T -> list T -> Z -> Z -> bool -> list T.

(** The test [(splitting[C_colinds[i]] == F_NODE) && (std::abs(C_data[i]) > 1e-16)]. *)
Definition strong_F_entry (C_colinds : list Z) (C_data : list T)
    (splitting : list Z) (i : Z) : bool :=
  (splitting.[C_colinds.[i]] =? F_NODE)
  && s_gtb (mynorm C_data.[i]) literal_1em16.

(** "Store strength values and indices": the pairs (position, value). *)
Definition neighborhood (C_rowptr C_colinds : list Z) (C_data : list T)
    (splitting : list Z) (cpoint : Z) : list (Z * T) :=
  for_range C_rowptr.[cpoint] C_rowptr.[cpoint + 1]
    (fun i nb =>
       if strong_F_entry C_colinds C_data splitting i
       then nb ++ [(i, C_data.[i])]
       else nb)
    [].

(** [if (size > max_row) { sort; zero the entries from max_row on }] *)
Definition truncate_row (max_row : Z) (nb : list (Z * T)) (C_data : list T)
    : list T :=
  let size := Z.of_nat (length nb) in
  if size >? max_row then
    let nb := std_sort nb in
    for_range max_row size (fun i C_data => C_data.[fst nb.[i] <- s_zero]) C_data
  else C_data.

Definition pass1_row (C_rowptr C_colinds Cpts splitting : list Z) (max_row : Z)
    (row : Z) (st : Z * list Z * list T) : Z * list Z * list T :=
  let '(nnz, rowptr, C_data) := st in
  let cpoint := Cpts.[row] in
  let nb := neighborhood C_rowptr C_colinds C_data splitting cpoint in
  let size := Z.of_nat (length nb) in
  let C_data := truncate_row max_row nb C_data in
  let nnz := nnz + (1 + Z.min size max_row) in
  (nnz, rowptr.[row + 1 <- nnz], C_data).

(** Returns [rowptr] and the mutated [C_data]. *)
Definition approx_ideal_restriction_pass1 (rowptr C_rowptr C_colinds : list Z)
    (C_data : list T) (Cpts splitting : list Z) (max_row : Z)
    : list Z * list T :=
  let '(_, rowptr, C_data) :=
    for_range 0 (Z.of_nat (length Cpts))
      (pass1_row C_rowptr C_colinds Cpts splitting max_row)
      (0, rowptr.[0 <- 0], C_data) in
  (rowptr, C_data).

(** "Set column indices for R as strongly connected F-points." *)
Definition fill_colinds (C_rowptr C_colinds : list Z) (C_data : list T)
    (splitting : list Z) (cpoint ind : Z) (colinds : list Z) : Z * list Z :=
  for_range C_rowptr.[cpoint] C_rowptr.[cpoint + 1]
    (fun i '(ind, colinds) =>
       if strong_F_entry C_colinds C_data splitting i
       then (ind + 1, colinds.[ind <- C_colinds.[i]])
       else (ind, colinds))
    (ind, colinds).

(** "Search for indice in row of A": the entry of row [r] of A in column
    [col], the first one found ([break]), or 0. *)
Definition search_row (A_rowptr A_colinds : list Z) (A_data : list T) (r col : Z)
    : T :=
  snd (for_range A_rowptr.[r] A_rowptr.[r + 1]
         (fun k '((found_ind, v) : bool * T) =>
            if found_ind then (found_ind, v)
            else if col =? A_colinds.[k] then (true, A_data.[k])
            else (false, v))
         (false, s_zero)).

(** The local system [A0] (column major) and right-hand side [b0]. *)
Definition local_matrix (A_rowptr A_colinds : list Z) (A_data : list T)
    (colinds : list Z) (lo ind : Z) : list T :=
  let size_N := ind - lo in
  snd (for_range lo ind
         (fun j (st : Z * list T) =>
            let this_ind := colinds.[j] in
            for_range lo ind
              (fun i '(temp_A, A0) =>
                 (temp_A + 1,
                  A0.[temp_A <- search_row A_rowptr A_colinds A_data this_ind colinds.[i]]))
              st)
         (0, filled (size_N * size_N) s_zero)).

Definition local_rhs (A_rowptr A_colinds : list Z) (A_data : list T)
    (colinds : list Z) (cpoint lo ind : Z) : list T :=
  snd (for_range lo ind
         (fun i '(temp_b, b0) =>
            (temp_b + 1,
             b0.[temp_b <- search_row A_rowptr A_colinds A_data cpoint colinds.[i]]))
         (0, filled (ind - lo) s_zero)).

(** The solver writes its [n] results at [&data[off]]. *)
Definition store_solution (off n : Z) (x data : list T) : list T :=
  for_range 0 n (fun t data => data.[off + t <- x.[t]]) data.

Definition pass2_row (rowptr A_rowptr A_colinds : list Z) (A_data : list T)
    (C_rowptr C_colinds : list Z) (C_data : list T) (Cpts splitting : list Z)
    (row : Z) (st : list Z * list T) : list Z * list T :=
  let '(colinds, data) := st in
  let cpoint := Cpts.[row] in
  let '(ind, colinds) :=
    fill_colinds C_rowptr C_colinds C_data splitting cpoint rowptr.[row] colinds in
  let is_col_major := true in
  let size_N := ind - rowptr.[row] in
  let A0 := local_matrix A_rowptr A_colinds A_data colinds rowptr.[row] ind in
  let b0 := local_rhs A_rowptr A_colinds A_data colinds cpoint rowptr.[row] ind in
  let data :=
    store_solution rowptr.[row] size_N
      (least_squares A0 b0 size_N size_N is_col_major) data in
  (* Add identity for C-point in this row *)
  (colinds.[ind <- cpoint], data.[ind <- s_one]).

Definition approx_ideal_restriction_pass2 (rowptr colinds : list Z) (data : list T)
    (A_rowptr A_colinds : list Z) (A_data : list T)
    (C_rowptr C_colinds : list Z) (C_data : list T) (Cpts splitting : list Z)
    : list Z * list T :=
  for_range 0 (Z.of_nat (length Cpts))
    (pass2_row rowptr A_rowptr A_colinds A_data C_rowptr C_colinds C_data
       Cpts splitting)
    (colinds, data).

End Kernel.
End AIR.

(** An insertion sort by the second component: one admissible [std::sort]. *)
Fixpoint insert_by_second {T} `{Scalar T} (p : Z * T) (l : list (Z * T))
    : list (Z * T) :=
  match l with
  | [] => [p]
  | q :: r => if s_ltb (snd q) (snd p) then q :: insert_by_second p r else p :: l
  end.

Definition insertion_sort {T} `{Scalar T} (l : list (Z * T)) : list (Z * T) :=
  fold_right insert_by_second [] l.

(** The exact solve of a 1 x 1 or empty system: a stand-in for
    [least_squares] on the examples that need no more. *)
Definition least_squares_1x1 {T} `{Scalar T} `{Inhabited T}
    (A0 b0 : list T) (m n : Z) (is_col_major : bool) : list T :=
  if n =? 1 then [s_div b0.[0] A0.[0]] else [].


(** The test [ind != (rowptr[row+1]-1)] of [approx_ideal_restriction_pass2]
    in [row], on which it prints
    "Error: Row pointer does not agree with neighborhood size.";
    [ind] is where the loop that sets the column indices of the row ends. *)
Definition row_pointer_disagrees {T} `{Scalar T} `{Inhabited T}
    (rowptr C_rowptr C_colinds : list Z) (C_data : list T)
    (Cpts splitting colinds : list Z) (row : Z) : bool :=
  let cpoint := Cpts.[row] in
  let ind := fst (AIR.fill_colinds C_rowptr C_colinds C_data splitting cpoint
                    rowptr.[row] colinds) in
  negb (ind =? rowptr.[row + 1] - 1).

(** * Vocabulary of the statements *)

(** The number of indices of [[lo, hi)] that pass the test [p]. *)
Definition count_in_range (p : Z -> bool) (lo hi : Z) : Z :=
  for_range lo hi (fun jj c => if p jj then c + 1 else c) 0.

(** The number of entries row [i] of P gets: what pass 1 adds to [nnz]. *)
Definition interpolation_row_nnz (Sp Sj splitting : list Z) (i : Z) : Z :=
  if splitting.[i] =? C_NODE then 1
  else count_in_range (strong_C_entry Sj splitting i) Sp.[i] Sp.[i + 1].

(** The weight the last inner loop of [rs_direct_interpolation_pass2] stores
    for the entry [jj] of row [i] of S. *)
Definition direct_weight {T} `{Scalar T} `{Inhabited T}
    (Ap Aj : list Z) (Ax : list T) (Sp Sj : list Z) (Sx : list T)
    (splitting : list Z) (i jj : Z) : T :=
  let '(neg_coeff, pos_coeff) :=
    direct_coefficients Ap Aj Ax Sp Sj Sx splitting i in
  if s_ltb Sx.[jj] s_zero then s_mul neg_coeff Sx.[jj]
  else s_mul pos_coeff Sx.[jj].


(** The nodes below [k] that carry the label [v], in ascending order. *)
Definition nodes_labelled (splitting : list Z) (v k : Z) : list Z :=
  filter (fun i => splitting.[i] = v) (seqZ 0 k).

(** A C/F splitting: every label is 0 or 1. *)
Definition cf_labels (splitting : list Z) : Prop :=
  Forall (fun l => l = 0 \/ l = 1) splitting.

(** The number of nodes below [n] that carry the label [v]. *)
Definition count_label (v n : Z) (splitting : list Z) : Z :=
  count_in_range (fun i => splitting.[i] =? v) 0 n.

(** A well-formed CSR graph on [n] nodes: every row is a range of
    positions of [Xj], and every column index is a node. *)
Record csr_ok (n : Z) (Xp Xj : list Z) : Prop := {
  csr_rows : forall i, 0 <= i < n ->
    0 <= Xp.[i] <= Xp.[i + 1] /\ Xp.[i + 1] <= Z.of_nat (length Xj);
  csr_cols : forall jj, 0 <= jj < Z.of_nat (length Xj) -> 0 <= Xj.[jj] < n;
}.

(** What holds of the state of [cljp_naive_splitting] between the passes of
    its selection loop: the arrays have [n] entries, every label is F, C or
    U, and [unassigned] is the number of U nodes. *)
Definition cljp_inv {T} (n : Z) (st : CLJP.state T) : Prop :=
  Z.of_nat (length (CLJP.splitting st)) = n
  /\ Z.of_nat (length (CLJP.D st)) = n
  /\ Z.of_nat (length (CLJP.Dlist st)) = n
  /\ (forall i, 0 <= i < n ->
        (CLJP.splitting st).[i] = F_NODE \/ (CLJP.splitting st).[i] = C_NODE
        \/ (CLJP.splitting st).[i] = U_NODE)
  /\ CLJP.unassigned st = count_label U_NODE n (CLJP.splitting st).

(** Labels only ever change from U to C or F. *)
Definition labels_settle (s s' : list Z) : Prop :=
  forall i, s'.[i] = s.[i]
            \/ (s.[i] = U_NODE /\ (s'.[i] = C_NODE \/ s'.[i] = F_NODE)).

(** The test of "SELECT INDEPENDENT SET" on node [i]: a U node none of whose
    U neighbours, in its row of S or of T, has a greater weight. *)
Definition cljp_selectable {T} `{Scalar T} `{Inhabited T}
    (Sp Sj Tp Tj : list Z) (st : CLJP.state T) (i : Z) : bool :=
  ((CLJP.splitting st).[i] =? U_NODE)
  && negb (CLJP.heavier_neighbour Sp Sj i st)
  && negb (CLJP.heavier_neighbour Tp Tj i st).

(** The comparison [<] of the scalar type is a strict partial order (as
    it is on the rationals, and on IEEE doubles, NaN included). *)
Definition ltb_strict_order (T : Type) `{Scalar T} : Prop :=
  (forall a : T, s_ltb a a = false)
  /\ (forall a b c : T, s_ltb a b = true -> s_ltb b c = true -> s_ltb a c = true).

(** [Cpts] lists [n_c] distinct nodes of a graph on [n] nodes. *)
Definition cpts_ok (n : Z) (Cpts : list Z) : Prop :=
  (forall r, 0 <= r < Z.of_nat (length Cpts) -> 0 <= Cpts.[r] < n)
  /\ (forall r r', 0 <= r < r' -> r' < Z.of_nat (length Cpts) ->
        Cpts.[r] <> Cpts.[r']).

(** The number of entries of the row of [cpoint] in C that pass the test of
    the strongly connected F-neighbourhood. *)
Definition strong_F_count {T} `{Scalar T} `{Inhabited T}
    (C_rowptr C_colinds : list Z) (C_data : list T) (splitting : list Z)
    (cpoint : Z) : Z :=
  count_in_range (AIR.strong_F_entry C_colinds C_data splitting)
    C_rowptr.[cpoint] C_rowptr.[cpoint + 1].

(** The bucket table of [rs_cf_splitting], seen through the priority
    [lam p] of the node at each position [p]: every position up to [top]
    lies in the interval of its priority, a non-empty interval lies in
    [[0, top]] and holds that priority only, and the non-empty intervals
    come in the order of their priorities. *)
Record buckets_ok (top : Z) (lam : Z -> Z) (ptr cnt : list Z) : Prop := {
  bk_len : length ptr = length cnt;
  bk_lam : forall p : Z, 0 <= p <= top -> 0 <= lam p < Z.of_nat (length cnt);
  bk_pos : forall p : Z, 0 <= p <= top ->
    ptr.[lam p] <= p < ptr.[lam p] + cnt.[lam p];
  bk_cnt : forall l, 0 <= l < Z.of_nat (length cnt) -> 0 <= cnt.[l];
  bk_int : forall l, 0 <= l < Z.of_nat (length cnt) -> 0 < cnt.[l] ->
    0 <= ptr.[l] /\ ptr.[l] + cnt.[l] <= top + 1
    /\ forall p : Z, ptr.[l] <= p < ptr.[l] + cnt.[l] -> lam p = l;
  bk_ord : forall l l', 0 <= l < l' -> l' < Z.of_nat (length cnt) ->
    0 < cnt.[l] -> 0 < cnt.[l'] -> ptr.[l] + cnt.[l] <= ptr.[l'];
}.

(** [index_to_node] and [node_to_index] are permutations of the [n] nodes,
    each the inverse of the other. *)
Definition perm_ok (n : Z) (index_to_node node_to_index : list Z) : Prop :=
  Z.of_nat (length index_to_node) = n
  /\ Z.of_nat (length node_to_index) = n
  /\ (forall pos : Z, 0 <= pos < n ->
        0 <= index_to_node.[pos] < n
        /\ node_to_index.[index_to_node.[pos]] = pos)
  /\ (forall v : Z, 0 <= v < n ->
        0 <= node_to_index.[v] < n
        /\ index_to_node.[node_to_index.[v]] = v).

(** The priority of the node at position [pos]. *)
Definition lambda_at (st : RS.state) (pos : Z) : Z :=
  (RS.lambda st).[(RS.index_to_node st).[pos]].

(** What holds of the state of [rs_cf_splitting] when the positions above
    [top] have been processed: the permutation and its inverse agree, the
    bucket table describes the positions up to [top], and every U node sits
    at one of them. *)
Definition rs_inv (n top : Z) (st : RS.state) : Prop :=
  -1 <= top < n
  /\ Z.of_nat (length (RS.lambda st)) = n
  /\ Z.of_nat (length (RS.splitting st)) = n
  /\ perm_ok n (RS.index_to_node st) (RS.node_to_index st)
  /\ n + 1 <= Z.of_nat (length (RS.interval_count st))
  /\ buckets_ok top (lambda_at st) (RS.interval_ptr st) (RS.interval_count st)
  /\ (forall v : Z, 0 <= v < n -> (RS.splitting st).[v] = U_NODE ->
        (RS.node_to_index st).[v] <= top).

(** Every label is F, C or U. *)
Definition no_pre_f (n : Z) (splitting : list Z) : Prop :=
  forall v : Z, 0 <= v < n ->
    splitting.[v] = F_NODE \/ splitting.[v] = C_NODE \/ splitting.[v] = U_NODE.

(** Every label is F, C or U, except that an entry of the positions
    [lo, hi) of [Tj] may be PRE_F. *)
Definition pre_f_within (n : Z) (Tj : list Z) (lo hi : Z) (splitting : list Z)
    : Prop :=
  forall v : Z, 0 <= v < n ->
    splitting.[v] = F_NODE \/ splitting.[v] = C_NODE \/ splitting.[v] = U_NODE
    \/ (splitting.[v] = PRE_F_NODE /\ exists jj, lo <= jj < hi /\ Tj.[jj] = v).

(** The number of nodes of priority less than [l], and the number of nodes
    before [i] of priority [l]. *)
Definition nodes_below (lambda : list Z) (n l : Z) : Z :=
  count_in_range (fun v => lambda.[v] <? l) 0 n.

Definition equal_before (lambda : list Z) (l i : Z) : Z :=
  count_in_range (fun v => lambda.[v] =? l) 0 i.

(** The position the counting sort gives node [v]. *)
Definition sorted_pos (lambda : list Z) (n v : Z) : Z :=
  nodes_below lambda n lambda.[v] + equal_before lambda lambda.[v] v.

(** The entries stored at the positions [lo, hi) of a CSR matrix, as
    (column, value) pairs in the order of storage. *)
Definition row_entries {T} `{Inhabited T} (Xj : list Z) (Xx : list T) (lo hi : Z)
    : list (Z * T) :=
  (fun k => (Xj.[k], Xx.[k])) <$> seqZ lo (hi - lo).

(** The positions of [lo, hi) that pass the test [p], ascending. *)
Definition selected (p : Z -> bool) (lo hi : Z) : list Z :=
  filter (fun k => p k = true) (seqZ lo (hi - lo)).

(** The outcome of the two tests of the second inner loop of
    [classical_strength_of_connection] on the entry at [jj] of row [i]: the
    entry is stored when it is on the diagonal or its magnitude is not below
    the threshold of the row. *)
Definition strength_keeps {T} `{Scalar T} `{Inhabited T} (theta : T)
    (Ap Aj : list Z) (Ax : list T) (i jj : Z) : bool :=
  (Aj.[jj] =? i)
  || s_geb (mynorm Ax.[jj])
       (s_mul theta (max_offdiagonal_of_row Aj Ax i Ap.[i] Ap.[i + 1])).

(** [M] is the largest of [seed] and the values [f jj] at the positions of
    [lo, hi) that pass [q]: what a running maximum started at [seed] ends
    with. *)
Definition seeded_max_of (seed : Q) (q : Z -> bool) (f : Z -> Q) (lo hi : Z)
    (M : Q) : Prop :=
  (seed <= M)%Q
  /\ (forall jj, lo <= jj < hi -> q jj = true -> (f jj <= M)%Q)
  /\ ((M == seed)%Q \/ exists jj, lo <= jj < hi /\ q jj = true /\ (f jj == M)%Q).

(** The running sum [sum += splitting[i]] of the labels below [v]: the
    coarse index [map[v]] of pass 2. *)
Definition labels_sum (splitting : list Z) (v : Z) : Z :=
  for_range 0 v (fun u acc => acc + splitting.[u]) 0.

(** The numerator of the standard interpolation weight of the entry [jj] of
    row [i] of S: what the loop over the strong F-neighbours of [i] leaves. *)
Definition standard_numerator {T} `{Scalar T} `{Inhabited T}
    (Ap Aj : list Z) (Ax : list T) (Sp Sj : list Z) (Sx : list T)
    (splitting : list Z) (i jj : Z) : T :=
  fst (for_range Sp.[i] Sp.[i + 1]
         (standard_numerator_step Ap Aj Ax Sp Sj Sx splitting i Sj.[jj])
         (Sx.[jj], [])).

(** The nodes [rs_cf_splitting] labels F before its main loop: those of
    priority 0, and those of priority 1 whose row of T starts with the node
    itself ("all nodes with no neighbors become F nodes"). *)
Definition rs_isolated (Tp Tj influence : list Z) (v : Z) : Prop :=
  let lambda_v := Tp.[v + 1] - Tp.[v] + influence.[v] in
  lambda_v = 0 \/ (lambda_v = 1 /\ Tj.[Tp.[v]] = v).

(** Node [v] lies in the row of T of a C node [c]: when T is the transpose
    of S, [v] depends strongly on [c]. *)
Definition has_C_parent (n : Z) (Tp Tj splitting : list Z) (v : Z) : Prop :=
  exists c jj, 0 <= c < n /\ splitting.[c] = C_NODE
               /\ Tp.[c] <= jj < Tp.[c + 1] /\ Tj.[jj] = v.

(** Every F node was isolated from the start or has a C parent. *)
Definition F_nodes_covered (n : Z) (Tp Tj influence splitting : list Z) : Prop :=
  forall v, 0 <= v < n -> splitting.[v] = F_NODE ->
    rs_isolated Tp Tj influence v \/ has_C_parent n Tp Tj splitting v.

(** Node [j] is a column of the row of node [i] in the graph X. *)
Definition in_row (Xp Xj : list Z) (i j : Z) : Prop :=
  exists jj, Xp.[i] <= jj < Xp.[i + 1] /\ Xj.[jj] = j.

(** Node [v] is a coarse grid candidate of [cr_helper]: one of the F-points
    listed in [indices] whose candidate set measure, its scaled error over
    the largest scaled error, is above [thetacs]. *)
Definition cr_candidate {T} `{Scalar T} `{Inhabited T} (B e : list T)
    (indices : list Z) (thetacs : T) (v : Z) : Prop :=
  (exists i, 1 <= i <= indices.[0] /\ indices.[i] = v)
  /\ s_gtb (s_div (fst (CR.scale_error B indices e)).[v]
                  (snd (CR.scale_error B indices e))) thetacs = true.

(** What [std::sort] with the comparison [sort_2nd] guarantees of its
    result: a rearrangement of the pairs in which no pair has a second
    component below that of a pair before it. *)
Definition sorts_by_second {T} `{Scalar T} `{Inhabited T}
    (std_sort : list (Z * T) -> list (Z * T)) : Prop :=
  forall l,
    Permutation (std_sort l) l
    /\ forall i j, 0 <= i < j -> j < Z.of_nat (length l) ->
         s_ltb (snd (std_sort l).[j]) (snd (std_sort l).[i]) = false.

(** Position [pos] lies in the row of C of the [r]-th C-point. *)
Definition in_cpoint_row (C_rowptr Cpts : list Z) (r pos : Z) : Prop :=
  C_rowptr.[Cpts.[r]] <= pos < C_rowptr.[Cpts.[r] + 1].

(** * Properties *)

(** ** Arrays and loops *)

Section Arrays.
Context {A : Type} `{Inhabited A}.
Implicit Types (a : list A) (i j : Z) (v : A).

Lemma length_set a i v : length (a.[i <- v]) = length a.
Proof. unfold set. destruct (0 <=? i); [apply length_insert | reflexivity]. Qed.

Lemma get_set_eq a i v :
  0 <= i < Z.of_nat (length a) -> (a.[i <- v]).[i] = v.
Proof.
  intros Hi. unfold set, get.
  destruct (Z.leb_spec 0 i); [| lia].
  apply list_lookup_total_insert_eq. lia.
Qed.

Lemma get_set_ne a i j v : i <> j -> (a.[i <- v]).[j] = a.[j].
Proof.
  intros Hne. unfold set, get.
  destruct (Z.leb_spec 0 i); [| reflexivity].
  destruct (Z.leb_spec 0 j); [| reflexivity].
  apply list_lookup_total_insert_ne. lia.
Qed.

Lemma get_set a i j v :
  0 <= i < Z.of_nat (length a) ->
  (a.[i <- v]).[j] = if i =? j then v else a.[j].
Proof.
  intros Hi. destruct (Z.eqb_spec i j) as [->|Hne].
  - apply get_set_eq; lia.
  - apply get_set_ne; assumption.
Qed.

Lemma get_out_of_range a i :
  i < 0 \/ Z.of_nat (length a) <= i -> a.[i] = inhabitant.
Proof.
  intros Hi. unfold get. destruct (Z.leb_spec 0 i); [| reflexivity].
  rewrite list_lookup_total_alt, lookup_ge_None_2 by lia. reflexivity.
Qed.

Lemma set_out_of_range a i v : Z.of_nat (length a) <= i -> a.[i <- v] = a.
Proof.
  intros Hi. unfold set. destruct (0 <=? i); [| reflexivity].
  apply list_insert_ge. lia.
Qed.

Lemma get_lookup a i :
  0 <= i < Z.of_nat (length a) -> a !! Z.to_nat i = Some a.[i].
Proof.
  intros Hi. unfold get. destruct (Z.leb_spec 0 i); [| lia].
  apply list_lookup_lookup_total_lt. lia.
Qed.

Lemma get_elem_of a i : 0 <= i < Z.of_nat (length a) -> a.[i] ∈ a.
Proof. intros Hi. apply list_elem_of_lookup. eexists. apply get_lookup, Hi. Qed.

Lemma length_filled n v : length (filled n v) = Z.to_nat n.
Proof. apply length_replicate. Qed.

Lemma get_filled n i v : 0 <= i < n -> (filled n v).[i] = v.
Proof.
  intros Hi. unfold get, filled. destruct (Z.leb_spec 0 i); [| lia].
  apply lookup_total_replicate_2. lia.
Qed.

Lemma get_app_l a b i :
  0 <= i < Z.of_nat (length a) -> (a ++ b).[i] = a.[i].
Proof.
  intros Hi. unfold get. destruct (0 <=? i); [| reflexivity].
  apply lookup_total_app_l. lia.
Qed.

Lemma get_snoc a v : (a ++ [v]).[Z.of_nat (length a)] = v.
Proof.
  unfold get. destruct (Z.leb_spec 0 (Z.of_nat (length a))); [| lia].
  rewrite Nat2Z.id, lookup_total_app_r by lia.
  rewrite Nat.sub_diag. reflexivity.
Qed.

Lemma array_ext a b :
  length a = length b ->
  (forall i, 0 <= i < Z.of_nat (length a) -> a.[i] = b.[i]) -> a = b.
Proof.
  intros Hlen Hget. apply list_eq_same_length with (length a); [congruence | reflexivity |].
  intros k x y Hk Hx Hy.
  specialize (Hget (Z.of_nat k) ltac:(lia)). unfold get in Hget.
  destruct (Z.leb_spec 0 (Z.of_nat k)); [| lia].
  rewrite Nat2Z.id in Hget.
  apply list_lookup_total_correct in Hx, Hy. congruence.
Qed.

End Arrays.

Section Loops.
Context {St : Type}.
Implicit Types (body : Z -> St -> St) (st : St).

Lemma for_range_empty lo hi body st : hi <= lo -> for_range lo hi body st = st.
Proof.
  intros Hle. unfold for_range.
  replace (Z.to_nat (hi - lo)) with 0%nat by lia. reflexivity.
Qed.

Lemma for_range_first lo hi body st :
  lo < hi -> for_range lo hi body st = for_range (lo + 1) hi body (body lo st).
Proof.
  intros Hlt. unfold for_range.
  replace (Z.to_nat (hi - lo)) with (S (Z.to_nat (hi - (lo + 1)))) by lia.
  reflexivity.
Qed.

Lemma for_loop_last k : forall lo body st,
  for_loop (S k) lo body st
  = body (lo + Z.of_nat k) (for_loop k lo body st).
Proof.
  induction k as [|k IH]; intros lo body st.
  - simpl. f_equal. lia.
  - change (for_loop (S (S k)) lo body st)
      with (for_loop (S k) (lo + 1) body (body lo st)).
    rewrite IH. simpl. f_equal. lia.
Qed.

Lemma for_range_last lo hi body st :
  lo <= hi -> for_range lo (hi + 1) body st = body hi (for_range lo hi body st).
Proof.
  intros Hle. unfold for_range.
  replace (Z.to_nat (hi + 1 - lo)) with (S (Z.to_nat (hi - lo))) by lia.
  rewrite for_loop_last. f_equal. lia.
Qed.

(** The invariant rule of a counted loop. *)
Lemma for_range_invariant (P : Z -> St -> Prop) lo hi body st :
  lo <= hi ->
  P lo st ->
  (forall i s, lo <= i < hi -> P i s -> P (i + 1) (body i s)) ->
  P hi (for_range lo hi body st).
Proof.
  intros Hle H0 Hstep.
  assert (Hgen : forall k : nat, lo + Z.of_nat k <= hi ->
            P (lo + Z.of_nat k) (for_range lo (lo + Z.of_nat k) body st)).
  { induction k as [|k IH]; intros Hk.
    - rewrite Z.add_0_r, for_range_empty by lia. exact H0.
    - replace (lo + Z.of_nat (S k)) with (lo + Z.of_nat k + 1) by lia.
      rewrite for_range_last by lia. apply Hstep; [lia |]. apply IH. lia. }
  specialize (Hgen (Z.to_nat (hi - lo))).
  replace (lo + Z.of_nat (Z.to_nat (hi - lo))) with hi in Hgen by lia.
  apply Hgen. lia.
Qed.

(** A property every iteration preserves holds after the loop. *)
Lemma for_range_preserves (P : St -> Prop) lo hi body st :
  P st ->
  (forall i s, lo <= i < hi -> P s -> P (body i s)) ->
  P (for_range lo hi body st).
Proof.
  intros H0 Hstep. destruct (Z.le_gt_cases lo hi).
  - apply (for_range_invariant (fun _ => P)); auto.
  - rewrite for_range_empty by lia. exact H0.
Qed.

Lemma for_range_ext lo hi body body' st :
  (forall i s, lo <= i < hi -> body i s = body' i s) ->
  for_range lo hi body st = for_range lo hi body' st.
Proof.
  intros Hext. destruct (Z.le_gt_cases lo hi).
  - apply (for_range_invariant
             (fun i s => s = for_range lo i body' st)); [assumption | |].
    + rewrite for_range_empty by lia. reflexivity.
    + intros i s Hi ->. rewrite for_range_last by lia. apply Hext, Hi.
  - rewrite !for_range_empty by lia. reflexivity.
Qed.

Lemma for_down_first hi body st :
  0 <= hi -> for_down hi body st = for_down (hi - 1) body (body hi st).
Proof.
  intros Hhi. unfold for_down.
  replace (Z.to_nat (hi + 1)) with (S (Z.to_nat (hi - 1 + 1))) by lia.
  reflexivity.
Qed.

Lemma for_down_done body st : for_down (-1) body st = st.
Proof. reflexivity. Qed.

(** The invariant rule of the descending loop: [P i] holds before the
    iteration at [i], and [P (-1)] on exit. *)
Lemma for_down_invariant (P : Z -> St -> Prop) hi body st :
  -1 <= hi ->
  P hi st ->
  (forall i s, 0 <= i <= hi -> P i s -> P (i - 1) (body i s)) ->
  P (-1) (for_down hi body st).
Proof.
  intros Hhi H0 Hstep.
  assert (Hgen : forall k : nat, forall i s,
            i = Z.of_nat k - 1 -> i <= hi -> P i s -> P (-1) (for_down i body s)).
  { induction k as [|k IH]; intros i s Hi Hle HP.
    - replace i with (-1) by lia. replace i with (-1) in HP by lia. exact HP.
    - rewrite for_down_first by lia. apply IH; [lia | lia |].
      apply Hstep; [lia | exact HP]. }
  apply (Hgen (Z.to_nat (hi + 1))); [lia | lia | exact H0].
Qed.

End Loops.

(** [loop_invariant P]: find the loop in the goal and state that the
    invariant [P] holds of its result, leaving the two premises of the
    invariant rule to prove first. *)
Tactic Notation "loop_invariant" constr(P) "as" ident(Hinv) :=
  match goal with
  | |- context [for_range ?lo ?hi ?body0 ?st0] =>
      assert (Hinv : P hi (for_range lo hi body0 st0));
      [ apply (for_range_invariant P lo hi body0 st0) | cbv beta in Hinv ]
  end.

(** ** Running the strength kernels on binary64 *)

Example maximum_row_value_float_ok :
  maximum_row_value 2 [0; 0]%float [0; 2; 3] [0; 1; 1] [-3; 2; 0.5]%float
  = [3; 0.5]%float.
Proof. vm_compute. reflexivity. Qed.

(** C8 (defect in the code).  [maximum_row_value] seeds the running maximum
    with [numeric_limits<F>::min()], the least positive normalised value, so
    an empty row yields 2^-1022 and not minus infinity, and a row whose only
    entry is 0 yields 2^-1022 and not 0, the magnitude of its largest entry. *)
Theorem maximum_row_value_seed_is_least_positive :
  maximum_row_value 2 [0; 0]%float [0; 0; 1] [1] [0]%float
    = [0x1p-1022; 0x1p-1022]%float
  /\ PrimFloat.ltb neg_infinity 0x1p-1022 = true
  /\ PrimFloat.ltb (mynorm 0%float) 0x1p-1022 = true.
Proof. vm_compute. repeat split; reflexivity. Qed.

(** C1 (defect in the code).  Row 0 of the matrix [[2, 0], [-1, 2]] stores
    its off-diagonal entry 0 explicitly.  The largest off-diagonal magnitude
    of that row is 0, so with theta = 0.5 the entry passes the test
    [mynorm(A[0,1]) >= theta * 0]; the kernel compares against
    [theta * numeric_limits<F>::min()] instead and leaves the entry out:
    row 0 of S holds the diagonal alone. *)
Theorem classical_strength_drops_zero_offdiagonal :
  let S := classical_strength_of_connection 2 0.5%float
             [0; 2; 4] [0; 1; 0; 1] [2; 0; -1; 2]%float
             [0; 0; 0] [0; 0; 0; 0] [0; 0; 0; 0]%float in
  o_p S = [0; 1; 3]
  /\ take 3 (o_j S) = [0; 0; 1]
  /\ take 3 (o_x S) = [2; -1; 2]%float
  /\ s_geb (mynorm 0%float) (s_mul 0.5%float (mynorm 0%float)) = true.
Proof. vm_compute. repeat split; reflexivity. Qed.

(** ** Running the splitters *)

Example rs_cf_splitting_path5 :
  RS.rs_cf_splitting 5 [0; 1; 3; 5; 7; 8] [1; 0; 2; 1; 3; 2; 4; 3]
    [0; 1; 3; 5; 7; 8] [1; 0; 2; 1; 3; 2; 4; 3] [0; 0; 0; 0; 0] [0; 0; 0; 0; 0]
  = [F_NODE; C_NODE; F_NODE; C_NODE; F_NODE].
Proof. vm_compute. reflexivity. Qed.

(** C4 (defect in the code).  S has the entries (1,1), (2,0), (3,2), (3,0),
    (4,2), (5,2) and T is its transpose.  Node 1 (lambda 1, its only entry in
    T itself) is F from the start.  The iteration at [top_index = 5] makes
    node 2 a C-point and lowers node 0 to lambda 1, on top of the bucket that
    holds node 1.  At [top_index = 4] the node on top is node 0, still
    U_NODE; the scan of the bucket does not look at the labels, finds node
    1 > 0 and exchanges the two, and the F-node 1 is made a C-point, while
    the only U node of the bucket, node 0, is passed over. *)
Theorem rs_cf_splitting_promotes_F_node :
  let Sp := [0; 0; 1; 2; 4; 5; 6] in
  let Sj := [1; 0; 2; 0; 2; 2] in
  let Tp := [0; 2; 3; 6; 6; 6; 6] in
  let Tj := [2; 3; 1; 3; 4; 5] in
  let zeros := [0; 0; 0; 0; 0; 0] in
  let st5 := RS.select_step 6 Sp Sj Tp Tj 5 (RS.init 6 Tp Tj zeros zeros) in
  let st4 := RS.select_step 6 Sp Sj Tp Tj 4 st5 in
  (RS.index_to_node st5).[4] = 0
  /\ (RS.splitting st5).[0] = U_NODE
  /\ (RS.splitting st5).[1] = F_NODE
  /\ (RS.lambda st5).[0] = 1 /\ (RS.lambda st5).[1] = 1
  /\ (RS.index_to_node st4).[4] = 1
  /\ (RS.splitting st4).[1] = C_NODE
  /\ (RS.splitting st4).[0] = U_NODE
  /\ RS.rs_cf_splitting 6 Sp Sj Tp Tj zeros zeros
     = [C_NODE; C_NODE; C_NODE; F_NODE; F_NODE; F_NODE].
Proof. vm_compute. repeat split; reflexivity. Qed.

(** C7 (defect in the code).  Two runs in which the set D of one iteration
    holds both ends of an edge.  First: S = {(0,1), (1,0)}, random seeding,
    [rand()] returning the same value for both nodes: both weights are 1.5
    and D = {0, 1}.  Second: S = {(1,0), (2,1)}, seeding by a colouring that
    gives every node colour 0 (no row of S joins two nodes the serial
    independent-set colouring has not yet passed): the weights are 1, 1, 0
    and D = {0, 1}, the two ends of the edge (1,0).  The test [weight[j] >
    weight[i]] lets a node through when a neighbour has the same weight. *)
Theorem cljp_selects_both_ends_of_an_edge :
  let ext := {| CLJP.mis_coloring := [0; 0; 0];
                CLJP.rand_sequence := [5; 5];
                CLJP.RAND_MAX := 10 |} in
  let st1 := CLJP.select_independent_set 2 [0; 1; 2] [1; 0] [0; 1; 2] [1; 0]
               (CLJP.init (T:=float) 2 [0; 1; 2] [1; 0] [0; 0] 0 ext) in
  let st2 := CLJP.select_independent_set 3 [0; 0; 1; 2] [0; 1] [0; 1; 2; 2] [1; 2]
               (CLJP.init (T:=float) 3 [0; 0; 1; 2] [0; 1] [0; 0; 0] 1 ext) in
  CLJP.weight st1 = [1.5; 1.5]%float
  /\ CLJP.nD st1 = 2 /\ CLJP.Dlist st1 = [0; 1]
  /\ CLJP.splitting st1 = [C_NODE; C_NODE]
  /\ CLJP.weight st2 = [1; 1; 0]%float
  /\ CLJP.nD st2 = 2 /\ take 2 (CLJP.Dlist st2) = [0; 1]
  /\ CLJP.splitting st2 = [C_NODE; C_NODE; U_NODE].
Proof. vm_compute. repeat split; reflexivity. Qed.

(** ** Counting in a range *)

Implicit Types (p q : Z -> bool) (lo mid hi : Z).

Lemma Z_range_ind (P : Z -> Prop) lo hi :
  lo <= hi -> P lo -> (forall i, lo <= i < hi -> P i -> P (i + 1)) -> P hi.
Proof.
  intros Hle H0 Hstep.
  apply (for_range_invariant (St:=unit) (fun i _ => P i) lo hi (fun _ u => u) tt);
    auto.
Qed.

Lemma count_in_range_empty p lo hi : hi <= lo -> count_in_range p lo hi = 0.
Proof. intros Hle. unfold count_in_range. apply for_range_empty, Hle. Qed.

Lemma count_in_range_last p lo hi :
  lo <= hi ->
  count_in_range p lo (hi + 1) = count_in_range p lo hi + (if p hi then 1 else 0).
Proof.
  intros Hle. unfold count_in_range. rewrite for_range_last by lia.
  destruct (p hi); lia.
Qed.

Lemma count_in_range_bounds p lo hi :
  lo <= hi -> 0 <= count_in_range p lo hi <= hi - lo.
Proof.
  intros Hle. unfold count_in_range.
  apply (for_range_invariant (fun i c => 0 <= c <= i - lo)); [lia | lia |].
  intros i c Hi Hc. destruct (p i); lia.
Qed.

Lemma count_in_range_nonneg p lo hi : 0 <= count_in_range p lo hi.
Proof.
  destruct (Z.le_gt_cases lo hi).
  - apply count_in_range_bounds. lia.
  - rewrite count_in_range_empty by lia. lia.
Qed.

Lemma count_in_range_mono p lo mid hi :
  lo <= mid <= hi -> count_in_range p lo mid <= count_in_range p lo hi.
Proof.
  intros Hm.
  apply (Z_range_ind (fun i => count_in_range p lo mid <= count_in_range p lo i)
           mid hi); [lia | lia |].
  intros i Hi IH. rewrite count_in_range_last by lia. destruct (p i); lia.
Qed.

Lemma count_in_range_lt p lo jj hi :
  lo <= jj < hi -> p jj = true ->
  count_in_range p lo jj < count_in_range p lo hi.
Proof.
  intros Hjj Hp.
  pose proof (count_in_range_mono p lo (jj + 1) hi ltac:(lia)) as Hm.
  rewrite count_in_range_last, Hp in Hm by lia. lia.
Qed.

(** A counting loop started at [c0]. *)
Lemma for_range_count p lo hi c0 :
  for_range lo hi (fun jj c => if p jj then c + 1 else c) c0
  = c0 + count_in_range p lo hi.
Proof.
  destruct (Z.le_gt_cases lo hi).
  - apply (for_range_invariant (fun i c => c = c0 + count_in_range p lo i));
      [lia | rewrite count_in_range_empty by lia; lia |].
    intros i c Hi ->. rewrite count_in_range_last by lia. destruct (p i); lia.
  - rewrite for_range_empty, count_in_range_empty by lia. lia.
Qed.

(** Two tests that agree on the range count the same. *)
Lemma count_in_range_ext p q lo hi :
  (forall jj, lo <= jj < hi -> p jj = q jj) ->
  count_in_range p lo hi = count_in_range q lo hi.
Proof.
  intros Hpq. unfold count_in_range. apply for_range_ext.
  intros jj c Hjj. rewrite Hpq by assumption. reflexivity.
Qed.

(** ** Direct interpolation *)

Section DirectInterpolation.
Context {T : Type} `{Scalar T} `{Inhabited T}.
Variables (Ap Aj : list Z) (Ax : list T) (Sp Sj : list Z) (Sx : list T).
Variable splitting : list Z.

Abbreviation strong i := (strong_C_entry Sj splitting i).
Abbreviation weight_of := (direct_weight Ap Aj Ax Sp Sj Sx splitting).

(** The fill loop writes one entry per strong C-neighbour, in the order of
    the row, from [nnz0] on, and nothing else. *)
Lemma direct_fill_loop i nc pc lo hi nnz0 (Bj : list Z) (Bx : list T) :
  0 <= nnz0 ->
  nnz0 + count_in_range (strong i) lo hi <= Z.of_nat (length Bx) ->
  let st := for_range lo hi (direct_fill_entry Sj Sx splitting i nc pc)
              (nnz0, Bj, Bx) in
  fst (fst st) = nnz0 + count_in_range (strong i) lo hi
  /\ length (snd st) = length Bx
  /\ (forall pos, 0 <= pos -> pos < nnz0 \/ fst (fst st) <= pos -> (snd st).[pos] = Bx.[pos])
  /\ (forall jj, lo <= jj < hi -> strong i jj = true ->
        (snd st).[nnz0 + count_in_range (strong i) lo jj]
        = if s_ltb Sx.[jj] s_zero then s_mul nc Sx.[jj] else s_mul pc Sx.[jj]).
Proof.
  intros Hnnz Hroom. cbv zeta.
  destruct (Z.le_gt_cases lo hi) as [Hle|Hgt].
  2:{ rewrite for_range_empty, count_in_range_empty by lia. simpl.
      split; [lia |]. split; [reflexivity |]. split; [reflexivity |]. intros; lia. }
  apply (for_range_invariant
    (fun k st =>
       fst (fst st) = nnz0 + count_in_range (strong i) lo k
       /\ length (snd st) = length Bx
       /\ (forall pos, 0 <= pos -> pos < nnz0 \/ fst (fst st) <= pos -> (snd st).[pos] = Bx.[pos])
       /\ (forall jj, lo <= jj < k -> strong i jj = true ->
             (snd st).[nnz0 + count_in_range (strong i) lo jj]
             = if s_ltb Sx.[jj] s_zero then s_mul nc Sx.[jj] else s_mul pc Sx.[jj])));
    [exact Hle | |].
  - simpl. rewrite count_in_range_empty by lia.
    split; [lia |]. split; [reflexivity |]. split; [reflexivity |]. intros; lia.
  - intros k [[nnz Bj'] Bx'] Hk (Hn & Hlen & Hout & Hin). simpl in *.
    pose proof (count_in_range_mono (strong i) lo (k + 1) hi ltac:(lia)) as Hmono.
    pose proof (count_in_range_nonneg (strong i) lo k) as Hpos.
    rewrite count_in_range_last in * by lia.
    unfold direct_fill_entry.
    destruct (strong i k) eqn:Hs; simpl.
    + assert (Hrange : 0 <= nnz < Z.of_nat (length Bx')) by lia.
      split; [lia |]. split.
      { destruct (s_ltb Sx.[k] s_zero); rewrite length_set; exact Hlen. }
      split.
      { intros pos Hq Hq'.
        destruct (s_ltb Sx.[k] s_zero); rewrite get_set_ne by lia;
          apply Hout; lia. }
      intros jj Hjj Hsj.
      destruct (Z.eq_dec jj k) as [->|Hne].
      * rewrite <- Hn.
        destruct (s_ltb Sx.[k] s_zero); rewrite get_set_eq by lia; reflexivity.
      * pose proof (count_in_range_lt (strong i) lo jj k ltac:(lia) Hsj).
        pose proof (count_in_range_nonneg (strong i) lo jj).
        destruct (s_ltb Sx.[k] s_zero); rewrite get_set_ne by lia;
          apply Hin; (lia || assumption).
    + split; [lia |]. split; [exact Hlen |]. split; [exact Hout |].
      intros jj Hjj Hsj.
      destruct (Z.eq_dec jj k) as [->|Hne]; [congruence |].
      apply Hin; (lia || assumption).
Qed.

(** One row of pass 2 writes the positions
    [Bp[i], Bp[i] + interpolation_row_nnz i) of [Bx] and no other. *)
Lemma direct_row_spec Bp i (Bj : list Z) (Bx : list T) :
  0 <= Bp.[i] ->
  Bp.[i] + interpolation_row_nnz Sp Sj splitting i <= Z.of_nat (length Bx) ->
  let B' := direct_row Ap Aj Ax Sp Sj Sx splitting Bp i (Bj, Bx) in
  length (snd B') = length Bx
  /\ (forall pos, 0 <= pos ->
        pos < Bp.[i] \/ Bp.[i] + interpolation_row_nnz Sp Sj splitting i <= pos ->
        (snd B').[pos] = Bx.[pos])
  /\ (splitting.[i] <> C_NODE ->
      forall jj, Sp.[i] <= jj < Sp.[i + 1] -> strong i jj = true ->
        (snd B').[Bp.[i] + count_in_range (strong i) Sp.[i] jj] = weight_of i jj).
Proof.
  intros Hpos Hroom. cbv zeta.
  unfold direct_row, interpolation_row_nnz in *.
  destruct (Z.eqb_spec splitting.[i] C_NODE) as [HC|HC].
  - simpl. rewrite length_set. split; [reflexivity |]. split.
    + intros pos Hq Hq'. apply get_set_ne; lia.
    + intros Hne; contradiction.
  - unfold direct_weight.
    destruct (direct_coefficients Ap Aj Ax Sp Sj Sx splitting i) as [nc pc].
    pose proof (direct_fill_loop i nc pc Sp.[i] Sp.[i + 1] Bp.[i] Bj Bx Hpos Hroom)
      as Hloop. cbv zeta in Hloop.
    destruct (for_range Sp.[i] Sp.[i + 1] _ _) as [[nnz Bj'] Bx'].
    simpl in *. destruct Hloop as (Hn & Hlen & Hout & Hin).
    split; [exact Hlen |]. split.
    + intros pos Hq Hq'. apply Hout; lia.
    + intros _ jj Hjj Hs. apply Hin; assumption.
Qed.

(** What [rs_direct_interpolation_pass1] leaves in [Bp]. *)
Lemma direct_pass1_spec n Bp0 :
  0 <= n -> n + 1 <= Z.of_nat (length Bp0) ->
  let Bp := rs_direct_interpolation_pass1 n Sp Sj splitting Bp0 in
  Bp.[0] = 0
  /\ forall r, 0 <= r < n -> Bp.[r + 1] = Bp.[r] + interpolation_row_nnz Sp Sj splitting r.
Proof.
  intros Hn Hlen. cbv zeta. unfold rs_direct_interpolation_pass1.
  match goal with |- context [for_range 0 n ?body0 ?st0] =>
    assert (Hinv :
      (fun k (st : Z * list Z) =>
         length (snd st) = length Bp0
         /\ (snd st).[k] = fst st
         /\ (snd st).[0] = 0
         /\ forall r, 0 <= r < k ->
              (snd st).[r + 1]
              = (snd st).[r] + interpolation_row_nnz Sp Sj splitting r)
        n (for_range 0 n body0 st0))
  end.
  { apply for_range_invariant; [exact Hn | |].
    - simpl. rewrite length_set, get_set_eq by lia.
      split; [reflexivity |]. split; [reflexivity |]. split; [reflexivity |].
      intros; lia.
    - intros k [nnz Bp] Hk (HlenB & Hcur & H0' & Hprev). simpl in *.
      set (nnz' := if splitting.[k] =? C_NODE then nnz + 1 else _).
      assert (Hnnz' : nnz' = nnz + interpolation_row_nnz Sp Sj splitting k).
      { unfold nnz', interpolation_row_nnz.
        destruct (splitting.[k] =? C_NODE); [reflexivity |].
        apply for_range_count. }
      rewrite length_set. split; [exact HlenB |].
      split; [apply get_set_eq; lia |].
      split; [rewrite get_set_ne by lia; exact H0' |].
      intros r Hr. destruct (Z.eq_dec r k) as [->|Hne].
      + rewrite get_set_eq, get_set_ne by lia. lia.
      + rewrite !get_set_ne by lia. apply Hprev. lia. }
  simpl in Hinv. destruct Hinv as (_ & _ & H0' & Hall). split; assumption.
Qed.

Section Rows.
Variables (n : Z) (Bp : list Z).
Hypothesis Bp_first : Bp.[0] = 0.
Hypothesis Bp_next :
  forall r, 0 <= r < n -> Bp.[r + 1] = Bp.[r] + interpolation_row_nnz Sp Sj splitting r.

Lemma interpolation_row_nnz_nonneg r : 0 <= interpolation_row_nnz Sp Sj splitting r.
Proof.
  unfold interpolation_row_nnz.
  destruct (splitting.[r] =? C_NODE); [lia | apply count_in_range_nonneg].
Qed.

Lemma Bp_monotone r k : 0 <= r <= k -> k <= n -> 0 <= Bp.[r] <= Bp.[k].
Proof.
  intros Hr Hk.
  assert (Hnonneg : forall j, 0 <= j <= n -> 0 <= Bp.[j]).
  { intros j Hj. apply (Z_range_ind (fun j => 0 <= Bp.[j]) 0 j); [lia | lia |].
    intros m Hm IH. rewrite Bp_next by lia.
    pose proof (interpolation_row_nnz_nonneg m). lia. }
  split; [apply Hnonneg; lia |].
  apply (Z_range_ind (fun j => Bp.[r] <= Bp.[j]) r k); [lia | lia |].
  intros m Hm IH. rewrite Bp_next by lia.
  pose proof (interpolation_row_nnz_nonneg m). lia.
Qed.


End Rows.


End DirectInterpolation.

Lemma Q_ltb_lt (a b : Q) : s_ltb a b = true <-> (a < b)%Q.
Proof.
  simpl. rewrite negb_true_iff. split.
  - intros Hle. apply Qnot_le_lt. intros Hba.
    apply Qle_bool_iff in Hba. congruence.
  - intros Hlt. destruct (Qle_bool b a) eqn:Hle; [| reflexivity].
    apply Qle_bool_iff in Hle. exfalso. exact (Qlt_not_le _ _ Hlt Hle).
Qed.




(** ** The index array of the compatible-relaxation helper *)

Lemma set_cons_0 {A} (x v : A) (l : list A) : (x :: l).[0 <- v] = v :: l.
Proof. reflexivity. Qed.

Lemma get_cons_0 {A} `{Inhabited A} (x : A) (l : list A) : (x :: l).[0] = x.
Proof. reflexivity. Qed.

Lemma set_app_mid {A} (l1 l2 : list A) (x v : A) i :
  i = Z.of_nat (length l1) -> (l1 ++ x :: l2).[i <- v] = l1 ++ v :: l2.
Proof.
  intros ->. unfold set. destruct (Z.leb_spec 0 (Z.of_nat (length l1))); [| lia].
  rewrite Nat2Z.id, insert_app_r_alt by lia. rewrite Nat.sub_diag. reflexivity.
Qed.

Lemma nodes_labelled_0 s v : nodes_labelled s v 0 = [].
Proof. reflexivity. Qed.

Lemma nodes_labelled_next s v k :
  0 <= k ->
  nodes_labelled s v (k + 1)
  = nodes_labelled s v k ++ (if s.[k] =? v then [k] else []).
Proof.
  intros Hk. unfold nodes_labelled.
  rewrite seqZ_app by lia. rewrite filter_app. f_equal.
  rewrite seqZ_cons, seqZ_nil by lia. rewrite filter_cons, filter_nil.
  rewrite Z.add_0_l.
  destruct (Z.eqb_spec s.[k] v); destruct (decide (s.[k] = v)); congruence.
Qed.

Lemma cf_labels_get s i :
  cf_labels s -> 0 <= i < Z.of_nat (length s) -> s.[i] = 0 \/ s.[i] = 1.
Proof.
  intros Hs Hi. unfold cf_labels in Hs. rewrite Forall_forall in Hs.
  apply Hs, get_elem_of, Hi.
Qed.

Lemma cf_labels_set s i : cf_labels s -> cf_labels (s.[i <- 1]).
Proof.
  intros Hs. unfold set. destruct (0 <=? i); [| exact Hs].
  apply Forall_insert; [exact Hs | right; reflexivity].
Qed.

(** The reorder loop: F-points ascending from position 1, C-points
    descending from position [n], the count of F-points at position 0. *)
Lemma reorder_indices_spec (s indices : list Z) :
  let n := Z.of_nat (length s) in
  length indices = S (length s) ->
  cf_labels s ->
  CR.reorder_indices n s indices
  = Z.of_nat (length (nodes_labelled s 0 n))
      :: nodes_labelled s 0 n ++ reverse (nodes_labelled s 1 n).
Proof.
  intros n Hlen Hs. unfold CR.reorder_indices.
  destruct indices as [|x0 junk0]; [discriminate |].
  rewrite set_cons_0.
  loop_invariant
    (fun k (st : list Z * Z * Z) =>
       exists junk,
         fst (fst st)
         = Z.of_nat (length (nodes_labelled s 0 k))
             :: nodes_labelled s 0 k ++ junk ++ reverse (nodes_labelled s 1 k)
         /\ Z.of_nat (length junk) = n - k
         /\ snd (fst st) = 1 + Z.of_nat (length (nodes_labelled s 0 k))
         /\ snd st = n - Z.of_nat (length (nodes_labelled s 1 k))
         /\ Z.of_nat (length (nodes_labelled s 0 k))
            + Z.of_nat (length (nodes_labelled s 1 k)) = k) as Hinv.
  { lia. }
  { exists junk0. simpl in *. rewrite app_nil_r. repeat split; lia. }
  { intros k [[ind nf] nc] Hk (junk & Hind & Hjunk & Hnf & Hnc & Hcount).
      simpl in Hind, Hnf, Hnc.
      rewrite !nodes_labelled_next by lia.
      set (Fs := nodes_labelled s 0 k) in *.
      set (Cs := nodes_labelled s 1 k) in *.
      unfold CR.reorder_step.
      destruct (cf_labels_get s k Hs ltac:(lia)) as [Hk0|Hk1].
      + rewrite Hk0. simpl.
        destruct junk as [|j0 junk']; [simpl in Hjunk; lia |].
        exists junk'. subst ind.
        change (?c :: Fs ++ (j0 :: junk') ++ reverse Cs)
          with ((c :: Fs) ++ j0 :: (junk' ++ reverse Cs)).
        rewrite (set_app_mid _ _ j0 k nf) by (simpl; lia).
        simpl. rewrite set_cons_0. rewrite !app_nil_r, !length_app. simpl.
        rewrite <- app_assoc. simpl. rewrite get_cons_0.
        split; [f_equal; lia |]. simpl in Hjunk. repeat split; lia.
      + rewrite Hk1. simpl.
        destruct (exists_last (l:=junk)) as (junk' & jl & ->).
        { intros ->. simpl in Hjunk. lia. }
        exists junk'. subst ind.
        rewrite length_app in Hjunk. simpl in Hjunk.
        replace (Z.of_nat (length Fs) :: Fs ++ (junk' ++ [jl]) ++ reverse Cs)
          with ((Z.of_nat (length Fs) :: Fs ++ junk') ++ jl :: reverse Cs)
          by (simpl; rewrite <- !app_assoc; reflexivity).
        rewrite (set_app_mid _ _ jl k nc)
          by (simpl; rewrite length_app; lia).
        rewrite !app_nil_r, reverse_snoc, length_app. simpl.
        rewrite <- !app_assoc. simpl.
        repeat split; lia. }
  destruct Hinv as (junk & Hind & Hjunk & _).
  destruct (for_range 0 n _ _) as [[ind nf] nc]. simpl in Hind.
  destruct junk; [| simpl in Hjunk; lia]. exact Hind.
Qed.

Section CRLabels.
Context {T : Type} `{Scalar T} `{Inhabited T}.

(** The independent-set loop only ever stores the label 1. *)
Lemma independent_set_labels fuel A_rowptr A_colinds Uindex :
  forall (st st' : list Z * list T * list T),
    CR.independent_set fuel A_rowptr A_colinds Uindex st = Some st' ->
    cf_labels (fst (fst st)) ->
    cf_labels (fst (fst st')) /\ length (fst (fst st')) = length (fst (fst st)).
Proof.
  induction fuel as [|fuel IH]; intros [[s g] om] st' Hrun Hs; simpl in Hrun.
  - destruct (CR.heaviest Uindex om) as [mw new_pt].
    destruct (new_pt <? 0); [| discriminate].
    injection Hrun as <-. split; [exact Hs | reflexivity].
  - destruct (CR.heaviest Uindex om) as [mw new_pt].
    destruct (new_pt <? 0).
    + injection Hrun as <-. split; [exact Hs | reflexivity].
    + destruct (CR.remove_neighbours A_rowptr A_colinds new_pt om) as [nb om'].
      apply IH in Hrun; [| apply cf_labels_set, Hs].
      simpl in *. rewrite length_set in Hrun. exact Hrun.
Qed.

End CRLabels.

(** C9.  When [cr_helper] returns, having been given a C/F splitting of [n]
    nodes and an index array of [n + 1] entries, the splitting is still a
    C/F splitting and the index array is: the number of nodes with
    splitting 0, then those nodes in ascending order, then the nodes with
    splitting 1 in descending order. *)
Theorem cr_helper_indices_rebuilt :
  forall (T : Type) (ST : Scalar T) (IT : Inhabited T) fuel
         (A_rowptr A_colinds : list Z) (B e : list T)
         (indices splitting : list Z) (gamma : list T) (thetacs : T)
         (cost : list T) (res : CR.result T),
    cf_labels splitting ->
    length indices = S (length splitting) ->
    CR.cr_helper fuel A_rowptr A_colinds B e indices splitting gamma thetacs cost
      = Some res ->
    let n := Z.of_nat (length splitting) in
    let Fpts := nodes_labelled (CR.r_splitting res) 0 n in
    let Cpts := nodes_labelled (CR.r_splitting res) 1 n in
    cf_labels (CR.r_splitting res)
    /\ CR.r_indices res = Z.of_nat (length Fpts) :: Fpts ++ reverse Cpts.
Proof.
  intros T ST IT fuel A_rowptr A_colinds B e indices splitting gamma thetacs
    cost res Hs Hlen Hrun. cbv zeta.
  unfold CR.cr_helper in Hrun.
  destruct (CR.scale_error B indices e) as [e' inf_norm].
  destruct (CR.candidates e' inf_norm thetacs indices gamma) as [gamma' Uindex].
  destruct (CR.independent_set fuel A_rowptr A_colinds Uindex _) as [[[s' g'] om']|]
    eqn:Hloop; [| discriminate].
  injection Hrun as <-. simpl.
  apply independent_set_labels in Hloop; [| exact Hs].
  simpl in Hloop. destruct Hloop as [Hs' Hlen'].
  split; [exact Hs' |].
  rewrite <- Hlen'. apply reorder_indices_spec; [congruence | exact Hs'].
Qed.

(** [cr_helper_indices_rebuilt] on the 1D Laplacian of three nodes, all of
    them F-points on entry: node 1 is made a C-point. *)
Lemma cr_helper_indices_rebuilt_witness :
  cf_labels [0; 0; 0]
  /\ exists res,
       CR.cr_helper (T:=Q) 5 [0; 2; 5; 7] [0; 1; 0; 1; 2; 1; 2] [1; 1; 1]%Q
         [0.1; 0.9; 0.2]%Q [3; 0; 1; 2] [0; 0; 0] [0; 0; 0]%Q 0.5%Q [0]%Q
       = Some res
       /\ CR.r_splitting res = [0; 1; 0]
       /\ CR.r_indices res = [2; 0; 2; 1].
Proof.
  assert (Hcf : cf_labels [0; 0; 0]) by (repeat constructor).
  split; [exact Hcf |].
  eexists. split; [vm_compute; reflexivity |].
  split; [reflexivity |].
  refine (eq_trans
            (proj2 (cr_helper_indices_rebuilt Q _ _ 5
                      [0; 2; 5; 7] [0; 1; 0; 1; 2; 1; 2] [1; 1; 1]%Q
                      [0.1; 0.9; 0.2]%Q [3; 0; 1; 2] [0; 0; 0] [0; 0; 0]%Q
                      0.5%Q [0]%Q _ Hcf eq_refl _)) _).
  - vm_compute. reflexivity.
  - reflexivity.
Defined.

(** ** Counting labels *)

Lemma count_in_range_split p lo mid hi :
  lo <= mid <= hi ->
  count_in_range p lo hi = count_in_range p lo mid + count_in_range p mid hi.
Proof.
  intros Hm.
  apply (Z_range_ind
           (fun k => count_in_range p lo k
                     = count_in_range p lo mid + count_in_range p mid k) mid hi);
    [lia | rewrite (count_in_range_empty p mid mid) by lia; lia |].
  intros k Hk IH. rewrite !count_in_range_last by lia. lia.
Qed.

Lemma count_in_range_single p k :
  count_in_range p k (k + 1) = if p k then 1 else 0.
Proof.
  rewrite count_in_range_last by lia.
  rewrite count_in_range_empty by lia. reflexivity.
Qed.

Lemma count_in_range_pos p lo hi jj :
  lo <= jj < hi -> p jj = true -> 0 < count_in_range p lo hi.
Proof.
  intros Hjj Hp.
  pose proof (count_in_range_lt p lo jj hi Hjj Hp).
  pose proof (count_in_range_nonneg p lo jj). lia.
Qed.

Lemma count_in_range_exists p lo hi :
  0 < count_in_range p lo hi -> exists jj, lo <= jj < hi /\ p jj = true.
Proof.
  intros Hpos. destruct (Z.le_gt_cases lo hi) as [Hle|Hgt].
  2:{ rewrite count_in_range_empty in Hpos by lia. lia. }
  revert Hpos.
  apply (Z_range_ind
           (fun k => 0 < count_in_range p lo k ->
                     exists jj, lo <= jj < k /\ p jj = true) lo hi);
    [lia | rewrite count_in_range_empty by lia; lia |].
  intros k Hk IH. rewrite count_in_range_last by lia.
  destruct (p k) eqn:Hpk.
  - intros _. exists k. split; [lia | exact Hpk].
  - intros Hpos. destruct IH as (jj & Hjj & Hp); [lia |].
    exists jj. split; [lia | exact Hp].
Qed.

(** Relabelling one U node lowers the number of U nodes by one. *)
Lemma count_label_settle n (s : list Z) j v :
  Z.of_nat (length s) = n -> 0 <= j < n -> s.[j] = U_NODE -> v <> U_NODE ->
  count_label U_NODE n (s.[j <- v]) = count_label U_NODE n s - 1.
Proof.
  intros Hlen Hj HU Hv. unfold count_label.
  rewrite (count_in_range_split _ 0 j n) by lia.
  rewrite (count_in_range_split _ j (j + 1) n) by lia.
  rewrite (count_in_range_split (fun i => s.[i] =? U_NODE) 0 j n) by lia.
  rewrite (count_in_range_split (fun i => s.[i] =? U_NODE) j (j + 1) n) by lia.
  rewrite !count_in_range_single.
  rewrite get_set_eq by lia. rewrite HU.
  rewrite (count_in_range_ext (fun i => s.[j <- v].[i] =? U_NODE)
             (fun i => s.[i] =? U_NODE) 0 j)
    by (intros; rewrite get_set_ne by lia; reflexivity).
  rewrite (count_in_range_ext (fun i => s.[j <- v].[i] =? U_NODE)
             (fun i => s.[i] =? U_NODE) (j + 1) n)
    by (intros; rewrite get_set_ne by lia; reflexivity).
  destruct (Z.eqb_spec v U_NODE); [contradiction |].
  rewrite Z.eqb_refl. lia.
Qed.

Lemma labels_settle_refl s : labels_settle s s.
Proof. intros i. left. reflexivity. Qed.

Lemma labels_settle_trans s1 s2 s3 :
  labels_settle s1 s2 -> labels_settle s2 s3 -> labels_settle s1 s3.
Proof.
  intros H12 H23 i. specialize (H12 i). specialize (H23 i).
  unfold U_NODE, C_NODE, F_NODE in *. lia.
Qed.

Lemma labels_settle_set (s : list Z) j v :
  s.[j] = U_NODE -> v = C_NODE \/ v = F_NODE -> labels_settle s (s.[j <- v]).
Proof.
  intros HU Hv i. destruct (Z.eq_dec j i) as [<-|Hne].
  - destruct (Z.le_gt_cases 0 j); [destruct (Z.lt_ge_cases j (Z.of_nat (length s))) |].
    + right. rewrite get_set_eq by lia. split; assumption.
    + left. rewrite set_out_of_range by lia. reflexivity.
    + left. unfold set. destruct (Z.leb_spec 0 j); [lia | reflexivity].
  - left. apply get_set_ne. exact Hne.
Qed.

(** ** CLJP: the selection of the set D *)

Lemma scan_none (c : Z -> bool) lo hi :
  (forall jj, lo <= jj < hi -> c jj = false) ->
  for_range lo hi (fun jj found => found || c jj) false = false.
Proof.
  intros Hc. apply for_range_preserves; [reflexivity |].
  intros jj found Hjj ->. simpl. apply Hc, Hjj.
Qed.

(** Projections of updated states. *)
Ltac cljp_fields :=
  cbn [CLJP.splitting CLJP.weight CLJP.edgemark CLJP.c_dep_cache CLJP.D
       CLJP.Dlist CLJP.nD CLJP.unassigned CLJP.pass
       CLJP.set_splitting CLJP.set_weight CLJP.set_edgemark
       CLJP.set_c_dep_cache CLJP.set_D CLJP.set_Dlist CLJP.set_nD
       CLJP.set_unassigned CLJP.set_pass] in *.

Section CLJPSelection.
Context {T : Type} `{Scalar T} `{Inhabited T}.
Variables (n : Z) (Sp Sj Tp Tj : list Z).
Implicit Types st : CLJP.state T.

Abbreviation selectable := (cljp_selectable Sp Sj Tp Tj).

Lemma selectable_ext st st' i :
  CLJP.splitting st' = CLJP.splitting st -> CLJP.weight st' = CLJP.weight st ->
  selectable st' i = selectable st i.
Proof.
  intros Hs Hw. unfold cljp_selectable, CLJP.heavier_neighbour.
  rewrite Hs, Hw. reflexivity.
Qed.

(** One iteration of the loop over the nodes. *)
Lemma select_node_spec i st :
  0 <= i < n -> Z.of_nat (length (CLJP.D st)) = n ->
  let st' := CLJP.select_node Sp Sj Tp Tj i st in
  CLJP.splitting st' = CLJP.splitting st
  /\ CLJP.weight st' = CLJP.weight st
  /\ length (CLJP.D st') = length (CLJP.D st)
  /\ (if selectable st i
      then CLJP.Dlist st' = (CLJP.Dlist st).[CLJP.nD st <- i]
           /\ CLJP.nD st' = CLJP.nD st + 1
           /\ CLJP.unassigned st' = CLJP.unassigned st - 1
      else CLJP.Dlist st' = CLJP.Dlist st
           /\ CLJP.nD st' = CLJP.nD st
           /\ CLJP.unassigned st' = CLJP.unassigned st).
Proof.
  intros Hi HD. cbv zeta. unfold CLJP.select_node, cljp_selectable.
  destruct ((CLJP.splitting st).[i] =? U_NODE) eqn:HU; cbn [andb].
  2:{ cljp_fields. rewrite length_set. repeat split; reflexivity. }
  change (CLJP.heavier_neighbour Sp Sj i (CLJP.set_D _ st))
    with (CLJP.heavier_neighbour Sp Sj i st).
  destruct (CLJP.heavier_neighbour Sp Sj i st) eqn:HS; cbn [negb andb].
  - do 3 (cljp_fields; rewrite ?get_set_eq by (rewrite ?length_set; lia);
          cbn [Z.eqb Pos.eqb]).
    rewrite ?length_set. repeat split; reflexivity.
  - cljp_fields. rewrite get_set_eq by lia. cbn [Z.eqb Pos.eqb].
    change (CLJP.heavier_neighbour Tp Tj i (CLJP.set_D _ st))
      with (CLJP.heavier_neighbour Tp Tj i st).
    destruct (CLJP.heavier_neighbour Tp Tj i st) eqn:HT; cbn [negb].
    + do 3 (cljp_fields; rewrite ?get_set_eq by (rewrite ?length_set; lia);
            cbn [Z.eqb Pos.eqb]).
      rewrite ?length_set. repeat split; reflexivity.
    + do 3 (cljp_fields; rewrite ?get_set_eq by (rewrite ?length_set; lia);
            cbn [Z.eqb Pos.eqb]).
      rewrite ?length_set. repeat split; reflexivity.
Qed.

(** What the loop over the nodes leaves: the nodes it has listed are U
    nodes, in increasing order, [unassigned] has been lowered once for each,
    and a node that passes the test has been listed. *)
Definition listed (st0 : CLJP.state T) (k : Z) (st : CLJP.state T) : Prop :=
  CLJP.splitting st = CLJP.splitting st0
  /\ CLJP.weight st = CLJP.weight st0
  /\ Z.of_nat (length (CLJP.D st)) = n
  /\ Z.of_nat (length (CLJP.Dlist st)) = n
  /\ 0 <= CLJP.nD st <= k
  /\ CLJP.unassigned st = CLJP.unassigned st0 - CLJP.nD st
  /\ (forall t, 0 <= t < CLJP.nD st ->
        0 <= (CLJP.Dlist st).[t] < k
        /\ (CLJP.splitting st0).[(CLJP.Dlist st).[t]] = U_NODE)
  /\ (forall t t', 0 <= t < t' -> t' < CLJP.nD st ->
        (CLJP.Dlist st).[t] < (CLJP.Dlist st).[t'])
  /\ (forall i, 0 <= i < k -> selectable st0 i = true -> 1 <= CLJP.nD st).

Lemma select_loop_spec st0 :
  0 <= n ->
  Z.of_nat (length (CLJP.D st0)) = n ->
  Z.of_nat (length (CLJP.Dlist st0)) = n ->
  listed st0 n
    (for_range 0 n (CLJP.select_node Sp Sj Tp Tj) (CLJP.set_nD 0 st0)).
Proof.
  intros Hn HD HDl.
  apply (for_range_invariant (listed st0)); [exact Hn | |].
  - unfold listed. cljp_fields. rewrite Z.sub_0_r.
    repeat (split; [first [reflexivity | assumption | lia | intros; lia] |]).
    intros; lia.
  - intros k st Hk (Hs & Hw & HlD & HlDl & HnD & Hu & Hin & Hinc & Hcov).
    pose proof (select_node_spec k st Hk HlD) as Hstep. cbv zeta in Hstep.
    destruct Hstep as (Hs' & Hw' & HlD' & Hcase).
    rewrite (selectable_ext st0 st k Hs Hw) in Hcase.
    unfold listed.
    split; [congruence |]. split; [congruence |]. split; [lia |].
    destruct (selectable st0 k) eqn:Hsel.
    + destruct Hcase as (HDl' & HnD' & Hu').
      rewrite HDl', HnD', Hu'. rewrite length_set.
      split; [exact HlDl |]. split; [lia |]. split; [lia |].
      assert (HkU : (CLJP.splitting st0).[k] = U_NODE).
      { unfold cljp_selectable in Hsel.
        apply andb_true_iff in Hsel as [Hsel _].
        apply andb_true_iff in Hsel as [Hsel _].
        apply Z.eqb_eq, Hsel. }
      split; [| split].
      * intros t Ht. destruct (Z.eq_dec t (CLJP.nD st)) as [->|Hne].
        -- rewrite get_set_eq by lia. split; [lia | exact HkU].
        -- rewrite get_set_ne by lia.
           destruct (Hin t ltac:(lia)) as [Hr HtU]. split; [lia | exact HtU].
      * intros t t' Ht Ht'. rewrite (get_set_ne _ _ t) by lia.
        destruct (Z.eq_dec t' (CLJP.nD st)) as [->|Hne].
        -- rewrite get_set_eq by lia. destruct (Hin t ltac:(lia)). lia.
        -- rewrite get_set_ne by lia. apply Hinc; lia.
      * intros; lia.
    + destruct Hcase as (HDl' & HnD' & Hu').
      rewrite HDl', HnD', Hu'.
      split; [exact HlDl |]. split; [lia |]. split; [lia |].
      split; [| split].
      * intros t Ht. destruct (Hin t Ht) as [Hr HtU]. split; [lia | exact HtU].
      * exact Hinc.
      * intros i Hi Hseli. destruct (Z.eq_dec i k) as [->|Hne]; [congruence |].
        apply (Hcov i); [lia | exact Hseli].
Qed.

End CLJPSelection.

(** ** CLJP: one pass of the selection loop *)

Section CLJPPass.
Context {T : Type} `{Scalar T} `{Inhabited T}.
Variables (n : Z) (Sp Sj Tp Tj : list Z).
Hypothesis S_ok : csr_ok n Sp Sj.
Hypothesis T_ok : csr_ok n Tp Tj.
Implicit Types st : CLJP.state T.

(** The promotion of the listed nodes, after [k] of its iterations: the
    nodes still to come are U. *)
Lemma promote_prefix st0 st k :
  cljp_inv n st0 -> listed n Sp Sj Tp Tj st0 n st -> 0 <= k <= CLJP.nD st ->
  let sk := for_range 0 k CLJP.promote st in
  CLJP.Dlist sk = CLJP.Dlist st /\ CLJP.nD sk = CLJP.nD st
  /\ CLJP.D sk = CLJP.D st /\ CLJP.unassigned sk = CLJP.unassigned st
  /\ Z.of_nat (length (CLJP.splitting sk)) = n
  /\ count_label U_NODE n (CLJP.splitting sk)
     = count_label U_NODE n (CLJP.splitting st0) - k
  /\ (forall t, k <= t < CLJP.nD st ->
        (CLJP.splitting sk).[(CLJP.Dlist st).[t]] = U_NODE)
  /\ (forall i, 0 <= i < n ->
        (CLJP.splitting sk).[i] = F_NODE \/ (CLJP.splitting sk).[i] = C_NODE
        \/ (CLJP.splitting sk).[i] = U_NODE)
  /\ labels_settle (CLJP.splitting st0) (CLJP.splitting sk).
Proof.
  intros (Hlen0 & _ & _ & Hlab0 & Hun0)
         (Hs & Hw & HlD & HlDl & HnD & Hu & Hin & Hinc & Hcov) Hk.
  cbv zeta.
  loop_invariant
    (fun k (sk : CLJP.state T) =>
       CLJP.Dlist sk = CLJP.Dlist st /\ CLJP.nD sk = CLJP.nD st
       /\ CLJP.D sk = CLJP.D st /\ CLJP.unassigned sk = CLJP.unassigned st
       /\ Z.of_nat (length (CLJP.splitting sk)) = n
       /\ count_label U_NODE n (CLJP.splitting sk)
          = count_label U_NODE n (CLJP.splitting st0) - k
       /\ (forall t, k <= t < CLJP.nD st ->
             (CLJP.splitting sk).[(CLJP.Dlist st).[t]] = U_NODE)
       /\ (forall i, 0 <= i < n ->
             (CLJP.splitting sk).[i] = F_NODE \/ (CLJP.splitting sk).[i] = C_NODE
             \/ (CLJP.splitting sk).[i] = U_NODE)
       /\ labels_settle (CLJP.splitting st0) (CLJP.splitting sk)) as Hinv.
  { lia. }
  { rewrite Hs. repeat (split; [first [reflexivity | assumption | lia] |]).
    split; [intros t Ht; apply Hin; lia |].
    split; [exact Hlab0 | apply labels_settle_refl]. }
  { intros k' sk Hk' (HDl & HnD' & HD' & Hun & Hlen & Hcnt & HU & Hlab & Hset).
    unfold CLJP.promote. cljp_fields. rewrite HDl.
    destruct (Hin k' ltac:(lia)) as [Hrange _].
    pose proof (HU k' ltac:(lia)) as HkU.
    repeat (split; [first [reflexivity | assumption] |]).
    rewrite length_set. split; [exact Hlen |].
    split; [rewrite (count_label_settle n) by (assumption || lia || discriminate); lia |].
    split; [| split].
    - intros t Ht. rewrite get_set_ne; [apply HU; lia |].
      pose proof (Hinc k' t ltac:(lia) ltac:(lia)). lia.
    - intros i Hi. destruct (Z.eq_dec (CLJP.Dlist st).[k'] i) as [<-|Hne].
      + rewrite get_set_eq by lia. right; left; reflexivity.
      + rewrite get_set_ne by exact Hne. apply Hlab, Hi.
    - eapply labels_settle_trans; [exact Hset |].
      apply labels_settle_set; [exact HkU | left; reflexivity]. }
  exact Hinv.
Qed.

Lemma promote_loop_spec st0 st :
  cljp_inv n st0 -> listed n Sp Sj Tp Tj st0 n st ->
  let st' := for_range 0 (CLJP.nD st) CLJP.promote st in
  cljp_inv n st'
  /\ CLJP.Dlist st' = CLJP.Dlist st /\ CLJP.nD st' = CLJP.nD st
  /\ CLJP.unassigned st' = CLJP.unassigned st0 - CLJP.nD st
  /\ labels_settle (CLJP.splitting st0) (CLJP.splitting st').
Proof.
  intros Hinv0 Hl. cbv zeta.
  assert (HnD : 0 <= CLJP.nD st <= CLJP.nD st)
    by (destruct Hl as (_ & _ & _ & _ & HnD & _); lia).
  pose proof (promote_prefix st0 st (CLJP.nD st) Hinv0 Hl HnD) as Hp.
  cbv zeta in Hp.
  destruct Hp as (HDl & HnD' & HD' & Hun & Hlen & Hcnt & HU & Hlab & Hset).
  destruct Hinv0 as (Hlen0 & _ & _ & Hlab0 & Hun0).
  destruct Hl as (Hs & Hw & HlD & HlDl & _ & Hu & _).
  split.
  { unfold cljp_inv. rewrite HD', HDl, Hun, Hcnt, Hu, Hun0.
    repeat (split; [first [assumption | lia] |]). lia. }
  repeat (split; [first [assumption | lia] |]). exact Hset.
Qed.

(** The states the two pruning phases pass through, seen from the state [b]
    they start in: the invariant holds, D is untouched, labels have only
    settled and [unassigned] has not grown. *)
Definition pruned (b st : CLJP.state T) : Prop :=
  cljp_inv n st
  /\ CLJP.Dlist st = CLJP.Dlist b /\ CLJP.nD st = CLJP.nD b
  /\ labels_settle (CLJP.splitting b) (CLJP.splitting st)
  /\ CLJP.unassigned st <= CLJP.unassigned b.

Lemma pruned_refl b : cljp_inv n b -> pruned b b.
Proof.
  intros Hb. unfold pruned.
  repeat (split; [first [assumption | reflexivity] |]).
  split; [apply labels_settle_refl | lia].
Qed.

Lemma remove_edge_pruned b st k kk :
  pruned b st -> 0 <= k < n -> (CLJP.splitting st).[k] = U_NODE ->
  pruned b (CLJP.remove_edge k kk st).
Proof.
  intros ((Hlen & HlD & HlDl & Hlab & Hun) & HDl & HnD & Hset & Hle) Hk HU.
  unfold CLJP.remove_edge. cljp_fields.
  destruct (s_ltb _ s_one); cljp_fields; unfold pruned, cljp_inv; cljp_fields.
  - rewrite length_set, (count_label_settle n) by (assumption || discriminate).
    split.
    { split; [exact Hlen |]. split; [exact HlD |]. split; [exact HlDl |].
      split; [| lia].
      intros i Hi. destruct (Z.eq_dec k i) as [<-|Hne].
      - rewrite get_set_eq by lia. left; reflexivity.
      - rewrite get_set_ne by exact Hne. apply Hlab, Hi. }
    split; [exact HDl |]. split; [exact HnD |]. split; [| lia].
    eapply labels_settle_trans; [exact Hset |].
    apply labels_settle_set; [exact HU | right; reflexivity].
  - split.
    { split; [exact Hlen |]. split; [exact HlD |]. split; [exact HlDl |].
      split; [exact Hlab | exact Hun]. }
    split; [exact HDl |]. split; [exact HnD |]. split; [exact Hset | exact Hle].
Qed.

Lemma row_entry_node Xp Xj i jj :
  csr_ok n Xp Xj -> 0 <= i < n -> Xp.[i] <= jj < Xp.[i + 1] -> 0 <= Xj.[jj] < n.
Proof.
  intros [Hrows Hcols] Hi Hjj. destruct (Hrows i Hi). apply Hcols. lia.
Qed.

Lemma p5_pruned b st :
  pruned b st -> (forall t, 0 <= t < CLJP.nD b -> 0 <= (CLJP.Dlist b).[t] < n) ->
  pruned b (CLJP.p5 Sp Sj st).
Proof.
  intros Hst HD. unfold CLJP.p5.
  apply for_range_preserves; [exact Hst |].
  intros iD s1 HiD Hs1. unfold CLJP.p5_node.
  assert (Hc : 0 <= (CLJP.Dlist s1).[iD] < n).
  { destruct Hs1 as (_ & -> & _). apply HD.
    destruct Hst as (_ & _ & HnD & _). lia. }
  apply for_range_preserves; [exact Hs1 |].
  intros jj s2 Hjj Hs2. unfold CLJP.p5_edge.
  destruct ((CLJP.splitting s2).[Sj.[jj]] =? U_NODE) eqn:HU; [| exact Hs2].
  destruct (negb _); [| exact Hs2]. cbn [andb].
  apply remove_edge_pruned; [exact Hs2 | | apply Z.eqb_eq, HU].
  eapply row_entry_node; eassumption.
Qed.

Lemma p6_cache_pruned b st c jj :
  pruned b st -> pruned b (CLJP.p6_cache Tj c jj st).
Proof.
  intros Hst. unfold CLJP.p6_cache.
  destruct (_ =? U_NODE); [| exact Hst]. exact Hst.
Qed.

Lemma p6_pruned b st :
  pruned b st -> (forall t, 0 <= t < CLJP.nD b -> 0 <= (CLJP.Dlist b).[t] < n) ->
  pruned b (CLJP.p6 Sp Sj Tp Tj st).
Proof.
  intros Hst HD. unfold CLJP.p6.
  apply for_range_preserves; [exact Hst |].
  intros iD s1 HiD Hs1. unfold CLJP.p6_node.
  assert (Hc : 0 <= (CLJP.Dlist s1).[iD] < n).
  { destruct Hs1 as (_ & -> & _). apply HD.
    destruct Hst as (_ & _ & HnD & _). lia. }
  set (c := (CLJP.Dlist s1).[iD]) in *.
  set (s1' := for_range Tp.[c] Tp.[c + 1] (CLJP.p6_cache Tj c) s1).
  assert (Hs1' : pruned b s1').
  { apply for_range_preserves; [exact Hs1 |].
    intros; apply p6_cache_pruned; assumption. }
  apply for_range_preserves; [exact Hs1' |].
  intros jj s2 Hjj Hs2. unfold CLJP.p6_row.
  pose proof (row_entry_node Tp Tj c jj T_ok Hc Hjj) as Hj.
  apply for_range_preserves; [exact Hs2 |].
  intros kk s3 Hkk Hs3. unfold CLJP.p6_edge.
  destruct ((CLJP.splitting s3).[Sj.[kk]] =? U_NODE) eqn:HU; [| exact Hs3].
  destruct (negb _); [| exact Hs3]. cbn [andb].
  destruct (_ =? c); [| exact Hs3].
  apply remove_edge_pruned; [exact Hs3 | | apply Z.eqb_eq, HU].
  eapply row_entry_node; eassumption.
Qed.

End CLJPPass.

(** ** CLJP: progress and termination of the selection loop *)

Lemma count_in_range_all p lo hi :
  lo <= hi -> (forall i, lo <= i < hi -> p i = true) ->
  count_in_range p lo hi = hi - lo.
Proof.
  intros Hle Hp.
  apply (Z_range_ind (fun k => count_in_range p lo k = k - lo) lo hi);
    [lia | rewrite count_in_range_empty by lia; lia |].
  intros k Hk IH. rewrite count_in_range_last, Hp by lia. lia.
Qed.

Lemma fill_loop_spec {A} `{Inhabited A} n (v : A) (a : list A) :
  0 <= n <= Z.of_nat (length a) ->
  let a' := for_range 0 n (fun i s => s.[i <- v]) a in
  length a' = length a /\ forall i, 0 <= i < n -> a'.[i] = v.
Proof.
  intros Hn. cbv zeta.
  loop_invariant
    (fun k (s : list A) =>
       length s = length a /\ forall i, 0 <= i < k -> s.[i] = v) as Hinv.
  { lia. }
  { split; [reflexivity | intros; lia]. }
  { intros k s Hk [Hlen Hv]. rewrite length_set. split; [exact Hlen |].
    intros i Hi. destruct (Z.eq_dec k i) as [<-|Hne].
    - apply get_set_eq. lia.
    - rewrite get_set_ne by exact Hne. apply Hv. lia. }
  exact Hinv.
Qed.

Section CLJPRun.
Context {T : Type} `{Scalar T} `{Inhabited T}.
Variables (n : Z) (Sp Sj Tp Tj : list Z).
Hypothesis S_ok : csr_ok n Sp Sj.
Hypothesis T_ok : csr_ok n Tp Tj.
Implicit Types st : CLJP.state T.

Abbreviation pass := (CLJP.selection_pass n Sp Sj Tp Tj).

Lemma cljp_inv_nonneg st : cljp_inv n st -> 0 <= n /\ 0 <= CLJP.unassigned st.
Proof.
  intros (Hlen & _ & _ & _ & Hun). split; [lia |].
  rewrite Hun. apply count_in_range_nonneg.
Qed.

Lemma init_inv splitting0 colorflag ext :
  Z.of_nat (length splitting0) = n ->
  cljp_inv n (CLJP.init (T:=T) n Sp Sj splitting0 colorflag ext).
Proof.
  intros Hlen. unfold cljp_inv, CLJP.init. cljp_fields.
  destruct (fill_loop_spec n U_NODE splitting0 ltac:(lia)) as [Hl Hall].
  rewrite Hl, !length_filled.
  split; [exact Hlen |]. split; [lia |]. split; [lia |].
  split; [intros i Hi; right; right; apply Hall, Hi |].
  unfold count_label. rewrite count_in_range_all; [lia | lia |].
  intros i Hi. rewrite Hall by exact Hi. reflexivity.
Qed.

(** One pass keeps the invariant, lowers [unassigned] by at least the
    number of nodes it selects, and only settles labels. *)
Lemma pass_inv st :
  cljp_inv n st ->
  let sel := for_range 0 n (CLJP.select_node Sp Sj Tp Tj)
               (CLJP.set_nD 0 (CLJP.set_pass (CLJP.pass st + 1) st)) in
  cljp_inv n (pass st)
  /\ CLJP.unassigned (pass st) <= CLJP.unassigned st - CLJP.nD sel
  /\ labels_settle (CLJP.splitting st) (CLJP.splitting (pass st)).
Proof.
  intros Hinv. cbv zeta.
  pose proof (cljp_inv_nonneg st Hinv) as [Hn _].
  set (st1 := CLJP.set_pass (CLJP.pass st + 1) st).
  assert (Hinv1 : cljp_inv n st1) by exact Hinv.
  destruct Hinv1 as (Hlen & HlD & HlDl & Hlab & Hun).
  pose proof (select_loop_spec n Sp Sj Tp Tj st1 Hn HlD HlDl) as Hsel.
  set (sel := for_range 0 n _ (CLJP.set_nD 0 st1)) in *.
  pose proof (promote_loop_spec n Sp Sj Tp Tj st1 sel Hinv Hsel) as Hprom.
  cbv zeta in Hprom.
  set (prom := for_range 0 (CLJP.nD sel) CLJP.promote sel) in *.
  destruct Hprom as (Hinvp & HDlp & HnDp & Hunp & Hsetp).
  assert (HD : forall t, 0 <= t < CLJP.nD prom -> 0 <= (CLJP.Dlist prom).[t] < n).
  { intros t Ht. rewrite HDlp. rewrite HnDp in Ht.
    destruct Hsel as (_ & _ & _ & _ & _ & _ & Hin & _).
    destruct (Hin t Ht). lia. }
  pose proof (p5_pruned n Sp Sj S_ok prom prom (pruned_refl n prom Hinvp) HD) as Hp5.
  pose proof (p6_pruned n Sp Sj Tp Tj S_ok T_ok prom _ Hp5 HD) as Hp6.
  change (pass st) with (CLJP.p6 Sp Sj Tp Tj (CLJP.p5 Sp Sj prom)).
  destruct Hp6 as (Hinv6 & _ & _ & Hset6 & Hle6).
  split; [exact Hinv6 |]. split.
  - rewrite Hunp in Hle6. exact Hle6.
  - eapply labels_settle_trans; [exact Hsetp | exact Hset6].
Qed.

Section Progress.
Hypothesis ltb_order : ltb_strict_order T.

(** Among the U nodes below [k] there is one of greatest weight. *)
Lemma heaviest_U_node (s : list Z) (w : list T) k :
  (exists i, 0 <= i < k /\ s.[i] = U_NODE) ->
  exists m, 0 <= m < k /\ s.[m] = U_NODE
            /\ forall j, 0 <= j < k -> s.[j] = U_NODE -> s_ltb w.[m] w.[j] = false.
Proof.
  destruct ltb_order as [Hirr Htrans].
  intros Hex. assert (Hk : 0 <= k) by (destruct Hex as (i & Hi & _); lia).
  revert Hex.
  apply (Z_range_ind
    (fun k => (exists i, 0 <= i < k /\ s.[i] = U_NODE) ->
              exists m, 0 <= m < k /\ s.[m] = U_NODE
                /\ forall j, 0 <= j < k -> s.[j] = U_NODE ->
                     s_ltb w.[m] w.[j] = false) 0 k); [exact Hk | |].
  { intros (i & Hi & _). lia. }
  intros k' Hk' IH (i & Hi & HiU).
  destruct (Z.eq_dec s.[k'] U_NODE) as [HkU|HkU].
  - destruct (Z.lt_ge_cases 0 (count_label U_NODE k' s)) as [Hpos|Hzero].
    + apply count_in_range_exists in Hpos as (i' & Hi' & HU').
      apply Z.eqb_eq in HU'.
      destruct IH as (m & Hm & HmU & Hmax); [exists i'; auto |].
      destruct (s_ltb w.[m] w.[k']) eqn:Hcmp.
      * exists k'. split; [lia |]. split; [exact HkU |].
        intros j Hj HjU. destruct (Z.eq_dec j k') as [->|Hne]; [apply Hirr |].
        destruct (s_ltb w.[k'] w.[j]) eqn:Hkj; [| reflexivity].
        rewrite <- (Hmax j ltac:(lia) HjU). symmetry.
        eapply Htrans; eassumption.
      * exists m. split; [lia |]. split; [exact HmU |].
        intros j Hj HjU. destruct (Z.eq_dec j k') as [->|Hne]; [exact Hcmp |].
        apply Hmax; [lia | exact HjU].
    + exists k'. split; [lia |]. split; [exact HkU |].
      intros j Hj HjU. destruct (Z.eq_dec j k') as [->|Hne]; [apply Hirr |].
      exfalso.
      pose proof (count_in_range_pos (fun i => s.[i] =? U_NODE) 0 k' j
                    ltac:(lia) ltac:(apply Z.eqb_eq, HjU)).
      unfold count_label in Hzero. lia.
  - destruct IH as (m & Hm & HmU & Hmax).
    { exists i. split; [| exact HiU].
      destruct (Z.eq_dec i k') as [->|]; [contradiction | lia]. }
    exists m. split; [lia |]. split; [exact HmU |].
    intros j Hj HjU. destruct (Z.eq_dec j k') as [->|Hne]; [contradiction |].
    apply Hmax; [lia | exact HjU].
Qed.

(** A U node of greatest weight passes the test of the selection. *)
Lemma heaviest_is_selectable st m :
  0 <= m < n -> (CLJP.splitting st).[m] = U_NODE ->
  (forall j, 0 <= j < n -> (CLJP.splitting st).[j] = U_NODE ->
     s_ltb (CLJP.weight st).[m] (CLJP.weight st).[j] = false) ->
  cljp_selectable Sp Sj Tp Tj st m = true.
Proof.
  intros Hm HmU Hmax. unfold cljp_selectable.
  rewrite HmU, Z.eqb_refl. cbn [andb].
  assert (Hrow : forall Xp Xj, csr_ok n Xp Xj ->
                   CLJP.heavier_neighbour Xp Xj m st = false).
  { intros Xp Xj HX. unfold CLJP.heavier_neighbour. apply scan_none.
    intros jj Hjj. cbv zeta.
    destruct (Z.eqb_spec (CLJP.splitting st).[Xj.[jj]] U_NODE) as [HjU|];
      [| reflexivity].
    cbn [andb]. unfold s_gtb. apply Hmax; [| exact HjU].
    eapply row_entry_node; eassumption. }
  rewrite (Hrow Sp Sj S_ok), (Hrow Tp Tj T_ok). reflexivity.
Qed.

(** While a U node is left, a pass strictly lowers [unassigned]. *)
Lemma pass_progress st :
  cljp_inv n st -> 0 < CLJP.unassigned st ->
  cljp_inv n (pass st)
  /\ 0 <= CLJP.unassigned (pass st) < CLJP.unassigned st.
Proof.
  intros Hinv Hpos.
  pose proof (pass_inv st Hinv) as Hpass. cbv zeta in Hpass.
  destruct Hpass as (Hinv' & Hle & _).
  split; [exact Hinv' |].
  split; [apply (cljp_inv_nonneg _ Hinv') |].
  pose proof (cljp_inv_nonneg st Hinv) as [Hn _].
  set (st1 := CLJP.set_pass (CLJP.pass st + 1) st) in *.
  destruct Hinv as (Hlen & HlD & HlDl & Hlab & Hun).
  pose proof (select_loop_spec n Sp Sj Tp Tj st1 Hn HlD HlDl) as Hsel.
  destruct Hsel as (_ & _ & _ & _ & _ & _ & _ & _ & Hcov).
  rewrite Hun in Hpos. apply count_in_range_exists in Hpos as (i & Hi & HiU).
  apply Z.eqb_eq in HiU.
  destruct (heaviest_U_node (CLJP.splitting st) (CLJP.weight st) n)
    as (m & Hm & HmU & Hmax); [exists i; auto |].
  pose proof (heaviest_is_selectable st1 m Hm HmU Hmax) as Hsel.
  specialize (Hcov m Hm Hsel). lia.
Qed.

(** The selection loop ends within [unassigned] passes. *)
Lemma selection_loop_terminates fuel : forall st,
  cljp_inv n st -> CLJP.unassigned st <= Z.of_nat fuel ->
  exists st', CLJP.selection_loop fuel n Sp Sj Tp Tj st = Some st'
              /\ cljp_inv n st' /\ CLJP.unassigned st' = 0.
Proof.
  induction fuel as [|fuel IH]; intros st Hinv Hfuel;
    pose proof (cljp_inv_nonneg st Hinv) as [_ Hnn]; cbn [CLJP.selection_loop].
  - destruct (Z.gtb_spec (CLJP.unassigned st) 0); [lia |].
    exists st. split; [reflexivity |]. split; [exact Hinv | lia].
  - destruct (Z.gtb_spec (CLJP.unassigned st) 0) as [Hpos|Hz].
    + destruct (pass_progress st Hinv ltac:(lia)) as [Hinv' Hlt].
      apply IH; [exact Hinv' | lia].
    + exists st. split; [reflexivity |]. split; [exact Hinv | lia].
Qed.

End Progress.

(** Whatever the loop returns satisfies the invariant, has no U node left
    to count, and differs from the state it started in by settled labels. *)
Lemma selection_loop_result fuel : forall st st',
  cljp_inv n st ->
  CLJP.selection_loop fuel n Sp Sj Tp Tj st = Some st' ->
  cljp_inv n st' /\ CLJP.unassigned st' = 0
  /\ labels_settle (CLJP.splitting st) (CLJP.splitting st').
Proof.
  induction fuel as [|fuel IH]; intros st st' Hinv Hrun;
    pose proof (cljp_inv_nonneg st Hinv) as [_ Hnn];
    cbn [CLJP.selection_loop] in Hrun.
  - destruct (Z.gtb_spec (CLJP.unassigned st) 0); [discriminate |].
    injection Hrun as <-.
    split; [exact Hinv |]. split; [lia | apply labels_settle_refl].
  - destruct (Z.gtb_spec (CLJP.unassigned st) 0) as [Hpos|Hz].
    + pose proof (pass_inv st Hinv) as Hpass. cbv zeta in Hpass.
      destruct Hpass as (Hinv' & _ & Hset).
      destruct (IH _ _ Hinv' Hrun) as (Hinv'' & Hz & Hset').
      split; [exact Hinv'' |]. split; [exact Hz |].
      eapply labels_settle_trans; eassumption.
    + injection Hrun as <-.
      split; [exact Hinv |]. split; [lia | apply labels_settle_refl].
Qed.

End CLJPRun.

Lemma Q_ltb_strict_order : ltb_strict_order Q.
Proof.
  split.
  - intros a. destruct (s_ltb a a) eqn:E; [| reflexivity].
    apply Q_ltb_lt in E. exfalso. exact (Qlt_irrefl a E).
  - intros a b c Hab Hbc. apply Q_ltb_lt. apply Q_ltb_lt in Hab, Hbc.
    exact (Qlt_trans _ _ _ Hab Hbc).
Qed.

(** The last loop of the kernel turns every U into F and changes nothing
    else. *)
Lemma settle_rest_spec n (s : list Z) :
  0 <= n <= Z.of_nat (length s) ->
  let s' := for_range 0 n
              (fun i s => if s.[i] =? U_NODE then s.[i <- F_NODE] else s) s in
  length s' = length s
  /\ (forall i, 0 <= i < n -> s'.[i] = if s.[i] =? U_NODE then F_NODE else s.[i])
  /\ labels_settle s s'.
Proof.
  intros Hn. cbv zeta.
  loop_invariant
    (fun k (sk : list Z) =>
       length sk = length s
       /\ (forall i, 0 <= i < k ->
             sk.[i] = if s.[i] =? U_NODE then F_NODE else s.[i])
       /\ (forall i, k <= i -> sk.[i] = s.[i])
       /\ labels_settle s sk) as Hinv.
  { lia. }
  { split; [reflexivity |]. split; [intros; lia |].
    split; [reflexivity | apply labels_settle_refl]. }
  { intros k sk Hk (Hlen & Hlow & Hhigh & Hset).
    rewrite (Hhigh k) by lia.
    destruct (Z.eqb_spec s.[k] U_NODE) as [HU|HU].
    - rewrite length_set. split; [exact Hlen |]. split; [| split].
      + intros i Hi. destruct (Z.eq_dec k i) as [<-|Hne].
        * rewrite get_set_eq by lia. rewrite HU. reflexivity.
        * rewrite get_set_ne by exact Hne. apply Hlow. lia.
      + intros i Hi. rewrite get_set_ne by lia. apply Hhigh. lia.
      + eapply labels_settle_trans; [exact Hset |].
        apply labels_settle_set; [| right; reflexivity].
        rewrite Hhigh by lia. exact HU.
    - split; [exact Hlen |]. split; [| split; [| exact Hset]].
      + intros i Hi. destruct (Z.eq_dec k i) as [<-|Hne].
        * rewrite Hhigh by lia.
          destruct (Z.eqb_spec s.[k] U_NODE); [contradiction | reflexivity].
        * apply Hlow. lia.
      + intros i Hi. apply Hhigh. lia. }
  destruct Hinv as (Hlen & Hlow & _ & Hset). auto.
Qed.

Section CLJPSites.
Context {T : Type} `{Scalar T} `{Inhabited T}.
Implicit Types st : CLJP.state T.

Lemma remove_edge_settles st k kk :
  (CLJP.splitting st).[k] = U_NODE ->
  labels_settle (CLJP.splitting st) (CLJP.splitting (CLJP.remove_edge k kk st)).
Proof.
  intros HU. unfold CLJP.remove_edge. cljp_fields.
  destruct (s_ltb _ s_one); cljp_fields.
  - apply labels_settle_set; [exact HU | right; reflexivity].
  - apply labels_settle_refl.
Qed.

Lemma p5_edge_settles Sj st jj :
  labels_settle (CLJP.splitting st) (CLJP.splitting (CLJP.p5_edge Sj jj st)).
Proof.
  unfold CLJP.p5_edge.
  destruct (Z.eqb_spec (CLJP.splitting st).[Sj.[jj]] U_NODE) as [HU|];
    [| apply labels_settle_refl].
  destruct (negb _); [| apply labels_settle_refl]. cbn [andb].
  apply remove_edge_settles, HU.
Qed.

Lemma p6_edge_settles Sj st c kk :
  labels_settle (CLJP.splitting st) (CLJP.splitting (CLJP.p6_edge Sj c kk st)).
Proof.
  unfold CLJP.p6_edge.
  destruct (Z.eqb_spec (CLJP.splitting st).[Sj.[kk]] U_NODE) as [HU|];
    [| apply labels_settle_refl].
  destruct (negb _); [| apply labels_settle_refl]. cbn [andb].
  destruct (_ =? c); [| apply labels_settle_refl].
  apply remove_edge_settles, HU.
Qed.

Lemma finish_settles n Sp st :
  Z.of_nat (length (CLJP.splitting st)) = n ->
  labels_settle (CLJP.splitting st) (CLJP.splitting (CLJP.finish n Sp st))
  /\ length (CLJP.splitting (CLJP.finish n Sp st)) = length (CLJP.splitting st)
  /\ forall i, 0 <= i < n ->
       (CLJP.splitting (CLJP.finish n Sp st)).[i]
       = if (CLJP.splitting st).[i] =? U_NODE then F_NODE
         else (CLJP.splitting st).[i].
Proof.
  intros Hlen. unfold CLJP.finish. cljp_fields.
  destruct (settle_rest_spec n (CLJP.splitting st) ltac:(lia)) as (Hl & Hv & Hs).
  auto.
Qed.

End CLJPSites.

(** C3.  In [cljp_naive_splitting] on a well-formed S and T, over a scalar
    type whose [<] is a strict partial order: on entry to the selection loop
    [unassigned] is the number of U nodes (the invariant [cljp_inv]); every
    iteration entered with [unassigned > 0] keeps the invariant and strictly
    lowers [unassigned], so also the number of U nodes; and the loop ends
    within [n] iterations, with [unassigned = 0], and the kernel returns. *)
Theorem cljp_selection_loop_terminates :
  forall (T : Type) (ST : Scalar T) (IT : Inhabited T),
    ltb_strict_order T ->
    forall n Sp Sj Tp Tj splitting0 colorflag ext,
      csr_ok n Sp Sj -> csr_ok n Tp Tj ->
      Z.of_nat (length splitting0) = n ->
      let st0 := CLJP.init (T:=T) n Sp Sj splitting0 colorflag ext in
      cljp_inv n st0
      /\ (forall st : CLJP.state T,
            cljp_inv n st -> 0 < CLJP.unassigned st ->
            let st' := CLJP.selection_pass n Sp Sj Tp Tj st in
            cljp_inv n st'
            /\ 0 <= CLJP.unassigned st' < CLJP.unassigned st
            /\ count_label U_NODE n (CLJP.splitting st')
               < count_label U_NODE n (CLJP.splitting st))
      /\ (exists st',
            CLJP.selection_loop (Z.to_nat n) n Sp Sj Tp Tj st0 = Some st'
            /\ CLJP.unassigned st' = 0
            /\ count_label U_NODE n (CLJP.splitting st') = 0)
      /\ (exists s,
            CLJP.cljp_naive_splitting (T:=T) (Z.to_nat n) n Sp Sj Tp Tj
              splitting0 colorflag ext = Some s).
Proof.
  intros T ST IT Hord n Sp Sj Tp Tj splitting0 colorflag ext HS HT Hlen st0.
  pose proof (init_inv n Sp Sj splitting0 colorflag ext Hlen) as Hinit.
  fold st0 in Hinit.
  split; [exact Hinit |]. split.
  { intros st Hinv Hpos st'.
    destruct (pass_progress n Sp Sj Tp Tj HS HT Hord st Hinv Hpos) as [Hinv' Hlt].
    split; [exact Hinv' |]. split; [exact Hlt |].
    destruct Hinv as (_ & _ & _ & _ & Hun).
    destruct Hinv' as (_ & _ & _ & _ & Hun').
    fold st' in Hun', Hlt. rewrite <- Hun, <- Hun'. lia. }
  destruct (selection_loop_terminates n Sp Sj Tp Tj HS HT Hord (Z.to_nat n) st0
              Hinit) as (st' & Hrun & Hinv' & Hz).
  { destruct Hinit as (_ & _ & _ & _ & Hun). unfold st0 at 1, CLJP.init.
    cljp_fields. lia. }
  split.
  - exists st'. split; [exact Hrun |]. split; [exact Hz |].
    destruct Hinv' as (_ & _ & _ & _ & Hun'). lia.
  - unfold CLJP.cljp_naive_splitting. fold st0. rewrite Hrun. eauto.
Qed.

(** Reads of closed arrays at closed positions, evaluated. *)
Ltac eval_reads :=
  repeat match goal with
         | |- context [@get ?A ?I ?l ?i] =>
             let v := eval vm_compute in (@get A I l i) in
             change (@get A I l i) with v
         end.

Lemma csr_ok_two_cycle : csr_ok 2 [0; 1; 2] [1; 0].
Proof.
  split.
  - intros i Hi. assert (Hc : i = 0 \/ i = 1) by lia.
    destruct Hc as [-> | ->]; eval_reads; cbn [length]; lia.
  - intros jj Hjj. cbn [length] in Hjj. assert (Hc : jj = 0 \/ jj = 1) by lia.
    destruct Hc as [-> | ->]; eval_reads; lia.
Qed.

(** [cljp_selection_loop_terminates] on the graph of one edge 0 - 1, over
    the rationals, with the random seeds 0.3 and 0.7. *)
Lemma cljp_selection_loop_terminates_witness :
  ltb_strict_order Q
  /\ csr_ok 2 [0; 1; 2] [1; 0]
  /\ exists s,
       CLJP.cljp_naive_splitting (T:=Q) 2 2 [0; 1; 2] [1; 0] [0; 1; 2] [1; 0]
         [0; 0] 0
         {| CLJP.mis_coloring := []; CLJP.rand_sequence := [3; 7];
            CLJP.RAND_MAX := 10 |}
       = Some s.
Proof.
  split; [exact Q_ltb_strict_order |]. split; [exact csr_ok_two_cycle |].
  exact (proj2 (proj2 (proj2
           (cljp_selection_loop_terminates Q _ _ Q_ltb_strict_order
              2 [0; 1; 2] [1; 0] [0; 1; 2] [1; 0] [0; 0] 0
              {| CLJP.mis_coloring := []; CLJP.rand_sequence := [3; 7];
                 CLJP.RAND_MAX := 10 |}
              csr_ok_two_cycle csr_ok_two_cycle eq_refl)))).
Defined.

(** C10.  In [cljp_naive_splitting] on a well-formed S and T a label, once
    C or F, stays: the states at the head of the selection loop satisfy
    [cljp_inv]; a pass changes a label only from U to C or F; the same holds
    of each place that stores a label (the promotion of the [k]-th listed
    node finds it U; an edge removal of P5 or P6 and the final sweep store F
    over U only); and so from any loop-head state to the array the kernel
    returns. *)
Theorem cljp_labels_only_settle :
  forall (T : Type) (ST : Scalar T) (IT : Inhabited T) n Sp Sj Tp Tj,
    csr_ok n Sp Sj -> csr_ok n Tp Tj ->
    (forall splitting0 colorflag ext,
       Z.of_nat (length splitting0) = n ->
       cljp_inv n (CLJP.init (T:=T) n Sp Sj splitting0 colorflag ext))
    /\ (forall st : CLJP.state T,
          cljp_inv n st ->
          let st' := CLJP.selection_pass n Sp Sj Tp Tj st in
          cljp_inv n st'
          /\ labels_settle (CLJP.splitting st) (CLJP.splitting st'))
    /\ (forall (st : CLJP.state T) k,
          cljp_inv n st ->
          let sel := for_range 0 n (CLJP.select_node Sp Sj Tp Tj)
                       (CLJP.set_nD 0 (CLJP.set_pass (CLJP.pass st + 1) st)) in
          0 <= k < CLJP.nD sel ->
          let sk := for_range 0 k CLJP.promote sel in
          (CLJP.splitting sk).[(CLJP.Dlist sk).[k]] = U_NODE)
    /\ (forall (st : CLJP.state T) jj,
          labels_settle (CLJP.splitting st)
            (CLJP.splitting (CLJP.p5_edge Sj jj st)))
    /\ (forall (st : CLJP.state T) c kk,
          labels_settle (CLJP.splitting st)
            (CLJP.splitting (CLJP.p6_edge Sj c kk st)))
    /\ (forall (st : CLJP.state T) fuel st',
          cljp_inv n st ->
          CLJP.selection_loop fuel n Sp Sj Tp Tj st = Some st' ->
          labels_settle (CLJP.splitting st) (CLJP.splitting st')
          /\ labels_settle (CLJP.splitting st')
               (CLJP.splitting (CLJP.finish n Sp st'))).
Proof.
  intros T ST IT n Sp Sj Tp Tj HS HT.
  split; [intros; apply init_inv; assumption |].
  split.
  { intros st Hinv st'.
    pose proof (pass_inv n Sp Sj Tp Tj HS HT st Hinv) as Hp. cbv zeta in Hp.
    destruct Hp as (Hinv' & _ & Hset). split; assumption. }
  split.
  { intros st k Hinv sel Hk sk.
    pose proof (cljp_inv_nonneg n st Hinv) as [Hn _].
    assert (Hinv1 : cljp_inv n (CLJP.set_pass (CLJP.pass st + 1) st)) by exact Hinv.
    pose proof Hinv1 as (_ & HlD & HlDl & _).
    pose proof (select_loop_spec n Sp Sj Tp Tj _ Hn HlD HlDl) as Hsel.
    fold sel in Hsel.
    pose proof (promote_prefix n Sp Sj Tp Tj _ sel k Hinv1 Hsel ltac:(lia)) as Hp.
    cbv zeta in Hp. fold sk in Hp.
    destruct Hp as (HDl & _ & _ & _ & _ & _ & HU & _).
    rewrite HDl. apply HU. lia. }
  split; [intros; apply p5_edge_settles |].
  split; [intros; apply p6_edge_settles |].
  intros st fuel st' Hinv Hrun.
  destruct (selection_loop_result n Sp Sj Tp Tj HS HT fuel st st' Hinv Hrun)
    as (Hinv' & _ & Hset).
  split; [exact Hset |].
  apply finish_settles. destruct Hinv' as (Hlen & _). exact Hlen.
Qed.

(** [cljp_labels_only_settle] on the graph of one edge 0 - 1: the entry
    state satisfies the invariant. *)
Lemma cljp_labels_only_settle_witness :
  csr_ok 2 [0; 1; 2] [1; 0]
  /\ cljp_inv 2
       (CLJP.init (T:=Q) 2 [0; 1; 2] [1; 0] [0; 0] 0
          {| CLJP.mis_coloring := []; CLJP.rand_sequence := [3; 7];
             CLJP.RAND_MAX := 10 |}).
Proof.
  split; [exact csr_ok_two_cycle |].
  exact (proj1 (cljp_labels_only_settle Q _ _ 2 [0; 1; 2] [1; 0] [0; 1; 2] [1; 0]
                  csr_ok_two_cycle csr_ok_two_cycle)
           [0; 0] 0
           {| CLJP.mis_coloring := []; CLJP.rand_sequence := [3; 7];
              CLJP.RAND_MAX := 10 |} eq_refl).
Defined.

(** ** Approximate ideal restriction: the rows of R *)

(** Changing the test at one index that passed it lowers the count by one. *)
Lemma count_in_range_drop_one p q lo hi j :
  lo <= j < hi -> p j = true -> q j = false ->
  (forall i, lo <= i < hi -> i <> j -> q i = p i) ->
  count_in_range q lo hi = count_in_range p lo hi - 1.
Proof.
  intros Hj Hp Hq Hsame.
  rewrite (count_in_range_split q lo j hi), (count_in_range_split p lo j hi) by lia.
  rewrite (count_in_range_split q j (j + 1) hi),
          (count_in_range_split p j (j + 1) hi) by lia.
  rewrite !count_in_range_single, Hp, Hq.
  rewrite (count_in_range_ext q p lo j) by (intros; apply Hsame; lia).
  rewrite (count_in_range_ext q p (j + 1) hi) by (intros; apply Hsame; lia).
  lia.
Qed.

Lemma get_fmap {A B} `{Inhabited A} `{Inhabited B} (f : A -> B) (l : list A) i :
  0 <= i < Z.of_nat (length l) -> (f <$> l).[i] = f l.[i].
Proof.
  intros Hi. unfold get. destruct (Z.leb_spec 0 i); [| lia].
  apply list_lookup_total_fmap. lia.
Qed.

Lemma NoDup_get {A} `{Inhabited A} (l : list A) i j :
  NoDup l -> 0 <= i < Z.of_nat (length l) -> 0 <= j < Z.of_nat (length l) ->
  l.[i] = l.[j] -> i = j.
Proof.
  intros Hnd Hi Hj Heq.
  pose proof (get_lookup l i Hi) as Hli. pose proof (get_lookup l j Hj) as Hlj.
  rewrite Heq in Hli.
  pose proof (NoDup_lookup l _ _ _ Hnd Hli Hlj). lia.
Qed.

Section AIRNeighborhood.
Context {T : Type} `{Scalar T} `{Inhabited T}.
Variables (C_colinds : list Z) (splitting : list Z).
Hypothesis zero_is_weak : s_gtb (mynorm s_zero) literal_1em16 = false.

Abbreviation strongF d := (AIR.strong_F_entry C_colinds d splitting).

(** The test looks at the data only at its own position. *)
Lemma strong_F_entry_same (d d' : list T) i :
  d'.[i] = d.[i] -> strongF d' i = strongF d i.
Proof. intros Heq. unfold AIR.strong_F_entry. rewrite Heq. reflexivity. Qed.

Lemma strong_F_entry_zeroed (d : list T) i :
  0 <= i < Z.of_nat (length d) -> strongF (d.[i <- s_zero]) i = false.
Proof.
  intros Hi. unfold AIR.strong_F_entry. rewrite get_set_eq by exact Hi.
  rewrite zero_is_weak. apply andb_false_r.
Qed.

(** The neighbourhood of a row: one pair per entry that passes the test,
    at distinct positions of the row. *)
Lemma neighborhood_spec C_rowptr (d : list T) cpoint :
  let lo := C_rowptr.[cpoint] in
  let hi := C_rowptr.[cpoint + 1] in
  let nb := AIR.neighborhood C_rowptr C_colinds d splitting cpoint in
  Z.of_nat (length nb) = count_in_range (strongF d) lo hi
  /\ Forall (fun x => lo <= fst x < hi /\ strongF d (fst x) = true) nb
  /\ NoDup (fst <$> nb).
Proof.
  cbv zeta. unfold AIR.neighborhood.
  set (lo := C_rowptr.[cpoint]). set (hi := C_rowptr.[cpoint + 1]).
  destruct (Z.le_gt_cases lo hi) as [Hle|Hgt].
  2:{ rewrite for_range_empty, count_in_range_empty by lia.
      split; [reflexivity |]. split; constructor. }
  loop_invariant
    (fun k (nb : list (Z * T)) =>
       Z.of_nat (length nb) = count_in_range (strongF d) lo k
       /\ Forall (fun x => lo <= fst x < k /\ strongF d (fst x) = true) nb
       /\ NoDup (fst <$> nb)) as Hinv.
  { exact Hle. }
  { rewrite count_in_range_empty by lia. split; [reflexivity |].
    split; constructor. }
  { intros k nb Hk (Hlen & Hall & Hnd).
    rewrite count_in_range_last by lia.
    assert (Hall' : Forall
              (fun x => lo <= fst x < k + 1 /\ strongF d (fst x) = true) nb).
    { eapply Forall_impl; [exact Hall |]. intros x [Hx Hs]. split; [lia | exact Hs]. }
    destruct (strongF d k) eqn:Hs.
    - rewrite length_app. cbn [length]. split; [lia |]. split.
      + apply Forall_app. split; [exact Hall' |].
        constructor; [| constructor]. cbn [fst]. split; [lia | exact Hs].
      + rewrite fmap_app. apply NoDup_app. split; [exact Hnd |].
        split; [| apply NoDup_singleton].
        intros x Hx Hx'. apply list_elem_of_singleton in Hx'. cbn in Hx'. subst x.
        apply list_elem_of_fmap in Hx as (y & Hy & Hin).
        rewrite Forall_forall in Hall. destruct (Hall y Hin) as [Hr _]. lia.
    - split; [lia |]. split; [exact Hall' | exact Hnd]. }
  exact Hinv.
Qed.

(** The truncation of a row to [max_row] entries: the positions zeroed are
    positions of the row that passed the test, so exactly [max_row] of them
    pass it afterwards, and nothing outside the row changes. *)
Lemma truncate_row_spec (std_sort : list (Z * T) -> list (Z * T))
    C_rowptr (d : list T) cpoint max_row :
  (forall l, Permutation (std_sort l) l) ->
  0 <= max_row ->
  let lo := C_rowptr.[cpoint] in
  let hi := C_rowptr.[cpoint + 1] in
  0 <= lo -> hi <= Z.of_nat (length d) ->
  let nb := AIR.neighborhood C_rowptr C_colinds d splitting cpoint in
  let d' := AIR.truncate_row std_sort max_row nb d in
  length d' = length d
  /\ (forall pos, pos < lo \/ hi <= pos -> d'.[pos] = d.[pos])
  /\ count_in_range (strongF d') lo hi
     = Z.min (count_in_range (strongF d) lo hi) max_row.
Proof.
  intros Hsort Hmax lo hi Hlo Hhi nb d'.
  destruct (neighborhood_spec C_rowptr d cpoint) as (Hlen & Hall & Hnd).
  fold lo hi nb in Hlen, Hall, Hnd.
  unfold d', AIR.truncate_row.
  destruct (Z.gtb_spec (Z.of_nat (length nb)) max_row) as [Hbig|Hsmall].
  2:{ split; [reflexivity |]. split; [reflexivity | lia]. }
  set (sorted := std_sort nb).
  assert (Hperm : Permutation sorted nb) by apply Hsort.
  assert (Hslen : length sorted = length nb) by (apply Permutation_length, Hperm).
  assert (Hsall : Forall (fun x => lo <= fst x < hi /\ strongF d (fst x) = true)
                    sorted).
  { rewrite Hperm. exact Hall. }
  assert (Hsnd : NoDup (fst <$> sorted)) by (rewrite Hperm; exact Hnd).
  assert (Hentry : forall i, 0 <= i < Z.of_nat (length nb) ->
            lo <= fst sorted.[i] < hi /\ strongF d (fst sorted.[i]) = true).
  { intros i Hi. rewrite Forall_forall in Hsall. apply Hsall, get_elem_of. lia. }
  assert (Hdistinct : forall i j, 0 <= i < Z.of_nat (length nb) ->
            0 <= j < Z.of_nat (length nb) ->
            fst sorted.[i] = fst sorted.[j] -> i = j).
  { intros i j Hi Hj Heq.
    apply (NoDup_get (fst <$> sorted)); rewrite ?length_fmap; try lia;
      [exact Hsnd |].
    rewrite !get_fmap by lia. exact Heq. }
  loop_invariant
    (fun k (dk : list T) =>
       length dk = length d
       /\ (forall pos, pos < lo \/ hi <= pos -> dk.[pos] = d.[pos])
       /\ (forall i, k <= i < Z.of_nat (length nb) ->
             dk.[fst sorted.[i]] = d.[fst sorted.[i]])
       /\ count_in_range (strongF dk) lo hi
          = count_in_range (strongF d) lo hi - (k - max_row)) as Hinv.
  { lia. }
  { split; [reflexivity |]. split; [reflexivity |]. split; [reflexivity | lia]. }
  { intros k dk Hk (Hl & Hout & Hrest & Hcnt).
    destruct (Hentry k ltac:(lia)) as [Hpos Hstrong].
    rewrite length_set. split; [exact Hl |]. split; [| split].
    - intros pos Hp. rewrite get_set_ne by lia. apply Hout, Hp.
    - intros i Hi. rewrite get_set_ne; [apply Hrest; lia |].
      intros Heq. apply Hdistinct in Heq; lia.
    - rewrite (count_in_range_drop_one (strongF dk) _ lo hi (fst sorted.[k]));
        [lia | exact Hpos | | | ].
      + rewrite (strong_F_entry_same d dk) by (apply Hrest; lia). exact Hstrong.
      + apply strong_F_entry_zeroed. lia.
      + intros i Hi Hne. apply strong_F_entry_same. apply get_set_ne. lia. }
  destruct Hinv as (Hl & Hout & _ & Hcnt).
  split; [exact Hl |]. split; [exact Hout | lia].
Qed.

End AIRNeighborhood.

Lemma csr_rows_ordered n Xp Xj a b :
  csr_ok n Xp Xj -> 0 <= a < b -> b < n -> Xp.[a + 1] <= Xp.[b].
Proof.
  intros [Hrows _] Hab Hb.
  apply (Z_range_ind (fun k => Xp.[a + 1] <= Xp.[k]) (a + 1) b); [lia | lia |].
  intros k Hk IH. destruct (Hrows k ltac:(lia)). lia.
Qed.

Section AIRPass1.
Context {T : Type} `{Scalar T} `{Inhabited T}.
Variable std_sort : list (Z * T) -> list (Z * T).
Hypothesis std_sort_perm : forall l, Permutation (std_sort l) l.
Hypothesis zero_is_weak : s_gtb (mynorm s_zero) literal_1em16 = false.
Variables (n : Z) (C_rowptr C_colinds : list Z) (C_data : list T).
Variables (Cpts splitting : list Z) (max_row : Z).
Hypothesis C_ok : csr_ok n C_rowptr C_colinds.
Hypothesis C_data_len : length C_data = length C_colinds.
Hypothesis Cpts_ok : cpts_ok n Cpts.
Hypothesis max_row_nonneg : 0 <= max_row.

Abbreviation n_c := (Z.of_nat (length Cpts)).
Abbreviation Nf d r := (strong_F_count C_rowptr C_colinds d splitting Cpts.[r]).

(** The rows of two different C-points share no position. *)
Lemma cpoint_rows_disjoint r r' pos :
  0 <= r < n_c -> 0 <= r' < n_c -> r <> r' ->
  C_rowptr.[Cpts.[r]] <= pos < C_rowptr.[Cpts.[r] + 1] ->
  pos < C_rowptr.[Cpts.[r']] \/ C_rowptr.[Cpts.[r'] + 1] <= pos.
Proof.
  intros Hr Hr' Hne Hpos. destruct Cpts_ok as [Hrange Hdist].
  pose proof (Hrange r Hr). pose proof (Hrange r' Hr').
  assert (Hcp : Cpts.[r] <> Cpts.[r']).
  { destruct (Z.lt_ge_cases r r'); [apply Hdist; lia |].
    intros Heq. symmetry in Heq. revert Heq. apply Hdist; lia. }
  destruct (Z.lt_ge_cases Cpts.[r] Cpts.[r']).
  - left. pose proof (csr_rows_ordered n _ _ Cpts.[r] Cpts.[r'] C_ok). lia.
  - right. pose proof (csr_rows_ordered n _ _ Cpts.[r'] Cpts.[r] C_ok). lia.
Qed.

(** What pass 1 leaves: the row pointer of R, and in the data of C, for
    every C-point, exactly [min(|N_f|, max_row)] entries that pass the
    test. *)
Lemma air_pass1_spec rowptr0 :
  n_c + 1 <= Z.of_nat (length rowptr0) ->
  let out := AIR.approx_ideal_restriction_pass1 std_sort rowptr0 C_rowptr
               C_colinds C_data Cpts splitting max_row in
  length (snd out) = length C_data
  /\ (fst out).[0] = 0
  /\ (forall r, 0 <= r < n_c ->
        (fst out).[r + 1] = (fst out).[r] + (1 + Z.min (Nf C_data r) max_row))
  /\ (forall r, 0 <= r < n_c -> Nf (snd out) r = Z.min (Nf C_data r) max_row).
Proof.
  intros Hlen. cbv zeta. unfold AIR.approx_ideal_restriction_pass1.
  loop_invariant
    (fun k (st : Z * list Z * list T) =>
       length (snd st) = length C_data
       /\ length (snd (fst st)) = length rowptr0
       /\ (snd (fst st)).[k] = fst (fst st)
       /\ (snd (fst st)).[0] = 0
       /\ (forall r, 0 <= r < k ->
             (snd (fst st)).[r + 1]
             = (snd (fst st)).[r] + (1 + Z.min (Nf C_data r) max_row))
       /\ (forall r, 0 <= r < k -> Nf (snd st) r = Z.min (Nf C_data r) max_row)
       /\ (forall r pos, k <= r < n_c ->
             C_rowptr.[Cpts.[r]] <= pos < C_rowptr.[Cpts.[r] + 1] ->
             (snd st).[pos] = C_data.[pos])) as Hinv.
  { lia. }
  { cbn [fst snd]. rewrite length_set, get_set_eq by lia.
    repeat (split; [first [reflexivity | intros; lia] |]). reflexivity. }
  { intros k [[nnz rowptr] d] Hk (Hld & Hlr & Hcur & H0' & Hptr & Hcnt & Hrest).
    cbn [fst snd] in *. unfold AIR.pass1_row.
    destruct Cpts_ok as [Hrange _]. pose proof (Hrange k Hk) as Hcp.
    destruct C_ok as [Hrows _]. destruct (Hrows _ Hcp) as [Hrow Hrow'].
    set (cp := Cpts.[k]) in *.
    destruct (neighborhood_spec C_colinds splitting C_rowptr d cp)
      as (Hnb & _ & _).
    pose proof (truncate_row_spec C_colinds splitting zero_is_weak std_sort
                  C_rowptr d cp max_row std_sort_perm max_row_nonneg
                  ltac:(lia) ltac:(lia)) as Htr.
    cbv zeta in Htr.
    set (nb := AIR.neighborhood C_rowptr C_colinds d splitting cp) in *.
    set (d' := AIR.truncate_row std_sort max_row nb d) in *.
    destruct Htr as (Hld' & Hout & Hcnt').
    assert (Hsame : count_in_range (AIR.strong_F_entry C_colinds d splitting)
                      C_rowptr.[cp] C_rowptr.[cp + 1] = Nf C_data k).
    { unfold strong_F_count. apply count_in_range_ext. intros jj Hjj.
      apply strong_F_entry_same. apply (Hrest k); [lia | exact Hjj]. }
    rewrite Hsame in Hnb, Hcnt'. rewrite Hnb.
    cbn [fst snd]. rewrite length_set.
    split; [congruence |]. split; [exact Hlr |].
    split; [apply get_set_eq; lia |].
    split; [rewrite get_set_ne by lia; exact H0' |].
    split; [| split].
    - intros r Hr. destruct (Z.eq_dec r k) as [->|Hne].
      + rewrite get_set_eq, get_set_ne by lia. lia.
      + rewrite !get_set_ne by lia. apply Hptr. lia.
    - intros r Hr. destruct (Z.eq_dec r k) as [->|Hne]; [exact Hcnt' |].
      rewrite <- (Hcnt r) by lia. unfold strong_F_count.
      apply count_in_range_ext. intros jj Hjj.
      apply strong_F_entry_same, Hout.
      apply (cpoint_rows_disjoint r k); (lia || assumption).
    - intros r pos Hr Hpos. rewrite Hout; [apply (Hrest r); (lia || assumption) |].
      apply (cpoint_rows_disjoint r k); (lia || assumption). }
  destruct (for_range 0 n_c _ _) as [[nnz rowptr] d]. cbn [fst snd] in *.
  destruct Hinv as (Hld & _ & _ & H0' & Hptr & Hcnt & _).
  repeat (split; [assumption |]). exact Hcnt.
Qed.

End AIRPass1.

Section AIRPass2.
Context {T : Type} `{Scalar T} `{Inhabited T}.
Variable least_squares : list T -> list T -> Z -> Z -> bool -> list T.
Variables (A_rowptr A_colinds : list Z) (A_data : list T).
Variables (C_rowptr C_colinds : list Z) (C_data : list T).
Variables (Cpts splitting rowptr : list Z).

(** The column indices of a row are written from [ind] on, one per entry
    that passes the test. *)
Lemma fill_colinds_spec cpoint ind (colinds : list Z) :
  let out := AIR.fill_colinds C_rowptr C_colinds C_data splitting cpoint ind
               colinds in
  fst out = ind + strong_F_count C_rowptr C_colinds C_data splitting cpoint
  /\ length (snd out) = length colinds
  /\ (forall pos, pos < ind \/ fst out <= pos -> (snd out).[pos] = colinds.[pos]).
Proof.
  cbv zeta. unfold AIR.fill_colinds, strong_F_count.
  set (lo := C_rowptr.[cpoint]). set (hi := C_rowptr.[cpoint + 1]).
  destruct (Z.le_gt_cases lo hi) as [Hle|Hgt].
  2:{ rewrite for_range_empty, count_in_range_empty by lia. cbn [fst snd].
      split; [lia |]. split; reflexivity. }
  loop_invariant
    (fun k (st : Z * list Z) =>
       fst st = ind + count_in_range
                        (AIR.strong_F_entry C_colinds C_data splitting) lo k
       /\ length (snd st) = length colinds
       /\ (forall pos, pos < ind \/ fst st <= pos ->
             (snd st).[pos] = colinds.[pos])) as Hinv.
  { exact Hle. }
  { rewrite count_in_range_empty by lia. cbn [fst snd].
    split; [lia |]. split; reflexivity. }
  { intros k [ind' cols] Hk (Hind & Hl & Hout). cbn [fst snd] in *.
    rewrite count_in_range_last by lia.
    pose proof (count_in_range_nonneg
                  (AIR.strong_F_entry C_colinds C_data splitting) lo k).
    destruct (AIR.strong_F_entry C_colinds C_data splitting k); cbn [fst snd].
    - rewrite length_set. split; [lia |]. split; [exact Hl |].
      intros pos Hp. rewrite get_set_ne by lia. apply Hout. lia.
    - split; [lia |]. split; [exact Hl |]. intros pos Hp. apply Hout. lia. }
  exact Hinv.
Qed.

Lemma store_solution_spec off m (x data : list T) :
  let data' := AIR.store_solution off m x data in
  length data' = length data
  /\ (forall pos, pos < off \/ off + m <= pos -> data'.[pos] = data.[pos]).
Proof.
  cbv zeta. unfold AIR.store_solution.
  apply (for_range_preserves
           (fun dk : list T =>
              length dk = length data
              /\ forall pos, pos < off \/ off + m <= pos -> dk.[pos] = data.[pos])).
  - split; reflexivity.
  - intros t dk Ht [Hl Hout]. rewrite length_set. split; [exact Hl |].
    intros pos Hp. rewrite get_set_ne by lia. apply Hout, Hp.
Qed.

(** One row of pass 2 writes positions from [rowptr[row]] up to the
    identity entry, which it places right after the F-neighbours. *)
Lemma pass2_row_spec row (colinds : list Z) (data : list T) :
  let cp := Cpts.[row] in
  let last := rowptr.[row]
              + strong_F_count C_rowptr C_colinds C_data splitting cp in
  0 <= last < Z.of_nat (length colinds) -> last < Z.of_nat (length data) ->
  let out := AIR.pass2_row least_squares rowptr A_rowptr A_colinds A_data
               C_rowptr C_colinds C_data Cpts splitting row (colinds, data) in
  length (fst out) = length colinds /\ length (snd out) = length data
  /\ (fst out).[last] = cp /\ (snd out).[last] = s_one
  /\ (forall pos, pos < rowptr.[row] \/ last < pos ->
        (fst out).[pos] = colinds.[pos] /\ (snd out).[pos] = data.[pos]).
Proof.
  intros cp last Hlast Hlast'. cbv zeta. unfold AIR.pass2_row. fold cp.
  assert (Hge : rowptr.[row] <= last).
  { unfold last, strong_F_count.
    pose proof (count_in_range_nonneg
                  (AIR.strong_F_entry C_colinds C_data splitting)
                  C_rowptr.[cp] C_rowptr.[cp + 1]). lia. }
  pose proof (fill_colinds_spec cp rowptr.[row] colinds) as Hfill.
  cbv zeta in Hfill.
  destruct (AIR.fill_colinds C_rowptr C_colinds C_data splitting cp
              rowptr.[row] colinds) as [ind cols].
  cbn [fst snd] in Hfill. destruct Hfill as (Hind & Hlc & Hcout).
  fold last in Hind. subst ind.
  match goal with |- context [AIR.store_solution ?off ?m ?x data] =>
    pose proof (store_solution_spec off m x data) as Hst; cbv zeta in Hst;
    set (data' := AIR.store_solution off m x data) in *
  end.
  destruct Hst as (Hld & Hdout). cbn [fst snd].
  rewrite !length_set, !get_set_eq by lia.
  repeat (split; [first [assumption | reflexivity] |]).
  intros pos Hp. rewrite !get_set_ne by lia.
  split; [apply Hcout; lia | apply Hdout; lia].
Qed.

End AIRPass2.

Lemma insert_by_second_perm {T} `{Scalar T} (p : Z * T) (l : list (Z * T)) :
  Permutation (insert_by_second p l) (p :: l).
Proof.
  induction l as [|q l IH]; cbn [insert_by_second]; [reflexivity |].
  destruct (s_ltb (snd q) (snd p)); [| reflexivity].
  rewrite IH. apply perm_swap.
Qed.

Lemma insertion_sort_perm {T} `{Scalar T} (l : list (Z * T)) :
  Permutation (insertion_sort l) l.
Proof.
  induction l as [|p l IH]; cbn; [reflexivity |].
  rewrite insert_by_second_perm. constructor. exact IH.
Qed.

(** C6.  Take a well-formed strength matrix C on [n] nodes, a list [Cpts]
    of distinct nodes, [max_row >= 0], any [std::sort] that permutes its
    input, any [least_squares], and output arrays long enough.  After
    [approx_ideal_restriction_pass1] and then [approx_ideal_restriction_pass2]
    (run on the row pointer and on the data of C that pass 1 leaves), every
    row of R has [min(|N_f|, max_row) + 1] entries, [N_f] being the entries
    of the C-point's row of the given C with an F-node column and magnitude
    above 1e-16, and the last entry of the row is the C-point's own column
    with the value 1. *)
Theorem air_rows_have_neighbourhood_and_identity :
  forall (T : Type) (ST : Scalar T) (IT : Inhabited T)
         (std_sort : list (Z * T) -> list (Z * T))
         (least_squares : list T -> list T -> Z -> Z -> bool -> list T),
    (forall l, Permutation (std_sort l) l) ->
    s_gtb (mynorm s_zero) literal_1em16 = false ->
    forall n (A_rowptr A_colinds : list Z) (A_data : list T)
           (C_rowptr C_colinds : list Z) (C_data : list T)
           (Cpts splitting : list Z) (max_row : Z)
           (rowptr0 colinds0 : list Z) (data0 : list T),
      csr_ok n C_rowptr C_colinds ->
      length C_data = length C_colinds ->
      cpts_ok n Cpts ->
      0 <= max_row ->
      Z.of_nat (length Cpts) + 1 <= Z.of_nat (length rowptr0) ->
      let pass1 := AIR.approx_ideal_restriction_pass1 std_sort rowptr0 C_rowptr
                     C_colinds C_data Cpts splitting max_row in
      let rowptr := fst pass1 in
      rowptr.[Z.of_nat (length Cpts)] <= Z.of_nat (length colinds0) ->
      rowptr.[Z.of_nat (length Cpts)] <= Z.of_nat (length data0) ->
      let R := AIR.approx_ideal_restriction_pass2 least_squares rowptr colinds0
                 data0 A_rowptr A_colinds A_data C_rowptr C_colinds (snd pass1)
                 Cpts splitting in
      forall row, 0 <= row < Z.of_nat (length Cpts) ->
        let cp := Cpts.[row] in
        rowptr.[row + 1] - rowptr.[row]
        = Z.min (strong_F_count C_rowptr C_colinds C_data splitting cp) max_row + 1
        /\ (fst R).[rowptr.[row + 1] - 1] = cp
        /\ (snd R).[rowptr.[row + 1] - 1] = s_one.
Proof.
  intros T ST IT std_sort least_squares Hsort Hzero n A_rowptr A_colinds A_data
    C_rowptr C_colinds C_data Cpts splitting max_row rowptr0 colinds0 data0
    HC HCd HCpts Hmax Hlen pass1 rowptr Hcols Hdata R.
  pose proof (air_pass1_spec std_sort Hsort Hzero n C_rowptr C_colinds C_data
                Cpts splitting max_row HC HCd HCpts Hmax rowptr0 Hlen) as Hp1.
  cbv zeta in Hp1. fold pass1 in Hp1. fold rowptr in Hp1.
  destruct Hp1 as (Hld & Hr0 & Hnext & Hcnt).
  set (n_c := Z.of_nat (length Cpts)) in *.
  pose (cnt := fun r =>
          Z.min (strong_F_count C_rowptr C_colinds C_data splitting Cpts.[r])
            max_row).
  assert (Hnext' : forall r, 0 <= r < n_c ->
            rowptr.[r + 1] = rowptr.[r] + (1 + cnt r)) by exact Hnext.
  assert (Hcnt' : forall r, 0 <= r < n_c ->
            strong_F_count C_rowptr C_colinds (snd pass1) splitting Cpts.[r]
            = cnt r) by exact Hcnt.
  clear Hnext Hcnt.
  assert (Hcnt_nonneg : forall r, 0 <= cnt r).
  { intros r. unfold cnt, strong_F_count.
    pose proof (count_in_range_nonneg
                  (AIR.strong_F_entry C_colinds C_data splitting)
                  C_rowptr.[Cpts.[r]] C_rowptr.[Cpts.[r] + 1]). lia. }
  assert (Hmono : forall a b, 0 <= a <= b -> b <= n_c ->
            0 <= rowptr.[a] <= rowptr.[b]).
  { intros a b Hab Hb.
    assert (Hpos : forall j, 0 <= j <= n_c -> 0 <= rowptr.[j]).
    { intros j Hj. apply (Z_range_ind (fun j => 0 <= rowptr.[j]) 0 j);
        [lia | lia |].
      intros m Hm IH. rewrite Hnext' by lia. pose proof (Hcnt_nonneg m). lia. }
    split; [apply Hpos; lia |].
    apply (Z_range_ind (fun j => rowptr.[a] <= rowptr.[j]) a b); [lia | lia |].
    intros m Hm IH. rewrite Hnext' by lia. pose proof (Hcnt_nonneg m). lia. }
  assert (Hinv :
    (fun k (out : list Z * list T) =>
       length (fst out) = length colinds0 /\ length (snd out) = length data0
       /\ forall r, 0 <= r < k ->
            (fst out).[rowptr.[r + 1] - 1] = Cpts.[r]
            /\ (snd out).[rowptr.[r + 1] - 1] = s_one) n_c R).
  { unfold R, AIR.approx_ideal_restriction_pass2. fold n_c.
    apply for_range_invariant; [lia | |].
    - cbn [fst snd]. split; [reflexivity |]. split; [reflexivity |]. intros; lia.
    - intros k [cols dat] Hk (Hlc & Hldat & Hprev). cbn [fst snd] in *.
      pose proof (Hmono k k ltac:(lia) ltac:(lia)) as Hk0.
      pose proof (Hmono (k + 1) n_c ltac:(lia) ltac:(lia)) as Hk1.
      pose proof (Hnext' k Hk) as Hnk. pose proof (Hcnt' k Hk) as Hck.
      pose proof (Hcnt_nonneg k).
      pose proof (pass2_row_spec least_squares A_rowptr A_colinds A_data
                    C_rowptr C_colinds (snd pass1) Cpts splitting rowptr k
                    cols dat) as Hrow.
      cbv zeta in Hrow. rewrite Hck in Hrow.
      destruct Hrow as (Hlc' & Hld' & Hc & Hd & Hout); [lia | lia |].
      split; [congruence |]. split; [congruence |].
      intros r Hr. destruct (Z.eq_dec r k) as [->|Hne].
      + replace (rowptr.[k + 1] - 1) with (rowptr.[k] + cnt k) by lia.
        split; assumption.
      + pose proof (Hmono (r + 1) k ltac:(lia) ltac:(lia)).
        destruct (Hout (rowptr.[r + 1] - 1)) as [-> ->]; [left; lia |].
        apply Hprev. lia. }
  intros row Hrow cp. cbv beta in Hinv.
  destruct Hinv as (_ & _ & Hall).
  unfold cp.
  split; [rewrite (Hnext' row Hrow); unfold cnt; cbv beta; lia |].
  apply Hall, Hrow.
Qed.

Lemma csr_ok_laplacian3 : csr_ok 3 [0; 2; 5; 7] [0; 1; 0; 1; 2; 1; 2].
Proof.
  split.
  - intros i Hi. assert (Hc : i = 0 \/ i = 1 \/ i = 2) by lia.
    destruct Hc as [-> | [-> | ->]]; eval_reads; cbn [length]; lia.
  - intros jj Hjj. cbn [length] in Hjj.
    assert (Hc : jj = 0 \/ jj = 1 \/ jj = 2 \/ jj = 3 \/ jj = 4 \/ jj = 5 \/ jj = 6)
      by lia.
    destruct Hc as [-> | [-> | [-> | [-> | [-> | [-> | ->]]]]]]; eval_reads; lia.
Qed.

Lemma cpts_ok_middle : cpts_ok 3 [1].
Proof.
  split.
  - intros r Hr. cbn [length] in Hr. assert (r = 0) as -> by lia.
    eval_reads. lia.
  - intros r r' Hr Hr'. cbn [length] in Hr'. lia.
Qed.

(** [air_rows_have_neighbourhood_and_identity] on the 1D Laplacian of three
    nodes with the middle node the only C-point and [max_row = 1]: the
    C-point has two strong F-neighbours, one is dropped, and its row of R
    has 2 entries, the last of them (1, 1.0). *)
Lemma air_rows_have_neighbourhood_and_identity_witness :
  let C_rowptr := [0; 2; 5; 7] in
  let C_colinds := [0; 1; 0; 1; 2; 1; 2] in
  let C_data := [2; -1; -1; 2; -1; -1; 2]%Q in
  let splitting := [F_NODE; C_NODE; F_NODE] in
  let pass1 := AIR.approx_ideal_restriction_pass1 insertion_sort [0; 0]
                 C_rowptr C_colinds C_data [1] splitting 1 in
  let R := AIR.approx_ideal_restriction_pass2 least_squares_1x1 (fst pass1)
             [0; 0] [0; 0]%Q C_rowptr C_colinds C_data
             C_rowptr C_colinds (snd pass1) [1] splitting in
  strong_F_count C_rowptr C_colinds C_data splitting 1 = 2
  /\ (fst pass1).[0 + 1] - (fst pass1).[0]
     = Z.min (strong_F_count C_rowptr C_colinds C_data splitting 1) 1 + 1
  /\ (fst R).[(fst pass1).[0 + 1] - 1] = 1
  /\ (snd R).[(fst pass1).[0 + 1] - 1] = 1%Q.
Proof.
  cbv zeta. split; [vm_compute; reflexivity |].
  refine (air_rows_have_neighbourhood_and_identity Q _ _ insertion_sort
            least_squares_1x1 insertion_sort_perm eq_refl 3
            [0; 2; 5; 7] [0; 1; 0; 1; 2; 1; 2] [2; -1; -1; 2; -1; -1; 2]%Q
            [0; 2; 5; 7] [0; 1; 0; 1; 2; 1; 2] [2; -1; -1; 2; -1; -1; 2]%Q
            [1] [F_NODE; C_NODE; F_NODE] 1 [0; 0] [0; 0] [0; 0]%Q
            csr_ok_laplacian3 eq_refl cpts_ok_middle _ _ _ _ 0 _).
  - lia.
  - cbn [length]. lia.
  - vm_compute. discriminate.
  - vm_compute. discriminate.
  - cbn [length]. lia.
Defined.

(** ** Ruge-Stuben splitting: the bucket table *)

(** Reads of updated arrays. *)
Ltac simpl_get :=
  repeat first
    [ rewrite get_set_eq by (rewrite ?length_set; lia)
    | rewrite get_set_ne by lia
    | rewrite length_set ].

Section Buckets.
Variables (top : Z) (lam : Z -> Z) (ptr cnt : list Z).
Hypothesis Hok : buckets_ok top lam ptr cnt.

Lemma bk_top_last : 0 <= top -> ptr.[lam top] + cnt.[lam top] = top + 1.
Proof.
  intros Htop. destruct Hok.
  pose proof (bk_lam0 top ltac:(lia)). pose proof (bk_pos0 top ltac:(lia)).
  destruct (bk_int0 (lam top)) as (_ & Hend & _); lia.
Qed.

(** Non-empty intervals of consecutive priorities are adjacent. *)
Lemma bk_adjacent l :
  0 <= l -> l + 1 < Z.of_nat (length cnt) -> 0 < cnt.[l] -> 0 < cnt.[l + 1] ->
  ptr.[l + 1] = ptr.[l] + cnt.[l].
Proof.
  intros Hl Hl1 Hc Hc1. destruct Hok.
  pose proof (bk_ord0 l (l + 1) ltac:(lia) ltac:(lia) Hc Hc1) as Hle.
  destruct (Z.eq_dec ptr.[l + 1] (ptr.[l] + cnt.[l])) as [|Hne]; [assumption |].
  exfalso. set (q := ptr.[l] + cnt.[l]) in *.
  destruct (bk_int0 l ltac:(lia) Hc) as (Hp0 & _ & _).
  destruct (bk_int0 (l + 1) ltac:(lia) Hc1) as (_ & Hend1 & _).
  assert (Hq : 0 <= q <= top) by lia.
  pose proof (bk_lam0 q Hq) as Hlq. pose proof (bk_pos0 q Hq) as Hpq.
  destruct (Z.lt_trichotomy (lam q) l) as [Hlt | [Heq | Hgt]].
  - pose proof (bk_ord0 (lam q) l ltac:(lia) ltac:(lia) ltac:(lia) Hc). lia.
  - rewrite Heq in Hpq. lia.
  - destruct (Z.eq_dec (lam q) (l + 1)) as [Heq1|Hne1].
    + rewrite Heq1 in Hpq. lia.
    + pose proof (bk_ord0 (l + 1) (lam q) ltac:(lia) ltac:(lia) Hc1 ltac:(lia)).
      lia.
Qed.

(** The table depends on the priorities of the positions up to [top] only. *)
Lemma buckets_ok_ext lam' :
  (forall p : Z, 0 <= p <= top -> lam' p = lam p) -> buckets_ok top lam' ptr cnt.
Proof.
  intros Hext. destruct Hok. split; try assumption.
  - intros p Hp. rewrite Hext by exact Hp. apply bk_lam0, Hp.
  - intros p Hp. rewrite Hext by exact Hp. apply bk_pos0, Hp.
  - intros l Hl Hc. destruct (bk_int0 l Hl Hc) as (H1 & H2 & H3).
    split; [exact H1 |]. split; [exact H2 |].
    intros p Hp. rewrite Hext by lia. apply H3, Hp.
Qed.

(** "remove i from its interval": the node on top leaves the table. *)
Lemma buckets_remove_top :
  0 <= top ->
  buckets_ok (top - 1) lam ptr (cnt.[lam top <- cnt.[lam top] - 1]).
Proof.
  intros Htop. pose proof (bk_top_last Htop) as Hlast. destruct Hok.
  pose proof (bk_lam0 top ltac:(lia)) as Hlt.
  assert (Hget : forall l, 0 <= l < Z.of_nat (length cnt) ->
            cnt.[lam top <- cnt.[lam top] - 1].[l]
            = if l =? lam top then cnt.[l] - 1 else cnt.[l]).
  { intros l Hl. destruct (Z.eqb_spec l (lam top)) as [->|Hne]; simpl_get; lia. }
  split.
  - simpl_get. exact bk_len0.
  - intros p Hp. simpl_get. apply bk_lam0. lia.
  - intros p Hp. pose proof (bk_lam0 p ltac:(lia)). pose proof (bk_pos0 p ltac:(lia)).
    rewrite Hget by lia.
    destruct (Z.eqb_spec (lam p) (lam top)) as [Heq|Hne]; [| lia].
    rewrite Heq in *. lia.
  - intros l Hl. rewrite length_set in Hl. rewrite Hget by lia.
    pose proof (bk_cnt0 l Hl).
    destruct (Z.eqb_spec l (lam top)) as [->|Hne]; [| lia].
    pose proof (bk_pos0 top ltac:(lia)). lia.
  - intros l Hl. rewrite length_set in Hl. rewrite Hget by lia.
    intros Hc.
    assert (Hc0 : 0 < cnt.[l]) by (destruct (l =? lam top); lia).
    destruct (bk_int0 l Hl Hc0) as (H1 & H2 & H3).
    split; [exact H1 |]. split.
    + destruct (Z.eqb_spec l (lam top)) as [->|Hne]; [lia |].
      destruct (Z.eq_dec (ptr.[l] + cnt.[l]) (top + 1)) as [Heq|]; [| lia].
      exfalso. pose proof (H3 top ltac:(lia)). congruence.
    + intros p Hp. apply H3. destruct (l =? lam top); lia.
  - intros l l' Hl Hl'. rewrite length_set in Hl'. rewrite !Hget by lia.
    intros Hc Hc'.
    assert (Hc0 : 0 < cnt.[l]) by (destruct (l =? lam top); lia).
    assert (Hc0' : 0 < cnt.[l']) by (destruct (l' =? lam top); lia).
    pose proof (bk_ord0 l l' Hl Hl' Hc0 Hc0').
    destruct (l =? lam top); lia.
Qed.

End Buckets.

(** Case analysis on every comparison [a =? b] in sight. *)
Ltac split_eqb :=
  repeat match goal with
         | H : context [Z.eqb ?a ?b] |- _ =>
             destruct (Z.eqb_spec a b); cbv iota in *
         | |- context [Z.eqb ?a ?b] =>
             destruct (Z.eqb_spec a b); cbv iota in *
         end.

Section BucketMoves.
Variables (top : Z) (lam : Z -> Z) (ptr cnt : list Z).
Hypothesis Hok : buckets_ok top lam ptr cnt.
Variable l : Z.
Hypothesis Hl : 0 <= l < Z.of_nat (length cnt).
Hypothesis Hcl : 0 < cnt.[l].

(** The node at the last position of the interval of [l] is moved to
    priority [l + 1]: the boundary between the two intervals moves down. *)
Lemma buckets_raise :
  l + 1 < Z.of_nat (length cnt) ->
  let new_pos := ptr.[l] + cnt.[l] - 1 in
  let cnt1 := cnt.[l <- cnt.[l] - 1] in
  let cnt2 := cnt1.[l + 1 <- cnt1.[l + 1] + 1] in
  buckets_ok top (fun p : Z => if p =? new_pos then l + 1 else lam p)
    (ptr.[l + 1 <- new_pos]) cnt2.
Proof.
  intros Hl1 new_pos cnt1 cnt2. pose proof Hok as Hok'. destruct Hok'.
  destruct (bk_int0 l Hl Hcl) as (Hp0 & Hend & Hown).
  pose proof (bk_cnt0 (l + 1) ltac:(lia)) as Hc1.
  assert (Hadj : 0 < cnt.[l + 1] -> ptr.[l + 1] = new_pos + 1).
  { intros Hpos. rewrite (bk_adjacent top lam ptr cnt Hok l) by lia.
    unfold new_pos. lia. }
  assert (Hcnt : forall x, 0 <= x < Z.of_nat (length cnt) ->
            cnt2.[x] = if x =? l then cnt.[l] - 1
                       else if x =? l + 1 then cnt.[l + 1] + 1 else cnt.[x]).
  { intros x Hx. unfold cnt2, cnt1.
    destruct (Z.eqb_spec x l) as [->|Hne]; [simpl_get; reflexivity |].
    destruct (Z.eqb_spec x (l + 1)) as [->|Hne1]; simpl_get; reflexivity. }
  assert (Hptr : forall x, 0 <= x < Z.of_nat (length cnt) ->
            ptr.[l + 1 <- new_pos].[x]
            = if x =? l + 1 then new_pos else ptr.[x]).
  { intros x Hx.
    destruct (Z.eqb_spec x (l + 1)) as [->|Hne]; simpl_get; reflexivity. }
  assert (Hlen2 : length cnt2 = length cnt) by (unfold cnt2, cnt1; simpl_get; reflexivity).
  assert (Hnp : lam new_pos = l) by (apply Hown; unfold new_pos; lia).
  split.
  - rewrite Hlen2. simpl_get. exact bk_len0.
  - intros p Hp. rewrite Hlen2.
    destruct (Z.eqb_spec p new_pos); [lia | apply bk_lam0, Hp].
  - intros p Hp. pose proof (bk_lam0 p Hp) as Hlp. pose proof (bk_pos0 p Hp) as Hpp.
    destruct (Z.eqb_spec p new_pos) as [->|Hne].
    + rewrite Hptr, Hcnt by lia. rewrite Z.eqb_refl.
      destruct (Z.eqb_spec (l + 1) l); lia.
    + rewrite Hptr, Hcnt by lia.
      destruct (Z.eqb_spec (lam p) l) as [Heq|Hnl].
      * rewrite Heq in *. destruct (Z.eqb_spec l (l + 1)); [lia |].
        unfold new_pos in Hne. lia.
      * destruct (Z.eqb_spec (lam p) (l + 1)) as [Heq1|]; [| lia].
        rewrite Heq1 in *. specialize (Hadj ltac:(lia)). lia.
  - intros x Hx. rewrite Hlen2 in Hx. rewrite Hcnt by lia.
    pose proof (bk_cnt0 x Hx).
    destruct (x =? l); [lia |]. destruct (x =? l + 1); lia.
  - intros x Hx. rewrite Hlen2 in Hx. rewrite Hcnt, Hptr by lia. intros Hc.
    destruct (Z.eqb_spec x l) as [->|Hnl].
    + destruct (Z.eqb_spec l (l + 1)); [lia |].
      split; [lia |]. split; [lia |].
      intros p Hp. destruct (Z.eqb_spec p new_pos); [unfold new_pos in *; lia |].
      apply Hown. lia.
    + destruct (Z.eqb_spec x (l + 1)) as [->|Hnl1].
      * split; [unfold new_pos; lia |]. split.
        { destruct (Z.eq_dec cnt.[l + 1] 0) as [Hz|Hnz];
            [unfold new_pos; lia |].
          specialize (Hadj ltac:(lia)).
          destruct (bk_int0 (l + 1) ltac:(lia) ltac:(lia)) as (_ & He & _). lia. }
        intros p Hp. destruct (Z.eqb_spec p new_pos); [reflexivity |].
        assert (Hpos : 0 < cnt.[l + 1]) by lia.
        specialize (Hadj Hpos).
        destruct (bk_int0 (l + 1) ltac:(lia) Hpos) as (_ & _ & Hown1).
        apply Hown1. lia.
      * destruct (bk_int0 x Hx Hc) as (H1 & H2 & H3).
        split; [exact H1 |]. split; [exact H2 |].
        intros p Hp. destruct (Z.eqb_spec p new_pos) as [->|]; [| apply H3, Hp].
        pose proof (H3 new_pos Hp). congruence.
  - intros x x' Hx Hx'. rewrite Hlen2 in Hx'. rewrite !Hcnt, !Hptr by lia.
    intros Hc Hc'. unfold new_pos.
    destruct (Z.eq_dec cnt.[l + 1] 0) as [Hz|Hnz];
      [| specialize (Hadj ltac:(lia)); unfold new_pos in Hadj];
      split_eqb; try subst x; try subst x'; try lia;
      try (pose proof (bk_ord0 l x' ltac:(lia) ltac:(lia) ltac:(lia) ltac:(lia)));
      try (pose proof (bk_ord0 x l ltac:(lia) ltac:(lia) ltac:(lia) ltac:(lia)));
      try (pose proof (bk_ord0 (l + 1) x' ltac:(lia) ltac:(lia) ltac:(lia)
                         ltac:(lia)));
      try (pose proof (bk_ord0 x x' ltac:(lia) ltac:(lia) ltac:(lia) ltac:(lia)));
      lia.
Qed.

(** The node at the first position of the interval of [l] is moved to
    priority [l - 1]: the boundary between the two intervals moves up. *)
Lemma buckets_lower :
  1 <= l ->
  let new_pos := ptr.[l] in
  let cnt1 := cnt.[l <- cnt.[l] - 1] in
  let cnt2 := cnt1.[l - 1 <- cnt1.[l - 1] + 1] in
  let ptr1 := ptr.[l <- ptr.[l] + 1] in
  let ptr2 := ptr1.[l - 1 <- ptr1.[l] - cnt2.[l - 1]] in
  buckets_ok top (fun p : Z => if p =? new_pos then l - 1 else lam p) ptr2 cnt2.
Proof.
  intros Hl1 new_pos cnt1 cnt2 ptr1 ptr2. pose proof Hok as Hok'. destruct Hok'.
  destruct (bk_int0 l Hl Hcl) as (Hp0 & Hend & Hown).
  pose proof (bk_cnt0 (l - 1) ltac:(lia)) as Hc1.
  assert (Hadj : 0 < cnt.[l - 1] -> ptr.[l] = ptr.[l - 1] + cnt.[l - 1]).
  { intros Hpos.
    pose proof (bk_adjacent top lam ptr cnt Hok (l - 1)) as Ha.
    replace (l - 1 + 1) with l in Ha by lia. apply Ha; lia. }
  assert (Hcnt : forall x, 0 <= x < Z.of_nat (length cnt) ->
            cnt2.[x] = if x =? l then cnt.[l] - 1
                       else if x =? l - 1 then cnt.[l - 1] + 1 else cnt.[x]).
  { intros x Hx. unfold cnt2, cnt1.
    destruct (Z.eqb_spec x l) as [->|Hne]; [simpl_get; reflexivity |].
    destruct (Z.eqb_spec x (l - 1)) as [->|Hne1]; simpl_get; reflexivity. }
  assert (Hptr : forall x, 0 <= x < Z.of_nat (length cnt) ->
            ptr2.[x] = if x =? l then ptr.[l] + 1
                       else if x =? l - 1 then ptr.[l] - cnt.[l - 1]
                       else ptr.[x]).
  { intros x Hx. unfold ptr2, ptr1.
    destruct (Z.eqb_spec x l) as [->|Hne]; [simpl_get; reflexivity |].
    destruct (Z.eqb_spec x (l - 1)) as [->|Hne1]; [| simpl_get; reflexivity].
    rewrite get_set_eq by (rewrite length_set; lia).
    rewrite get_set_eq by lia. rewrite (Hcnt (l - 1)) by lia.
    destruct (Z.eqb_spec (l - 1) l); [lia |]. rewrite Z.eqb_refl. lia. }
  assert (Hlen2 : length cnt2 = length cnt)
    by (unfold cnt2, cnt1; simpl_get; reflexivity).
  assert (Hnp : lam new_pos = l) by (apply Hown; unfold new_pos; lia).
  split.
  - rewrite Hlen2. unfold ptr2, ptr1. simpl_get. exact bk_len0.
  - intros p Hp. rewrite Hlen2.
    destruct (Z.eqb_spec p new_pos); [lia | apply bk_lam0, Hp].
  - intros p Hp. pose proof (bk_lam0 p Hp) as Hlp. pose proof (bk_pos0 p Hp) as Hpp.
    destruct (Z.eqb_spec p new_pos) as [->|Hne].
    + rewrite Hptr, Hcnt by lia.
      destruct (Z.eqb_spec (l - 1) l); [lia |]. rewrite Z.eqb_refl.
      unfold new_pos. lia.
    + rewrite Hptr, Hcnt by lia.
      destruct (Z.eqb_spec (lam p) l) as [Heq|Hnl].
      * rewrite Heq in *. unfold new_pos in Hne. lia.
      * destruct (Z.eqb_spec (lam p) (l - 1)) as [Heq1|]; [| lia].
        rewrite Heq1 in *. specialize (Hadj ltac:(lia)). lia.
  - intros x Hx. rewrite Hlen2 in Hx. rewrite Hcnt by lia.
    pose proof (bk_cnt0 x Hx).
    destruct (x =? l); [lia |]. destruct (x =? l - 1); lia.
  - intros x Hx. rewrite Hlen2 in Hx. rewrite Hcnt, Hptr by lia. intros Hc.
    destruct (Z.eqb_spec x l) as [->|Hnl].
    + split; [lia |]. split; [lia |].
      intros p Hp. destruct (Z.eqb_spec p new_pos); [unfold new_pos in *; lia |].
      apply Hown. lia.
    + destruct (Z.eqb_spec x (l - 1)) as [->|Hnl1].
      * destruct (Z.eq_dec cnt.[l - 1] 0) as [Hz|Hnz].
        { split; [lia |]. split; [lia |].
          intros p Hp. destruct (Z.eqb_spec p new_pos); [reflexivity |].
          unfold new_pos in *. lia. }
        assert (Hpos : 0 < cnt.[l - 1]) by lia.
        specialize (Hadj Hpos).
        destruct (bk_int0 (l - 1) ltac:(lia) Hpos) as (H1 & H2 & H3).
        split; [lia |]. split; [lia |].
        intros p Hp. destruct (Z.eqb_spec p new_pos); [reflexivity |].
        apply H3. unfold new_pos in *. lia.
      * destruct (bk_int0 x Hx Hc) as (H1 & H2 & H3).
        split; [exact H1 |]. split; [exact H2 |].
        intros p Hp. destruct (Z.eqb_spec p new_pos) as [->|]; [| apply H3, Hp].
        pose proof (H3 new_pos Hp). congruence.
  - intros x x' Hx Hx'. rewrite Hlen2 in Hx'. rewrite !Hcnt, !Hptr by lia.
    intros Hc Hc'.
    destruct (Z.eq_dec cnt.[l - 1] 0) as [Hz|Hnz];
      [| specialize (Hadj ltac:(lia))];
      split_eqb; try subst x; try subst x'; try lia;
      try (pose proof (bk_ord0 l x' ltac:(lia) ltac:(lia) ltac:(lia) ltac:(lia)));
      try (pose proof (bk_ord0 x l ltac:(lia) ltac:(lia) ltac:(lia) ltac:(lia)));
      try (pose proof (bk_ord0 x (l - 1) ltac:(lia) ltac:(lia) ltac:(lia)
                         ltac:(lia)));
      try (pose proof (bk_ord0 x x' ltac:(lia) ltac:(lia) ltac:(lia) ltac:(lia)));
      lia.
Qed.

End BucketMoves.

(** ** Ruge-Stuben splitting: moving a node *)

Ltac rs_fields :=
  cbn [RS.lambda RS.interval_ptr RS.interval_count RS.index_to_node
       RS.node_to_index RS.splitting
       RS.set_lambda RS.set_interval_ptr RS.set_interval_count
       RS.set_index_to_node RS.set_node_to_index RS.set_splitting] in *.

Lemma perm_ok_injective n i2n n2i x y :
  perm_ok n i2n n2i -> 0 <= x < n -> 0 <= y < n -> i2n.[x] = i2n.[y] -> x = y.
Proof.
  intros (_ & _ & Hp & _) Hx Hy Heq.
  destruct (Hp x Hx) as [_ Hx']. destruct (Hp y Hy) as [_ Hy']. congruence.
Qed.

(** The exchange of two positions keeps the two permutations inverse. *)
Lemma swap_positions_spec n x y st :
  perm_ok n (RS.index_to_node st) (RS.node_to_index st) ->
  0 <= x < n -> 0 <= y < n ->
  let st' := RS.swap_positions x y st in
  RS.lambda st' = RS.lambda st /\ RS.splitting st' = RS.splitting st
  /\ RS.interval_ptr st' = RS.interval_ptr st
  /\ RS.interval_count st' = RS.interval_count st
  /\ perm_ok n (RS.index_to_node st') (RS.node_to_index st')
  /\ (forall pos : Z,
        (RS.index_to_node st').[pos]
        = if pos =? y then (RS.index_to_node st).[x]
          else if pos =? x then (RS.index_to_node st).[y]
          else (RS.index_to_node st).[pos])
  /\ (forall v : Z,
        (RS.node_to_index st').[v]
        = if v =? (RS.index_to_node st).[y] then x
          else if v =? (RS.index_to_node st).[x] then y
          else (RS.node_to_index st).[v]).
Proof.
  intros Hperm Hx Hy. cbv zeta. unfold RS.swap_positions, swap. rs_fields.
  pose proof Hperm as (Hl1 & Hl2 & Hp & Hv).
  set (i2n := RS.index_to_node st) in *. set (n2i := RS.node_to_index st) in *.
  destruct (Hp x Hx) as [Hix Hnx]. destruct (Hp y Hy) as [Hiy Hny].
  assert (Hi2n : forall pos : Z,
            i2n.[x <- i2n.[y]].[y <- i2n.[x]].[pos]
            = if pos =? y then i2n.[x]
              else if pos =? x then i2n.[y] else i2n.[pos]).
  { intros pos. destruct (Z.eqb_spec pos y) as [->|Hny']; [simpl_get; reflexivity |].
    destruct (Z.eqb_spec pos x) as [->|Hnx']; simpl_get; reflexivity. }
  assert (Hn2i : forall v : Z,
            n2i.[i2n.[x] <- y].[i2n.[y] <- x].[v]
            = if v =? i2n.[y] then x
              else if v =? i2n.[x] then y else n2i.[v]).
  { intros v. destruct (Z.eqb_spec v i2n.[y]) as [->|Hne]; [simpl_get; reflexivity |].
    destruct (Z.eqb_spec v i2n.[x]) as [->|Hne']; simpl_get; reflexivity. }
  repeat (split; [reflexivity |]).
  split; [| split; assumption].
  unfold perm_ok. simpl_get.
  split; [exact Hl1 |]. split; [exact Hl2 |]. split.
  - intros pos Hpos. rewrite Hi2n. destruct (Hp pos Hpos) as [Hip Hnp].
    destruct (Z.eqb_spec pos y) as [->|Hne].
    + split; [exact Hix |]. rewrite Hn2i.
      destruct (Z.eqb_spec i2n.[x] i2n.[y]) as [Heq|];
        [apply (perm_ok_injective n i2n n2i) in Heq; assumption |].
      rewrite Z.eqb_refl. reflexivity.
    + destruct (Z.eqb_spec pos x) as [->|Hne'].
      * split; [exact Hiy |]. rewrite Hn2i, Z.eqb_refl. reflexivity.
      * split; [exact Hip |]. rewrite Hn2i.
        destruct (Z.eqb_spec i2n.[pos] i2n.[y]) as [Heq|];
          [apply (perm_ok_injective n i2n n2i) in Heq; (assumption || lia) |].
        destruct (Z.eqb_spec i2n.[pos] i2n.[x]) as [Heq|];
          [apply (perm_ok_injective n i2n n2i) in Heq; (assumption || lia) |].
        exact Hnp.
  - intros v Hvr. rewrite Hn2i. destruct (Hv v Hvr) as [Hnv Hiv].
    destruct (Z.eqb_spec v i2n.[y]) as [->|Hne].
    + split; [exact Hx |]. rewrite Hi2n.
      destruct (Z.eqb_spec x y) as [->|]; [reflexivity |].
      rewrite Z.eqb_refl. reflexivity.
    + destruct (Z.eqb_spec v i2n.[x]) as [->|Hne'].
      * split; [exact Hy |]. rewrite Hi2n, Z.eqb_refl. reflexivity.
      * split; [exact Hnv |]. rewrite Hi2n.
        destruct (Z.eqb_spec n2i.[v] y) as [Heq|]; [congruence |].
        destruct (Z.eqb_spec n2i.[v] x) as [Heq|]; [congruence |].
        exact Hiv.
Qed.

(** The priority read at a position after the node [k] at [old_pos] has been
    exchanged with the node at [new_pos], of the same priority, and given the
    priority [v]. *)
Lemma lambda_at_moved n st old_pos new_pos v pos :
  perm_ok n (RS.index_to_node st) (RS.node_to_index st) ->
  Z.of_nat (length (RS.lambda st)) = n ->
  0 <= old_pos < n -> 0 <= new_pos < n -> 0 <= pos < n ->
  lambda_at st old_pos = lambda_at st new_pos ->
  let k := (RS.index_to_node st).[old_pos] in
  let i2n' := RS.index_to_node (RS.swap_positions old_pos new_pos st) in
  (RS.lambda st).[k <- v].[i2n'.[pos]]
  = if pos =? new_pos then v else lambda_at st pos.
Proof.
  intros Hperm Hlen Ho Hn Hpos Hsame k i2n'.
  destruct (swap_positions_spec n old_pos new_pos st Hperm Ho Hn)
    as (_ & _ & _ & _ & _ & Hi2n & _).
  unfold i2n'. rewrite Hi2n. clear Hi2n i2n'.
  pose proof Hperm as (_ & _ & Hp & _).
  destruct (Hp old_pos Ho) as [Hk _]. fold k in Hk.
  unfold lambda_at in *.
  destruct (Z.eqb_spec pos new_pos) as [->|Hne]; [simpl_get; reflexivity |].
  destruct (Z.eqb_spec pos old_pos) as [->|Hne'].
  - rewrite get_set_ne; [symmetry; exact Hsame |].
    intros Heq. apply Hne.
    apply (perm_ok_injective n _ _ old_pos new_pos Hperm Ho Hn). exact Heq.
  - rewrite get_set_ne; [reflexivity |].
    intros Heq. apply Hne'.
    apply (perm_ok_injective n _ _ pos old_pos Hperm Hpos Ho). symmetry. exact Heq.
Qed.

(** "move k to the end of its current interval": the table stays consistent
    and no label changes. *)
Lemma increment_lambda_inv n top Sj kk st :
  rs_inv n top st -> 0 <= Sj.[kk] < n ->
  rs_inv n top (RS.increment_lambda n Sj kk st)
  /\ RS.splitting (RS.increment_lambda n Sj kk st) = RS.splitting st.
Proof.
  intros Hinv Hk. unfold RS.increment_lambda.
  set (k := Sj.[kk]) in *.
  destruct (Z.eqb_spec (RS.splitting st).[k] U_NODE) as [HU|];
    [| split; [exact Hinv | reflexivity]].
  destruct ((RS.lambda st).[k] >=? n - 1) eqn:Hge;
    [split; [exact Hinv | reflexivity] |].
  rewrite Z.geb_leb in Hge. apply Z.leb_gt in Hge.
  destruct Hinv as (Htop & Hll & Hls & Hperm & HM & Hbk & HUpos).
  pose proof Hperm as (Hl1 & Hl2 & Hp & Hv).
  destruct (Hv k Hk) as [Hop Hiop].
  pose proof (HUpos k Hk HU) as Hotop.
  set (old_pos := (RS.node_to_index st).[k]) in *.
  set (lk := (RS.lambda st).[k]) in *.
  set (ptr := RS.interval_ptr st) in *. set (cnt := RS.interval_count st) in *.
  assert (Hlam_old : lambda_at st old_pos = lk).
  { unfold lambda_at. rewrite Hiop. reflexivity. }
  pose proof (bk_lam _ _ _ _ Hbk old_pos ltac:(lia)) as Hlr.
  pose proof (bk_pos _ _ _ _ Hbk old_pos ltac:(lia)) as Hpos.
  rewrite Hlam_old in Hlr, Hpos.
  assert (Hc : 0 < cnt.[lk]) by lia.
  destruct (bk_int _ _ _ _ Hbk lk Hlr Hc) as (Hp0 & Hend & Hint).
  set (new_pos := ptr.[lk] + cnt.[lk] - 1) in *.
  assert (Hnp : 0 <= new_pos <= top) by lia.
  pose proof (Hint new_pos ltac:(lia)) as Hlam_new.
  destruct (swap_positions_spec n old_pos new_pos st Hperm ltac:(lia) ltac:(lia))
    as (E1 & E2 & E3 & E4 & Hperm' & Hi2n' & Hn2i').
  pose proof (fun pos Hr => lambda_at_moved n st old_pos new_pos (lk + 1) pos
                 Hperm Hll ltac:(lia) ltac:(lia) Hr ltac:(congruence)) as Hmoved.
  cbv zeta in Hmoved. rewrite Hiop in Hmoved.
  set (st1 := RS.swap_positions old_pos new_pos st) in *.
  split; [| rs_fields; exact E2].
  unfold rs_inv, lambda_at. rs_fields. rewrite ?E1, ?E2, ?E3, ?E4.
  fold ptr cnt lk.
  split; [exact Htop |]. split; [simpl_get; exact Hll |].
  split; [exact Hls |]. split; [exact Hperm' |].
  split; [simpl_get; exact HM |]. split.
  - pose proof (buckets_raise top (lambda_at st) ptr cnt Hbk lk Hlr Hc ltac:(lia))
      as Hraise.
    cbv zeta in Hraise. fold new_pos in Hraise.
    apply (buckets_ok_ext _ _ _ _ Hraise).
    intros pos Hr. apply Hmoved. lia.
  - intros v Hvr HvU. rewrite Hn2i'. split_eqb; try lia. apply HUpos; assumption.
Qed.

(** "move j to the beginning of its current interval". *)
Lemma decrement_lambda_inv n top Sj jj st :
  rs_inv n top st -> 0 <= Sj.[jj] < n ->
  rs_inv n top (RS.decrement_lambda Sj jj st)
  /\ RS.splitting (RS.decrement_lambda Sj jj st) = RS.splitting st.
Proof.
  intros Hinv Hk. unfold RS.decrement_lambda.
  set (k := Sj.[jj]) in *.
  destruct (Z.eqb_spec (RS.splitting st).[k] U_NODE) as [HU|];
    [| split; [exact Hinv | reflexivity]].
  destruct (Z.eqb_spec (RS.lambda st).[k] 0) as [|Hnz];
    [split; [exact Hinv | reflexivity] |].
  destruct Hinv as (Htop & Hll & Hls & Hperm & HM & Hbk & HUpos).
  pose proof Hperm as (Hl1 & Hl2 & Hp & Hv).
  destruct (Hv k Hk) as [Hop Hiop].
  pose proof (HUpos k Hk HU) as Hotop.
  set (old_pos := (RS.node_to_index st).[k]) in *.
  set (lk := (RS.lambda st).[k]) in *.
  set (ptr := RS.interval_ptr st) in *. set (cnt := RS.interval_count st) in *.
  assert (Hlam_old : lambda_at st old_pos = lk).
  { unfold lambda_at. rewrite Hiop. reflexivity. }
  pose proof (bk_lam _ _ _ _ Hbk old_pos ltac:(lia)) as Hlr.
  pose proof (bk_pos _ _ _ _ Hbk old_pos ltac:(lia)) as Hpos.
  rewrite Hlam_old in Hlr, Hpos.
  assert (Hc : 0 < cnt.[lk]) by lia.
  destruct (bk_int _ _ _ _ Hbk lk Hlr Hc) as (Hp0 & Hend & Hint).
  set (new_pos := ptr.[lk]) in *.
  assert (Hnp : 0 <= new_pos <= top) by lia.
  pose proof (Hint new_pos ltac:(lia)) as Hlam_new.
  destruct (swap_positions_spec n old_pos new_pos st Hperm ltac:(lia) ltac:(lia))
    as (E1 & E2 & E3 & E4 & Hperm' & Hi2n' & Hn2i').
  pose proof (fun pos Hr => lambda_at_moved n st old_pos new_pos (lk - 1) pos
                 Hperm Hll ltac:(lia) ltac:(lia) Hr ltac:(congruence)) as Hmoved.
  cbv zeta in Hmoved. rewrite Hiop in Hmoved.
  set (st1 := RS.swap_positions old_pos new_pos st) in *.
  split; [| rs_fields; exact E2].
  unfold rs_inv, lambda_at. rs_fields. rewrite ?E1, ?E2, ?E3, ?E4.
  fold ptr cnt lk.
  split; [exact Htop |]. split; [simpl_get; exact Hll |].
  split; [exact Hls |]. split; [exact Hperm' |].
  split; [simpl_get; exact HM |]. split.
  - pose proof (buckets_lower top (lambda_at st) ptr cnt Hbk lk Hlr Hc ltac:(lia))
      as Hlower.
    cbv zeta in Hlower. fold new_pos in Hlower.
    apply (buckets_ok_ext _ _ _ _ Hlower).
    intros pos Hr. apply Hmoved. lia.
  - intros v Hvr HvU. rewrite Hn2i'. split_eqb; try lia. apply HUpos; assumption.
Qed.

(** ** Ruge-Stuben splitting: one selection *)

Lemma find_max_node_spec lambda_i top i st :
  let lo := (RS.interval_ptr st).[lambda_i] in
  let hi := lo + (RS.interval_count st).[lambda_i] in
  snd (RS.find_max_node lambda_i top i st) = top
  \/ lo <= snd (RS.find_max_node lambda_i top i st) < hi.
Proof.
  intros lo hi. unfold RS.find_max_node. fold lo. fold hi.
  destruct (Z.le_gt_cases lo hi) as [Hle|Hgt].
  - loop_invariant (fun j (r : Z * Z) => snd r = top \/ lo <= snd r < j) as Hinv.
    + exact Hle.
    + left. reflexivity.
    + intros j [mn mi] Hj HP. cbn [snd] in *.
      destruct (_ >? _); cbn [snd]; [right; lia |].
      destruct HP; [left; assumption | right; lia].
    + exact Hinv.
  - rewrite for_range_empty by lia. left. reflexivity.
Qed.

Lemma csr_entry_node n Xp Xj i jj :
  csr_ok n Xp Xj -> 0 <= i < n -> Xp.[i] <= jj < Xp.[i + 1] -> 0 <= Xj.[jj] < n.
Proof.
  intros [Hrows Hcols] Hi Hjj. destruct (Hrows i Hi). apply Hcols. lia.
Qed.

(** New labels that create no U node keep the invariant. *)
Lemma rs_inv_relabel n top st labels :
  rs_inv n top st ->
  Z.of_nat (length labels) = n ->
  (forall v, 0 <= v < n -> labels.[v] = U_NODE -> (RS.splitting st).[v] = U_NODE) ->
  rs_inv n top (RS.set_splitting labels st).
Proof.
  intros (Htop & Hll & Hls & Hperm & HM & Hbk & HUpos) Hlen HU.
  unfold rs_inv, lambda_at in *. rs_fields.
  repeat (split; [assumption |]).
  intros v Hv HvU. apply HUpos; [exact Hv |]. apply HU; assumption.
Qed.

(** The node on top is taken out of its interval, the largest node of the
    interval is brought to the top and becomes a C node. *)
Lemma promote_inv n top st :
  0 <= top -> rs_inv n top st -> no_pre_f n (RS.splitting st) ->
  let i := (RS.index_to_node st).[top] in
  let lambda_i := (RS.lambda st).[i] in
  let st1 := RS.set_interval_count
               (RS.interval_count st).[lambda_i <- (RS.interval_count st).[lambda_i] - 1]
               st in
  let st2 := RS.bring_max_to_top top st1 in
  let i' := (RS.index_to_node st2).[top] in
  let st3 := RS.set_splitting (RS.splitting st2).[i' <- C_NODE] st2 in
  0 <= i' < n /\ rs_inv n (top - 1) st3 /\ no_pre_f n (RS.splitting st3).
Proof.
  intros Htop0 (Htop & Hll & Hls & Hperm & HM & Hbk & HUpos) Hlab.
  intros i lambda_i st1 st2 i' st3.
  pose proof Hperm as (Hl1 & Hl2 & Hp & Hv).
  pose proof (bk_top_last _ _ _ _ Hbk Htop0) as Hlast.
  pose proof (bk_lam _ _ _ _ Hbk top ltac:(lia)) as Hlr.
  pose proof (bk_pos _ _ _ _ Hbk top ltac:(lia)) as Hpos.
  pose proof (buckets_remove_top _ _ _ _ Hbk Htop0) as Hrem.
  change (lambda_at st top) with lambda_i in *.
  destruct (bk_int _ _ _ _ Hbk lambda_i Hlr ltac:(lia)) as (Hp0 & _ & Hint).
  set (ptr := RS.interval_ptr st) in *. set (cnt := RS.interval_count st) in *.
  pose proof (find_max_node_spec lambda_i top i st1) as Hmax.
  cbv zeta in Hmax.
  subst st2. unfold RS.bring_max_to_top in *.
  change (RS.index_to_node st1) with (RS.index_to_node st) in *.
  change (RS.lambda st1) with (RS.lambda st) in *.
  fold i lambda_i in i', st3 |- *.
  destruct (RS.find_max_node lambda_i top i st1) as [mn mi].
  cbn [snd] in Hmax.
  assert (Hmi : mi = top \/ ptr.[lambda_i] <= mi < top).
  { destruct Hmax as [|Hr]; [left; assumption | right].
    unfold st1 in Hr. rs_fields. fold ptr cnt in Hr.
    rewrite get_set_eq in Hr by lia. lia. }
  clear Hmax.
  assert (Hlam_mi : lambda_at st mi = lambda_i).
  { destruct Hmi as [->|Hr]; [reflexivity | apply Hint; lia]. }
  destruct (swap_positions_spec n top mi st1 Hperm ltac:(lia) ltac:(lia))
    as (E1 & E2 & E3 & E4 & Hperm' & Hi2n' & Hn2i').
  change (RS.index_to_node st1) with (RS.index_to_node st) in *.
  change (RS.node_to_index st1) with (RS.node_to_index st) in *.
  change (RS.lambda st1) with (RS.lambda st) in *.
  change (RS.splitting st1) with (RS.splitting st) in *.
  change (RS.interval_ptr st1) with ptr in *.
  set (st2 := RS.swap_positions top mi st1) in *.
  assert (Hi' : i' = (RS.index_to_node st).[mi]).
  { unfold i'. rewrite Hi2n'. destruct (Z.eqb_spec top mi) as [->|]; [reflexivity |].
    rewrite Z.eqb_refl. reflexivity. }
  assert (Hi'r : 0 <= i' < n). { rewrite Hi'. apply Hp. lia. }
  split; [exact Hi'r |].
  unfold st3, rs_inv, no_pre_f, lambda_at. rs_fields. rewrite ?E1, ?E2, ?E3, ?E4.
  split; [split; [lia |]; split; [exact Hll |]; split; [simpl_get; exact Hls |];
          split; [exact Hperm' |]; split; [unfold st1; rs_fields; simpl_get; exact HM |];
          split |].
  - unfold st1. rs_fields. apply (buckets_ok_ext _ _ _ _ Hrem).
    intros pos Hr. rewrite Hi2n'. unfold lambda_at in *.
    destruct (Z.eqb_spec pos mi) as [->|]; [symmetry; exact Hlam_mi |].
    destruct (Z.eqb_spec pos top); [lia | reflexivity].
  - intros v Hvr HvU.
    destruct (Z.eq_dec v i') as [->|Hne];
      [rewrite get_set_eq in HvU by lia; discriminate |].
    rewrite get_set_ne in HvU by congruence.
    rewrite Hn2i'. rewrite <- Hi'.
    destruct (Z.eqb_spec v i'); [contradiction |].
    destruct (Z.eqb_spec v (RS.index_to_node st).[top]) as [Hvt|Hvt].
    + destruct Hmi as [->|]; [congruence | lia].
    + pose proof (HUpos v Hvr HvU). destruct (Hv v Hvr) as [_ Hiv].
      assert ((RS.node_to_index st).[v] <> top) by congruence. lia.
  - intros v Hvr. destruct (Z.eq_dec v i') as [->|Hne].
    + rewrite get_set_eq by lia. right. left. reflexivity.
    + rewrite get_set_ne by congruence. apply Hlab, Hvr.
Qed.

Lemma pre_f_within_empty n Tj lo hi labels :
  hi <= lo -> pre_f_within n Tj lo hi labels -> no_pre_f n labels.
Proof.
  intros Hle Hw v Hv. destruct (Hw v Hv) as [H1 | [H1 | [H1 | [_ (jj & Hjj & _)]]]];
    [auto | auto | auto | lia].
Qed.

(** "For each j in S^T_i /\ U": the U nodes of the row become PRE_F. *)
Lemma mark_pre_f_loop n top Tj lo hi st :
  (forall jj, lo <= jj < hi -> 0 <= Tj.[jj] < n) ->
  rs_inv n top st -> no_pre_f n (RS.splitting st) ->
  rs_inv n top (for_range lo hi (RS.mark_pre_f Tj) st)
  /\ pre_f_within n Tj lo hi (RS.splitting (for_range lo hi (RS.mark_pre_f Tj) st)).
Proof.
  intros Hrow Hinv Hlab.
  assert (Hstart : forall hi', pre_f_within n Tj lo hi' (RS.splitting st)).
  { intros hi' v Hv. destruct (Hlab v Hv) as [H1 | [H1 | H1]]; auto. }
  destruct (Z.le_gt_cases lo hi) as [Hle|Hgt];
    [| rewrite for_range_empty by lia; split; [exact Hinv | apply Hstart]].
  loop_invariant (fun j s => rs_inv n top s
                             /\ pre_f_within n Tj lo j (RS.splitting s)) as Hloop.
  - exact Hle.
  - split; [exact Hinv | apply Hstart].
  - intros jj s Hjj [Hs Hw]. unfold RS.mark_pre_f.
    pose proof (Hrow jj Hjj) as Hj. set (j := Tj.[jj]) in *.
    assert (Hlen : Z.of_nat (length (RS.splitting s)) = n) by apply Hs.
    destruct (Z.eqb_spec (RS.splitting s).[j] U_NODE) as [HU|HU].
    + split.
      * apply rs_inv_relabel; [exact Hs | simpl_get; exact Hlen |].
        intros v Hv. destruct (Z.eq_dec v j) as [->|Hne];
          [rewrite get_set_eq by lia; discriminate |].
        rewrite get_set_ne by congruence. auto.
      * rs_fields. intros v Hv. destruct (Z.eq_dec v j) as [->|Hne].
        -- rewrite get_set_eq by lia. do 3 right.
           split; [reflexivity |]. exists jj. split; [lia | reflexivity].
        -- rewrite get_set_ne by congruence.
           destruct (Hw v Hv) as [H1 | [H1 | [H1 | [H1 (jj' & Hjj' & Hv')]]]]; auto.
           do 3 right. split; [exact H1 |]. exists jj'. split; [lia | exact Hv'].
    + split; [exact Hs |]. intros v Hv.
      destruct (Hw v Hv) as [H1 | [H1 | [H1 | [H1 (jj' & Hjj' & Hv')]]]]; auto.
      do 3 right. split; [exact H1 |]. exists jj'. split; [lia | exact Hv'].
  - exact Hloop.
Qed.

Lemma increment_lambda_loop n top Sp Sj j st :
  csr_ok n Sp Sj -> 0 <= j < n -> rs_inv n top st ->
  let st' := for_range Sp.[j] Sp.[j + 1] (RS.increment_lambda n Sj) st in
  rs_inv n top st' /\ RS.splitting st' = RS.splitting st.
Proof.
  intros S_ok Hj Hinv st'. unfold st'.
  apply (for_range_preserves
           (fun s => rs_inv n top s /\ RS.splitting s = RS.splitting st)).
  - split; [exact Hinv | reflexivity].
  - intros kk s Hkk [Hs Heq].
    destruct (increment_lambda_inv n top Sj kk s Hs) as [Hs' Heq'];
      [exact (csr_entry_node n Sp Sj j kk S_ok Hj Hkk) |].
    split; [exact Hs' | congruence].
Qed.

Lemma decrement_lambda_loop n top Sp Sj i st :
  csr_ok n Sp Sj -> 0 <= i < n -> rs_inv n top st ->
  let st' := for_range Sp.[i] Sp.[i + 1] (RS.decrement_lambda Sj) st in
  rs_inv n top st' /\ RS.splitting st' = RS.splitting st.
Proof.
  intros S_ok Hi Hinv st'. unfold st'.
  apply (for_range_preserves
           (fun s => rs_inv n top s /\ RS.splitting s = RS.splitting st)).
  - split; [exact Hinv | reflexivity].
  - intros kk s Hkk [Hs Heq].
    destruct (decrement_lambda_inv n top Sj kk s Hs) as [Hs' Heq'];
      [exact (csr_entry_node n Sp Sj i kk S_ok Hi Hkk) |].
    split; [exact Hs' | congruence].
Qed.

(** The second loop over the row of T: every PRE_F node becomes F. *)
Lemma settle_pre_f_loop n top Sp Sj Tj lo hi st :
  csr_ok n Sp Sj ->
  (forall jj, lo <= jj < hi -> 0 <= Tj.[jj] < n) ->
  rs_inv n top st -> pre_f_within n Tj lo hi (RS.splitting st) ->
  let st' := for_range lo hi (RS.settle_pre_f n Sp Sj Tj) st in
  rs_inv n top st' /\ no_pre_f n (RS.splitting st').
Proof.
  intros S_ok Hrow Hinv Hw st'. unfold st'. clear st'.
  destruct (Z.le_gt_cases lo hi) as [Hle|Hgt];
    [| rewrite for_range_empty by lia; split;
       [exact Hinv | apply (pre_f_within_empty n Tj lo hi); [lia | exact Hw]]].
  loop_invariant (fun j s => rs_inv n top s
                             /\ pre_f_within n Tj j hi (RS.splitting s)) as Hloop.
  - exact Hle.
  - split; assumption.
  - intros jj s Hjj [Hs Hws]. unfold RS.settle_pre_f.
    pose proof (Hrow jj Hjj) as Hj. set (j := Tj.[jj]) in *.
    assert (Hlen : Z.of_nat (length (RS.splitting s)) = n) by apply Hs.
    destruct (Z.eqb_spec (RS.splitting s).[j] PRE_F_NODE) as [HP|HP].
    + set (s1 := RS.set_splitting (RS.splitting s).[j <- F_NODE] s).
      assert (Hs1 : rs_inv n top s1).
      { apply rs_inv_relabel; [exact Hs | simpl_get; exact Hlen |].
        intros v Hv. destruct (Z.eq_dec v j) as [->|Hne];
          [rewrite get_set_eq by lia; discriminate |].
        rewrite get_set_ne by congruence. auto. }
      destruct (increment_lambda_loop n top Sp Sj j s1 S_ok Hj Hs1) as [Hs2 Heq].
      split; [exact Hs2 |]. rewrite Heq. unfold s1. rs_fields.
      intros v Hv. destruct (Z.eq_dec v j) as [->|Hne].
      * rewrite get_set_eq by lia. left. reflexivity.
      * rewrite get_set_ne by congruence.
        destruct (Hws v Hv) as [H1 | [H1 | [H1 | [H1 (jj' & Hjj' & Hv')]]]]; auto.
        do 3 right. split; [exact H1 |]. exists jj'. split; [| exact Hv'].
        assert (jj' <> jj) by (intros ->; apply Hne; symmetry; exact Hv'). lia.
    + split; [exact Hs |]. intros v Hv.
      destruct (Hws v Hv) as [H1 | [H1 | [H1 | [H1 (jj' & Hjj' & Hv')]]]]; auto.
      do 3 right. split; [exact H1 |]. exists jj'. split; [| exact Hv'].
      assert (jj' <> jj) by (intros ->; apply HP; fold j in Hv'; congruence). lia.
  - destruct Hloop as [Hs Hws]. split; [exact Hs |].
    apply (pre_f_within_empty n Tj hi hi); [lia | exact Hws].
Qed.

(** One iteration of the main loop. *)
Lemma select_step_inv n Sp Sj Tp Tj top st :
  csr_ok n Sp Sj -> csr_ok n Tp Tj ->
  0 <= top -> rs_inv n top st -> no_pre_f n (RS.splitting st) ->
  rs_inv n (top - 1) (RS.select_step n Sp Sj Tp Tj top st)
  /\ no_pre_f n (RS.splitting (RS.select_step n Sp Sj Tp Tj top st)).
Proof.
  intros S_ok T_ok Htop0 Hinv Hlab. unfold RS.select_step.
  set (i := (RS.index_to_node st).[top]). set (lambda_i := (RS.lambda st).[i]).
  set (st1 := RS.set_interval_count _ st).
  change (RS.splitting st1) with (RS.splitting st).
  destruct (Z.eqb_spec (RS.splitting st).[i] F_NODE) as [HF|HF].
  - split; [| exact Hlab].
    destruct Hinv as (Htop & Hll & Hls & Hperm & HM & Hbk & HUpos).
    pose proof Hperm as (Hl1 & Hl2 & Hp & Hv).
    unfold rs_inv, lambda_at, st1. rs_fields.
    split; [lia |]. split; [exact Hll |]. split; [exact Hls |].
    split; [exact Hperm |]. split; [simpl_get; exact HM |]. split.
    + exact (buckets_remove_top _ _ _ _ Hbk Htop0).
    + intros v Hvr HvU. pose proof (HUpos v Hvr HvU). destruct (Hv v Hvr) as [_ Hiv].
      assert ((RS.node_to_index st).[v] <> top); [| lia].
      intros Heq. rewrite Heq in Hiv. fold i in Hiv. subst v.
      rewrite HvU in HF. discriminate.
  - destruct (promote_inv n top st Htop0 Hinv Hlab) as (Hi' & Hinv3 & Hlab3).
    fold i lambda_i st1 in Hi', Hinv3, Hlab3.
    set (st2 := RS.bring_max_to_top top st1) in *.
    set (i' := (RS.index_to_node st2).[top]) in *.
    set (st3 := RS.set_splitting _ st2) in *.
    assert (Hrow : forall jj, Tp.[i'] <= jj < Tp.[i' + 1] -> 0 <= Tj.[jj] < n).
    { intros jj Hjj. exact (csr_entry_node n Tp Tj i' jj T_ok Hi' Hjj). }
    destruct (mark_pre_f_loop n (top - 1) Tj _ _ st3 Hrow Hinv3 Hlab3)
      as [Hinv4 Hlab4].
    set (st4 := for_range _ _ (RS.mark_pre_f Tj) st3) in *.
    destruct (settle_pre_f_loop n (top - 1) Sp Sj Tj _ _ st4 S_ok Hrow Hinv4 Hlab4)
      as [Hinv5 Hlab5].
    set (st5 := for_range _ _ (RS.settle_pre_f n Sp Sj Tj) st4) in *.
    destruct (decrement_lambda_loop n (top - 1) Sp Sj i' st5 S_ok Hi' Hinv5)
      as [Hinv6 Heq6].
    split; [exact Hinv6 |]. rewrite Heq6. exact Hlab5.
Qed.

(** ** Ruge-Stuben splitting: the counting sort *)

Lemma count_in_range_le p q lo hi :
  (forall i, lo <= i < hi -> p i = true -> q i = true) ->
  count_in_range p lo hi <= count_in_range q lo hi.
Proof.
  intros Hpq. destruct (Z.le_gt_cases lo hi) as [Hle|Hgt];
    [| rewrite !count_in_range_empty by lia; lia].
  apply (Z_range_ind (fun k => count_in_range p lo k <= count_in_range q lo k) lo hi);
    [exact Hle | rewrite !count_in_range_empty by lia; lia |].
  intros k Hk IH. rewrite !count_in_range_last by lia.
  destruct (p k) eqn:Hp, (q k) eqn:Hq; try lia.
  pose proof (Hpq k Hk Hp). congruence.
Qed.

Section CountingSort.
Variables (n M : Z) (lambda : list Z).
Hypothesis Hn : 0 <= n.
Hypothesis HM : n + 1 <= M.
Hypothesis Hlam : forall v, 0 <= v < n -> 0 <= lambda.[v] < M.

Lemma nodes_below_succ l :
  nodes_below lambda n (l + 1) = nodes_below lambda n l + equal_before lambda l n.
Proof.
  unfold nodes_below, equal_before.
  apply (Z_range_ind
           (fun k => count_in_range (fun v => lambda.[v] <? l + 1) 0 k
                     = count_in_range (fun v => lambda.[v] <? l) 0 k
                       + count_in_range (fun v => lambda.[v] =? l) 0 k) 0 n);
    [exact Hn | rewrite !count_in_range_empty by lia; lia |].
  intros k Hk IH. rewrite !count_in_range_last by lia.
  destruct (Z.ltb_spec lambda.[k] (l + 1)), (Z.ltb_spec lambda.[k] l),
    (Z.eqb_spec lambda.[k] l); lia.
Qed.

Lemma nodes_below_0 : nodes_below lambda n 0 = 0.
Proof.
  unfold nodes_below.
  apply (Z_range_ind
           (fun k => count_in_range (fun v => lambda.[v] <? 0) 0 k = 0) 0 n);
    [exact Hn | apply count_in_range_empty; lia |].
  intros k Hk IH. rewrite count_in_range_last by lia.
  pose proof (Hlam k Hk). destruct (Z.ltb_spec lambda.[k] 0); lia.
Qed.

Lemma nodes_below_mono l l' :
  l <= l' -> nodes_below lambda n l <= nodes_below lambda n l'.
Proof.
  intros Hle. apply count_in_range_le. intros i _ Hi.
  apply Z.ltb_lt in Hi. apply Z.ltb_lt. lia.
Qed.

Lemma nodes_below_bounds l : 0 <= nodes_below lambda n l <= n.
Proof.
  pose proof (count_in_range_bounds (fun v => lambda.[v] <? l) 0 n Hn).
  unfold nodes_below. lia.
Qed.

Lemma sorted_pos_bounds v :
  0 <= v < n ->
  nodes_below lambda n lambda.[v] <= sorted_pos lambda n v
  /\ sorted_pos lambda n v < nodes_below lambda n (lambda.[v] + 1).
Proof.
  intros Hv. unfold sorted_pos. rewrite nodes_below_succ. unfold equal_before.
  pose proof (count_in_range_nonneg (fun w => lambda.[w] =? lambda.[v]) 0 v).
  pose proof (count_in_range_lt (fun w => lambda.[w] =? lambda.[v]) 0 v n
                ltac:(lia) (Z.eqb_refl _)).
  lia.
Qed.

Lemma sorted_pos_range v : 0 <= v < n -> 0 <= sorted_pos lambda n v < n.
Proof.
  intros Hv. pose proof (sorted_pos_bounds v Hv).
  pose proof (nodes_below_bounds lambda.[v]).
  pose proof (nodes_below_bounds (lambda.[v] + 1)). lia.
Qed.

Lemma sorted_pos_before v w :
  0 <= v < w -> w < n -> sorted_pos lambda n v <> sorted_pos lambda n w.
Proof.
  intros Hv Hw.
  pose proof (sorted_pos_bounds v ltac:(lia)) as [Hv1 Hv2].
  pose proof (sorted_pos_bounds w ltac:(lia)) as [Hw1 Hw2].
  destruct (Z.lt_trichotomy lambda.[v] lambda.[w]) as [Hlt | [Heq | Hgt]].
  - pose proof (nodes_below_mono (lambda.[v] + 1) (lambda.[w])) as Hm. lia.
  - unfold sorted_pos, equal_before. rewrite Heq.
    pose proof (count_in_range_lt (fun u => lambda.[u] =? lambda.[w]) 0 v w
                  ltac:(lia)) as Hc.
    cbv beta in Hc. rewrite Heq, Z.eqb_refl in Hc. specialize (Hc eq_refl). lia.
  - pose proof (nodes_below_mono (lambda.[w] + 1) (lambda.[v])) as Hm. lia.
Qed.

Lemma sorted_pos_injective v w :
  0 <= v < n -> 0 <= w < n -> v <> w ->
  sorted_pos lambda n v <> sorted_pos lambda n w.
Proof.
  intros Hv Hw Hne. destruct (Z.lt_trichotomy v w) as [Hlt | [Heq | Hgt]].
  - apply sorted_pos_before; lia.
  - contradiction.
  - intros Heq. symmetry in Heq. revert Heq. apply sorted_pos_before; lia.
Qed.

(** The first loop of the sort counts the nodes of each priority. *)
Lemma count_lambdas_spec :
  let cnt := RS.count_lambdas n lambda (filled M 0) in
  Z.of_nat (length cnt) = M
  /\ forall l, 0 <= l < M -> cnt.[l] = equal_before lambda l n.
Proof.
  cbv zeta. unfold RS.count_lambdas.
  loop_invariant (fun i (cnt : list Z) =>
                    Z.of_nat (length cnt) = M
                    /\ forall l, 0 <= l < M -> cnt.[l] = equal_before lambda l i)
    as Hloop.
  - exact Hn.
  - split; [rewrite length_filled; lia |].
    intros l Hl. rewrite get_filled by exact Hl.
    unfold equal_before. rewrite count_in_range_empty by lia. reflexivity.
  - intros i cnt Hi [Hlen Hc]. pose proof (Hlam i Hi) as Hli.
    split; [simpl_get; exact Hlen |].
    intros l Hl. unfold equal_before. rewrite count_in_range_last by lia.
    fold (equal_before lambda l i). rewrite get_set by lia.
    rewrite (Hc lambda.[i]) by lia.
    destruct (Z.eqb_spec lambda.[i] l) as [->|]; [reflexivity |].
    rewrite Hc by exact Hl. lia.
  - exact Hloop.
Qed.

(** The second loop turns the counts into the first position of each
    priority and clears the counts. *)
Lemma prefix_sums_spec cnt0 :
  Z.of_nat (length cnt0) = M ->
  (forall l, 0 <= l < M -> cnt0.[l] = equal_before lambda l n) ->
  let r := RS.prefix_sums M (filled M 0) cnt0 in
  Z.of_nat (length (fst (fst r))) = M
  /\ Z.of_nat (length (snd (fst r))) = M
  /\ forall l, 0 <= l < M ->
       (fst (fst r)).[l] = nodes_below lambda n l /\ (snd (fst r)).[l] = 0.
Proof.
  intros Hlen0 Hc0. cbv zeta. unfold RS.prefix_sums.
  loop_invariant (fun i (r : list Z * list Z * Z) =>
                    Z.of_nat (length (fst (fst r))) = M
                    /\ Z.of_nat (length (snd (fst r))) = M
                    /\ snd r = nodes_below lambda n i
                    /\ (forall l, 0 <= l < i ->
                          (fst (fst r)).[l] = nodes_below lambda n l
                          /\ (snd (fst r)).[l] = 0)
                    /\ (forall l, i <= l < M ->
                          (snd (fst r)).[l] = equal_before lambda l n))
    as Hloop.
  - lia.
  - cbn [fst snd]. split; [rewrite length_filled; lia |].
    split; [exact Hlen0 |]. split; [symmetry; apply nodes_below_0 |].
    split; [intros l Hl; lia | intros l Hl; apply Hc0; lia].
  - intros i [[ptr cnt] cs] Hi (Hlp & Hlc & Hcs & Hdone & Htodo).
    cbn [fst snd] in *. split; [simpl_get; exact Hlp |].
    split; [simpl_get; exact Hlc |].
    split; [rewrite nodes_below_succ, (Htodo i) by lia; lia |].
    split.
    + intros l Hl. destruct (Z.eq_dec l i) as [->|Hne].
      * rewrite !get_set_eq by lia. split; [exact Hcs | reflexivity].
      * rewrite !get_set_ne by congruence. apply Hdone. lia.
    + intros l Hl. rewrite get_set_ne by lia. apply Htodo. lia.
  - destruct Hloop as (Hlp & Hlc & _ & Hdone & _).
    split; [exact Hlp |]. split; [exact Hlc | exact Hdone].
Qed.

End CountingSort.

(** A map of the [n] nodes into the [n] positions that has a left inverse
    reaches every position. *)
Lemma perm_ok_of_inverse n i2n n2i :
  0 <= n ->
  Z.of_nat (length i2n) = n -> Z.of_nat (length n2i) = n ->
  (forall v, 0 <= v < n -> 0 <= n2i.[v] < n /\ i2n.[n2i.[v]] = v) ->
  perm_ok n i2n n2i.
Proof.
  intros Hn Hl1 Hl2 Hinv.
  split; [exact Hl1 |]. split; [exact Hl2 |]. split; [| exact Hinv].
  set (image := (fun v => n2i.[v]) <$> seqZ 0 n).
  assert (Hperm : image ≡ₚ seqZ 0 n).
  { apply submseteq_length_Permutation.
    - apply NoDup_submseteq.
      + apply NoDup_fmap_2_strong; [| apply NoDup_seqZ].
        intros x y Hx Hy Heq. apply elem_of_seqZ in Hx, Hy.
        destruct (Hinv x ltac:(lia)) as [_ Hx']. destruct (Hinv y ltac:(lia)) as [_ Hy'].
        congruence.
      + intros x Hx. apply list_elem_of_fmap in Hx as (v & -> & Hv).
        apply elem_of_seqZ in Hv. apply elem_of_seqZ.
        destruct (Hinv v ltac:(lia)). lia.
    - unfold image. rewrite length_fmap. reflexivity. }
  intros pos Hpos.
  assert (Hin : pos ∈ image).
  { rewrite Hperm. apply elem_of_seqZ. lia. }
  apply list_elem_of_fmap in Hin as (v & -> & Hv). apply elem_of_seqZ in Hv.
  destruct (Hinv v ltac:(lia)) as [Hr Hv']. rewrite Hv'. split; [lia | reflexivity].
Qed.

Section Placement.
Variables (n M : Z) (lam ptr cnt0 splitting0 : list Z).
Hypothesis Hn : 0 <= n.
Hypothesis HM : n + 1 <= M.
Hypothesis Hlam : forall v, 0 <= v < n -> 0 <= lam.[v] < M.
Hypothesis Hptr : forall l, 0 <= l < M -> ptr.[l] = nodes_below lam n l.
Hypothesis Hlen0 : Z.of_nat (length cnt0) = M.
Hypothesis Hcnt0 : forall l, 0 <= l < M -> cnt0.[l] = 0.

(** The third loop of the sort puts node [v] at [sorted_pos v]. *)
Lemma place_node_loop :
  let st0 := {| RS.lambda := lam; RS.interval_ptr := ptr;
                RS.interval_count := cnt0;
                RS.index_to_node := filled n 0; RS.node_to_index := filled n 0;
                RS.splitting := splitting0 |} in
  let st := for_range 0 n RS.place_node st0 in
  RS.lambda st = lam /\ RS.interval_ptr st = ptr /\ RS.splitting st = splitting0
  /\ Z.of_nat (length (RS.index_to_node st)) = n
  /\ Z.of_nat (length (RS.node_to_index st)) = n
  /\ Z.of_nat (length (RS.interval_count st)) = M
  /\ (forall l, 0 <= l < M -> (RS.interval_count st).[l] = equal_before lam l n)
  /\ (forall v, 0 <= v < n ->
        (RS.node_to_index st).[v] = sorted_pos lam n v
        /\ (RS.index_to_node st).[sorted_pos lam n v] = v).
Proof.
  intros st0 st. unfold st. clear st.
  loop_invariant
    (fun i st =>
       RS.lambda st = lam /\ RS.interval_ptr st = ptr /\ RS.splitting st = splitting0
       /\ Z.of_nat (length (RS.index_to_node st)) = n
       /\ Z.of_nat (length (RS.node_to_index st)) = n
       /\ Z.of_nat (length (RS.interval_count st)) = M
       /\ (forall l, 0 <= l < M -> (RS.interval_count st).[l] = equal_before lam l i)
       /\ (forall v, 0 <= v < i ->
             (RS.node_to_index st).[v] = sorted_pos lam n v
             /\ (RS.index_to_node st).[sorted_pos lam n v] = v)) as Hloop.
  - exact Hn.
  - unfold st0. rs_fields. rewrite !length_filled.
    repeat (split; [first [reflexivity | lia | exact Hlen0] |]).
    split; [| intros v Hv; lia].
    intros l Hl. unfold equal_before. rewrite count_in_range_empty by lia.
    apply Hcnt0, Hl.
  - intros i s Hi (E1 & E2 & E3 & Hl1 & Hl2 & Hl3 & Hc & Hplaced).
    unfold RS.place_node. rs_fields. rewrite E1, E2.
    pose proof (Hlam i Hi) as Hli.
    assert (Hindex : ptr.[lam.[i]] + (RS.interval_count s).[lam.[i]]
                     = sorted_pos lam n i).
    { rewrite Hptr, Hc by lia. reflexivity. }
    rewrite Hindex.
    pose proof (sorted_pos_range n lam Hn i Hi) as Hri.
    split; [reflexivity |]. split; [reflexivity |]. split; [exact E3 |].
    split; [simpl_get; exact Hl1 |]. split; [simpl_get; exact Hl2 |].
    split; [simpl_get; exact Hl3 |]. split.
    + intros l Hl. unfold equal_before. rewrite count_in_range_last by lia.
      fold (equal_before lam l i). rewrite get_set by lia.
      rewrite (Hc lam.[i]) by lia.
      destruct (Z.eqb_spec lam.[i] l) as [->|]; [reflexivity |].
      rewrite Hc by exact Hl. lia.
    + intros v Hv. destruct (Z.eq_dec v i) as [->|Hne].
      * rewrite !get_set_eq by lia. split; reflexivity.
      * destruct (Hplaced v ltac:(lia)) as [H1 H2].
        rewrite get_set_ne by congruence. split; [exact H1 |].
        rewrite get_set_ne; [exact H2 |].
        apply (sorted_pos_injective n lam Hn); lia.
  - exact Hloop.
Qed.

End Placement.

(** ** Ruge-Stuben splitting: the initial state *)

Lemma compute_lambdas_spec n Tp influence :
  0 <= n ->
  let r := RS.compute_lambdas n Tp influence in
  Z.of_nat (length (fst r)) = n
  /\ 0 <= snd r
  /\ forall i, 0 <= i < n ->
       (fst r).[i] = Tp.[i + 1] - Tp.[i] + influence.[i] /\ (fst r).[i] <= snd r.
Proof.
  intros Hn. cbv zeta. unfold RS.compute_lambdas.
  loop_invariant
    (fun k (r : list Z * Z) =>
       Z.of_nat (length (fst r)) = n
       /\ 0 <= snd r
       /\ forall i, 0 <= i < k ->
            (fst r).[i] = Tp.[i + 1] - Tp.[i] + influence.[i]
            /\ (fst r).[i] <= snd r) as Hloop.
  - exact Hn.
  - cbn [fst snd]. rewrite length_filled.
    split; [lia |]. split; [lia |]. intros i Hi. lia.
  - intros k [lam lmax] Hk (Hlen & Hmax & Hdone). cbv beta iota zeta.
    cbn [fst snd] in *. rewrite get_set_eq by lia.
    set (x := Tp.[k + 1] - Tp.[k] + influence.[k]).
    assert (Hx : lmax <= (if x >? lmax then x else lmax)
                 /\ x <= (if x >? lmax then x else lmax)).
    { rewrite Z.gtb_ltb. destruct (Z.ltb_spec lmax x); lia. }
    split; [simpl_get; exact Hlen |]. split; [lia |].
    intros i Hi. destruct (Z.eq_dec i k) as [->|Hne].
    + rewrite get_set_eq by lia. split; [reflexivity | lia].
    + rewrite get_set_ne by congruence. destruct (Hdone i ltac:(lia)).
      split; [assumption | lia].
  - exact Hloop.
Qed.

(** A state whose nodes sit at their sorted positions satisfies the
    invariant of the main loop, with every position still to be processed. *)
Lemma sorted_table_ok n M st :
  0 <= n -> n + 1 <= M ->
  (forall v, 0 <= v < n -> 0 <= (RS.lambda st).[v] < M) ->
  Z.of_nat (length (RS.lambda st)) = n ->
  Z.of_nat (length (RS.splitting st)) = n ->
  Z.of_nat (length (RS.index_to_node st)) = n ->
  Z.of_nat (length (RS.node_to_index st)) = n ->
  Z.of_nat (length (RS.interval_ptr st)) = M ->
  Z.of_nat (length (RS.interval_count st)) = M ->
  (forall l, 0 <= l < M -> (RS.interval_ptr st).[l] = nodes_below (RS.lambda st) n l) ->
  (forall l, 0 <= l < M ->
     (RS.interval_count st).[l] = equal_before (RS.lambda st) l n) ->
  (forall v, 0 <= v < n ->
     (RS.node_to_index st).[v] = sorted_pos (RS.lambda st) n v
     /\ (RS.index_to_node st).[sorted_pos (RS.lambda st) n v] = v) ->
  rs_inv n (n - 1) st.
Proof.
  intros Hn HM Hlam Hll Hls Hl1 Hl2 Hlp Hlc Hptr Hcnt Hplaced.
  set (lam := RS.lambda st) in *.
  assert (Hperm : perm_ok n (RS.index_to_node st) (RS.node_to_index st)).
  { apply perm_ok_of_inverse; [exact Hn | exact Hl1 | exact Hl2 |].
    intros v Hv. destruct (Hplaced v Hv) as [H1 H2]. rewrite H1.
    split; [apply (sorted_pos_range n lam Hn v Hv) | exact H2]. }
  pose proof Hperm as (_ & _ & Hp & Hv).
  assert (Hat : forall pos : Z, 0 <= pos < n ->
            exists v, 0 <= v < n /\ (RS.index_to_node st).[pos] = v
                      /\ sorted_pos lam n v = pos).
  { intros pos Hpos. destruct (Hp pos Hpos) as [Hr Hback].
    exists (RS.index_to_node st).[pos]. split; [exact Hr |]. split; [reflexivity |].
    destruct (Hplaced _ Hr) as [H1 _]. congruence. }
  split; [lia |]. split; [exact Hll |]. split; [exact Hls |].
  split; [exact Hperm |]. split; [lia |]. split.
  - unfold lambda_at. fold lam. split.
    + lia.
    + intros pos Hpos. destruct (Hat pos ltac:(lia)) as (v & Hvr & -> & _).
      rewrite Hlc. apply Hlam, Hvr.
    + intros pos Hpos. destruct (Hat pos ltac:(lia)) as (v & Hvr & -> & Hsp).
      pose proof (Hlam v Hvr). pose proof (sorted_pos_bounds n lam Hn v Hvr) as Hb.
      rewrite (nodes_below_succ n lam Hn) in Hb.
      rewrite Hptr, Hcnt by lia. lia.
    + intros l Hl. rewrite Hcnt by lia. apply count_in_range_nonneg.
    + intros l Hl Hc. rewrite Hptr, Hcnt in * by lia.
      pose proof (nodes_below_bounds n lam Hn l).
      pose proof (nodes_below_bounds n lam Hn (l + 1)) as Hb1.
      rewrite (nodes_below_succ n lam Hn) in Hb1.
      split; [lia |]. split; [lia |].
      intros pos Hpos. destruct (Hat pos ltac:(lia)) as (v & Hvr & -> & Hsp).
      pose proof (sorted_pos_bounds n lam Hn v Hvr) as Hb.
      destruct (Z.lt_trichotomy lam.[v] l) as [Hlt | [Heq | Hgt]]; [| exact Heq |].
      * pose proof (nodes_below_mono n lam (lam.[v] + 1) l). lia.
      * pose proof (nodes_below_mono n lam (l + 1) (lam.[v])).
        rewrite (nodes_below_succ n lam Hn l) in *. lia.
    + intros l l' Hl Hl' Hc Hc'. rewrite !Hptr, Hcnt by lia.
      rewrite <- (nodes_below_succ n lam Hn). apply nodes_below_mono. lia.
  - intros v Hvr _. destruct (Hv v Hvr). lia.
Qed.

Lemma rs_inv_top_relabel n st labels :
  rs_inv n (n - 1) st -> Z.of_nat (length labels) = n ->
  rs_inv n (n - 1) (RS.set_splitting labels st).
Proof.
  intros (Htop & Hll & Hls & Hperm & HM & Hbk & HUpos) Hlen.
  unfold rs_inv, lambda_at in *. rs_fields.
  repeat (split; [assumption |]).
  intros v Hv _. destruct Hperm as (_ & _ & _ & Hn2i). destruct (Hn2i v Hv). lia.
Qed.

Lemma fill_U_NODE n splitting0 :
  0 <= n -> Z.of_nat (length splitting0) = n ->
  let s := for_range 0 n (fun i s => s.[i <- U_NODE]) splitting0 in
  Z.of_nat (length s) = n /\ forall v, 0 <= v < n -> s.[v] = U_NODE.
Proof.
  intros Hn Hlen. cbv zeta.
  loop_invariant (fun i (s : list Z) =>
                    Z.of_nat (length s) = n
                    /\ forall v, 0 <= v < i -> s.[v] = U_NODE) as Hloop.
  - exact Hn.
  - split; [exact Hlen | intros v Hv; lia].
  - intros i s Hi [Hl Hdone]. split; [simpl_get; exact Hl |].
    intros v Hv. destruct (Z.eq_dec v i) as [->|Hne].
    + apply get_set_eq. lia.
    + rewrite get_set_ne by congruence. apply Hdone. lia.
  - exact Hloop.
Qed.

Lemma rs_init_inv n Tp Tj influence splitting0 :
  0 <= n -> csr_ok n Tp Tj ->
  (forall i, 0 <= i < n -> 0 <= influence.[i]) ->
  Z.of_nat (length splitting0) = n ->
  rs_inv n (n - 1) (RS.init n Tp Tj influence splitting0)
  /\ no_pre_f n (RS.splitting (RS.init n Tp Tj influence splitting0)).
Proof.
  intros Hn T_ok Hinf Hlen. unfold RS.init.
  pose proof (compute_lambdas_spec n Tp influence Hn) as Hcl. cbv zeta in Hcl.
  destruct (RS.compute_lambdas n Tp influence) as [lam lmax].
  cbn [fst snd] in Hcl. destruct Hcl as (Hll & Hmax0 & Hlamv).
  set (M := RS.table_size n lmax).
  assert (HM : n + 1 <= M /\ lmax < M).
  { unfold M, RS.table_size. rewrite Z.gtb_ltb.
    destruct (Z.ltb_spec (lmax * 2) (n + 1)); lia. }
  destruct HM as [HM HlM].
  assert (Hlam : forall v, 0 <= v < n -> 0 <= lam.[v] < M).
  { intros v Hv. destruct (Hlamv v Hv) as [Heq Hle].
    destruct (csr_rows _ _ _ T_ok v Hv). pose proof (Hinf v Hv). lia. }
  destruct (count_lambdas_spec n M lam Hn HM Hlam) as [Hlc0 Hc0].
  pose proof (prefix_sums_spec n M lam Hn HM Hlam _ Hlc0 Hc0) as Hps.
  cbv zeta in Hps.
  destruct (RS.prefix_sums M (filled M 0) _) as [[ptr cntz] cs].
  cbn [fst snd] in Hps. destruct Hps as (Hlp & Hlz & Hpz).
  pose proof (place_node_loop n M lam ptr cntz splitting0 Hn Hlam
                (fun l Hl => proj1 (Hpz l Hl)) Hlz
                (fun l Hl => proj2 (Hpz l Hl))) as Hpl.
  cbv zeta in Hpl.
  set (st_p := for_range 0 n RS.place_node _) in *.
  destruct Hpl as (E1 & E2 & E3 & Hl1 & Hl2 & Hl3 & Hcnt & Hplaced).
  assert (Hsorted : rs_inv n (n - 1) st_p).
  { apply (sorted_table_ok n M); rewrite ?E1, ?E2, ?E3; try assumption.
    intros l Hl. apply Hpz, Hl. }
  destruct (fill_U_NODE n (RS.splitting st_p) Hn ltac:(rewrite E3; exact Hlen))
    as [HlU HallU].
  set (labels := for_range 0 n _ (RS.splitting st_p)) in *.
  pose proof (rs_inv_top_relabel n st_p labels Hsorted HlU) as Hst.
  set (st_u := RS.set_splitting labels st_p) in *.
  assert (Hfinal :
            (fun s => rs_inv n (n - 1) s
                      /\ forall v, 0 <= v < n ->
                           (RS.splitting s).[v] = F_NODE
                           \/ (RS.splitting s).[v] = U_NODE)
              (for_range 0 n (RS.mark_isolated Tp Tj) st_u)).
  { apply for_range_preserves.
    - split; [exact Hst |]. intros v Hv. right. apply HallU, Hv.
    - intros i s Hi [Hs Hlab]. unfold RS.mark_isolated.
      assert (Hls : Z.of_nat (length (RS.splitting s)) = n) by apply Hs.
      destruct (_ || _); [| split; assumption].
      split; [apply rs_inv_top_relabel; [exact Hs | simpl_get; exact Hls] |].
      rs_fields. intros v Hv. destruct (Z.eq_dec v i) as [->|Hne].
      + rewrite get_set_eq by lia. left. reflexivity.
      + rewrite get_set_ne by congruence. apply Hlab, Hv. }
  cbv beta in Hfinal. destruct Hfinal as [Hinv Hlab].
  split; [exact Hinv |].
  intros v Hv. destruct (Hlab v Hv) as [H1 | H1]; auto.
Qed.

(** When the main loop has processed every position, no U node is left. *)
Lemma rs_cf_splitting_settled n Sp Sj Tp Tj influence splitting0 :
  0 <= n -> csr_ok n Sp Sj -> csr_ok n Tp Tj ->
  (forall i, 0 <= i < n -> 0 <= influence.[i]) ->
  Z.of_nat (length splitting0) = n ->
  let s := RS.rs_cf_splitting n Sp Sj Tp Tj influence splitting0 in
  Z.of_nat (length s) = n
  /\ forall i, 0 <= i < n -> s.[i] = F_NODE \/ s.[i] = C_NODE.
Proof.
  intros Hn S_ok T_ok Hinf Hlen. cbv zeta. unfold RS.rs_cf_splitting.
  destruct (rs_init_inv n Tp Tj influence splitting0 Hn T_ok Hinf Hlen)
    as [Hinv0 Hlab0].
  pose proof (for_down_invariant
                (fun top s => rs_inv n top s /\ no_pre_f n (RS.splitting s))
                (n - 1) (RS.select_step n Sp Sj Tp Tj)
                (RS.init n Tp Tj influence splitting0)
                ltac:(lia) (conj Hinv0 Hlab0)) as Hrun.
  cbv beta in Hrun. destruct Hrun as [Hinv Hlab].
  { intros top s Htop [Hs Hl].
    apply select_step_inv; [exact S_ok | exact T_ok | lia | exact Hs | exact Hl]. }
  destruct Hinv as (_ & _ & Hls & Hperm & _ & _ & HUpos).
  split; [exact Hls |].
  intros i Hi. destruct (Hlab i Hi) as [H1 | [H1 | H1]]; [auto | auto |].
  exfalso. pose proof (HUpos i Hi H1).
  destruct Hperm as (_ & _ & _ & Hn2i). destruct (Hn2i i Hi). lia.
Qed.

(** The result of the CLJP kernel, when the selection loop has returned. *)
Lemma cljp_naive_splitting_settled {T} `{Scalar T} `{Inhabited T}
    n Sp Sj Tp Tj splitting0 colorflag ext fuel s :
  csr_ok n Sp Sj -> csr_ok n Tp Tj ->
  Z.of_nat (length splitting0) = n ->
  CLJP.cljp_naive_splitting (T:=T) fuel n Sp Sj Tp Tj splitting0 colorflag ext
  = Some s ->
  Z.of_nat (length s) = n
  /\ forall i, 0 <= i < n -> s.[i] = F_NODE \/ s.[i] = C_NODE.
Proof.
  intros S_ok T_ok Hlen Hrun. unfold CLJP.cljp_naive_splitting in Hrun.
  pose proof (init_inv n Sp Sj splitting0 colorflag ext Hlen) as Hinv0.
  destruct (CLJP.selection_loop fuel n Sp Sj Tp Tj _) as [st|] eqn:Hloop;
    [| discriminate].
  assert (Hs : s = CLJP.splitting (CLJP.finish n Sp st))
    by (injection Hrun as Hr; symmetry; exact Hr).
  subst s. clear Hrun.
  destruct (selection_loop_result n Sp Sj Tp Tj S_ok T_ok fuel _ st Hinv0 Hloop)
    as ((Hls & _ & _ & Hlab & _) & _ & _).
  destruct (finish_settles n Sp st Hls) as (_ & Hlf & Hget).
  split; [lia |].
  intros i Hi. rewrite Hget by exact Hi.
  destruct (Hlab i Hi) as [H1 | [H1 | H1]]; rewrite H1; cbn; auto.
Qed.

(** The selection loop of the CLJP kernel returns within [n] passes. *)
Lemma cljp_naive_splitting_returns {T} `{Scalar T} `{Inhabited T}
    n Sp Sj Tp Tj splitting0 colorflag ext :
  ltb_strict_order T ->
  csr_ok n Sp Sj -> csr_ok n Tp Tj ->
  Z.of_nat (length splitting0) = n ->
  exists s,
    CLJP.cljp_naive_splitting (T:=T) (Z.to_nat n) n Sp Sj Tp Tj
      splitting0 colorflag ext = Some s.
Proof.
  intros Hord S_ok T_ok Hlen. unfold CLJP.cljp_naive_splitting.
  pose proof (init_inv n Sp Sj splitting0 colorflag ext Hlen) as Hinv0.
  destruct (selection_loop_terminates n Sp Sj Tp Tj S_ok T_ok Hord
              (Z.to_nat n) _ Hinv0) as (st & Hrun & _).
  - destruct Hinv0 as (_ & _ & _ & _ & Hun). rewrite Hun. unfold count_label.
    pose proof (count_in_range_bounds
                  (fun i => (CLJP.splitting
                               (CLJP.init (T:=T) n Sp Sj splitting0 colorflag ext)).[i]
                            =? U_NODE) 0 n ltac:(lia)).
    lia.
  - rewrite Hrun. eexists. reflexivity.
Qed.

(** ** The comparison of binary64 *)

(** [<] on IEEE doubles is irreflexive and transitive, NaN and the two zeros
    included: a comparison with NaN is false. *)
Lemma SFltb_irrefl x : SFltb x x = false.
Proof.
  unfold SFltb, SFcompare.
  destruct x as [s | s | | s m e]; try destruct s; try reflexivity;
    rewrite Z.compare_refl; fold (Pos.compare m m); rewrite Pos.compare_refl;
    reflexivity.
Qed.

Ltac fold_pos_compare :=
  repeat match goal with
         | H : context [Pcompare ?a ?b Eq] |- _ =>
             change (Pcompare a b Eq) with (Pos.compare a b) in H
         | |- context [Pcompare ?a ?b Eq] =>
             change (Pcompare a b Eq) with (Pos.compare a b)
         end.

Lemma SFltb_trans x y z :
  SFltb x y = true -> SFltb y z = true -> SFltb x z = true.
Proof.
  unfold SFltb, SFcompare.
  destruct x as [sx | sx | | sx mx ex], y as [sy | sy | | sy my ey],
    z as [sz | sz | | sz mz ez];
    try destruct sx; try destruct sy; try destruct sz;
    try discriminate; try reflexivity; intros Hxy Hyz; fold_pos_compare;
    destruct (Z.compare_spec ex ey), (Z.compare_spec ey ez), (Z.compare_spec ex ez);
    try discriminate; try reflexivity; try lia;
    destruct (Pos.compare_spec mx my), (Pos.compare_spec my mz),
      (Pos.compare_spec mx mz);
    try discriminate; try reflexivity; try lia.
Qed.

Lemma float_ltb_strict_order : ltb_strict_order float.
Proof.
  split.
  - intros a. cbn [s_ltb float_Scalar]. rewrite ltb_spec. apply SFltb_irrefl.
  - intros a b c. cbn [s_ltb float_Scalar]. rewrite !ltb_spec. apply SFltb_trans.
Qed.

(** ** Both splitters label every node C or F *)

(** C2.  On a well-formed S and T (T need not even be the transpose of S)
    both splitters leave an array of [n] labels, each of them F_NODE (0) or
    C_NODE (1), none U_NODE or PRE_F_NODE: [rs_cf_splitting] for every
    [influence] without a negative entry, whatever the array held on entry;
    [cljp_naive_splitting] whenever its selection loop returns, and the
    loop does return, within [n] passes, when the comparison of the scalar
    type is a strict partial order, as it is for [double]: there the kernel
    returns such an array for every seeding of the weights. *)
Theorem splitters_label_every_node_C_or_F :
  forall n Sp Sj Tp Tj splitting0,
    csr_ok n Sp Sj -> csr_ok n Tp Tj ->
    Z.of_nat (length splitting0) = n ->
    (forall influence,
       (forall i, 0 <= i < n -> 0 <= influence.[i]) ->
       let s := RS.rs_cf_splitting n Sp Sj Tp Tj influence splitting0 in
       Z.of_nat (length s) = n
       /\ forall i, 0 <= i < n -> s.[i] = F_NODE \/ s.[i] = C_NODE)
    /\ (forall (T : Type) (ST : Scalar T) (IT : Inhabited T) colorflag ext,
          (forall fuel s,
             CLJP.cljp_naive_splitting (T:=T) fuel n Sp Sj Tp Tj
               splitting0 colorflag ext = Some s ->
             Z.of_nat (length s) = n
             /\ forall i, 0 <= i < n -> s.[i] = F_NODE \/ s.[i] = C_NODE)
          /\ (ltb_strict_order T ->
              exists s,
                CLJP.cljp_naive_splitting (T:=T) (Z.to_nat n) n Sp Sj Tp Tj
                  splitting0 colorflag ext = Some s))
    /\ (forall colorflag ext,
          exists s,
            CLJP.cljp_naive_splitting (T:=float) (Z.to_nat n) n Sp Sj Tp Tj
              splitting0 colorflag ext = Some s
            /\ Z.of_nat (length s) = n
            /\ forall i, 0 <= i < n -> s.[i] = F_NODE \/ s.[i] = C_NODE).
Proof.
  intros n Sp Sj Tp Tj splitting0 S_ok T_ok Hlen. split; [| split].
  - intros influence Hinf.
    apply rs_cf_splitting_settled; [lia | assumption ..].
  - intros T ST IT colorflag ext. split.
    + intros fuel s Hrun.
      exact (cljp_naive_splitting_settled n Sp Sj Tp Tj splitting0 colorflag ext
               fuel s S_ok T_ok Hlen Hrun).
    + intros Hord. apply cljp_naive_splitting_returns; assumption.
  - intros colorflag ext.
    destruct (cljp_naive_splitting_returns (T:=float) n Sp Sj Tp Tj splitting0
                colorflag ext float_ltb_strict_order S_ok T_ok Hlen) as [s Hrun].
    exists s. split; [exact Hrun |].
    exact (cljp_naive_splitting_settled n Sp Sj Tp Tj splitting0 colorflag ext
             _ s S_ok T_ok Hlen Hrun).
Qed.

(** [splitters_label_every_node_C_or_F] on the graph of one edge 0 - 1,
    entered with the labels [2; 3]. *)
Lemma splitters_label_every_node_C_or_F_witness :
  let s := RS.rs_cf_splitting 2 [0; 1; 2] [1; 0] [0; 1; 2] [1; 0] [0; 0] [2; 3] in
  Z.of_nat (length s) = 2
  /\ forall i, 0 <= i < 2 -> s.[i] = F_NODE \/ s.[i] = C_NODE.
Proof.
  refine (proj1 (splitters_label_every_node_C_or_F 2 [0; 1; 2] [1; 0] [0; 1; 2] [1; 0]
                   [2; 3] csr_ok_two_cycle csr_ok_two_cycle eq_refl) [0; 0] _).
  intros i Hi. assert (Hc : i = 0 \/ i = 1) by lia.
  destruct Hc as [-> | ->]; vm_compute; discriminate.
Defined.

(** The Ruge-Stuben splitter run on that graph: node 1 is selected, node 0
    becomes F. *)
Example rs_cf_splitting_two_cycle :
  RS.rs_cf_splitting 2 [0; 1; 2] [1; 0] [0; 1; 2] [1; 0] [0; 0] [2; 3] = [0; 1].
Proof. vm_compute. reflexivity. Qed.

(** * Further properties of the kernels *)

(** ** Rows as lists of entries *)

Lemma selected_empty p lo hi : hi <= lo -> selected p lo hi = [].
Proof. intros Hle. unfold selected. rewrite seqZ_nil by lia. reflexivity. Qed.

Lemma selected_snoc p lo hi :
  lo <= hi ->
  selected p lo (hi + 1) = selected p lo hi ++ (if p hi then [hi] else []).
Proof.
  intros Hle. unfold selected.
  replace (hi + 1 - lo) with ((hi - lo) + 1) by lia.
  rewrite seqZ_app by lia. rewrite filter_app. f_equal.
  rewrite seqZ_cons, seqZ_nil by lia. rewrite filter_cons, filter_nil.
  replace (lo + (hi - lo)) with hi by lia.
  destruct (p hi); destruct (decide (_ = true)); congruence.
Qed.

Lemma selected_length p lo hi :
  Z.of_nat (length (selected p lo hi)) = count_in_range p lo hi.
Proof.
  destruct (Z.le_gt_cases lo hi) as [Hle|Hgt];
    [| rewrite selected_empty, count_in_range_empty by lia; reflexivity].
  apply (Z_range_ind
           (fun k => Z.of_nat (length (selected p lo k)) = count_in_range p lo k)
           lo hi); [exact Hle | |].
  - rewrite selected_empty, count_in_range_empty by lia. reflexivity.
  - intros k Hk IH. rewrite selected_snoc, count_in_range_last by lia.
    rewrite length_app. destruct (p k); cbn [length]; lia.
Qed.

Lemma elem_of_selected p lo hi k :
  k ∈ selected p lo hi <-> lo <= k < hi /\ p k = true.
Proof.
  unfold selected. rewrite list_elem_of_filter, elem_of_seqZ.
  split; intros [H1 H2]; (split; [lia || assumption | lia || assumption]).
Qed.

Lemma selected_all p lo hi :
  (forall k, lo <= k < hi -> p k = true) -> selected p lo hi = seqZ lo (hi - lo).
Proof.
  intros Hall. destruct (Z.le_gt_cases lo hi) as [Hle|Hgt];
    [| rewrite selected_empty, seqZ_nil by lia; reflexivity].
  revert Hall.
  apply (Z_range_ind
           (fun k => (forall j, lo <= j < k -> p j = true) ->
                     selected p lo k = seqZ lo (k - lo)) lo hi); [exact Hle | |].
  - intros _. rewrite selected_empty, seqZ_nil by lia. reflexivity.
  - intros k Hk IH Hall. rewrite selected_snoc by lia.
    rewrite IH by (intros j Hj; apply Hall; lia). rewrite Hall by lia.
    replace (k + 1 - lo) with ((k - lo) + 1) by lia.
    rewrite (seqZ_app lo (k - lo) 1) by lia. f_equal.
    rewrite seqZ_cons, seqZ_nil by lia. f_equal. lia.
Qed.

Lemma row_entries_empty {T} `{Inhabited T} (Xj : list Z) (Xx : list T) lo hi :
  hi <= lo -> row_entries Xj Xx lo hi = [].
Proof. intros Hle. unfold row_entries. rewrite seqZ_nil by lia. reflexivity. Qed.

Lemma row_entries_snoc {T} `{Inhabited T} (Xj : list Z) (Xx : list T) lo hi :
  lo <= hi ->
  row_entries Xj Xx lo (hi + 1) = row_entries Xj Xx lo hi ++ [(Xj.[hi], Xx.[hi])].
Proof.
  intros Hle. unfold row_entries.
  replace (hi + 1 - lo) with ((hi - lo) + 1) by lia.
  rewrite seqZ_app by lia. rewrite fmap_app. f_equal.
  rewrite seqZ_cons, seqZ_nil by lia. cbn.
  replace (lo + (hi - lo)) with hi by lia. reflexivity.
Qed.

Lemma row_entries_ext {T} `{Inhabited T} (Xj Xj' : list Z) (Xx Xx' : list T) lo hi :
  (forall k, lo <= k < hi -> Xj'.[k] = Xj.[k] /\ Xx'.[k] = Xx.[k]) ->
  row_entries Xj' Xx' lo hi = row_entries Xj Xx lo hi.
Proof.
  intros Hsame. unfold row_entries. apply list_fmap_ext.
  intros idx k Hk. apply list_elem_of_lookup_2 in Hk. apply elem_of_seqZ in Hk.
  destruct (Hsame k ltac:(lia)) as [-> ->]. reflexivity.
Qed.

Lemma row_entries_length {T} `{Inhabited T} (Xj : list Z) (Xx : list T) lo hi :
  lo <= hi -> Z.of_nat (length (row_entries Xj Xx lo hi)) = hi - lo.
Proof.
  intros Hle. unfold row_entries. rewrite length_fmap, length_seqZ. lia.
Qed.

Lemma row_entries_selected_all {T} `{Inhabited T} (Xj : list Z) (Xx : list T)
    p lo hi :
  (forall k, lo <= k < hi -> p k = true) ->
  (fun k => (Xj.[k], Xx.[k])) <$> selected p lo hi = row_entries Xj Xx lo hi.
Proof. intros Hall. rewrite selected_all by exact Hall. reflexivity. Qed.

(** ** Strength of connection: what S holds *)

Section StrengthRows.
Context {T : Type} `{Scalar T} `{Inhabited T}.
Variables (Aj : list Z) (Ax : list T).

(** The two tests of the loop body store the entry at most once. *)
Lemma strength_entry_eq i thr jj st :
  strength_entry Aj Ax i thr jj st
  = if (Aj.[jj] =? i) || s_geb (mynorm Ax.[jj]) thr
    then push_entry Aj.[jj] Ax.[jj] st else st.
Proof.
  unfold strength_entry.
  destruct (Aj.[jj] =? i), (s_geb (mynorm Ax.[jj]) thr); reflexivity.
Qed.

Lemma strength_entries_loop i thr lo hi st :
  lo <= hi -> 0 <= o_nnz st ->
  o_nnz st + (hi - lo) <= Z.of_nat (length (o_j st)) ->
  o_nnz st + (hi - lo) <= Z.of_nat (length (o_x st)) ->
  let p := fun jj => (Aj.[jj] =? i) || s_geb (mynorm Ax.[jj]) thr in
  let st' := for_range lo hi (strength_entry Aj Ax i thr) st in
  o_nnz st' = o_nnz st + count_in_range p lo hi
  /\ o_p st' = o_p st
  /\ length (o_j st') = length (o_j st)
  /\ length (o_x st') = length (o_x st)
  /\ (forall pos, pos < o_nnz st ->
        (o_j st').[pos] = (o_j st).[pos] /\ (o_x st').[pos] = (o_x st).[pos])
  /\ row_entries (o_j st') (o_x st') (o_nnz st) (o_nnz st')
     = (fun k => (Aj.[k], Ax.[k])) <$> selected p lo hi.
Proof.
  intros Hle Hnnz Hroomj Hroomx p. cbv zeta.
  loop_invariant
    (fun k st' =>
       o_nnz st' = o_nnz st + count_in_range p lo k
       /\ o_p st' = o_p st
       /\ length (o_j st') = length (o_j st)
       /\ length (o_x st') = length (o_x st)
       /\ (forall pos, pos < o_nnz st ->
             (o_j st').[pos] = (o_j st).[pos] /\ (o_x st').[pos] = (o_x st).[pos])
       /\ row_entries (o_j st') (o_x st') (o_nnz st) (o_nnz st')
          = (fun k => (Aj.[k], Ax.[k])) <$> selected p lo k) as Hloop.
  - exact Hle.
  - rewrite count_in_range_empty, selected_empty, row_entries_empty by lia.
    repeat (split; [first [reflexivity | lia] |]).
    split; [intros pos Hpos; split; reflexivity | reflexivity].
  - intros k s Hk (Hn & Hp & Hlj & Hlx & Hold & Hrow).
    pose proof (count_in_range_bounds p lo k ltac:(lia)) as Hb.
    rewrite strength_entry_eq. fold (p k).
    rewrite count_in_range_last, selected_snoc by lia.
    destruct (p k); [| rewrite Z.add_0_r, app_nil_r;
                       repeat (split; [assumption |]); assumption].
    unfold push_entry. cbn [o_nnz o_p o_j o_x].
    split; [lia |]. split; [exact Hp |].
    split; [simpl_get; exact Hlj |]. split; [simpl_get; exact Hlx |]. split.
    + intros pos Hpos. rewrite !get_set_ne by lia. apply Hold, Hpos.
    + rewrite row_entries_snoc by lia. rewrite fmap_app. cbn [fmap list_fmap].
      rewrite !get_set_eq by lia. f_equal. rewrite <- Hrow.
      apply row_entries_ext. intros j Hj. rewrite !get_set_ne by lia.
      split; reflexivity.
  - exact Hloop.
Qed.

End StrengthRows.

Lemma csr_rowptr_monotone (Xp : list Z) n r k :
  (forall i, 0 <= i < n -> Xp.[i] <= Xp.[i + 1]) ->
  0 <= r <= k -> k <= n -> Xp.[r] <= Xp.[k].
Proof.
  intros Hrows Hr Hk.
  apply (Z_range_ind (fun j => Xp.[r] <= Xp.[j]) r k); [lia | lia |].
  intros j Hj IH. pose proof (Hrows j ltac:(lia)). lia.
Qed.

Section StrengthMatrix.
Context {T : Type} `{Scalar T} `{Inhabited T}.
Variables (n : Z) (theta : T) (Ap Aj : list Z) (Ax : list T).
Variables (Sp Sj : list Z) (Sx : list T).
Hypothesis Hn : 0 <= n.
Hypothesis Hrows : forall i, 0 <= i < n -> Ap.[i] <= Ap.[i + 1].
Hypothesis Hlp : n + 1 <= Z.of_nat (length Sp).
Hypothesis Hlj : Ap.[n] - Ap.[0] <= Z.of_nat (length Sj).
Hypothesis Hlx : Ap.[n] - Ap.[0] <= Z.of_nat (length Sx).

Abbreviation keeps := (strength_keeps theta Ap Aj Ax).

Lemma strength_rows_spec :
  let S := classical_strength_of_connection n theta Ap Aj Ax Sp Sj Sx in
  (o_p S).[0] = 0
  /\ o_nnz S = (o_p S).[n]
  /\ o_nnz S <= Ap.[n] - Ap.[0]
  /\ length (o_p S) = length Sp
  /\ length (o_j S) = length Sj
  /\ length (o_x S) = length Sx
  /\ forall i, 0 <= i < n ->
       0 <= (o_p S).[i]
       /\ (o_p S).[i + 1]
          = (o_p S).[i] + count_in_range (keeps i) Ap.[i] Ap.[i + 1]
       /\ row_entries (o_j S) (o_x S) (o_p S).[i] (o_p S).[i + 1]
          = (fun k => (Aj.[k], Ax.[k])) <$> selected (keeps i) Ap.[i] Ap.[i + 1].
Proof.
  cbv zeta. unfold classical_strength_of_connection.
  loop_invariant
    (fun k S =>
       (o_p S).[0] = 0
       /\ o_nnz S = (o_p S).[k]
       /\ 0 <= o_nnz S <= Ap.[k] - Ap.[0]
       /\ length (o_p S) = length Sp
       /\ length (o_j S) = length Sj
       /\ length (o_x S) = length Sx
       /\ forall i, 0 <= i < k ->
            0 <= (o_p S).[i]
            /\ (o_p S).[i + 1] <= o_nnz S
            /\ (o_p S).[i + 1]
               = (o_p S).[i] + count_in_range (keeps i) Ap.[i] Ap.[i + 1]
            /\ row_entries (o_j S) (o_x S) (o_p S).[i] (o_p S).[i + 1]
               = (fun k => (Aj.[k], Ax.[k]))
                   <$> selected (keeps i) Ap.[i] Ap.[i + 1]) as Hloop.
  - exact Hn.
  - cbn [o_nnz o_p o_j o_x]. rewrite get_set_eq by lia. simpl_get.
    do 6 (split; [first [reflexivity | lia] |]). intros i Hi. lia.
  - intros k S Hk (H0' & Hcur & Hbound & Hl1 & Hl2 & Hl3 & Hdone).
    unfold strength_row.
    pose proof (Hrows k Hk) as Hrow.
    pose proof (csr_rowptr_monotone Ap n (k + 1) n Hrows ltac:(lia) ltac:(lia)) as Hmono.
    set (thr := s_mul theta (max_offdiagonal_of_row Aj Ax k Ap.[k] Ap.[k + 1])).
    pose proof (strength_entries_loop Aj Ax k thr Ap.[k] Ap.[k + 1] S Hrow
                  ltac:(lia) ltac:(lia) ltac:(lia)) as Hfill.
    cbv zeta in Hfill. fold (keeps k) in Hfill.
    change (fun jj : Z => (Aj.[jj] =? k) || s_geb (mynorm Ax.[jj]) thr)
      with (keeps k) in Hfill.
    set (S' := for_range Ap.[k] Ap.[k + 1] _ S) in *.
    destruct Hfill as (Hn' & Hp' & Hlj' & Hlx' & Hold & Hrowk).
    pose proof (count_in_range_bounds (keeps k) Ap.[k] Ap.[k + 1] Hrow) as Hb.
    cbn [o_nnz o_p o_j o_x]. rewrite Hp'.
    rewrite get_set_eq by lia. rewrite get_set_ne by lia.
    split; [exact H0' |]. split; [reflexivity |]. split; [lia |].
    split; [simpl_get; exact Hl1 |]. split; [congruence |]. split; [congruence |].
    intros i Hi. destruct (Z.eq_dec i k) as [->|Hne].
    + rewrite get_set_eq, get_set_ne by lia.
      split; [lia |]. split; [lia |]. split; [lia |].
      rewrite <- Hcur. exact Hrowk.
    + destruct (Hdone i ltac:(lia)) as (Hi0 & Hi1 & Hic & Hir).
      rewrite !get_set_ne by lia.
      split; [exact Hi0 |]. split; [lia |]. split; [exact Hic |].
      rewrite <- Hir. apply row_entries_ext. intros j Hj. apply Hold. lia.
  - destruct Hloop as (H0' & Hcur & Hbound & Hl1 & Hl2 & Hl3 & Hdone).
    do 6 (split; [first [assumption | lia] |]).
    intros i Hi. destruct (Hdone i Hi) as (Hi0 & _ & Hic & Hir).
    split; [exact Hi0 |]. split; assumption.
Qed.

End StrengthMatrix.

(** ** The running maximum, over exact rationals *)

Lemma Q_std_max_spec (a b : Q) :
  (a <= std_max a b)%Q /\ (b <= std_max a b)%Q
  /\ (std_max a b = a \/ std_max a b = b).
Proof.
  unfold std_max. destruct (s_ltb a b) eqn:E.
  - apply Q_ltb_lt in E. split; [apply Qlt_le_weak, E |].
    split; [apply Qle_refl | right; reflexivity].
  - split; [apply Qle_refl |]. split; [| left; reflexivity].
    apply Qnot_lt_le. intros Hlt. apply Q_ltb_lt in Hlt. congruence.
Qed.

Lemma Q_running_max (q : Z -> bool) (f : Z -> Q) (seed : Q) lo hi :
  let m := for_range lo hi
             (fun jj m => if q jj then std_max m (f jj) else m) seed in
  (seed <= m)%Q
  /\ (forall jj, lo <= jj < hi -> q jj = true -> (f jj <= m)%Q)
  /\ (m = seed \/ exists jj, lo <= jj < hi /\ q jj = true /\ m = f jj).
Proof.
  cbv zeta. destruct (Z.le_gt_cases lo hi) as [Hle|Hgt].
  2:{ rewrite for_range_empty by lia. split; [apply Qle_refl |].
      split; [intros jj Hjj; lia | left; reflexivity]. }
  loop_invariant
    (fun k (m : Q) =>
       (seed <= m)%Q
       /\ (forall jj, lo <= jj < k -> q jj = true -> (f jj <= m)%Q)
       /\ (m = seed \/ exists jj, lo <= jj < k /\ q jj = true /\ m = f jj))
    as Hloop.
  - exact Hle.
  - split; [apply Qle_refl |]. split; [intros jj Hjj; lia | left; reflexivity].
  - intros k m Hk (Hseed & Hub & Hatt).
    destruct (q k) eqn:Hq.
    + destruct (Q_std_max_spec m (f k)) as (Hm & Hf & Hcase).
      split; [exact (Qle_trans _ _ _ Hseed Hm) |]. split.
      * intros jj Hjj Hqj. destruct (Z.eq_dec jj k) as [->|Hne]; [exact Hf |].
        exact (Qle_trans _ _ _ (Hub jj ltac:(lia) Hqj) Hm).
      * destruct Hcase as [-> | ->].
        -- destruct Hatt as [-> | (jj & Hjj & Hqj & ->)]; [left; reflexivity |].
           right. exists jj. split; [lia |]. split; [exact Hqj | reflexivity].
        -- right. exists k. split; [lia |]. split; [exact Hq | reflexivity].
    + split; [exact Hseed |]. split.
      * intros jj Hjj Hqj. destruct (Z.eq_dec jj k) as [->|Hne]; [congruence |].
        apply Hub; [lia | exact Hqj].
      * destruct Hatt as [-> | (jj & Hjj & Hqj & ->)]; [left; reflexivity |].
        right. exists jj. split; [lia |]. split; [exact Hqj | reflexivity].
  - exact Hloop.
Qed.

Lemma Q_running_max_seeded q f seed lo hi :
  seeded_max_of seed q f lo hi
    (for_range lo hi (fun jj m => if q jj then std_max m (f jj) else m) seed).
Proof.
  destruct (Q_running_max q f seed lo hi) as (Hs & Hub & Hatt).
  split; [exact Hs |]. split; [exact Hub |].
  destruct Hatt as [-> | (jj & Hjj & Hq & ->)]; [left; reflexivity |].
  right. exists jj. split; [exact Hjj |]. split; [exact Hq | reflexivity].
Qed.

Lemma selected_ext p q lo hi :
  (forall k, lo <= k < hi -> p k = q k) -> selected p lo hi = selected q lo hi.
Proof.
  intros Hpq. destruct (Z.le_gt_cases lo hi) as [Hle|Hgt];
    [| rewrite !selected_empty by lia; reflexivity].
  revert Hpq.
  apply (Z_range_ind
           (fun k => (forall j, lo <= j < k -> p j = q j) ->
                     selected p lo k = selected q lo k) lo hi); [exact Hle | |].
  - intros _. rewrite !selected_empty by lia. reflexivity.
  - intros k Hk IH Hpq. rewrite !selected_snoc by lia.
    rewrite IH by (intros j Hj; apply Hpq; lia). rewrite (Hpq k) by lia.
    reflexivity.
Qed.

Lemma Q_geb_le (a b : Q) : s_geb a b = Qle_bool b a.
Proof. reflexivity. Qed.

(** ** Strength of connection: the rows of S *)

(** Case analysis on an index of a short concrete range. *)
Ltac index_cases i Hi :=
  destruct (Z.eq_dec i 0) as [-> | ?];
  [ | destruct (Z.eq_dec i 1) as [-> | ?];
      [ | destruct (Z.eq_dec i 2) as [-> | ?];
          [ | destruct (Z.eq_dec i 3) as [-> | ?]; [ | exfalso; lia ] ] ] ];
  try (exfalso; lia).

(** The running maximum of a loop over [lo, hi) is the seed or one of the
    values met, and none of them is greater than it. *)
Lemma running_max_maximal {T} `{Scalar T} (q : Z -> bool) (f : Z -> T)
    (seed : T) lo hi :
  ltb_strict_order T ->
  let m := for_range lo hi
             (fun jj m => if q jj then std_max m (f jj) else m) seed in
  (m = seed \/ exists jj, lo <= jj < hi /\ q jj = true /\ m = f jj)
  /\ s_ltb m seed = false
  /\ (forall jj, lo <= jj < hi -> q jj = true -> s_ltb m (f jj) = false).
Proof.
  intros [Hirr Htrans]. cbv zeta.
  destruct (Z.le_gt_cases lo hi) as [Hle|Hgt].
  2:{ rewrite for_range_empty by lia. split; [left; reflexivity |].
      split; [apply Hirr | intros jj Hjj; lia]. }
  assert (Hmax : forall a b c : T,
            s_ltb a c = false -> s_ltb (std_max a b) c = false).
  { intros a b c Hac. unfold std_max. destruct (s_ltb a b) eqn:Hab; [| exact Hac].
    destruct (s_ltb b c) eqn:Hbc; [| reflexivity].
    rewrite (Htrans a b c Hab Hbc) in Hac. discriminate. }
  loop_invariant
    (fun k (m : T) =>
       (m = seed \/ exists jj, lo <= jj < k /\ q jj = true /\ m = f jj)
       /\ s_ltb m seed = false
       /\ (forall jj, lo <= jj < k -> q jj = true -> s_ltb m (f jj) = false))
    as Hloop.
  - exact Hle.
  - split; [left; reflexivity |]. split; [apply Hirr | intros jj Hjj; lia].
  - intros k m Hk (Hatt & Hseed & Hub).
    destruct (q k) eqn:Hq.
    + split; [| split].
      * unfold std_max. destruct (s_ltb m (f k)).
        -- right. exists k. split; [lia |]. split; [exact Hq | reflexivity].
        -- destruct Hatt as [-> | (jj & Hjj & Hqj & ->)]; [left; reflexivity |].
           right. exists jj. split; [lia |]. split; [exact Hqj | reflexivity].
      * apply Hmax, Hseed.
      * intros jj Hjj Hqj. destruct (Z.eq_dec jj k) as [->|Hne].
        -- unfold std_max. destruct (s_ltb m (f k)) eqn:Hmk; [apply Hirr | exact Hmk].
        -- apply Hmax, Hub; [lia | exact Hqj].
    + split; [| split; [exact Hseed |]].
      * destruct Hatt as [-> | (jj & Hjj & Hqj & ->)]; [left; reflexivity |].
        right. exists jj. split; [lia |]. split; [exact Hqj | reflexivity].
      * intros jj Hjj Hqj. destruct (Z.eq_dec jj k) as [->|Hne]; [congruence |].
        apply Hub; [lia | exact Hqj].
  - exact Hloop.
Qed.

(** X1.  For every scalar type whose [<] is a strict partial order (binary64
    is one, NaN included), row [i] of the S that
    [classical_strength_of_connection] writes is the list of the entries of
    row [i] of A, in their order, that lie on the diagonal or whose magnitude
    is [>=] the threshold [theta * M] of the row, a product of the scalar
    type (rounded in binary64).  [M], the running maximum of the first inner
    loop, is [numeric_limits<F>::min()] or the magnitude of an off-diagonal
    entry of the row, and neither that seed nor the magnitude of any
    off-diagonal entry of the row is greater than [M].  [Sp] holds the
    matching row pointer. *)
Theorem strength_row_is_thresholded_row :
  forall (T : Type) (ST : Scalar T) (IT : Inhabited T)
         n (theta : T) Ap Aj (Ax : list T) Sp Sj (Sx : list T) i,
    ltb_strict_order T ->
    (forall r, 0 <= r < n -> Ap.[r] <= Ap.[r + 1]) ->
    n + 1 <= Z.of_nat (length Sp) ->
    Ap.[n] - Ap.[0] <= Z.of_nat (length Sj) ->
    Ap.[n] - Ap.[0] <= Z.of_nat (length Sx) ->
    0 <= i < n ->
    let S := classical_strength_of_connection n theta Ap Aj Ax Sp Sj Sx in
    let M := max_offdiagonal_of_row Aj Ax i Ap.[i] Ap.[i + 1] in
    let test := fun k => (Aj.[k] =? i) || s_geb (mynorm Ax.[k]) (s_mul theta M) in
    ((M = numeric_limits_min
      \/ exists jj, Ap.[i] <= jj < Ap.[i + 1] /\ Aj.[jj] <> i /\ M = mynorm Ax.[jj])
     /\ s_ltb M numeric_limits_min = false
     /\ (forall jj, Ap.[i] <= jj < Ap.[i + 1] -> Aj.[jj] <> i ->
           s_ltb M (mynorm Ax.[jj]) = false))
    /\ (o_p S).[0] = 0
    /\ (o_p S).[i + 1] = (o_p S).[i] + count_in_range test Ap.[i] Ap.[i + 1]
    /\ row_entries (o_j S) (o_x S) (o_p S).[i] (o_p S).[i + 1]
       = (fun k => (Aj.[k], Ax.[k])) <$> selected test Ap.[i] Ap.[i + 1].
Proof.
  intros T ST IT n theta Ap Aj Ax Sp Sj Sx i Hord Hrows Hlp Hlj Hlx Hi S M test.
  split.
  - destruct (running_max_maximal (fun jj => negb (Aj.[jj] =? i))
                (fun jj => mynorm Ax.[jj]) numeric_limits_min
                Ap.[i] Ap.[i + 1] Hord) as (Hatt & Hseed & Hub).
    change (for_range Ap.[i] Ap.[i + 1] _ numeric_limits_min) with M
      in Hatt, Hseed, Hub.
    split; [| split; [exact Hseed |]].
    + destruct Hatt as [-> | (jj & Hjj & Hq & HM)]; [left; reflexivity |].
      right. exists jj. split; [exact Hjj |].
      apply negb_true_iff, Z.eqb_neq in Hq. split; [exact Hq | exact HM].
    + intros jj Hjj Hoff. apply Hub; [exact Hjj |].
      apply negb_true_iff, Z.eqb_neq. exact Hoff.
  - destruct (strength_rows_spec n theta Ap Aj Ax Sp Sj Sx ltac:(lia)
                Hrows Hlp Hlj Hlx) as (H0 & _ & _ & _ & _ & _ & Hall).
    fold S in H0, Hall. destruct (Hall i Hi) as (_ & Hcount & Hrow).
    split; [exact H0 |]. split; [exact Hcount | exact Hrow].
Qed.

(** [strength_row_is_thresholded_row] in binary64 on a matrix whose row 0
    is (4, -3, 0x1.0ccccccccccccp+1), with [theta] the double nearest to 0.7: [M]
    is 3 and the threshold is the rounded product [theta * 3]. *)
Lemma strength_row_is_thresholded_row_witness :
  let Ap := [0; 3; 4; 5] in
  let Aj := [0; 1; 2; 1; 2] in
  let Ax := [4; -3; 0x1.0ccccccccccccp+1; 1; 1]%float in
  let theta := 0x1.6666666666666p-1%float in
  let S := classical_strength_of_connection 3 theta Ap Aj Ax
             [0; 0; 0; 0] [0; 0; 0; 0; 0] [0; 0; 0; 0; 0]%float in
  let M := max_offdiagonal_of_row Aj Ax 0 Ap.[0] Ap.[0 + 1] in
  let test := fun k => (Aj.[k] =? 0) || s_geb (mynorm Ax.[k]) (s_mul theta M) in
  ((M = numeric_limits_min
    \/ exists jj, Ap.[0] <= jj < Ap.[0 + 1] /\ Aj.[jj] <> 0 /\ M = mynorm Ax.[jj])
   /\ s_ltb M numeric_limits_min = false
   /\ (forall jj, Ap.[0] <= jj < Ap.[0 + 1] -> Aj.[jj] <> 0 ->
         s_ltb M (mynorm Ax.[jj]) = false))
  /\ (o_p S).[0] = 0
  /\ (o_p S).[0 + 1] = (o_p S).[0] + count_in_range test Ap.[0] Ap.[0 + 1]
  /\ row_entries (o_j S) (o_x S) (o_p S).[0] (o_p S).[0 + 1]
     = (fun k => (Aj.[k], Ax.[k])) <$> selected test Ap.[0] Ap.[0 + 1].
Proof.
  apply (strength_row_is_thresholded_row float _ _ 3 0x1.6666666666666p-1%float
           [0; 3; 4; 5] [0; 1; 2; 1; 2]
           [4; -3; 0x1.0ccccccccccccp+1; 1; 1]%float
           [0; 0; 0; 0] [0; 0; 0; 0; 0] [0; 0; 0; 0; 0]%float 0
           float_ltb_strict_order).
  - intros r Hr. index_cases r Hr; vm_compute; discriminate.
  - vm_compute. discriminate.
  - vm_compute. discriminate.
  - vm_compute. discriminate.
  - lia.
Defined.

(** The same run evaluated: the rounded product [theta * 3] is the third
    entry of the row itself (the exact product lies above it), so the entry
    meets the threshold and row 0 of S holds all three entries of the row of
    A. *)
Example strength_row_rounded_threshold :
  let Ap := [0; 3; 4; 5] in
  let Aj := [0; 1; 2; 1; 2] in
  let Ax := [4; -3; 0x1.0ccccccccccccp+1; 1; 1]%float in
  let theta := 0x1.6666666666666p-1%float in
  let S := classical_strength_of_connection 3 theta Ap Aj Ax
             [0; 0; 0; 0] [0; 0; 0; 0; 0] [0; 0; 0; 0; 0]%float in
  max_offdiagonal_of_row Aj Ax 0 0 3 = 3%float
  /\ s_mul theta 3%float = 0x1.0ccccccccccccp+1%float
  /\ o_p S = [0; 3; 4; 5]
  /\ o_j S = [0; 1; 2; 1; 2]
  /\ o_x S = Ax.
Proof. vm_compute. repeat split; reflexivity. Qed.

(** X2.  For every scalar type, each row of S is a sub-sequence of the row of A
    (same entries, same order), holds every diagonal entry of that row, and
    S has no more entries than A: the storage of A is enough for S. *)
Theorem strength_rows_are_subrows :
  forall (T : Type) (ST : Scalar T) (IT : Inhabited T)
         n (theta : T) Ap Aj (Ax : list T) Sp Sj (Sx : list T),
    0 <= n ->
    (forall r, 0 <= r < n -> Ap.[r] <= Ap.[r + 1]) ->
    n + 1 <= Z.of_nat (length Sp) ->
    Ap.[n] - Ap.[0] <= Z.of_nat (length Sj) ->
    Ap.[n] - Ap.[0] <= Z.of_nat (length Sx) ->
    let S := classical_strength_of_connection n theta Ap Aj Ax Sp Sj Sx in
    o_nnz S = (o_p S).[n]
    /\ o_nnz S <= Ap.[n] - Ap.[0]
    /\ forall i, 0 <= i < n ->
         (o_p S).[i] <= (o_p S).[i + 1]
         /\ row_entries (o_j S) (o_x S) (o_p S).[i] (o_p S).[i + 1]
              `sublist_of` row_entries Aj Ax Ap.[i] Ap.[i + 1]
         /\ ((fun k => (Aj.[k], Ax.[k]))
               <$> selected (fun k => Aj.[k] =? i) Ap.[i] Ap.[i + 1])
              `sublist_of`
              row_entries (o_j S) (o_x S) (o_p S).[i] (o_p S).[i + 1].
Proof.
  intros T ST IT n theta Ap Aj Ax Sp Sj Sx Hn Hrows Hlp Hlj Hlx S.
  destruct (strength_rows_spec n theta Ap Aj Ax Sp Sj Sx Hn
              Hrows Hlp Hlj Hlx) as (_ & Hnnz & Hbound & _ & _ & _ & Hall).
  fold S in Hnnz, Hbound, Hall.
  split; [exact Hnnz |]. split; [exact Hbound |].
  intros i Hi. destruct (Hall i Hi) as (_ & Hcount & Hrow).
  pose proof (count_in_range_nonneg (strength_keeps theta Ap Aj Ax i)
                Ap.[i] Ap.[i + 1]).
  split; [lia |]. rewrite Hrow. split.
  - apply fmap_sublist. apply sublist_filter.
  - apply fmap_sublist. unfold selected.
    rewrite <- (list_filter_filter_l
                  (fun k => (Aj.[k] =? i) = true)
                  (fun k => strength_keeps theta Ap Aj Ax i k = true)).
    + apply sublist_filter.
    + intros k Hk. unfold strength_keeps. rewrite Hk. reflexivity.
Qed.

(** [strength_rows_are_subrows] on the matrix [[2, -1], [-1, 2]] in
    binary64, with [theta = 0.25]. *)
Lemma strength_rows_are_subrows_witness :
  let S := classical_strength_of_connection 2 0.25%float [0; 2; 4] [0; 1; 0; 1]
             [2; -1; -1; 2]%float [0; 0; 0] [0; 0; 0; 0] [0; 0; 0; 0]%float in
  o_nnz S = (o_p S).[2] /\ o_nnz S <= 4.
Proof.
  pose proof (strength_rows_are_subrows float _ _ 2 0.25%float [0; 2; 4]
                [0; 1; 0; 1] [2; -1; -1; 2]%float [0; 0; 0] [0; 0; 0; 0]
                [0; 0; 0; 0]%float) as Hsub.
  cbv zeta in Hsub. destruct Hsub as (H1 & H2 & _).
  - lia.
  - intros r Hr. index_cases r Hr; vm_compute; discriminate.
  - vm_compute. discriminate.
  - vm_compute. discriminate.
  - vm_compute. discriminate.
  - split; [exact H1 | exact H2].
Defined.

(** X3.  With [theta <= 0], in exact arithmetic, every entry passes the test:
    S is a copy of A, its row pointer shifted to start at 0. *)
Theorem strength_nonpositive_theta_copies_A :
  forall n (theta : Q) Ap Aj (Ax : list Q) Sp Sj (Sx : list Q),
    (theta <= 0)%Q ->
    (forall r, 0 <= r < n -> Ap.[r] <= Ap.[r + 1]) ->
    n + 1 <= Z.of_nat (length Sp) ->
    Ap.[n] - Ap.[0] <= Z.of_nat (length Sj) ->
    Ap.[n] - Ap.[0] <= Z.of_nat (length Sx) ->
    let S := classical_strength_of_connection n theta Ap Aj Ax Sp Sj Sx in
    forall i, 0 <= i < n ->
      (o_p S).[i] = Ap.[i] - Ap.[0]
      /\ (o_p S).[i + 1] = Ap.[i + 1] - Ap.[0]
      /\ row_entries (o_j S) (o_x S) (o_p S).[i] (o_p S).[i + 1]
         = row_entries Aj Ax Ap.[i] Ap.[i + 1].
Proof.
  intros n theta Ap Aj Ax Sp Sj Sx Htheta Hrows Hlp Hlj Hlx S i0 Hi0.
  assert (Hn : 0 <= n) by lia. revert i0 Hi0.
  destruct (strength_rows_spec n theta Ap Aj Ax Sp Sj Sx Hn
              Hrows Hlp Hlj Hlx) as (H0 & _ & _ & _ & _ & _ & Hall).
  fold S in H0, Hall.
  assert (Hkeep : forall i k, strength_keeps theta Ap Aj Ax i k = true).
  { intros i k. unfold strength_keeps. apply orb_true_iff. right.
    rewrite Q_geb_le. apply Qle_bool_iff. cbn [mynorm s_mul Q_Scalar].
    destruct (Q_running_max (fun jj => negb (Aj.[jj] =? i))
                (fun jj => Qabs Ax.[jj]) Q_DBL_MIN Ap.[i] Ap.[i + 1])
      as (Hseed & _ & _).
    change (for_range Ap.[i] Ap.[i + 1] _ Q_DBL_MIN)
      with (max_offdiagonal_of_row Aj Ax i Ap.[i] Ap.[i + 1]) in Hseed.
    set (m := max_offdiagonal_of_row Aj Ax i Ap.[i] Ap.[i + 1]) in *.
    assert (Hm : (0 <= m)%Q).
    { apply Qle_trans with Q_DBL_MIN; [vm_compute; discriminate | exact Hseed]. }
    apply Qle_trans with 0%Q; [| apply Qabs_nonneg].
    rewrite <- (Qmult_0_l m). apply Qmult_le_compat_r; assumption. }
  assert (Hptr : forall i, 0 <= i <= n -> (o_p S).[i] = Ap.[i] - Ap.[0]).
  { intros i Hi.
    apply (Z_range_ind (fun j => (o_p S).[j] = Ap.[j] - Ap.[0]) 0 i);
      [lia | rewrite H0; lia |].
    intros j Hj IH. destruct (Hall j ltac:(lia)) as (_ & Hcount & _).
    rewrite Hcount, IH.
    rewrite count_in_range_all; [lia | apply Hrows; lia |].
    intros k _. apply Hkeep. }
  intros i Hi. split; [apply Hptr; lia |]. split; [apply Hptr; lia |].
  destruct (Hall i Hi) as (_ & _ & Hrow). rewrite Hrow.
  apply row_entries_selected_all. intros k _. apply Hkeep.
Qed.

(** [strength_nonpositive_theta_copies_A] on the matrix [[2, -1], [-1, 2]]
    with [theta = 0]. *)
Lemma strength_nonpositive_theta_copies_A_witness :
  let S := classical_strength_of_connection 2 0%Q [0; 2; 4] [0; 1; 0; 1]
             [2; -1; -1; 2]%Q [0; 0; 0] [0; 0; 0; 0] [0; 0; 0; 0]%Q in
  row_entries (o_j S) (o_x S) (o_p S).[1] (o_p S).[1 + 1]
  = row_entries [0; 1; 0; 1] [2; -1; -1; 2]%Q 2 4.
Proof.
  refine (proj2 (proj2 (strength_nonpositive_theta_copies_A 2 0%Q [0; 2; 4]
                          [0; 1; 0; 1] [2; -1; -1; 2]%Q [0; 0; 0] [0; 0; 0; 0]
                          [0; 0; 0; 0]%Q _ _ _ _ _ 1 _))).
  - vm_compute. discriminate.
  - intros r Hr. index_cases r Hr; vm_compute; discriminate.
  - vm_compute. discriminate.
  - vm_compute. discriminate.
  - vm_compute. discriminate.
  - lia.
Defined.

(** ** The maximum of each row *)

(** X4.  In exact arithmetic [maximum_row_value] leaves in [x[i]], for each row
    [i < n_row], the largest of 2^-1022 and the magnitudes of the entries of
    the row, and touches no other entry of [x]. *)
Theorem maximum_row_value_is_seeded_max :
  forall n (x : list Q) Ap Aj (Ax : list Q),
    0 <= n <= Z.of_nat (length x) ->
    let x' := maximum_row_value n x Ap Aj Ax in
    length x' = length x
    /\ (forall i, n <= i -> x'.[i] = x.[i])
    /\ forall i, 0 <= i < n ->
         seeded_max_of Q_DBL_MIN (fun _ => true) (fun jj => Qabs Ax.[jj])
           Ap.[i] Ap.[i + 1] x'.[i].
Proof.
  intros n x Ap Aj Ax Hn. cbv zeta. unfold maximum_row_value.
  loop_invariant
    (fun k (x' : list Q) =>
       length x' = length x
       /\ (forall i, k <= i -> x'.[i] = x.[i])
       /\ forall i, 0 <= i < k ->
            seeded_max_of Q_DBL_MIN (fun _ => true) (fun jj => Qabs Ax.[jj])
              Ap.[i] Ap.[i + 1] x'.[i]) as Hloop.
  - lia.
  - split; [reflexivity |]. split; [reflexivity |]. intros i Hi. lia.
  - intros k x' Hk (Hlen & Hrest & Hdone).
    split; [simpl_get; exact Hlen |]. split.
    + intros i Hi. rewrite get_set_ne by lia. apply Hrest. lia.
    + intros i Hi. destruct (Z.eq_dec i k) as [->|Hne].
      * rewrite get_set_eq by lia.
        exact (Q_running_max_seeded (fun _ => true) (fun jj => Qabs Ax.[jj])
                 Q_DBL_MIN Ap.[k] Ap.[k + 1]).
      * rewrite get_set_ne by lia. apply Hdone. lia.
  - exact Hloop.
Qed.

(** [maximum_row_value_is_seeded_max] on the rows (3, -5) and (1/2). *)
Lemma maximum_row_value_is_seeded_max_witness :
  length (maximum_row_value 2 [0; 0]%Q [0; 2; 3] [0; 1; 1] [3; -5; 1 # 2]%Q)
  = length [0; 0]%Q.
Proof.
  refine (proj1 (maximum_row_value_is_seeded_max 2 [0; 0]%Q [0; 2; 3] [0; 1; 1]
                   [3; -5; 1 # 2]%Q _)).
  vm_compute. split; discriminate.
Defined.

(** ** Interpolation: the columns of P *)

(** Two loops over the same range whose bodies keep two states related end
    in related states. *)
Lemma for_range_rel {St1 St2} (R : St1 -> St2 -> Prop) lo hi
    (b1 : Z -> St1 -> St1) (b2 : Z -> St2 -> St2) s1 s2 :
  R s1 s2 ->
  (forall i a b, lo <= i < hi -> R a b -> R (b1 i a) (b2 i b)) ->
  R (for_range lo hi b1 s1) (for_range lo hi b2 s2).
Proof.
  intros H0 Hstep. destruct (Z.le_gt_cases lo hi) as [Hle|Hgt];
    [| rewrite (for_range_empty lo hi b1), (for_range_empty lo hi b2) by lia;
       exact H0].
  apply (Z_range_ind
           (fun k => R (for_range lo k b1 s1) (for_range lo k b2 s2)) lo hi);
    [exact Hle
    | rewrite (for_range_empty lo lo b1), (for_range_empty lo lo b2) by lia;
      exact H0 |].
  intros k Hk IH.
  rewrite (for_range_last lo k b1), (for_range_last lo k b2) by lia.
  apply Hstep; assumption.
Qed.

Lemma standard_direct_columns_eq :
  forall (T1 : Type) (ST1 : Scalar T1) (IT1 : Inhabited T1)
         (T2 : Type) (ST2 : Scalar T2) (IT2 : Inhabited T2)
         n Sp Sj splitting Bp0 Bp Bj
         Ap1 Aj1 (Ax1 Sx1 Bx1 : list T1) Ap2 Aj2 (Ax2 Sx2 Bx2 : list T2),
    rs_standard_interpolation_pass1 n Sp Sj splitting Bp0
    = rs_direct_interpolation_pass1 n Sp Sj splitting Bp0
    /\ fst (fst (rs_standard_interpolation_pass2 n Ap1 Aj1 Ax1 Sp Sj Sx1
                   splitting Bp Bj Bx1))
       = fst (rs_direct_interpolation_pass2 n Ap2 Aj2 Ax2 Sp Sj Sx2
                splitting Bp Bj Bx2).
Proof.
  intros. split; [reflexivity |].
  unfold rs_standard_interpolation_pass2, rs_direct_interpolation_pass2.
  assert (Hrows :
    (fun (a : list Z * list T1 * list diagnostic) (b : list Z * list T2) =>
       fst (fst a) = fst b)
      (for_range 0 n (standard_row Ap1 Aj1 Ax1 Sp Sj Sx1 splitting Bp)
         (Bj, Bx1, []))
      (for_range 0 n (direct_row Ap2 Aj2 Ax2 Sp Sj Sx2 splitting Bp) (Bj, Bx2))).
  { apply (for_range_rel
             (fun (a : list Z * list T1 * list diagnostic) (b : list Z * list T2) =>
                fst (fst a) = fst b) 0 n); [reflexivity |].
    intros i [[Bja Bxa] loga] [Bjb Bxb] Hi Heq. cbn [fst snd] in Heq. subst Bjb.
    unfold standard_row, direct_row.
    destruct (splitting.[i] =? C_NODE); [reflexivity |].
    destruct (direct_coefficients Ap2 Aj2 Ax2 Sp Sj Sx2 splitting i) as [nc pc].
    assert (Hfill :
      (fun (a : Z * list Z * list T1 * list diagnostic)
           (b : Z * list Z * list T2) =>
         fst (fst (fst a)) = fst (fst b) /\ snd (fst (fst a)) = snd (fst b))
        (for_range Sp.[i] Sp.[i + 1]
           (standard_fill_entry Ap1 Aj1 Ax1 Sp Sj Sx1 splitting i
              (standard_denominator Ap1 Ax1 Sp Sj Sx1 i))
           (Bp.[i], Bja, Bxa, loga))
        (for_range Sp.[i] Sp.[i + 1]
           (direct_fill_entry Sj Sx2 splitting i nc pc) (Bp.[i], Bja, Bxb))).
    { apply (for_range_rel
               (fun (a : Z * list Z * list T1 * list diagnostic)
                    (b : Z * list Z * list T2) =>
                  fst (fst (fst a)) = fst (fst b)
                  /\ snd (fst (fst a)) = snd (fst b)) Sp.[i] Sp.[i + 1]);
        [split; reflexivity |].
      intros jj [[[nnza Bj1] Bx1'] log1] [[nnzb Bj2] Bx2'] Hjj [Hn HB].
      cbn [fst snd] in Hn, HB. subst nnzb Bj2.
      unfold standard_fill_entry, direct_fill_entry, strong_C_entry.
      destruct ((splitting.[Sj.[jj]] =? C_NODE) && negb (Sj.[jj] =? i));
        [| split; reflexivity].
      destruct (for_range Sp.[i] Sp.[i + 1] _ _) as [num log'].
      split; reflexivity. }
    cbv beta in Hfill.
    destruct (for_range Sp.[i] Sp.[i + 1] (standard_fill_entry _ _ _ _ _ _ _ _ _) _)
      as [[[nnza Bj1] Bx1'] log1].
    destruct (for_range Sp.[i] Sp.[i + 1] (direct_fill_entry _ _ _ _ _ _) _)
      as [[nnzb Bj2] Bx2'].
    cbn [fst snd] in *. apply Hfill. }
  cbv beta in Hrows.
  destruct (for_range 0 n (standard_row _ _ _ _ _ _ _ _) _) as [[Bja Bxa] loga].
  destruct (for_range 0 n (direct_row _ _ _ _ _ _ _ _) _) as [Bjb Bxb].
  cbn [fst snd] in *. subst Bjb. reflexivity.
Qed.

Section InterpolationColumns.
Context {T : Type} `{Scalar T} `{Inhabited T}.
Variables (Ap Aj : list Z) (Ax : list T) (Sp Sj : list Z) (Sx : list T).
Variable splitting : list Z.

(** The fill loop stores the column of each strong C-neighbour where it
    stores its weight. *)
Lemma direct_fill_columns i nc pc lo hi nnz0 (Bj : list Z) (Bx : list T) :
  0 <= nnz0 ->
  nnz0 + count_in_range (strong_C_entry Sj splitting i) lo hi
    <= Z.of_nat (length Bj) ->
  let st := for_range lo hi (direct_fill_entry Sj Sx splitting i nc pc)
              (nnz0, Bj, Bx) in
  length (snd (fst st)) = length Bj
  /\ (forall pos, 0 <= pos ->
        pos < nnz0
        \/ nnz0 + count_in_range (strong_C_entry Sj splitting i) lo hi <= pos ->
        (snd (fst st)).[pos] = Bj.[pos])
  /\ (forall jj, lo <= jj < hi -> strong_C_entry Sj splitting i jj = true ->
        (snd (fst st)).[nnz0 + count_in_range (strong_C_entry Sj splitting i) lo jj]
        = Sj.[jj]).
Proof.
  intros Hnnz Hroom. cbv zeta.
  set (strong := strong_C_entry Sj splitting i) in *.
  destruct (Z.le_gt_cases lo hi) as [Hle|Hgt].
  2:{ rewrite for_range_empty by lia. cbn [fst snd].
      split; [reflexivity |]. split; [reflexivity |]. intros jj Hjj. lia. }
  loop_invariant
    (fun k (st : Z * list Z * list T) =>
       fst (fst st) = nnz0 + count_in_range strong lo k
       /\ length (snd (fst st)) = length Bj
       /\ (forall pos, 0 <= pos -> pos < nnz0 \/ fst (fst st) <= pos ->
             (snd (fst st)).[pos] = Bj.[pos])
       /\ (forall jj, lo <= jj < k -> strong jj = true ->
             (snd (fst st)).[nnz0 + count_in_range strong lo jj] = Sj.[jj]))
    as Hloop.
  - exact Hle.
  - cbn [fst snd]. rewrite count_in_range_empty by lia.
    split; [lia |]. split; [reflexivity |]. split; [reflexivity |].
    intros jj Hjj. lia.
  - intros k [[nnz Bj'] Bx'] Hk (Hn & Hlen & Hout & Hin). cbn [fst snd] in *.
    pose proof (count_in_range_mono strong lo (k + 1) hi ltac:(lia)) as Hmono.
    pose proof (count_in_range_nonneg strong lo k) as Hpos.
    rewrite count_in_range_last in * by lia.
    unfold direct_fill_entry. fold strong.
    destruct (strong k) eqn:Hs; cbn [fst snd].
    + split; [lia |]. split; [simpl_get; exact Hlen |]. split.
      * intros pos Hq Hq'. rewrite get_set_ne by lia. apply Hout; lia.
      * intros jj Hjj Hsj. destruct (Z.eq_dec jj k) as [->|Hne].
        -- rewrite <- Hn. apply get_set_eq. lia.
        -- pose proof (count_in_range_lt strong lo jj k ltac:(lia) Hsj).
           pose proof (count_in_range_nonneg strong lo jj).
           rewrite get_set_ne by lia. apply Hin; [lia | exact Hsj].
    + split; [lia |]. split; [exact Hlen |]. split; [exact Hout |].
      intros jj Hjj Hsj. destruct (Z.eq_dec jj k) as [->|Hne]; [congruence |].
      apply Hin; [lia | exact Hsj].
  - cbv beta in Hloop. destruct Hloop as (Hn & Hlen & Hout & Hin).
    split; [exact Hlen |]. split; [| exact Hin].
    intros pos Hq Hq'. apply Hout; lia.
Qed.

(** One row of pass 2: what it stores in [Bj], and the 1 of a C row. *)
Lemma direct_row_columns Bp i (Bj : list Z) (Bx : list T) :
  0 <= Bp.[i] ->
  Bp.[i] + interpolation_row_nnz Sp Sj splitting i <= Z.of_nat (length Bj) ->
  Bp.[i] + interpolation_row_nnz Sp Sj splitting i <= Z.of_nat (length Bx) ->
  let B' := direct_row Ap Aj Ax Sp Sj Sx splitting Bp i (Bj, Bx) in
  length (fst B') = length Bj
  /\ (forall pos, 0 <= pos ->
        pos < Bp.[i] \/ Bp.[i] + interpolation_row_nnz Sp Sj splitting i <= pos ->
        (fst B').[pos] = Bj.[pos])
  /\ (splitting.[i] = C_NODE ->
      (fst B').[Bp.[i]] = i /\ (snd B').[Bp.[i]] = s_one)
  /\ (splitting.[i] <> C_NODE ->
      forall jj, Sp.[i] <= jj < Sp.[i + 1] ->
        strong_C_entry Sj splitting i jj = true ->
        (fst B').[Bp.[i] + count_in_range (strong_C_entry Sj splitting i) Sp.[i] jj]
        = Sj.[jj]).
Proof.
  intros Hpos Hroomj Hroomx. cbv zeta.
  unfold direct_row, interpolation_row_nnz in *.
  destruct (Z.eqb_spec splitting.[i] C_NODE) as [HC|HC].
  - cbn [fst snd]. split; [apply length_set |]. split.
    + intros pos Hq Hq'. apply get_set_ne. lia.
    + split; [| intros Hne; contradiction].
      intros _. split; apply get_set_eq; lia.
  - destruct (direct_coefficients Ap Aj Ax Sp Sj Sx splitting i) as [nc pc].
    pose proof (direct_fill_columns i nc pc Sp.[i] Sp.[i + 1] Bp.[i] Bj Bx
                  Hpos Hroomj) as Hloop.
    cbv zeta in Hloop.
    destruct (for_range Sp.[i] Sp.[i + 1] _ _) as [[nnz Bj'] Bx'].
    cbn [fst snd] in *. destruct Hloop as (Hlen & Hout & Hin).
    split; [exact Hlen |]. split; [exact Hout |].
    split; [intros Heq; contradiction | intros _; exact Hin].
Qed.

Section Rows.
Variables (n : Z) (Bp : list Z).
Hypothesis Bp_first : Bp.[0] = 0.
Hypothesis Bp_next :
  forall r, 0 <= r < n -> Bp.[r + 1] = Bp.[r] + interpolation_row_nnz Sp Sj splitting r.

(** After the loop over the rows: the slot of a C row holds the node and a
    1, the slots of another row hold its strong C-neighbours, and nothing
    is stored from the position [Bp[n]] on. *)
Lemma direct_rows_columns (Bj : list Z) (Bx : list T) :
  0 <= n -> Bp.[n] <= Z.of_nat (length Bj) -> Bp.[n] <= Z.of_nat (length Bx) ->
  let B' := for_range 0 n (direct_row Ap Aj Ax Sp Sj Sx splitting Bp) (Bj, Bx) in
  length (fst B') = length Bj
  /\ (forall pos, Bp.[n] <= pos -> (fst B').[pos] = Bj.[pos])
  /\ (forall i, 0 <= i < n -> splitting.[i] = C_NODE ->
        (fst B').[Bp.[i]] = i /\ (snd B').[Bp.[i]] = s_one)
  /\ (forall i jj, 0 <= i < n -> splitting.[i] <> C_NODE ->
        Sp.[i] <= jj < Sp.[i + 1] -> strong_C_entry Sj splitting i jj = true ->
        (fst B').[Bp.[i] + count_in_range (strong_C_entry Sj splitting i) Sp.[i] jj]
        = Sj.[jj]).
Proof.
  intros Hn Hroomj Hroomx. cbv zeta.
  loop_invariant
    (fun k (B' : list Z * list T) =>
       length (fst B') = length Bj
       /\ length (snd B') = length Bx
       /\ (forall pos, Bp.[k] <= pos -> (fst B').[pos] = Bj.[pos])
       /\ (forall i, 0 <= i < k -> splitting.[i] = C_NODE ->
             (fst B').[Bp.[i]] = i /\ (snd B').[Bp.[i]] = s_one)
       /\ (forall i jj, 0 <= i < k -> splitting.[i] <> C_NODE ->
             Sp.[i] <= jj < Sp.[i + 1] -> strong_C_entry Sj splitting i jj = true ->
             (fst B').[Bp.[i]
                       + count_in_range (strong_C_entry Sj splitting i) Sp.[i] jj]
             = Sj.[jj])) as Hloop.
  - exact Hn.
  - cbn [fst snd]. split; [reflexivity |]. split; [reflexivity |].
    split; [reflexivity |]. split; [intros i Hi; lia | intros i jj Hi; lia].
  - intros k [Bj' Bx'] Hk (Hlj & Hlx & Hrest & HC & HF). cbn [fst snd] in *.
    pose proof (Bp_monotone Sp Sj splitting n Bp Bp_first Bp_next k k
                  ltac:(lia) ltac:(lia)) as Hk0.
    pose proof (Bp_monotone Sp Sj splitting n Bp Bp_first Bp_next (k + 1) n
                  ltac:(lia) ltac:(lia)) as Hk1.
    rewrite Bp_next in Hk1 by lia.
    pose proof (interpolation_row_nnz_nonneg Sp Sj splitting k) as Hnn.
    pose proof (direct_row_columns Bp k Bj' Bx' ltac:(lia) ltac:(lia) ltac:(lia))
      as Hrow.
    pose proof (direct_row_spec Ap Aj Ax Sp Sj Sx splitting Bp k Bj' Bx'
                  ltac:(lia) ltac:(lia)) as Hrowx.
    cbv zeta in Hrow, Hrowx.
    destruct Hrow as (Hlj' & Hout & HCk & HFk).
    destruct Hrowx as (Hlx' & Houtx & _).
    split; [congruence |]. split; [congruence |]. split.
    { intros pos Hpos. rewrite Bp_next in Hpos by lia.
      rewrite Hout by lia. apply Hrest. lia. }
    split.
    + intros i Hi HCi. destruct (Z.eq_dec i k) as [->|Hne]; [apply HCk, HCi |].
      pose proof (Bp_monotone Sp Sj splitting n Bp Bp_first Bp_next i i
                    ltac:(lia) ltac:(lia)).
      pose proof (Bp_monotone Sp Sj splitting n Bp Bp_first Bp_next (i + 1) k
                    ltac:(lia) ltac:(lia)) as Hm.
      rewrite Bp_next in Hm by lia. unfold interpolation_row_nnz in Hm.
      rewrite HCi in Hm. cbn in Hm.
      rewrite Hout, Houtx by lia. apply HC; [lia | exact HCi].
    + intros i jj Hi HCi Hjj Hs.
      destruct (Z.eq_dec i k) as [->|Hne]; [apply HFk; assumption |].
      pose proof (Bp_monotone Sp Sj splitting n Bp Bp_first Bp_next i i
                    ltac:(lia) ltac:(lia)).
      pose proof (Bp_monotone Sp Sj splitting n Bp Bp_first Bp_next (i + 1) k
                    ltac:(lia) ltac:(lia)) as Hm.
      rewrite Bp_next in Hm by lia. unfold interpolation_row_nnz in Hm.
      destruct (Z.eqb_spec splitting.[i] C_NODE); [contradiction |].
      pose proof (count_in_range_lt (strong_C_entry Sj splitting i) Sp.[i] jj
                    Sp.[i + 1] Hjj Hs).
      pose proof (count_in_range_nonneg (strong_C_entry Sj splitting i) Sp.[i] jj).
      rewrite Hout by lia. apply HF; (lia || assumption).
  - cbv beta in Hloop. destruct Hloop as (Hlj & _ & Hrest & HC & HF).
    split; [exact Hlj |]. split; [exact Hrest |]. split; assumption.
Qed.

End Rows.
End InterpolationColumns.

Lemma labels_sum_next splitting v :
  0 <= v -> labels_sum splitting (v + 1) = labels_sum splitting v + splitting.[v].
Proof. intros Hv. unfold labels_sum. rewrite for_range_last by lia. reflexivity. Qed.

(** On labels that are 0 or 1 the running sum counts the C nodes. *)
Lemma labels_sum_count splitting v :
  0 <= v ->
  (forall u, 0 <= u < v -> splitting.[u] = F_NODE \/ splitting.[u] = C_NODE) ->
  labels_sum splitting v = count_label C_NODE v splitting.
Proof.
  intros Hv. unfold count_label.
  apply (Z_range_ind
           (fun k =>
              (forall u, 0 <= u < k ->
                 splitting.[u] = F_NODE \/ splitting.[u] = C_NODE) ->
              labels_sum splitting k
              = count_in_range (fun i => splitting.[i] =? C_NODE) 0 k) 0 v);
    [exact Hv | |].
  - intros _. unfold labels_sum.
    rewrite for_range_empty, count_in_range_empty by lia. reflexivity.
  - intros k Hk IH Hlab. rewrite labels_sum_next, count_in_range_last by lia.
    rewrite IH by (intros u Hu; apply Hlab; lia).
    destruct (Hlab k ltac:(lia)) as [-> | ->]; reflexivity.
Qed.

Lemma coarse_map_spec n splitting :
  0 <= n ->
  Z.of_nat (length (coarse_map n splitting)) = n
  /\ forall v, 0 <= v < n -> (coarse_map n splitting).[v] = labels_sum splitting v.
Proof.
  intros Hn. unfold coarse_map.
  loop_invariant
    (fun k (st : list Z * Z) =>
       Z.of_nat (length (fst st)) = n
       /\ snd st = labels_sum splitting k
       /\ forall v, 0 <= v < k -> (fst st).[v] = labels_sum splitting v) as Hloop.
  - exact Hn.
  - cbn [fst snd]. rewrite length_filled. split; [lia |].
    split; [reflexivity | intros v Hv; lia].
  - intros k [map sum] Hk (Hlen & Hsum & Hdone). cbn [fst snd] in *.
    split; [simpl_get; exact Hlen |].
    split; [rewrite labels_sum_next by lia; congruence |].
    intros v Hv. destruct (Z.eq_dec v k) as [->|Hne].
    + rewrite get_set_eq by lia. exact Hsum.
    + rewrite get_set_ne by congruence. apply Hdone. lia.
  - cbv beta in Hloop. destruct Hloop as (Hlen & _ & Hdone). split; assumption.
Qed.

(** The last loop of pass 2 replaces each of the first [Bp[n]] columns by
    its coarse index, once. *)
Lemma remap_columns_spec n splitting Bp (Bj : list Z) :
  Bp.[n] <= Z.of_nat (length Bj) ->
  let Bj' := remap_columns n splitting Bp Bj in
  length Bj' = length Bj
  /\ (forall k, 0 <= k < Bp.[n] -> Bj'.[k] = (coarse_map n splitting).[Bj.[k]])
  /\ (forall k, Bp.[n] <= k -> Bj'.[k] = Bj.[k]).
Proof.
  intros Hroom. cbv zeta. unfold remap_columns.
  destruct (Z.le_gt_cases 0 Bp.[n]) as [Hle|Hgt].
  2:{ rewrite for_range_empty by lia. split; [reflexivity |].
      split; [intros k Hk; lia | reflexivity]. }
  loop_invariant
    (fun i (Bj' : list Z) =>
       length Bj' = length Bj
       /\ (forall k, 0 <= k < i -> Bj'.[k] = (coarse_map n splitting).[Bj.[k]])
       /\ (forall k, i <= k -> Bj'.[k] = Bj.[k])) as Hloop.
  - exact Hle.
  - split; [reflexivity |]. split; [intros k Hk; lia | reflexivity].
  - intros i Bj' Hi (Hlen & Hdone & Hrest).
    split; [simpl_get; exact Hlen |]. split.
    + intros k Hk. destruct (Z.eq_dec k i) as [->|Hne].
      * rewrite get_set_eq by lia. rewrite Hrest by lia. reflexivity.
      * rewrite get_set_ne by congruence. apply Hdone. lia.
    + intros k Hk. rewrite get_set_ne by lia. apply Hrest. lia.
  - exact Hloop.
Qed.

(** The [t]-th position that passes a test. *)
Lemma count_in_range_select p lo hi t :
  0 <= t < count_in_range p lo hi ->
  exists jj, lo <= jj < hi /\ p jj = true /\ count_in_range p lo jj = t.
Proof.
  intros Ht. destruct (Z.le_gt_cases lo hi) as [Hle|Hgt];
    [| rewrite count_in_range_empty in Ht by lia; lia].
  revert Ht.
  apply (Z_range_ind
           (fun k => 0 <= t < count_in_range p lo k ->
                     exists jj, lo <= jj < k /\ p jj = true
                                /\ count_in_range p lo jj = t) lo hi);
    [exact Hle | |].
  - rewrite count_in_range_empty by lia. lia.
  - intros k Hk IH Ht. rewrite count_in_range_last in Ht by lia.
    destruct (Z_lt_le_dec t (count_in_range p lo k)) as [Hlt|Hge].
    + destruct (IH ltac:(lia)) as (jj & Hjj & Hp & Hc).
      exists jj. split; [lia |]. split; assumption.
    + destruct (p k) eqn:Hp; [| lia].
      exists k. split; [lia |]. split; [exact Hp | lia].
Qed.

(** The row a position of a CSR array belongs to. *)
Lemma locate_row (Xp : list Z) n k :
  0 <= n -> Xp.[0] <= k < Xp.[n] ->
  exists i, 0 <= i < n /\ Xp.[i] <= k < Xp.[i + 1].
Proof.
  intros Hn [Hlo Hhi]. revert Hhi.
  apply (Z_range_ind
           (fun m => k < Xp.[m] -> exists i, 0 <= i < m /\ Xp.[i] <= k < Xp.[i + 1])
           0 n); [exact Hn | lia |].
  intros m Hm IH Hk. destruct (Z_lt_le_dec k Xp.[m]) as [Hlt|Hge].
  - destruct (IH Hlt) as (i & Hi & Hr). exists i. split; [lia | exact Hr].
  - exists m. split; lia.
Qed.

Section InterpolationPattern.
Context {T : Type} `{Scalar T} `{Inhabited T}.
Variables (n : Z) (Ap Aj : list Z) (Ax : list T) (Sp Sj : list Z) (Sx : list T).
Variables (splitting Bp0 Bj : list Z) (Bx : list T).
Hypothesis Hn : 0 <= n.
Hypothesis S_ok : csr_ok n Sp Sj.
Hypothesis Hlabels :
  forall v, 0 <= v < n -> splitting.[v] = F_NODE \/ splitting.[v] = C_NODE.
Hypothesis Hlp : n + 1 <= Z.of_nat (length Bp0).

Abbreviation Bp1 := (rs_direct_interpolation_pass1 n Sp Sj splitting Bp0).
Abbreviation coarse v := (count_label C_NODE v splitting).

Hypothesis Hroomj : Bp1.[n] <= Z.of_nat (length Bj).
Hypothesis Hroomx : Bp1.[n] <= Z.of_nat (length Bx).

Lemma coarse_lt c : 0 <= c < n -> splitting.[c] = C_NODE -> 0 <= coarse c < coarse n.
Proof.
  intros Hc HC. unfold count_label.
  pose proof (count_in_range_nonneg (fun i => splitting.[i] =? C_NODE) 0 c).
  pose proof (count_in_range_lt (fun i => splitting.[i] =? C_NODE) 0 c n
                ltac:(lia)) as Hlt.
  cbv beta in Hlt. rewrite HC in Hlt. specialize (Hlt eq_refl). lia.
Qed.

Lemma coarse_map_coarse c :
  0 <= c < n -> (coarse_map n splitting).[c] = coarse c.
Proof.
  intros Hc. destruct (coarse_map_spec n splitting Hn) as [_ Hmap].
  rewrite Hmap by exact Hc. apply labels_sum_count; [lia |].
  intros u Hu. apply Hlabels. lia.
Qed.

Lemma direct_pass2_columns :
  let P := rs_direct_interpolation_pass2 n Ap Aj Ax Sp Sj Sx splitting Bp1 Bj Bx in
  (forall i, 0 <= i < n -> splitting.[i] = C_NODE ->
     Bp1.[i + 1] = Bp1.[i] + 1
     /\ (fst P).[Bp1.[i]] = coarse i /\ (snd P).[Bp1.[i]] = s_one)
  /\ (forall i jj, 0 <= i < n -> splitting.[i] <> C_NODE ->
        Sp.[i] <= jj < Sp.[i + 1] -> strong_C_entry Sj splitting i jj = true ->
        (fst P).[Bp1.[i] + count_in_range (strong_C_entry Sj splitting i) Sp.[i] jj]
        = coarse Sj.[jj])
  /\ (forall k, 0 <= k < Bp1.[n] -> 0 <= (fst P).[k] < coarse n)
  /\ length (fst P) = length Bj
  /\ (forall k, Bp1.[n] <= k -> (fst P).[k] = Bj.[k]).
Proof.
  cbv zeta.
  destruct (direct_pass1_spec Sp Sj splitting n Bp0 Hn Hlp) as [Hfirst Hnext].
  pose proof (direct_rows_columns Ap Aj Ax Sp Sj Sx splitting n Bp1 Hfirst Hnext
                Bj Bx Hn Hroomj Hroomx) as Hrows.
  cbv zeta in Hrows. unfold rs_direct_interpolation_pass2.
  destruct (for_range 0 n _ (Bj, Bx)) as [Bj' Bx']. cbn [fst snd] in *.
  destruct Hrows as (Hlen & Hrest & HC & HF).
  destruct (remap_columns_spec n splitting Bp1 Bj' ltac:(lia))
    as (Hlen' & Hmap & Hrest').
  set (Bj'' := remap_columns n splitting Bp1 Bj') in *.
  assert (Hmono : forall r k, 0 <= r <= k -> k <= n -> 0 <= Bp1.[r] <= Bp1.[k]).
  { intros r k. apply (Bp_monotone Sp Sj splitting n Bp1 Hfirst Hnext). }
  assert (Hrow_C : forall i, 0 <= i < n -> splitting.[i] = C_NODE ->
            Bp1.[i + 1] = Bp1.[i] + 1).
  { intros i Hi HCi. rewrite Hnext by exact Hi. unfold interpolation_row_nnz.
    rewrite HCi. reflexivity. }
  assert (Hrow_F : forall i, 0 <= i < n -> splitting.[i] <> C_NODE ->
            Bp1.[i + 1]
            = Bp1.[i] + count_in_range (strong_C_entry Sj splitting i)
                          Sp.[i] Sp.[i + 1]).
  { intros i Hi HCi. rewrite Hnext by exact Hi. unfold interpolation_row_nnz.
    destruct (Z.eqb_spec splitting.[i] C_NODE); [contradiction | reflexivity]. }
  assert (Hstrong : forall i jj, 0 <= i < n -> Sp.[i] <= jj < Sp.[i + 1] ->
            strong_C_entry Sj splitting i jj = true ->
            0 <= Sj.[jj] < n /\ splitting.[Sj.[jj]] = C_NODE).
  { intros i jj Hi Hjj Hs. split; [exact (csr_entry_node n Sp Sj i jj S_ok Hi Hjj) |].
    unfold strong_C_entry in Hs. apply andb_true_iff in Hs as [Hs _].
    apply Z.eqb_eq in Hs. exact Hs. }
  split; [| split; [| split; [| split]]].
  - intros i Hi HCi. split; [apply Hrow_C; assumption |].
    destruct (HC i Hi HCi) as [Hj Hx].
    pose proof (Hmono i i ltac:(lia) ltac:(lia)).
    pose proof (Hmono (i + 1) n ltac:(lia) ltac:(lia)).
    pose proof (Hrow_C i Hi HCi).
    split; [| exact Hx].
    rewrite Hmap by lia. rewrite Hj. apply coarse_map_coarse, Hi.
  - intros i jj Hi HCi Hjj Hs.
    pose proof (Hmono i i ltac:(lia) ltac:(lia)).
    pose proof (Hmono (i + 1) n ltac:(lia) ltac:(lia)).
    pose proof (Hrow_F i Hi HCi).
    pose proof (count_in_range_lt (strong_C_entry Sj splitting i) Sp.[i] jj
                  Sp.[i + 1] Hjj Hs).
    pose proof (count_in_range_nonneg (strong_C_entry Sj splitting i) Sp.[i] jj).
    rewrite Hmap by lia. rewrite (HF i jj Hi HCi Hjj Hs).
    apply coarse_map_coarse. apply (Hstrong i jj Hi Hjj Hs).
  - intros k Hk. rewrite Hmap by exact Hk.
    destruct (locate_row Bp1 n k Hn ltac:(lia)) as (i & Hi & Hr).
    destruct (Z.eq_dec splitting.[i] C_NODE) as [HCi|HCi].
    + pose proof (Hrow_C i Hi HCi). assert (k = Bp1.[i]) as -> by lia.
      destruct (HC i Hi HCi) as [-> _].
      rewrite coarse_map_coarse by exact Hi. apply coarse_lt; assumption.
    + pose proof (Hrow_F i Hi HCi) as Hrf.
      assert (Ht : 0 <= k - Bp1.[i]
                   < count_in_range (strong_C_entry Sj splitting i)
                       Sp.[i] Sp.[i + 1]) by lia.
      destruct (count_in_range_select _ _ _ _ Ht) as (jj & Hjj & Hs & Hc).
      replace k with (Bp1.[i] + count_in_range (strong_C_entry Sj splitting i)
                                  Sp.[i] jj) by lia.
      rewrite (HF i jj Hi HCi Hjj Hs).
      destruct (Hstrong i jj Hi Hjj Hs) as [Hr' HC'].
      rewrite coarse_map_coarse by exact Hr'. apply coarse_lt; assumption.
  - congruence.
  - intros k Hk. rewrite Hrest' by exact Hk. apply Hrest, Hk.
Qed.

End InterpolationPattern.

Lemma csr_ok_pair : csr_ok 2 [0; 2; 4] [1; 0; 0; 1].
Proof.
  split.
  - intros i Hi. index_cases i Hi; vm_compute; repeat split; discriminate.
  - intros jj Hjj. change (Z.of_nat (length [1; 0; 0; 1])) with 4 in Hjj.
    index_cases jj Hjj; vm_compute; split; (discriminate || reflexivity).
Qed.

Lemma labels_F_C v : 0 <= v < 2 -> [F_NODE; C_NODE].[v] = F_NODE \/ [F_NODE; C_NODE].[v] = C_NODE.
Proof. intros Hv. index_cases v Hv; [left | right]; reflexivity. Qed.

(** X5.  The prolongator of direct interpolation, built by pass 1 and pass 2 on a
    well-formed S and a splitting into F and C nodes: the row of a C node is
    a single 1 in the column of its coarse index (the number of C nodes
    before it); the entries of an F row lie in the coarse columns of its
    strong C-neighbours, in the order of the row of S; every column index is
    below the number of C nodes; and nothing is written from [Bp[n]] on. *)
Theorem direct_interpolation_pattern :
  forall (T : Type) (ST : Scalar T) (IT : Inhabited T)
         n Ap Aj (Ax : list T) Sp Sj (Sx : list T) splitting Bp0 Bj (Bx : list T),
    0 <= n -> csr_ok n Sp Sj ->
    (forall v, 0 <= v < n -> splitting.[v] = F_NODE \/ splitting.[v] = C_NODE) ->
    n + 1 <= Z.of_nat (length Bp0) ->
    let Bp := rs_direct_interpolation_pass1 n Sp Sj splitting Bp0 in
    Bp.[n] <= Z.of_nat (length Bj) -> Bp.[n] <= Z.of_nat (length Bx) ->
    let P := rs_direct_interpolation_pass2 n Ap Aj Ax Sp Sj Sx splitting Bp Bj Bx in
    (forall i, 0 <= i < n -> splitting.[i] = C_NODE ->
       Bp.[i + 1] = Bp.[i] + 1
       /\ (fst P).[Bp.[i]] = count_label C_NODE i splitting
       /\ (snd P).[Bp.[i]] = s_one)
    /\ (forall i jj, 0 <= i < n -> splitting.[i] <> C_NODE ->
          Sp.[i] <= jj < Sp.[i + 1] -> strong_C_entry Sj splitting i jj = true ->
          (fst P).[Bp.[i] + count_in_range (strong_C_entry Sj splitting i) Sp.[i] jj]
          = count_label C_NODE Sj.[jj] splitting)
    /\ (forall k, 0 <= k < Bp.[n] ->
          0 <= (fst P).[k] < count_label C_NODE n splitting)
    /\ length (fst P) = length Bj
    /\ (forall k, Bp.[n] <= k -> (fst P).[k] = Bj.[k]).
Proof.
  intros T ST IT n Ap Aj Ax Sp Sj Sx splitting Bp0 Bj Bx Hn S_ok Hlab Hlp Bp
    Hroomj Hroomx.
  exact (direct_pass2_columns n Ap Aj Ax Sp Sj Sx splitting Bp0 Bj Bx
           Hn S_ok Hlab Hlp Hroomj Hroomx).
Qed.

(** [direct_interpolation_pattern] on two coupled nodes, node 0 an F node
    and node 1 a C node, in binary64. *)
Lemma direct_interpolation_pattern_witness :
  let Bp := rs_direct_interpolation_pass1 2 [0; 2; 4] [1; 0; 0; 1]
              [F_NODE; C_NODE] [0; 0; 0] in
  let P := rs_direct_interpolation_pass2 2 [0; 2; 4] [0; 1; 0; 1]
             [4; -2; -2; 4]%float [0; 2; 4] [1; 0; 0; 1] [-2; 4; -2; 4]%float
             [F_NODE; C_NODE] Bp [7; 7; 7] [0; 0; 0]%float in
  Bp.[1 + 1] = Bp.[1] + 1
  /\ (fst P).[Bp.[1]] = count_label C_NODE 1 [F_NODE; C_NODE]
  /\ (snd P).[Bp.[1]] = s_one.
Proof.
  refine (proj1 (direct_interpolation_pattern float _ _ 2 [0; 2; 4] [0; 1; 0; 1]
                   [4; -2; -2; 4]%float [0; 2; 4] [1; 0; 0; 1] [-2; 4; -2; 4]%float
                   [F_NODE; C_NODE] [0; 0; 0] [7; 7; 7] [0; 0; 0]%float
                   _ csr_ok_pair labels_F_C _ _ _) 1 _ _).
  - lia.
  - vm_compute. discriminate.
  - vm_compute. discriminate.
  - vm_compute. discriminate.
  - lia.
  - reflexivity.
Defined.

(** X6.  The row pointer and the column indices of P depend neither on the
    values of A and S (nor on their scalar type) nor on which of the two
    interpolation formulas fills the weights: standard and direct
    interpolation give the same sparsity pattern. *)
Theorem standard_and_direct_interpolation_same_pattern :
  forall (T1 : Type) (ST1 : Scalar T1) (IT1 : Inhabited T1)
         (T2 : Type) (ST2 : Scalar T2) (IT2 : Inhabited T2)
         n Sp Sj splitting Bp0 Bp Bj
         Ap1 Aj1 (Ax1 Sx1 Bx1 : list T1) Ap2 Aj2 (Ax2 Sx2 Bx2 : list T2),
    rs_standard_interpolation_pass1 n Sp Sj splitting Bp0
    = rs_direct_interpolation_pass1 n Sp Sj splitting Bp0
    /\ fst (fst (rs_standard_interpolation_pass2 n Ap1 Aj1 Ax1 Sp Sj Sx1
                   splitting Bp Bj Bx1))
       = fst (rs_direct_interpolation_pass2 n Ap2 Aj2 Ax2 Sp Sj Sx2
                splitting Bp Bj Bx2).
Proof. intros. apply standard_direct_columns_eq. Qed.

(** ** Standard interpolation: the weights *)

Section StandardWeights.
Context {T : Type} `{Scalar T} `{Inhabited T}.
Variables (Ap Aj : list Z) (Ax : list T) (Sp Sj : list Z) (Sx : list T).
Variable splitting : list Z.

(** The messages printed so far do not enter the numerator. *)
Lemma standard_numerator_any_log i j lo hi x log log' :
  fst (for_range lo hi (standard_numerator_step Ap Aj Ax Sp Sj Sx splitting i j)
         (x, log))
  = fst (for_range lo hi (standard_numerator_step Ap Aj Ax Sp Sj Sx splitting i j)
           (x, log')).
Proof.
  apply (for_range_rel
           (fun a b : T * list diagnostic => fst a = fst b) lo hi);
    [reflexivity |].
  intros kk [num l1] [num' l2] Hkk Heq. cbn [fst] in Heq. subst num'.
  unfold standard_numerator_step.
  destruct ((splitting.[Sj.[kk]] =? F_NODE) && negb (Sj.[kk] =? i));
    [| reflexivity].
  destruct (negb (s_eqb (find_entry Ap Aj Ax Sj.[kk] j) s_zero)); [| reflexivity].
  destruct (inner_denominator Ap Aj Ax Sp Sj splitting i Sj.[kk] _) as [inner added].
  reflexivity.
Qed.

(** With no strong F-neighbour in the row, the numerator stays [Sx[jj]]. *)
Lemma standard_numerator_no_F i jj :
  (forall kk, Sp.[i] <= kk < Sp.[i + 1] ->
     (splitting.[Sj.[kk]] =? F_NODE) && negb (Sj.[kk] =? i) = false) ->
  standard_numerator Ap Aj Ax Sp Sj Sx splitting i jj = Sx.[jj].
Proof.
  intros HnoF. unfold standard_numerator.
  apply (for_range_preserves (fun st : T * list diagnostic => fst st = Sx.[jj]));
    [reflexivity |].
  intros kk [num log] Hkk Heq. unfold standard_numerator_step.
  rewrite (HnoF kk Hkk). exact Heq.
Qed.

Lemma standard_fill_loop i den lo hi nnz0 (Bj : list Z) (Bx : list T) log :
  0 <= nnz0 ->
  nnz0 + count_in_range (strong_C_entry Sj splitting i) lo hi
    <= Z.of_nat (length Bx) ->
  let st := for_range lo hi
              (standard_fill_entry Ap Aj Ax Sp Sj Sx splitting i den)
              (nnz0, Bj, Bx, log) in
  length (snd (fst st)) = length Bx
  /\ (forall pos, 0 <= pos ->
        pos < nnz0
        \/ nnz0 + count_in_range (strong_C_entry Sj splitting i) lo hi <= pos ->
        (snd (fst st)).[pos] = Bx.[pos])
  /\ (forall jj, lo <= jj < hi -> strong_C_entry Sj splitting i jj = true ->
        (snd (fst st)).[nnz0 + count_in_range (strong_C_entry Sj splitting i) lo jj]
        = s_div (s_opp (standard_numerator Ap Aj Ax Sp Sj Sx splitting i jj)) den).
Proof.
  intros Hnnz Hroom. cbv zeta.
  set (strong := strong_C_entry Sj splitting i) in *.
  destruct (Z.le_gt_cases lo hi) as [Hle|Hgt].
  2:{ rewrite for_range_empty by lia. cbn [fst snd].
      split; [reflexivity |]. split; [reflexivity |]. intros jj Hjj. lia. }
  loop_invariant
    (fun k (st : Z * list Z * list T * list diagnostic) =>
       fst (fst (fst st)) = nnz0 + count_in_range strong lo k
       /\ length (snd (fst st)) = length Bx
       /\ (forall pos, 0 <= pos -> pos < nnz0 \/ fst (fst (fst st)) <= pos ->
             (snd (fst st)).[pos] = Bx.[pos])
       /\ (forall jj, lo <= jj < k -> strong jj = true ->
             (snd (fst st)).[nnz0 + count_in_range strong lo jj]
             = s_div (s_opp (standard_numerator Ap Aj Ax Sp Sj Sx splitting i jj))
                 den)) as Hloop.
  - exact Hle.
  - cbn [fst snd]. rewrite count_in_range_empty by lia.
    split; [lia |]. split; [reflexivity |]. split; [reflexivity |].
    intros jj Hjj. lia.
  - intros k [[[nnz Bj'] Bx'] log'] Hk (Hn & Hlen & Hout & Hin).
    cbn [fst snd] in *.
    pose proof (count_in_range_mono strong lo (k + 1) hi ltac:(lia)) as Hmono.
    pose proof (count_in_range_nonneg strong lo k) as Hpos.
    rewrite count_in_range_last in * by lia.
    unfold standard_fill_entry.
    change ((splitting.[Sj.[k]] =? C_NODE) && negb (Sj.[k] =? i)) with (strong k).
    destruct (strong k) eqn:Hs.
    + pose proof (standard_numerator_any_log i Sj.[k] Sp.[i] Sp.[i + 1]
                    Sx.[k] log' []) as Hnum.
      fold (standard_numerator Ap Aj Ax Sp Sj Sx splitting i k) in Hnum.
      destruct (for_range Sp.[i] Sp.[i + 1] _ (Sx.[k], log')) as [num log''].
      cbn [fst snd] in *. subst num.
      split; [lia |]. split; [simpl_get; exact Hlen |]. split.
      * intros pos Hq Hq'. rewrite get_set_ne by lia. apply Hout; lia.
      * intros jj Hjj Hsj. destruct (Z.eq_dec jj k) as [->|Hne].
        -- rewrite <- Hn. apply get_set_eq. lia.
        -- pose proof (count_in_range_lt strong lo jj k ltac:(lia) Hsj).
           pose proof (count_in_range_nonneg strong lo jj).
           rewrite get_set_ne by lia. apply Hin; [lia | exact Hsj].
    + cbn [fst snd]. split; [lia |]. split; [exact Hlen |]. split; [exact Hout |].
      intros jj Hjj Hsj. destruct (Z.eq_dec jj k) as [->|Hne]; [congruence |].
      apply Hin; [lia | exact Hsj].
  - cbv beta in Hloop. destruct Hloop as (Hn & Hlen & Hout & Hin).
    split; [exact Hlen |]. split; [| exact Hin].
    intros pos Hq Hq'. apply Hout; lia.
Qed.

Lemma standard_row_spec Bp i (Bj : list Z) (Bx : list T) log :
  0 <= Bp.[i] ->
  Bp.[i] + interpolation_row_nnz Sp Sj splitting i <= Z.of_nat (length Bx) ->
  let B' := standard_row Ap Aj Ax Sp Sj Sx splitting Bp i (Bj, Bx, log) in
  length (snd (fst B')) = length Bx
  /\ (forall pos, 0 <= pos ->
        pos < Bp.[i] \/ Bp.[i] + interpolation_row_nnz Sp Sj splitting i <= pos ->
        (snd (fst B')).[pos] = Bx.[pos])
  /\ (splitting.[i] = C_NODE -> (snd (fst B')).[Bp.[i]] = s_one)
  /\ (splitting.[i] <> C_NODE ->
      forall jj, Sp.[i] <= jj < Sp.[i + 1] ->
        strong_C_entry Sj splitting i jj = true ->
        (snd (fst B')).[Bp.[i]
                        + count_in_range (strong_C_entry Sj splitting i) Sp.[i] jj]
        = s_div (s_opp (standard_numerator Ap Aj Ax Sp Sj Sx splitting i jj))
            (standard_denominator Ap Ax Sp Sj Sx i)).
Proof.
  intros Hpos Hroom. cbv zeta.
  unfold standard_row, interpolation_row_nnz in *.
  destruct (Z.eqb_spec splitting.[i] C_NODE) as [HC|HC].
  - cbn [fst snd]. split; [apply length_set |]. split.
    + intros pos Hq Hq'. apply get_set_ne. lia.
    + split; [intros _; apply get_set_eq; lia | intros Hne; contradiction].
  - pose proof (standard_fill_loop i (standard_denominator Ap Ax Sp Sj Sx i)
                  Sp.[i] Sp.[i + 1] Bp.[i] Bj Bx log Hpos Hroom) as Hloop.
    cbv zeta in Hloop.
    destruct (for_range Sp.[i] Sp.[i + 1] _ _) as [[[nnz Bj'] Bx'] log'].
    cbn [fst snd] in *. destruct Hloop as (Hlen & Hout & Hin).
    split; [exact Hlen |]. split; [exact Hout |].
    split; [intros Heq; contradiction | intros _; exact Hin].
Qed.

Section Rows.
Variables (n : Z) (Bp : list Z).
Hypothesis Bp_first : Bp.[0] = 0.
Hypothesis Bp_next :
  forall r, 0 <= r < n -> Bp.[r + 1] = Bp.[r] + interpolation_row_nnz Sp Sj splitting r.

Lemma standard_rows_spec (Bj : list Z) (Bx : list T) :
  0 <= n -> Bp.[n] <= Z.of_nat (length Bx) ->
  let B' := for_range 0 n (standard_row Ap Aj Ax Sp Sj Sx splitting Bp)
              (Bj, Bx, []) in
  length (snd (fst B')) = length Bx
  /\ (forall pos, Bp.[n] <= pos -> (snd (fst B')).[pos] = Bx.[pos])
  /\ (forall i, 0 <= i < n -> splitting.[i] = C_NODE ->
        (snd (fst B')).[Bp.[i]] = s_one)
  /\ (forall i jj, 0 <= i < n -> splitting.[i] <> C_NODE ->
        Sp.[i] <= jj < Sp.[i + 1] -> strong_C_entry Sj splitting i jj = true ->
        (snd (fst B')).[Bp.[i]
                        + count_in_range (strong_C_entry Sj splitting i) Sp.[i] jj]
        = s_div (s_opp (standard_numerator Ap Aj Ax Sp Sj Sx splitting i jj))
            (standard_denominator Ap Ax Sp Sj Sx i)).
Proof.
  intros Hn Hroom. cbv zeta.
  loop_invariant
    (fun k (B' : list Z * list T * list diagnostic) =>
       length (snd (fst B')) = length Bx
       /\ (forall pos, Bp.[k] <= pos -> (snd (fst B')).[pos] = Bx.[pos])
       /\ (forall i, 0 <= i < k -> splitting.[i] = C_NODE ->
             (snd (fst B')).[Bp.[i]] = s_one)
       /\ (forall i jj, 0 <= i < k -> splitting.[i] <> C_NODE ->
             Sp.[i] <= jj < Sp.[i + 1] -> strong_C_entry Sj splitting i jj = true ->
             (snd (fst B')).[Bp.[i]
                             + count_in_range (strong_C_entry Sj splitting i)
                                 Sp.[i] jj]
             = s_div (s_opp (standard_numerator Ap Aj Ax Sp Sj Sx splitting i jj))
                 (standard_denominator Ap Ax Sp Sj Sx i))) as Hloop.
  - exact Hn.
  - cbn [fst snd]. split; [reflexivity |]. split; [reflexivity |].
    split; [intros i Hi; lia | intros i jj Hi; lia].
  - intros k [[Bj' Bx'] log'] Hk (Hlx & Hrest & HC & HF). cbn [fst snd] in *.
    pose proof (Bp_monotone Sp Sj splitting n Bp Bp_first Bp_next k k
                  ltac:(lia) ltac:(lia)) as Hk0.
    pose proof (Bp_monotone Sp Sj splitting n Bp Bp_first Bp_next (k + 1) n
                  ltac:(lia) ltac:(lia)) as Hk1.
    rewrite Bp_next in Hk1 by lia.
    pose proof (interpolation_row_nnz_nonneg Sp Sj splitting k) as Hnn.
    pose proof (standard_row_spec Bp k Bj' Bx' log' ltac:(lia) ltac:(lia)) as Hrow.
    cbv zeta in Hrow. destruct Hrow as (Hlx' & Hout & HCk & HFk).
    split; [congruence |]. split.
    { intros pos Hpos. rewrite Bp_next in Hpos by lia.
      rewrite Hout by lia. apply Hrest. lia. }
    split.
    + intros i Hi HCi. destruct (Z.eq_dec i k) as [->|Hne]; [apply HCk, HCi |].
      pose proof (Bp_monotone Sp Sj splitting n Bp Bp_first Bp_next i i
                    ltac:(lia) ltac:(lia)).
      pose proof (Bp_monotone Sp Sj splitting n Bp Bp_first Bp_next (i + 1) k
                    ltac:(lia) ltac:(lia)) as Hm.
      rewrite Bp_next in Hm by lia. unfold interpolation_row_nnz in Hm.
      rewrite HCi in Hm. cbn in Hm.
      rewrite Hout by lia. apply HC; [lia | exact HCi].
    + intros i jj Hi HCi Hjj Hs.
      destruct (Z.eq_dec i k) as [->|Hne]; [apply HFk; assumption |].
      pose proof (Bp_monotone Sp Sj splitting n Bp Bp_first Bp_next i i
                    ltac:(lia) ltac:(lia)).
      pose proof (Bp_monotone Sp Sj splitting n Bp Bp_first Bp_next (i + 1) k
                    ltac:(lia) ltac:(lia)) as Hm.
      rewrite Bp_next in Hm by lia. unfold interpolation_row_nnz in Hm.
      destruct (Z.eqb_spec splitting.[i] C_NODE); [contradiction |].
      pose proof (count_in_range_lt (strong_C_entry Sj splitting i) Sp.[i] jj
                    Sp.[i + 1] Hjj Hs).
      pose proof (count_in_range_nonneg (strong_C_entry Sj splitting i) Sp.[i] jj).
      rewrite Hout by lia. apply HF; (lia || assumption).
  - exact Hloop.
Qed.

End Rows.
End StandardWeights.

(** X7.  The prolongator of standard interpolation, built by its pass 1 and pass
    2 on a well-formed S and a splitting into F and C nodes: the row of a C
    node is a single 1 in the column of its coarse index; the entry of an F
    row [i] for its strong C-neighbour [Sj[jj]] lies in the coarse column of
    that neighbour and holds [-numerator / denominator], the denominator
    being the sum of row [i] of A less the strong off-diagonal connections;
    when row [i] of S has no F-neighbour the numerator is [Sx[jj]] itself;
    every column index is below the number of C nodes. *)
Theorem standard_interpolation_rows :
  forall (T : Type) (ST : Scalar T) (IT : Inhabited T)
         n Ap Aj (Ax : list T) Sp Sj (Sx : list T) splitting Bp0 Bj (Bx : list T),
    0 <= n -> csr_ok n Sp Sj ->
    (forall v, 0 <= v < n -> splitting.[v] = F_NODE \/ splitting.[v] = C_NODE) ->
    n + 1 <= Z.of_nat (length Bp0) ->
    let Bp := rs_standard_interpolation_pass1 n Sp Sj splitting Bp0 in
    Bp.[n] <= Z.of_nat (length Bj) -> Bp.[n] <= Z.of_nat (length Bx) ->
    let P := rs_standard_interpolation_pass2 n Ap Aj Ax Sp Sj Sx splitting
               Bp Bj Bx in
    let cols := fst (fst P) in
    let vals := snd (fst P) in
    (forall i, 0 <= i < n -> splitting.[i] = C_NODE ->
       Bp.[i + 1] = Bp.[i] + 1
       /\ cols.[Bp.[i]] = count_label C_NODE i splitting
       /\ vals.[Bp.[i]] = s_one)
    /\ (forall i jj, 0 <= i < n -> splitting.[i] <> C_NODE ->
          Sp.[i] <= jj < Sp.[i + 1] -> strong_C_entry Sj splitting i jj = true ->
          let pos := Bp.[i] + count_in_range (strong_C_entry Sj splitting i)
                                Sp.[i] jj in
          cols.[pos] = count_label C_NODE Sj.[jj] splitting
          /\ vals.[pos]
             = s_div (s_opp (standard_numerator Ap Aj Ax Sp Sj Sx splitting i jj))
                 (standard_denominator Ap Ax Sp Sj Sx i)
          /\ ((forall kk, Sp.[i] <= kk < Sp.[i + 1] ->
                 splitting.[Sj.[kk]] = F_NODE -> Sj.[kk] = i) ->
              vals.[pos]
              = s_div (s_opp Sx.[jj]) (standard_denominator Ap Ax Sp Sj Sx i)))
    /\ (forall k, 0 <= k < Bp.[n] ->
          0 <= cols.[k] < count_label C_NODE n splitting).
Proof.
  intros T ST IT n Ap Aj Ax Sp Sj Sx splitting Bp0 Bj Bx Hn S_ok Hlab Hlp Bp
    Hroomj Hroomx P cols vals.
  change Bp with (rs_direct_interpolation_pass1 n Sp Sj splitting Bp0) in *.
  clear Bp. set (Bp := rs_direct_interpolation_pass1 n Sp Sj splitting Bp0) in *.
  destruct (direct_pass2_columns n Ap Aj Ax Sp Sj Sx splitting Bp0 Bj Bx
              Hn S_ok Hlab Hlp Hroomj Hroomx) as (HC & HF & Hcols & _).
  fold Bp in HC, HF, Hcols.
  assert (Hsame : cols = fst (rs_direct_interpolation_pass2 n Ap Aj Ax Sp Sj Sx
                                splitting Bp Bj Bx)).
  { unfold cols, P.
    apply (standard_direct_columns_eq T ST IT T ST IT n Sp Sj splitting Bp0 Bp Bj
             Ap Aj Ax Sx Bx Ap Aj Ax Sx Bx). }
  destruct (direct_pass1_spec Sp Sj splitting n Bp0 Hn Hlp) as [Hfirst Hnext].
  fold Bp in Hfirst, Hnext.
  pose proof (standard_rows_spec Ap Aj Ax Sp Sj Sx splitting n Bp Hfirst Hnext
                Bj Bx Hn Hroomx) as Hrows.
  cbv zeta in Hrows.
  assert (Hvals : vals = snd (fst (for_range 0 n
                                     (standard_row Ap Aj Ax Sp Sj Sx splitting Bp)
                                     (Bj, Bx, [])))).
  { unfold vals, P, rs_standard_interpolation_pass2.
    destruct (for_range 0 n _ _) as [[Bj' Bx'] log']. reflexivity. }
  rewrite <- Hvals in Hrows. destruct Hrows as (_ & _ & HCx & HFx).
  rewrite Hsame. split; [| split].
  - intros i Hi HCi. destruct (HC i Hi HCi) as (H1 & H2 & _).
    split; [exact H1 |]. split; [exact H2 | apply HCx; assumption].
  - intros i jj Hi HCi Hjj Hs pos. unfold pos.
    split; [apply HF; assumption |].
    split; [apply HFx; assumption |].
    intros HnoF. rewrite (HFx i jj Hi HCi Hjj Hs). do 2 f_equal.
    apply standard_numerator_no_F. intros kk Hkk.
    destruct (Z.eqb_spec splitting.[Sj.[kk]] F_NODE) as [HFk|]; [| reflexivity].
    rewrite (HnoF kk Hkk HFk), Z.eqb_refl. reflexivity.
  - exact Hcols.
Qed.

(** [standard_interpolation_rows] on two coupled nodes, node 0 an F node and
    node 1 a C node, in binary64: the weight of the only entry of row 0 is
    [2 / 4]. *)
Lemma standard_interpolation_rows_witness :
  let Bp := rs_standard_interpolation_pass1 2 [0; 2; 4] [1; 0; 0; 1]
              [F_NODE; C_NODE] [0; 0; 0] in
  let P := rs_standard_interpolation_pass2 2 [0; 2; 4] [0; 1; 0; 1]
             [4; -2; -2; 4]%float [0; 2; 4] [1; 0; 0; 1] [-2; 4; -2; 4]%float
             [F_NODE; C_NODE] Bp [7; 7; 7] [0; 0; 0]%float in
  (forall k, 0 <= k < Bp.[2] ->
     0 <= (fst (fst P)).[k] < count_label C_NODE 2 [F_NODE; C_NODE])
  /\ P = ([0; 0; 7], [0.5; 1; 0]%float, []).
Proof.
  split; [| vm_compute; reflexivity].
  refine (proj2 (proj2
            (standard_interpolation_rows float _ _ 2 [0; 2; 4] [0; 1; 0; 1]
               [4; -2; -2; 4]%float [0; 2; 4] [1; 0; 0; 1] [-2; 4; -2; 4]%float
               [F_NODE; C_NODE] [0; 0; 0] [7; 7; 7] [0; 0; 0]%float
               _ csr_ok_pair labels_F_C _ _ _))).
  - lia.
  - vm_compute. discriminate.
  - vm_compute. discriminate.
  - vm_compute. discriminate.
Defined.

(** ** Direct interpolation: the divisions are not guarded *)

(** X24.  [rs_direct_interpolation_pass2] divides by [diag] and by
    [sum_strong_neg] whatever they hold.  In binary64, on an F row with a
    zero diagonal and the strongly connected C neighbour at -2, [alpha] is 1
    and [neg_coeff = -1/0], and the weight stored is +infinity; on an F row
    whose strong C connection -2 has a zero entry in A, [alpha] and [diag]
    are zero and the weight stored is NaN. *)
Theorem direct_interpolation_division_by_zero_propagates :
  let Ap := [0; 2; 4] in
  let Aj := [0; 1; 0; 1] in
  let Sj := [1; 0; 0; 1] in
  let splitting := [F_NODE; C_NODE] in
  let Bp := rs_direct_interpolation_pass1 2 Ap Sj splitting [0; 0; 0] in
  let P := rs_direct_interpolation_pass2 2 Ap Aj [0; -2; -2; 4]%float
             Ap Sj [-2; 0; -2; 4]%float splitting Bp [7; 7] [9; 9]%float in
  let P' := rs_direct_interpolation_pass2 2 Ap Aj [0; 0; -2; 4]%float
              Ap Sj [-2; 0; -2; 4]%float splitting Bp [7; 7] [9; 9]%float in
  Bp = [0; 1; 2]
  /\ P = ([0; 0], [infinity; 1]%float)
  /\ fst P' = [0; 0]
  /\ PrimFloat.is_nan (snd P').[0] = true
  /\ (snd P').[1] = 1%float.
Proof. vm_compute. repeat split; reflexivity. Qed.

(** ** Ruge-Stuben splitting: where the F nodes come from *)

(** Two different labels of one node. *)
Ltac label_clash :=
  exfalso; unfold F_NODE, C_NODE, U_NODE, PRE_F_NODE in *; congruence.

Lemma swap_positions_splitting x y st :
  RS.splitting (RS.swap_positions x y st) = RS.splitting st.
Proof. reflexivity. Qed.

Lemma increment_lambda_splitting n Sj kk st :
  RS.splitting (RS.increment_lambda n Sj kk st) = RS.splitting st.
Proof.
  unfold RS.increment_lambda.
  destruct (_ =? U_NODE); [| reflexivity].
  destruct (_ >=? _); reflexivity.
Qed.

Lemma decrement_lambda_splitting Sj jj st :
  RS.splitting (RS.decrement_lambda Sj jj st) = RS.splitting st.
Proof.
  unfold RS.decrement_lambda.
  destruct (_ =? U_NODE); [| reflexivity].
  destruct (_ =? 0); reflexivity.
Qed.

Section Coverage.
Variables (n : Z) (Sp Sj Tp Tj influence : list Z).

Abbreviation covered := (F_nodes_covered n Tp Tj influence).

(** Labels that gain no F node and lose no C node keep the F nodes
    covered. *)
Lemma covered_relabel (s s' : list Z) :
  covered s ->
  (forall v, 0 <= v < n -> s.[v] = C_NODE -> s'.[v] = C_NODE) ->
  (forall v, 0 <= v < n -> s'.[v] = F_NODE ->
     s.[v] = F_NODE \/ has_C_parent n Tp Tj s' v) ->
  covered s'.
Proof.
  intros Hs HC HF v Hv HFv. destruct (HF v Hv HFv) as [Hold | Hnew];
    [| right; exact Hnew].
  destruct (Hs v Hv Hold) as [Hiso | (c & jj & Hc & HCc & Hjj & Hv')];
    [left; exact Hiso | right].
  exists c, jj. split; [exact Hc |]. split; [apply HC; assumption |].
  split; assumption.
Qed.

Lemma mark_pre_f_covered lo hi st :
  Z.of_nat (length (RS.splitting st)) = n ->
  (forall jj, lo <= jj < hi -> 0 <= Tj.[jj] < n) ->
  covered (RS.splitting st) ->
  let st' := for_range lo hi (RS.mark_pre_f Tj) st in
  Z.of_nat (length (RS.splitting st')) = n
  /\ covered (RS.splitting st')
  /\ forall v, 0 <= v < n -> (RS.splitting st).[v] = C_NODE ->
       (RS.splitting st').[v] = C_NODE.
Proof.
  intros Hlen Hrow Hcov. cbv zeta.
  apply (for_range_preserves
           (fun s => Z.of_nat (length (RS.splitting s)) = n
                     /\ covered (RS.splitting s)
                     /\ forall v, 0 <= v < n -> (RS.splitting st).[v] = C_NODE ->
                          (RS.splitting s).[v] = C_NODE)).
  - split; [exact Hlen |]. split; [exact Hcov | intros v _ Hv; exact Hv].
  - intros jj s Hjj (Hl & Hc & HC). unfold RS.mark_pre_f.
    pose proof (Hrow jj Hjj) as Hj. set (j := Tj.[jj]) in *.
    destruct (Z.eqb_spec (RS.splitting s).[j] U_NODE) as [HU|HU];
      [| split; [exact Hl |]; split; assumption].
    rs_fields. split; [simpl_get; exact Hl |]. split.
    + apply (covered_relabel (RS.splitting s)); [exact Hc | |].
      * intros v Hv HCv. destruct (Z.eq_dec v j) as [->|Hne]; [label_clash |].
        rewrite get_set_ne by congruence. exact HCv.
      * intros v Hv HFv. destruct (Z.eq_dec v j) as [->|Hne];
          [rewrite get_set_eq in HFv by lia; discriminate |].
        rewrite get_set_ne in HFv by congruence. left. exact HFv.
    + intros v Hv HCv. specialize (HC v Hv HCv).
      destruct (Z.eq_dec v j) as [->|Hne]; [label_clash |].
      rewrite get_set_ne by congruence. exact HC.
Qed.

Lemma increment_loop_splitting lo hi st :
  RS.splitting (for_range lo hi (RS.increment_lambda n Sj) st) = RS.splitting st.
Proof.
  apply (for_range_preserves (fun s => RS.splitting s = RS.splitting st));
    [reflexivity |].
  intros kk s _ Heq. rewrite increment_lambda_splitting. exact Heq.
Qed.

Lemma decrement_loop_splitting lo hi st :
  RS.splitting (for_range lo hi (RS.decrement_lambda Sj) st) = RS.splitting st.
Proof.
  apply (for_range_preserves (fun s => RS.splitting s = RS.splitting st));
    [reflexivity |].
  intros kk s _ Heq. rewrite decrement_lambda_splitting. exact Heq.
Qed.

(** The second loop over the row of T of the new C node [c]: each node it
    turns into F lies in that row. *)
Lemma settle_pre_f_covered c st :
  0 <= c < n ->
  Z.of_nat (length (RS.splitting st)) = n ->
  (forall jj, Tp.[c] <= jj < Tp.[c + 1] -> 0 <= Tj.[jj] < n) ->
  (RS.splitting st).[c] = C_NODE ->
  covered (RS.splitting st) ->
  let st' := for_range Tp.[c] Tp.[c + 1] (RS.settle_pre_f n Sp Sj Tj) st in
  Z.of_nat (length (RS.splitting st')) = n
  /\ covered (RS.splitting st')
  /\ forall v, 0 <= v < n -> (RS.splitting st).[v] = C_NODE ->
       (RS.splitting st').[v] = C_NODE.
Proof.
  intros Hc Hlen Hrow HCc Hcov. cbv zeta.
  apply (for_range_preserves
           (fun s => Z.of_nat (length (RS.splitting s)) = n
                     /\ covered (RS.splitting s)
                     /\ forall v, 0 <= v < n -> (RS.splitting st).[v] = C_NODE ->
                          (RS.splitting s).[v] = C_NODE)).
  - split; [exact Hlen |]. split; [exact Hcov | intros v _ Hv; exact Hv].
  - intros jj s Hjj (Hl & Hcv & HC). unfold RS.settle_pre_f.
    pose proof (Hrow jj Hjj) as Hj. set (j := Tj.[jj]) in *.
    destruct (Z.eqb_spec (RS.splitting s).[j] PRE_F_NODE) as [HP|HP];
      [| split; [exact Hl |]; split; assumption].
    rewrite increment_loop_splitting. rs_fields.
    assert (Hkeep : forall v, 0 <= v < n -> (RS.splitting s).[v] = C_NODE ->
              (RS.splitting s).[j <- F_NODE].[v] = C_NODE).
    { intros v Hv HCv. destruct (Z.eq_dec v j) as [->|Hne]; [label_clash |].
      rewrite get_set_ne by congruence. exact HCv. }
    split; [simpl_get; exact Hl |]. split.
    + apply (covered_relabel (RS.splitting s)); [exact Hcv | exact Hkeep |].
      intros v Hv HFv. destruct (Z.eq_dec v j) as [->|Hne].
      * right. exists c, jj. split; [exact Hc |].
        split; [apply Hkeep; [exact Hc | apply HC; assumption] |].
        split; [exact Hjj | reflexivity].
      * rewrite get_set_ne in HFv by congruence. left. exact HFv.
    + intros v Hv HCv. apply Hkeep; [exact Hv | apply HC; assumption].
Qed.

(** One iteration of the main loop keeps the F nodes covered and the C
    nodes C. *)
Lemma select_step_covered top st :
  csr_ok n Sp Sj -> csr_ok n Tp Tj ->
  0 <= top -> rs_inv n top st -> no_pre_f n (RS.splitting st) ->
  covered (RS.splitting st) ->
  let st' := RS.select_step n Sp Sj Tp Tj top st in
  covered (RS.splitting st')
  /\ forall v, 0 <= v < n -> (RS.splitting st).[v] = C_NODE ->
       (RS.splitting st').[v] = C_NODE.
Proof.
  intros S_ok T_ok Htop0 Hinv Hlab Hcov. cbv zeta. unfold RS.select_step.
  set (i := (RS.index_to_node st).[top]). set (lambda_i := (RS.lambda st).[i]).
  set (st1 := RS.set_interval_count _ st).
  change (RS.splitting st1) with (RS.splitting st).
  destruct (Z.eqb_spec (RS.splitting st).[i] F_NODE) as [HF|HF];
    [split; [exact Hcov | intros v _ Hv; exact Hv] |].
  destruct (promote_inv n top st Htop0 Hinv Hlab) as (Hi' & Hinv3 & Hlab3).
  fold i lambda_i st1 in Hi', Hinv3, Hlab3.
  set (st2 := RS.bring_max_to_top top st1) in *.
  set (i' := (RS.index_to_node st2).[top]) in *.
  assert (Hspl2 : RS.splitting st2 = RS.splitting st).
  { unfold st2, RS.bring_max_to_top. destruct (RS.find_max_node _ _ _ _).
    reflexivity. }
  set (st3 := RS.set_splitting _ st2) in *.
  assert (Hlen : Z.of_nat (length (RS.splitting st)) = n) by apply Hinv.
  assert (Hlen3 : Z.of_nat (length (RS.splitting st3)) = n) by apply Hinv3.
  assert (Hrow : forall jj, Tp.[i'] <= jj < Tp.[i' + 1] -> 0 <= Tj.[jj] < n).
  { intros jj Hjj. exact (csr_entry_node n Tp Tj i' jj T_ok Hi' Hjj). }
  assert (HC3 : forall v, 0 <= v < n -> (RS.splitting st).[v] = C_NODE ->
            (RS.splitting st3).[v] = C_NODE).
  { intros v Hv HCv. unfold st3. rs_fields. rewrite Hspl2.
    destruct (Z.eq_dec v i') as [->|Hne]; [apply get_set_eq; lia |].
    rewrite get_set_ne by congruence. exact HCv. }
  assert (Hcov3 : covered (RS.splitting st3)).
  { apply (covered_relabel (RS.splitting st)); [exact Hcov | exact HC3 |].
    intros v Hv HFv. unfold st3 in HFv. rs_fields. rewrite Hspl2 in HFv.
    destruct (Z.eq_dec v i') as [->|Hne];
      [rewrite get_set_eq in HFv by lia; discriminate |].
    rewrite get_set_ne in HFv by congruence. left. exact HFv. }
  assert (HCi' : (RS.splitting st3).[i'] = C_NODE).
  { unfold st3. rs_fields. apply get_set_eq. rewrite Hspl2. lia. }
  destruct (mark_pre_f_covered Tp.[i'] Tp.[i' + 1] st3 Hlen3 Hrow Hcov3)
    as (Hlen4 & Hcov4 & HC4).
  set (st4 := for_range _ _ (RS.mark_pre_f Tj) st3) in *.
  destruct (settle_pre_f_covered i' st4 Hi' Hlen4 Hrow (HC4 i' Hi' HCi') Hcov4)
    as (Hlen5 & Hcov5 & HC5).
  set (st5 := for_range _ _ (RS.settle_pre_f n Sp Sj Tj) st4) in *.
  rewrite decrement_loop_splitting.
  split; [exact Hcov5 |].
  intros v Hv HCv. apply HC5, HC4, HC3; assumption.
Qed.

End Coverage.

(** The labels on entry to the main loop: F on the isolated nodes, U on the
    others. *)
Lemma rs_init_labels n Tp Tj influence splitting0 :
  0 <= n -> Z.of_nat (length splitting0) = n ->
  forall v, 0 <= v < n ->
    (RS.splitting (RS.init n Tp Tj influence splitting0)).[v]
    = let lambda_v := Tp.[v + 1] - Tp.[v] + influence.[v] in
      if (lambda_v =? 0) || ((lambda_v =? 1) && (Tj.[Tp.[v]] =? v))
      then F_NODE else U_NODE.
Proof.
  intros Hn Hlen. unfold RS.init.
  pose proof (compute_lambdas_spec n Tp influence Hn) as Hcl. cbv zeta in Hcl.
  destruct (RS.compute_lambdas n Tp influence) as [lam lmax].
  cbn [fst snd] in Hcl. destruct Hcl as (Hll & _ & Hlamv).
  destruct (RS.prefix_sums _ _ _) as [[ptr cntz] cs].
  set (st0 := {| RS.lambda := lam; RS.interval_ptr := ptr;
                 RS.interval_count := cntz;
                 RS.index_to_node := filled n 0; RS.node_to_index := filled n 0;
                 RS.splitting := splitting0 |}).
  assert (Hplace : (fun s => RS.lambda s = lam /\ RS.splitting s = splitting0)
                     (for_range 0 n RS.place_node st0)).
  { apply for_range_preserves; [split; reflexivity |].
    intros i s _ [H1 H2]. unfold RS.place_node. rs_fields. split; assumption. }
  cbv beta in Hplace. destruct Hplace as [Hlam Hspl].
  set (st_p := for_range 0 n RS.place_node st0) in *.
  destruct (fill_U_NODE n (RS.splitting st_p) Hn ltac:(rewrite Hspl; exact Hlen))
    as [HlU HallU].
  set (labels := for_range 0 n _ (RS.splitting st_p)) in *.
  set (st_u := RS.set_splitting labels st_p).
  pose (P := fun k s =>
       RS.lambda s = lam
       /\ Z.of_nat (length (RS.splitting s)) = n
       /\ (forall v, 0 <= v < k ->
             (RS.splitting s).[v]
             = if (lam.[v] =? 0) || ((lam.[v] =? 1) && (Tj.[Tp.[v]] =? v))
               then F_NODE else U_NODE)
       /\ (forall v, k <= v < n -> (RS.splitting s).[v] = U_NODE)).
  assert (Hmark : P n (for_range 0 n (RS.mark_isolated Tp Tj) st_u)).
  { apply (for_range_invariant P 0 n); unfold P; [exact Hn | |].
    - unfold st_u. rs_fields. split; [exact Hlam |]. split; [exact HlU |].
      split; [intros v Hv; lia | intros v Hv; apply HallU; lia].
    - intros k s Hk (H1 & H2 & H3 & H4). unfold RS.mark_isolated. rewrite H1.
      destruct ((lam.[k] =? 0) || ((lam.[k] =? 1) && (Tj.[Tp.[k]] =? k))) eqn:E;
        rs_fields.
      + split; [exact H1 |]. split; [simpl_get; exact H2 |]. split.
        * intros v Hv. destruct (Z.eq_dec v k) as [->|Hne].
          -- rewrite get_set_eq by lia. rewrite E. reflexivity.
          -- rewrite get_set_ne by congruence. apply H3. lia.
        * intros v Hv. rewrite get_set_ne by lia. apply H4. lia.
      + split; [exact H1 |]. split; [exact H2 |]. split.
        * intros v Hv. destruct (Z.eq_dec v k) as [->|Hne].
          -- rewrite E. apply H4. lia.
          -- apply H3. lia.
        * intros v Hv. apply H4. lia. }
  unfold P in Hmark. destruct Hmark as (_ & _ & Hdone & _).
  intros v Hv. rewrite Hdone by exact Hv. cbv zeta.
  destruct (Hlamv v Hv) as [-> _]. reflexivity.
Qed.

Lemma rs_init_covered n Tp Tj influence splitting0 :
  0 <= n -> Z.of_nat (length splitting0) = n ->
  F_nodes_covered n Tp Tj influence
    (RS.splitting (RS.init n Tp Tj influence splitting0)).
Proof.
  intros Hn Hlen v Hv HF. left.
  rewrite (rs_init_labels n Tp Tj influence splitting0 Hn Hlen v Hv) in HF.
  cbv zeta in HF. unfold rs_isolated. cbv zeta.
  set (l := Tp.[v + 1] - Tp.[v] + influence.[v]) in *.
  destruct (Z.eqb_spec l 0) as [H0|H0]; [left; exact H0 |].
  destruct (Z.eqb_spec l 1) as [H1|H1]; [| discriminate].
  destruct (Z.eqb_spec Tj.[Tp.[v]] v) as [H2|H2]; [| discriminate].
  right. split; assumption.
Qed.

Lemma rs_result_covered n Sp Sj Tp Tj influence splitting0 :
  csr_ok n Sp Sj -> csr_ok n Tp Tj ->
  (forall i, 0 <= i < n -> 0 <= influence.[i]) ->
  Z.of_nat (length splitting0) = n ->
  F_nodes_covered n Tp Tj influence
    (RS.rs_cf_splitting n Sp Sj Tp Tj influence splitting0).
Proof.
  intros S_ok T_ok Hinf Hlen.
  assert (Hn : 0 <= n) by lia.
  unfold RS.rs_cf_splitting.
  destruct (rs_init_inv n Tp Tj influence splitting0 Hn T_ok Hinf Hlen)
    as [Hinv0 Hlab0].
  pose proof (rs_init_covered n Tp Tj influence splitting0 Hn Hlen) as Hcov0.
  pose proof (for_down_invariant
                (fun top st => rs_inv n top st /\ no_pre_f n (RS.splitting st)
                               /\ F_nodes_covered n Tp Tj influence (RS.splitting st))
                (n - 1) (RS.select_step n Sp Sj Tp Tj)
                (RS.init n Tp Tj influence splitting0)
                ltac:(lia) (conj Hinv0 (conj Hlab0 Hcov0))) as Hrun.
  cbv beta in Hrun. destruct Hrun as (_ & _ & Hcov); [| exact Hcov].
  intros top st Htop (Hs & Hl & Hc).
  destruct (select_step_inv n Sp Sj Tp Tj top st S_ok T_ok ltac:(lia) Hs Hl)
    as [Hs' Hl'].
  destruct (select_step_covered n Sp Sj Tp Tj influence top st S_ok T_ok
              ltac:(lia) Hs Hl Hc) as [Hc' _].
  split; [exact Hs' |]. split; [exact Hl' | exact Hc'].
Qed.

(** X9.  In the splitting [rs_cf_splitting] returns, every F node was isolated
    from the start (priority 0, or priority 1 with itself first in its row
    of T) or lies in the row of T of a C node; with T the transpose of S,
    every other F node depends strongly on a C node. *)
Theorem rs_F_nodes_have_C_parent :
  forall n Sp Sj Tp Tj influence splitting0,
    csr_ok n Sp Sj -> csr_ok n Tp Tj ->
    (forall i, 0 <= i < n -> 0 <= influence.[i]) ->
    Z.of_nat (length splitting0) = n ->
    let s := RS.rs_cf_splitting n Sp Sj Tp Tj influence splitting0 in
    forall v, 0 <= v < n -> s.[v] = F_NODE ->
      rs_isolated Tp Tj influence v \/ has_C_parent n Tp Tj s v.
Proof.
  intros n Sp Sj Tp Tj influence splitting0 S_ok T_ok Hinf Hlen s.
  exact (rs_result_covered n Sp Sj Tp Tj influence splitting0 S_ok T_ok Hinf Hlen).
Qed.

(** [rs_F_nodes_have_C_parent] on the graph of one edge 0 - 1: node 1 is
    selected and node 0, in its row of T, becomes F. *)
Lemma rs_F_nodes_have_C_parent_witness :
  csr_ok 2 [0; 1; 2] [1; 0]
  /\ (let s := RS.rs_cf_splitting 2 [0; 1; 2] [1; 0] [0; 1; 2] [1; 0] [0; 0] [2; 3] in
      forall v, 0 <= v < 2 -> s.[v] = F_NODE ->
        rs_isolated [0; 1; 2] [1; 0] [0; 0] v
        \/ has_C_parent 2 [0; 1; 2] [1; 0] s v).
Proof.
  split; [exact csr_ok_two_cycle |].
  apply (rs_F_nodes_have_C_parent 2 [0; 1; 2] [1; 0] [0; 1; 2] [1; 0] [0; 0] [2; 3]
           csr_ok_two_cycle csr_ok_two_cycle).
  - intros i Hi. index_cases i Hi; vm_compute; discriminate.
  - reflexivity.
Defined.

Lemma select_step_F_top n Sp Sj Tp Tj top st :
  (RS.splitting st).[(RS.index_to_node st).[top]] = F_NODE ->
  RS.splitting (RS.select_step n Sp Sj Tp Tj top st) = RS.splitting st.
Proof.
  intros HF. unfold RS.select_step. rs_fields. rewrite HF. reflexivity.
Qed.

(** X10.  When every node is isolated from the start (as when S has no entry off
    the diagonal and [influence] is zero), [rs_cf_splitting] selects no C
    node: every label is F.  As soon as one node is not isolated, the
    splitting has a C node. *)
Theorem rs_coarse_grid_empty_iff_isolated :
  forall n Sp Sj Tp Tj influence splitting0,
    csr_ok n Sp Sj -> csr_ok n Tp Tj ->
    (forall i, 0 <= i < n -> 0 <= influence.[i]) ->
    Z.of_nat (length splitting0) = n ->
    let s := RS.rs_cf_splitting n Sp Sj Tp Tj influence splitting0 in
    ((forall v, 0 <= v < n -> rs_isolated Tp Tj influence v) ->
     forall v, 0 <= v < n -> s.[v] = F_NODE)
    /\ (forall v, 0 <= v < n -> ~ rs_isolated Tp Tj influence v ->
          exists c, 0 <= c < n /\ s.[c] = C_NODE).
Proof.
  intros n Sp Sj Tp Tj influence splitting0 S_ok T_ok Hinf Hlen s.
  split.
  2:{ intros v Hv Hniso.
      destruct (rs_cf_splitting_settled n Sp Sj Tp Tj influence splitting0
                  ltac:(lia) S_ok T_ok Hinf Hlen) as [_ Hlab].
      cbv zeta in Hlab. fold s in Hlab.
      destruct (Hlab v Hv) as [HF | HC]; [| exists v; split; assumption].
      destruct (rs_result_covered n Sp Sj Tp Tj influence splitting0
                  S_ok T_ok Hinf Hlen v Hv HF)
        as [Hiso | (c & jj & Hc & HCc & _)]; [contradiction |].
      exists c. split; assumption. }
  unfold s. clear s. intros Hiso.
  assert (Hn : 0 <= n) by lia.
  unfold RS.rs_cf_splitting.
  destruct (rs_init_inv n Tp Tj influence splitting0 Hn T_ok Hinf Hlen)
    as [Hinv0 Hlab0].
  assert (HF0 : forall v, 0 <= v < n ->
            (RS.splitting (RS.init n Tp Tj influence splitting0)).[v] = F_NODE).
  { intros v Hv. rewrite (rs_init_labels n Tp Tj influence splitting0 Hn Hlen v Hv).
    cbv zeta. destruct (Hiso v Hv) as [H0 | [H1 H2]].
    - cbv zeta in H0. rewrite H0. reflexivity.
    - cbv zeta in H1. rewrite H1, H2, !Z.eqb_refl. reflexivity. }
  pose proof (for_down_invariant
                (fun top st => rs_inv n top st /\ no_pre_f n (RS.splitting st)
                               /\ forall v, 0 <= v < n ->
                                    (RS.splitting st).[v] = F_NODE)
                (n - 1) (RS.select_step n Sp Sj Tp Tj)
                (RS.init n Tp Tj influence splitting0)
                ltac:(lia) (conj Hinv0 (conj Hlab0 HF0))) as Hrun.
  cbv beta in Hrun. destruct Hrun as (_ & _ & HF); [| exact HF].
  intros top st Htop (Hs & Hl & HFs).
  destruct (select_step_inv n Sp Sj Tp Tj top st S_ok T_ok ltac:(lia) Hs Hl)
    as [Hs' Hl'].
  split; [exact Hs' |]. split; [exact Hl' |].
  rewrite select_step_F_top; [exact HFs |].
  apply HFs. destruct Hs as (Hr & _ & _ & (_ & _ & Hp & _) & _).
  apply Hp. lia.
Qed.

(** [rs_coarse_grid_empty_iff_isolated] on two nodes with self-loops only. *)
Lemma rs_coarse_grid_empty_iff_isolated_witness :
  csr_ok 2 [0; 1; 2] [0; 1]
  /\ forall v, 0 <= v < 2 ->
       (RS.rs_cf_splitting 2 [0; 1; 2] [0; 1] [0; 1; 2] [0; 1] [0; 0] [2; 3]).[v]
       = F_NODE.
Proof.
  assert (Hok : csr_ok 2 [0; 1; 2] [0; 1]).
  { split.
    - intros i Hi. index_cases i Hi; vm_compute; repeat split; discriminate.
    - intros jj Hjj. change (Z.of_nat (length [0; 1])) with 2 in Hjj.
      index_cases jj Hjj; vm_compute; split; (discriminate || reflexivity). }
  split; [exact Hok |].
  refine (proj1 (rs_coarse_grid_empty_iff_isolated 2 [0; 1; 2] [0; 1] [0; 1; 2]
                   [0; 1] [0; 0] [2; 3] Hok Hok _ _) _).
  - intros i Hi. index_cases i Hi; vm_compute; discriminate.
  - reflexivity.
  - intros v Hv. right. index_cases v Hv; vm_compute; split; reflexivity.
Defined.

(** ** One pass of the CLJP selection *)

(** A scan that found nothing met no entry that passes the test. *)
Lemma scan_false (c : Z -> bool) lo hi :
  for_range lo hi (fun jj found => found || c jj) false = false ->
  forall jj, lo <= jj < hi -> c jj = false.
Proof.
  intros Hscan jj Hjj. revert Hscan.
  assert (Hle : lo <= hi) by lia.
  pose (P := fun k (found : bool) =>
               found = false -> forall jj, lo <= jj < k -> c jj = false).
  assert (HP : P hi (for_range lo hi (fun jj found => found || c jj) false)).
  { apply (for_range_invariant P lo hi); [exact Hle | |]; unfold P.
    - intros _ k Hk. lia.
    - intros k found Hk IH Hor k' Hk'.
      apply orb_false_iff in Hor as [Hf Hc].
      destruct (Z.eq_dec k' k) as [->|Hne]; [exact Hc |].
      apply IH; [exact Hf | lia]. }
  intros Hscan. exact (HP Hscan jj Hjj).
Qed.

Section CLJPPass.
Context {T : Type} `{Scalar T} `{Inhabited T}.
Variables (n : Z) (Sp Sj Tp Tj : list Z).
Implicit Types st : CLJP.state T.

(** The loop over the nodes lists exactly the nodes that pass the test on the
    labels and weights the pass started with. *)
Lemma select_loop_exact st0 :
  0 <= n ->
  Z.of_nat (length (CLJP.D st0)) = n ->
  Z.of_nat (length (CLJP.Dlist st0)) = n ->
  let st := for_range 0 n (CLJP.select_node Sp Sj Tp Tj) (CLJP.set_nD 0 st0) in
  CLJP.splitting st = CLJP.splitting st0
  /\ CLJP.weight st = CLJP.weight st0
  /\ 0 <= CLJP.nD st <= n
  /\ forall i, 0 <= i < n ->
       (cljp_selectable Sp Sj Tp Tj st0 i = true
        <-> exists t, 0 <= t < CLJP.nD st /\ (CLJP.Dlist st).[t] = i).
Proof.
  intros Hn HD HDl. cbv zeta.
  pose (P := fun k st =>
     CLJP.splitting st = CLJP.splitting st0
     /\ CLJP.weight st = CLJP.weight st0
     /\ Z.of_nat (length (CLJP.D st)) = n
     /\ Z.of_nat (length (CLJP.Dlist st)) = n
     /\ 0 <= CLJP.nD st <= k
     /\ forall i, 0 <= i < n ->
          ((i < k /\ cljp_selectable Sp Sj Tp Tj st0 i = true)
           <-> exists t, 0 <= t < CLJP.nD st /\ (CLJP.Dlist st).[t] = i)).
  assert (HP : P n (for_range 0 n (CLJP.select_node Sp Sj Tp Tj)
                      (CLJP.set_nD 0 st0))).
  { apply (for_range_invariant P 0 n); [exact Hn | |]; unfold P.
    - cljp_fields. do 5 (split; [first [reflexivity | assumption | lia] |]).
      intros i Hi. split; [intros [Hlt _]; lia | intros (t & Ht & _); lia].
    - intros k st Hk (Hs & Hw & HlD & HlDl & HnD & Hex).
      pose proof (select_node_spec n Sp Sj Tp Tj k st Hk HlD) as Hstep.
      cbv zeta in Hstep. destruct Hstep as (Hs' & Hw' & HlD' & Hcase).
      rewrite (selectable_ext Sp Sj Tp Tj st0 st k Hs Hw) in Hcase.
      split; [congruence |]. split; [congruence |].
      split; [rewrite HlD'; exact HlD |].
      destruct (cljp_selectable Sp Sj Tp Tj st0 k) eqn:Hsel.
      + destruct Hcase as (HDl' & HnD' & _). rewrite HDl', HnD', length_set.
        split; [exact HlDl |]. split; [lia |].
        intros i Hi. split.
        * intros [Hlt Hi']. destruct (Z.eq_dec i k) as [->|Hne].
          -- exists (CLJP.nD st). split; [lia |]. apply get_set_eq. lia.
          -- destruct (proj1 (Hex i Hi)) as (t & Ht & Hti); [split; [lia | exact Hi'] |].
             exists t. split; [lia |]. rewrite get_set_ne by lia. exact Hti.
        * intros (t & Ht & Hti). destruct (Z.eq_dec t (CLJP.nD st)) as [->|Hne].
          -- rewrite get_set_eq in Hti by lia. subst i. split; [lia | exact Hsel].
          -- rewrite get_set_ne in Hti by lia.
             destruct (proj2 (Hex i Hi)) as [Hlt Hi']; [exists t; split; [lia | exact Hti] |].
             split; [lia | exact Hi'].
      + destruct Hcase as (HDl' & HnD' & _). rewrite HDl', HnD'.
        split; [exact HlDl |]. split; [lia |].
        intros i Hi. rewrite <- (Hex i Hi). split.
        * intros [Hlt Hi']. split; [| exact Hi'].
          destruct (Z.eq_dec i k) as [->|Hne]; [congruence | lia].
        * intros [Hlt Hi']. split; [lia | exact Hi']. }
  destruct HP as (Hs & Hw & _ & _ & HnD & Hex).
  split; [exact Hs |]. split; [exact Hw |]. split; [exact HnD |].
  intros i Hi. rewrite <- (Hex i Hi). split; [intros Hsel; split; [lia | exact Hsel] | intros [_ Hsel]; exact Hsel].
Qed.

(** The promotion loop makes the listed nodes C and touches no other label. *)
Lemma promote_loop_exact st :
  Z.of_nat (length (CLJP.splitting st)) = n ->
  0 <= CLJP.nD st ->
  (forall t, 0 <= t < CLJP.nD st -> 0 <= (CLJP.Dlist st).[t] < n) ->
  let st' := for_range 0 (CLJP.nD st) CLJP.promote st in
  CLJP.weight st' = CLJP.weight st
  /\ forall i,
       ((exists t, 0 <= t < CLJP.nD st /\ (CLJP.Dlist st).[t] = i) ->
        (CLJP.splitting st').[i] = C_NODE)
       /\ ((forall t, 0 <= t < CLJP.nD st -> (CLJP.Dlist st).[t] <> i) ->
           (CLJP.splitting st').[i] = (CLJP.splitting st).[i]).
Proof.
  intros Hlen HnD Hin. cbv zeta.
  pose (P := fun k sk =>
     CLJP.weight sk = CLJP.weight st /\ CLJP.Dlist sk = CLJP.Dlist st
     /\ Z.of_nat (length (CLJP.splitting sk)) = n
     /\ forall i,
          ((exists t, 0 <= t < k /\ (CLJP.Dlist st).[t] = i) ->
           (CLJP.splitting sk).[i] = C_NODE)
          /\ ((forall t, 0 <= t < k -> (CLJP.Dlist st).[t] <> i) ->
              (CLJP.splitting sk).[i] = (CLJP.splitting st).[i])).
  assert (HP : P (CLJP.nD st) (for_range 0 (CLJP.nD st) CLJP.promote st)).
  { apply (for_range_invariant P 0 (CLJP.nD st)); [exact HnD | |]; unfold P.
    - do 3 (split; [reflexivity || assumption |]).
      intros i. split; [intros (t & Ht & _); lia | reflexivity].
    - intros k sk Hk (Hw & HDl & Hl & Hch). unfold CLJP.promote. cljp_fields.
      rewrite HDl, length_set.
      do 3 (split; [reflexivity || assumption |]).
      intros i. split.
      + intros (t & Ht & Hti).
        destruct (Z.eq_dec (CLJP.Dlist st).[k] i) as [Heq|Hne].
        * rewrite Heq. apply get_set_eq. rewrite Hl, <- Heq. apply Hin. lia.
        * rewrite get_set_ne by exact Hne. apply (Hch i).
          exists t. split; [| exact Hti].
          destruct (Z.eq_dec t k) as [->|]; [contradiction | lia].
      + intros Hno. rewrite get_set_ne by (apply Hno; lia).
        apply (Hch i). intros t Ht. apply Hno. lia. }
  destruct HP as (Hw & _ & _ & Hch). split; assumption.
Qed.

(** "SELECT INDEPENDENT SET" as a whole. *)
Lemma select_independent_set_spec st :
  cljp_inv n st ->
  let st' := CLJP.select_independent_set n Sp Sj Tp Tj st in
  CLJP.weight st' = CLJP.weight st
  /\ forall i, 0 <= i < n ->
       (CLJP.splitting st').[i]
       = if cljp_selectable Sp Sj Tp Tj st i then C_NODE
         else (CLJP.splitting st).[i].
Proof.
  intros (Hlen & HlD & HlDl & _ & _). cbv zeta.
  assert (Hn : 0 <= n) by lia.
  unfold CLJP.select_independent_set.
  pose proof (select_loop_exact st Hn HlD HlDl) as Hsel. cbv zeta in Hsel.
  set (sel := for_range 0 n _ (CLJP.set_nD 0 st)) in *.
  destruct Hsel as (Hs & Hw & HnD & Hex).
  assert (Hin : forall t, 0 <= t < CLJP.nD sel -> 0 <= (CLJP.Dlist sel).[t] < n).
  { intros t Ht. destruct (Z.lt_ge_cases (CLJP.Dlist sel).[t] 0) as [Hneg|Hpos].
    - pose proof (select_loop_spec n Sp Sj Tp Tj st Hn HlD HlDl) as Hl.
      fold sel in Hl. destruct Hl as (_ & _ & _ & _ & _ & _ & Hr & _).
      destruct (Hr t Ht). lia.
    - pose proof (select_loop_spec n Sp Sj Tp Tj st Hn HlD HlDl) as Hl.
      fold sel in Hl. destruct Hl as (_ & _ & _ & _ & _ & _ & Hr & _).
      destruct (Hr t Ht). lia. }
  pose proof (promote_loop_exact sel ltac:(congruence) ltac:(lia) Hin) as Hp.
  cbv zeta in Hp. destruct Hp as (Hw' & Hch).
  split; [congruence |].
  intros i Hi. destruct (cljp_selectable Sp Sj Tp Tj st i) eqn:Hc.
  - apply (Hch i), (Hex i Hi), Hc.
  - rewrite <- Hs. apply (Hch i). intros t Ht Hti.
    assert (Hc' : cljp_selectable Sp Sj Tp Tj st i = true)
      by (apply (Hex i Hi); exists t; split; assumption).
    congruence.
Qed.

(** A node that passes the test has no heavier U node in its rows. *)
Lemma selectable_no_heavier st i j :
  cljp_selectable Sp Sj Tp Tj st i = true ->
  in_row Sp Sj i j \/ in_row Tp Tj i j ->
  (CLJP.splitting st).[j] = U_NODE ->
  s_ltb (CLJP.weight st).[i] (CLJP.weight st).[j] = false.
Proof.
  unfold cljp_selectable. intros Hsel Hrow HjU.
  apply andb_true_iff in Hsel as [Hsel HT].
  apply andb_true_iff in Hsel as [_ HS].
  apply negb_true_iff in HS, HT.
  assert (Hscan : forall Xp Xj, CLJP.heavier_neighbour Xp Xj i st = false ->
            in_row Xp Xj i j ->
            s_ltb (CLJP.weight st).[i] (CLJP.weight st).[j] = false).
  { intros Xp Xj Hh (jj & Hjj & Hj). unfold CLJP.heavier_neighbour in Hh.
    pose proof (scan_false _ _ _ Hh jj Hjj) as Hc. cbv beta zeta in Hc.
    rewrite Hj, HjU, Z.eqb_refl in Hc. exact Hc. }
  destruct Hrow as [Hrow|Hrow]; eauto.
Qed.

End CLJPPass.

(** X11.  One run of "SELECT INDEPENDENT SET" in [cljp_naive_splitting], from
    a state whose arrays have [n] entries: the weights are unchanged; a node
    becomes C exactly when it passes the test against the labels and weights
    the pass started with (it is U and no U node in its rows of S and T has a
    greater weight), and every other label is unchanged; so a node the pass
    makes C is not lighter than any node in its rows that was U when the pass
    started. *)
Theorem cljp_pass_promotes_local_maxima :
  forall (T : Type) (ST : Scalar T) (IT : Inhabited T) n Sp Sj Tp Tj
         (st : CLJP.state T),
    cljp_inv n st ->
    let st' := CLJP.select_independent_set n Sp Sj Tp Tj st in
    CLJP.weight st' = CLJP.weight st
    /\ (forall i, 0 <= i < n ->
          (CLJP.splitting st').[i]
          = if cljp_selectable Sp Sj Tp Tj st i then C_NODE
            else (CLJP.splitting st).[i])
    /\ (forall i j, 0 <= i < n ->
          (CLJP.splitting st).[i] = U_NODE ->
          (CLJP.splitting st').[i] = C_NODE ->
          in_row Sp Sj i j \/ in_row Tp Tj i j ->
          (CLJP.splitting st).[j] = U_NODE ->
          s_ltb (CLJP.weight st).[i] (CLJP.weight st).[j] = false).
Proof.
  intros T ST IT n Sp Sj Tp Tj st Hinv st'.
  destruct (select_independent_set_spec n Sp Sj Tp Tj st Hinv) as [Hw Hlab].
  fold st' in Hw, Hlab.
  split; [exact Hw |]. split; [exact Hlab |].
  intros i j Hi HiU HiC Hrow HjU.
  apply (selectable_no_heavier Sp Sj Tp Tj st i j); [| exact Hrow | exact HjU].
  specialize (Hlab i Hi). rewrite HiC in Hlab.
  destruct (cljp_selectable Sp Sj Tp Tj st i); [reflexivity |].
  rewrite HiU in Hlab. label_clash.
Qed.

(** [cljp_pass_promotes_local_maxima] on the graph of one edge 0 - 1 with the
    random seeds 0.3 and 0.7: the first pass makes node 1 a C node. *)
Lemma cljp_pass_promotes_local_maxima_witness :
  cljp_inv 2
    (CLJP.init (T:=Q) 2 [0; 1; 2] [1; 0] [0; 0] 0
       {| CLJP.mis_coloring := []; CLJP.rand_sequence := [3; 7];
          CLJP.RAND_MAX := 10 |})
  /\ (CLJP.splitting
        (CLJP.select_independent_set 2 [0; 1; 2] [1; 0] [0; 1; 2] [1; 0]
           (CLJP.init (T:=Q) 2 [0; 1; 2] [1; 0] [0; 0] 0
              {| CLJP.mis_coloring := []; CLJP.rand_sequence := [3; 7];
                 CLJP.RAND_MAX := 10 |}))).[1] = C_NODE.
Proof.
  assert (Hinv : cljp_inv 2
            (CLJP.init (T:=Q) 2 [0; 1; 2] [1; 0] [0; 0] 0
               {| CLJP.mis_coloring := []; CLJP.rand_sequence := [3; 7];
                  CLJP.RAND_MAX := 10 |}))
    by exact (init_inv 2 [0; 1; 2] [1; 0] [0; 0] 0 _ eq_refl).
  split; [exact Hinv |].
  pose proof (proj1 (proj2 (cljp_pass_promotes_local_maxima Q _ _ 2
                [0; 1; 2] [1; 0] [0; 1; 2] [1; 0] _ Hinv)) 1 ltac:(lia)) as H1.
  rewrite H1. vm_compute. reflexivity.
Defined.

(** X12.  Over the rationals, two nodes that one run of "SELECT INDEPENDENT
    SET" both makes C, each of them in a row (of S or of T) of the other, had
    equal weights: the set a pass selects is independent up to ties of
    weight. *)
Theorem cljp_selected_neighbours_have_equal_weights :
  forall n Sp Sj Tp Tj (st : CLJP.state Q),
    cljp_inv n st ->
    let st' := CLJP.select_independent_set n Sp Sj Tp Tj st in
    forall i j, 0 <= i < n -> 0 <= j < n ->
      (CLJP.splitting st).[i] = U_NODE -> (CLJP.splitting st).[j] = U_NODE ->
      (CLJP.splitting st').[i] = C_NODE -> (CLJP.splitting st').[j] = C_NODE ->
      in_row Sp Sj i j \/ in_row Tp Tj i j ->
      in_row Sp Sj j i \/ in_row Tp Tj j i ->
      ((CLJP.weight st).[i] == (CLJP.weight st).[j])%Q.
Proof.
  intros n Sp Sj Tp Tj st Hinv st' i j Hi Hj HiU HjU HiC HjC Hij Hji.
  destruct (select_independent_set_spec n Sp Sj Tp Tj st Hinv) as [_ Hlab].
  fold st' in Hlab.
  assert (Hsel : forall v, 0 <= v < n -> (CLJP.splitting st).[v] = U_NODE ->
            (CLJP.splitting st').[v] = C_NODE ->
            cljp_selectable Sp Sj Tp Tj st v = true).
  { intros v Hv HvU HvC. specialize (Hlab v Hv). rewrite HvC in Hlab.
    destruct (cljp_selectable Sp Sj Tp Tj st v); [reflexivity |].
    rewrite HvU in Hlab. label_clash. }
  pose proof (selectable_no_heavier Sp Sj Tp Tj st i j (Hsel i Hi HiU HiC) Hij HjU)
    as Hle1.
  pose proof (selectable_no_heavier Sp Sj Tp Tj st j i (Hsel j Hj HjU HjC) Hji HiU)
    as Hle2.
  apply Qle_antisym; apply Qnot_lt_le; intros Hlt; apply Q_ltb_lt in Hlt;
    congruence.
Qed.

(** [cljp_selected_neighbours_have_equal_weights] on the graph of one edge
    0 - 1 with the random seeds 0.3 and 0.3: the first pass makes both nodes
    C nodes. *)
Lemma cljp_selected_neighbours_have_equal_weights_witness :
  cljp_inv 2
    (CLJP.init (T:=Q) 2 [0; 1; 2] [1; 0] [0; 0] 0
       {| CLJP.mis_coloring := []; CLJP.rand_sequence := [3; 3];
          CLJP.RAND_MAX := 10 |})
  /\ Qeq
       (CLJP.weight
          (CLJP.init (T:=Q) 2 [0; 1; 2] [1; 0] [0; 0] 0
             {| CLJP.mis_coloring := []; CLJP.rand_sequence := [3; 3];
                CLJP.RAND_MAX := 10 |})).[0]
       (CLJP.weight
          (CLJP.init (T:=Q) 2 [0; 1; 2] [1; 0] [0; 0] 0
             {| CLJP.mis_coloring := []; CLJP.rand_sequence := [3; 3];
                CLJP.RAND_MAX := 10 |})).[1].
Proof.
  assert (Hinv : cljp_inv 2
            (CLJP.init (T:=Q) 2 [0; 1; 2] [1; 0] [0; 0] 0
               {| CLJP.mis_coloring := []; CLJP.rand_sequence := [3; 3];
                  CLJP.RAND_MAX := 10 |}))
    by exact (init_inv 2 [0; 1; 2] [1; 0] [0; 0] 0 _ eq_refl).
  split; [exact Hinv |].
  apply (cljp_selected_neighbours_have_equal_weights 2 [0; 1; 2] [1; 0]
           [0; 1; 2] [1; 0] _ Hinv 0 1).
  - lia.
  - lia.
  - vm_compute. reflexivity.
  - vm_compute. reflexivity.
  - vm_compute. reflexivity.
  - vm_compute. reflexivity.
  - left. exists 0. vm_compute. repeat split; discriminate.
  - left. exists 1. vm_compute. repeat split; discriminate.
Defined.

(** ** Compatible relaxation: the candidates and the independent set *)

(** A test that holds at fewer indices, and fails at one where the other
    holds, counts strictly less. *)
Lemma count_in_range_lt_sub p q lo hi j :
  lo <= j < hi -> p j = false -> q j = true ->
  (forall i, lo <= i < hi -> p i = true -> q i = true) ->
  count_in_range p lo hi < count_in_range q lo hi.
Proof.
  intros Hj Hp Hq Hsub.
  rewrite (count_in_range_split p lo j hi), (count_in_range_split q lo j hi) by lia.
  rewrite (count_in_range_split p j (j + 1) hi),
          (count_in_range_split q j (j + 1) hi) by lia.
  rewrite !count_in_range_single, Hp, Hq.
  assert (H1 : count_in_range p lo j <= count_in_range q lo j)
    by (apply count_in_range_le; intros; apply Hsub; [lia | assumption]).
  assert (H2 : count_in_range p (j + 1) hi <= count_in_range q (j + 1) hi)
    by (apply count_in_range_le; intros; apply Hsub; [lia | assumption]).
  lia.
Qed.

Section CRCandidates.
Context {T : Type} `{Scalar T} `{Inhabited T}.

(** One iteration of [while (true)], or its exit. *)
Lemma independent_set_eq fuel A_rowptr A_colinds Uindex s (g om : list T) :
  CR.independent_set fuel A_rowptr A_colinds Uindex (s, g, om)
  = let new_pt := snd (CR.heaviest Uindex om) in
    if new_pt <? 0 then Some (s, g, om)
    else match fuel with
         | O => None
         | S fuel' =>
             let r := CR.remove_neighbours A_rowptr A_colinds new_pt om in
             CR.independent_set fuel' A_rowptr A_colinds Uindex
               (s.[new_pt <- 1], g.[new_pt <- s_zero],
                CR.raise_second_neighbours A_rowptr A_colinds (fst r) (snd r))
         end.
Proof.
  destruct fuel; simpl; destruct (CR.heaviest Uindex om) as [mw new_pt]; simpl;
    destruct (new_pt <? 0); try reflexivity.
  destruct (CR.remove_neighbours A_rowptr A_colinds new_pt om); reflexivity.
Qed.

(** The scan for the heaviest candidate returns a candidate or -1. *)
Lemma heaviest_in_U Uindex (omega : list T) :
  snd (CR.heaviest Uindex omega) = -1
  \/ exists i, 0 <= i < Z.of_nat (length Uindex)
               /\ snd (CR.heaviest Uindex omega) = Uindex.[i].
Proof.
  unfold CR.heaviest.
  pose (P := fun k (s : T * Z) =>
               snd s = -1 \/ exists i, 0 <= i < k /\ snd s = Uindex.[i]).
  apply (for_range_invariant P 0 (Z.of_nat (length Uindex))); unfold P;
    [lia | left; reflexivity |].
  intros k [mw np] Hk IH.
  destruct (s_gtb omega.[Uindex.[k]] mw); cbn [snd].
  - right. exists k. split; [lia | reflexivity].
  - destruct IH as [IH | (i & Hi & IH)]; [left; exact IH |].
    right. exists i. split; [lia | exact IH].
Qed.

(** The candidates: every listed F-point has its measure stored in [gamma],
    and [Uindex] holds listed F-points whose measure is above [thetacs]. *)
Lemma candidates_spec n (e : list T) inf_norm thetacs indices gamma :
  Z.of_nat (length gamma) = n ->
  (forall i, 1 <= i <= indices.[0] -> 0 <= indices.[i] < n) ->
  let r := CR.candidates e inf_norm thetacs indices gamma in
  Z.of_nat (length (fst r)) = n
  /\ (forall j, 1 <= j <= indices.[0] ->
        (fst r).[indices.[j]] = s_div e.[indices.[j]] inf_norm)
  /\ Forall (fun pt => (exists j, 1 <= j <= indices.[0] /\ indices.[j] = pt)
                       /\ s_gtb (s_div e.[pt] inf_norm) thetacs = true) (snd r)
  /\ Z.of_nat (length (snd r)) <= Z.max 0 indices.[0].
Proof.
  intros Hlen Hind. cbv zeta. unfold CR.candidates.
  destruct (Z.le_gt_cases 1 (indices.[0] + 1)) as [Hle|Hgt].
  2:{ rewrite for_range_empty by lia. cbn [fst snd length].
      split; [exact Hlen |]. split; [intros; lia |].
      split; [constructor | lia]. }
  pose (P := fun k (r : list T * list Z) =>
     Z.of_nat (length (fst r)) = n
     /\ (forall j, 1 <= j < k ->
           (fst r).[indices.[j]] = s_div e.[indices.[j]] inf_norm)
     /\ Forall (fun pt => (exists j, 1 <= j <= indices.[0] /\ indices.[j] = pt)
                          /\ s_gtb (s_div e.[pt] inf_norm) thetacs = true) (snd r)
     /\ Z.of_nat (length (snd r)) <= k - 1).
  set (r := for_range 1 (indices.[0] + 1) _ (gamma, [])).
  assert (HP : P (indices.[0] + 1) r).
  { subst r.
    apply (for_range_invariant P 1 (indices.[0] + 1)); [exact Hle | |]; unfold P.
    - cbn [fst snd length]. split; [exact Hlen |]. split; [intros; lia |].
      split; [constructor | lia].
    - intros k [g U] Hk (Hl & Hg & HU & HlU). cbn [fst snd] in *. cbv zeta.
      pose proof (Hind k ltac:(lia)) as Hpt.
      rewrite get_set_eq by lia. cbn [fst snd].
      split; [rewrite length_set; exact Hl |].
      split.
      { intros j Hj. destruct (Z.eq_dec indices.[k] indices.[j]) as [Heq|Hne].
        - rewrite <- Heq. apply get_set_eq. lia.
        - rewrite get_set_ne by exact Hne. apply Hg.
          destruct (Z.eq_dec j k) as [->|]; [contradiction | lia]. }
      destruct (s_gtb (s_div e.[indices.[k]] inf_norm) thetacs) eqn:Hgt.
      + split; [| rewrite length_app; cbn [length]; lia].
        apply Forall_app. split; [exact HU |].
        constructor; [| constructor].
        split; [exists k; split; [lia | reflexivity] | exact Hgt].
      + split; [exact HU | lia]. }
  destruct HP as (Hl & Hg & HU & HlU).
  split; [exact Hl |]. split; [intros j Hj; apply Hg; lia |].
  split; [exact HU | lia].
Qed.

(** The independent-set loop changes the label and the measure of a node
    only by making a candidate a C-point with measure zero. *)
Lemma independent_set_changes n A_rowptr A_colinds Uindex fuel :
  (forall i, 0 <= i < Z.of_nat (length Uindex) -> 0 <= Uindex.[i] < n) ->
  forall s (g om : list T) st',
    CR.independent_set fuel A_rowptr A_colinds Uindex (s, g, om) = Some st' ->
    Z.of_nat (length s) = n -> Z.of_nat (length g) = n ->
    forall v,
      ((fst (fst st')).[v] = s.[v] /\ (snd (fst st')).[v] = g.[v])
      \/ ((fst (fst st')).[v] = 1 /\ (snd (fst st')).[v] = s_zero
          /\ exists i, 0 <= i < Z.of_nat (length Uindex) /\ Uindex.[i] = v).
Proof.
  intros HU. induction fuel as [|fuel IH]; intros s g om st' Hrun Hs Hg v;
    rewrite independent_set_eq in Hrun; cbv zeta in Hrun;
    destruct (Z.ltb_spec (snd (CR.heaviest Uindex om)) 0) as [Hneg|Hpos];
    try (injection Hrun as <-; left; split; reflexivity);
    [discriminate |].
  destruct (heaviest_in_U Uindex om) as [Hm | (i & Hi & Hp)]; [lia |].
  set (p := snd (CR.heaviest Uindex om)) in *.
  pose proof (HU i Hi) as Hpn. rewrite <- Hp in Hpn.
  apply IH with (v := v) in Hrun; [| rewrite length_set; assumption ..].
  destruct Hrun as [[Hs' Hg'] | Hch]; [| right; exact Hch].
  destruct (Z.eq_dec p v) as [Hpv|Hne].
  - right. rewrite Hs', Hg'. subst v. rewrite !get_set_eq by lia.
    split; [reflexivity |]. split; [reflexivity |].
    exists i. split; [exact Hi | symmetry; exact Hp].
  - left. rewrite Hs', Hg', !get_set_ne by exact Hne. split; reflexivity.
Qed.

End CRCandidates.

Section CRIndependentSet.
Variables (n : Z) (A_rowptr A_colinds Uindex : list Z).
Hypothesis A_ok : csr_ok n A_rowptr A_colinds.
Hypothesis U_ok :
  forall i, 0 <= i < Z.of_nat (length Uindex) -> 0 <= Uindex.[i] < n.
Implicit Types omega : list Q.

(** The scan returns -1 when no candidate has a positive weight, and a
    candidate of positive weight otherwise. *)
Lemma heaviest_positive omega :
  (snd (CR.heaviest Uindex omega) = -1
   /\ forall i, 0 <= i < Z.of_nat (length Uindex) ->
        (omega.[Uindex.[i]] <= 0)%Q)
  \/ (exists i, 0 <= i < Z.of_nat (length Uindex)
                /\ snd (CR.heaviest Uindex omega) = Uindex.[i]
                /\ (0 < omega.[Uindex.[i]])%Q).
Proof.
  unfold CR.heaviest.
  pose (P := fun k (s : Q * Z) =>
     (snd s = -1 /\ fst s = 0%Q
      /\ forall i, 0 <= i < k -> (omega.[Uindex.[i]] <= 0)%Q)
     \/ (exists i, 0 <= i < k /\ snd s = Uindex.[i]
                   /\ (0 < omega.[Uindex.[i]])%Q
                   /\ fst s = omega.[Uindex.[i]])).
  assert (HP : P (Z.of_nat (length Uindex))
                 (for_range 0 (Z.of_nat (length Uindex))
                    (fun i '(max_weight, new_pt) =>
                       let pt := Uindex.[i] in
                       if s_gtb omega.[pt] max_weight then (omega.[pt], pt)
                       else (max_weight, new_pt))
                    (s_zero, -1))).
  { apply (for_range_invariant P 0 (Z.of_nat (length Uindex))); unfold P;
      [lia | left; split; [reflexivity |]; split; [reflexivity | intros; lia] |].
    intros k [mw np] Hk IH. cbv zeta.
    destruct (s_gtb omega.[Uindex.[k]] mw) eqn:Hgt; cbn [fst snd] in *.
    - right. exists k. split; [lia |]. split; [reflexivity |].
      split; [| reflexivity].
      apply Q_ltb_lt in Hgt.
      destruct IH as [(_ & Hmw & _) | (i & _ & _ & Hpos & Hmw)].
      + rewrite Hmw in Hgt. exact Hgt.
      + rewrite Hmw in Hgt. eapply Qlt_trans; eassumption.
    - destruct IH as [(Hnp & Hmw & Hall) | (i & Hi & Hnp & Hpos & Hmw)].
      + left. split; [exact Hnp |]. split; [exact Hmw |].
        intros i Hi. destruct (Z.eq_dec i k) as [->|Hne]; [| apply Hall; lia].
        apply Qnot_lt_le. intros Hlt. rewrite <- Hmw in Hlt.
        apply Q_ltb_lt in Hlt. unfold s_gtb in Hgt. congruence.
      + right. exists i. split; [lia |]. repeat split; assumption. }
  destruct HP as [(Hnp & _ & Hall) | (i & Hi & Hnp & Hpos & _)].
  - left. split; assumption.
  - right. exists i. split; [exact Hi |]. split; assumption.
Qed.

(** Step 2 zeroes the weights of the new C-point's row and nothing else. *)
Lemma remove_neighbours_spec new_pt omega :
  0 <= new_pt < n -> Z.of_nat (length omega) = n ->
  let r := CR.remove_neighbours A_rowptr A_colinds new_pt omega in
  Z.of_nat (length (snd r)) = n
  /\ Forall (fun v => 0 <= v < n) (fst r)
  /\ (forall v, in_row A_rowptr A_colinds new_pt v -> (snd r).[v] = 0%Q)
  /\ (forall v, (snd r).[v] = 0%Q \/ (snd r).[v] = omega.[v]).
Proof.
  intros Hp Hlen. cbv zeta. unfold CR.remove_neighbours.
  destruct (csr_rows _ _ _ A_ok new_pt Hp) as [Hrow _].
  set (lo := A_rowptr.[new_pt]) in *. set (hi := A_rowptr.[new_pt + 1]) in *.
  pose (P := fun k (r : list Z * list Q) =>
     Z.of_nat (length (snd r)) = n
     /\ Forall (fun v => 0 <= v < n) (fst r)
     /\ (forall jj, lo <= jj < k -> (snd r).[A_colinds.[jj]] = 0%Q)
     /\ (forall v, (snd r).[v] = 0%Q \/ (snd r).[v] = omega.[v])).
  set (r := for_range lo hi _ ([], omega)).
  assert (HP : P hi r).
  { subst r. apply (for_range_invariant P lo hi); [lia | |]; unfold P.
    - cbn [fst snd]. split; [exact Hlen |]. split; [constructor |].
      split; [intros; lia | intros; right; reflexivity].
    - intros k [nb om] Hk (Hl & Hnb & Hz & Hor). cbn [fst snd] in *.
      assert (Hc : 0 <= A_colinds.[k] < n)
        by (apply (csr_entry_node n A_rowptr A_colinds new_pt k A_ok Hp);
            unfold lo, hi in Hk; lia).
      split; [rewrite length_set; exact Hl |].
      split; [apply Forall_app; split; [exact Hnb | repeat constructor; lia] |].
      split.
      + intros jj Hjj.
        destruct (Z.eq_dec A_colinds.[k] A_colinds.[jj]) as [Heq|Hne].
        * rewrite <- Heq. apply get_set_eq. lia.
        * rewrite get_set_ne by exact Hne. apply Hz.
          destruct (Z.eq_dec jj k) as [->|]; [contradiction | lia].
      + intros v. destruct (Z.eq_dec A_colinds.[k] v) as [<-|Hne].
        * left. apply get_set_eq. lia.
        * rewrite get_set_ne by exact Hne. apply Hor. }
  destruct HP as (Hl & Hnb & Hz & Hor).
  split; [exact Hl |]. split; [exact Hnb |]. split; [| exact Hor].
  intros v (jj & Hjj & <-). apply Hz. exact Hjj.
Qed.

(** What step 3 does to the weights: a zero weight stays zero and no weight
    decreases. *)
Definition grows omega omega' : Prop :=
  Z.of_nat (length omega') = Z.of_nat (length omega)
  /\ forall v, ((omega.[v] == 0)%Q -> (omega'.[v] == 0)%Q)
               /\ (omega.[v] <= omega'.[v])%Q.

Lemma raise_second_neighbours_spec nb omega :
  Forall (fun v => 0 <= v < n) nb -> Z.of_nat (length omega) = n ->
  grows omega (CR.raise_second_neighbours A_rowptr A_colinds nb omega).
Proof.
  intros Hnb Hlen. unfold CR.raise_second_neighbours.
  apply (for_range_preserves (grows omega)).
  { split; [reflexivity |]. intros v. split; [tauto | apply Qle_refl]. }
  intros i om Hi Hgr. cbv zeta.
  assert (Hpt : 0 <= nb.[i] < n).
  { apply (proj1 (Forall_forall _ nb) Hnb). apply get_elem_of. exact Hi. }
  apply (for_range_preserves (grows omega)); [exact Hgr |].
  clear om Hgr. intros j om Hj [Hl Hgr]. cbv zeta.
  assert (Hc : 0 <= A_colinds.[j] < n)
    by (apply (csr_entry_node n A_rowptr A_colinds nb.[i] j A_ok Hpt Hj)).
  destruct (s_eqb om.[A_colinds.[j]] s_zero) eqn:Hz; cbn [negb];
    [split; assumption |].
  split; [rewrite length_set; exact Hl |].
  intros v. destruct (Z.eq_dec A_colinds.[j] v) as [<-|Hne].
  - rewrite get_set_eq by lia. destruct (Hgr A_colinds.[j]) as [Hzero Hle].
    split.
    + intros H0. apply Hzero in H0. apply Qeq_bool_iff in H0.
      cbn [s_eqb s_zero Q_Scalar] in Hz. congruence.
    + cbn [s_add s_one Q_Scalar]. eapply Qle_trans; [exact Hle |].
      rewrite <- (Qplus_0_r om.[A_colinds.[j]]) at 1.
      apply Qplus_le_r. discriminate.
  - rewrite get_set_ne by exact Hne. apply Hgr.
Qed.

(** The nodes the loop has made C-points so far, and what holds of them: the
    weights of their rows are zero, and no two of them lie in each other's
    row. *)
Definition chosen (splitting0 s : list Z) (c : Z) : Prop :=
  splitting0.[c] <> 1 /\ s.[c] = 1.

Definition chosen_ok (splitting0 s : list Z) omega : Prop :=
  (forall c v, chosen splitting0 s c -> in_row A_rowptr A_colinds c v ->
     (omega.[v] == 0)%Q)
  /\ (forall c1 c2, chosen splitting0 s c1 -> chosen splitting0 s c2 ->
        c1 <> c2 ->
        ~ (in_row A_rowptr A_colinds c1 c2 /\ in_row A_rowptr A_colinds c2 c1)).

Lemma independent_set_chosen_ok splitting0 fuel :
  forall s (g : list Q) omega st',
    CR.independent_set fuel A_rowptr A_colinds Uindex (s, g, omega) = Some st' ->
    Z.of_nat (length omega) = n ->
    chosen_ok splitting0 s omega ->
    chosen_ok splitting0 (fst (fst st')) (snd st').
Proof.
  induction fuel as [|fuel IH]; intros s g om st' Hrun Hlen Hok;
    rewrite independent_set_eq in Hrun; cbv zeta in Hrun;
    destruct (Z.ltb_spec (snd (CR.heaviest Uindex om)) 0) as [Hneg|Hpos];
    try (injection Hrun as <-; exact Hok);
    [discriminate |].
  destruct (heaviest_positive om) as [[Hm _] | (i & Hi & Hp & Hw)]; [lia |].
  set (p := snd (CR.heaviest Uindex om)) in *.
  rewrite <- Hp in Hw.
  pose proof (U_ok i Hi) as Hpn. rewrite <- Hp in Hpn.
  pose proof (remove_neighbours_spec p om Hpn Hlen) as Hrm. cbv zeta in Hrm.
  set (r := CR.remove_neighbours A_rowptr A_colinds p om) in *.
  destruct Hrm as (Hl1 & Hnb & Hz1 & Hor1).
  pose proof (raise_second_neighbours_spec (fst r) (snd r) Hnb Hl1) as [Hl2 Hgr].
  apply IH in Hrun; [exact Hrun | lia |].
  destruct Hok as [Hzero Hind].
  assert (Hold : forall c, chosen splitting0 s.[p <- 1] c ->
            c = p \/ chosen splitting0 s c).
  { intros c [Hc0 Hc1]. destruct (Z.eq_dec c p) as [->|Hne]; [left; reflexivity |].
    right. rewrite get_set_ne in Hc1 by congruence. split; assumption. }
  assert (Hnot : forall c, chosen splitting0 s c ->
            ~ in_row A_rowptr A_colinds c p).
  { intros c Hc Hrow. pose proof (Hzero c p Hc Hrow) as H0.
    rewrite H0 in Hw. exact (Qlt_irrefl 0 Hw). }
  split.
  - intros c v Hc Hrow. apply (Hgr v).
    destruct (Hold c Hc) as [-> | Hc'].
    + rewrite (Hz1 v Hrow). reflexivity.
    + destruct (Hor1 v) as [-> | ->]; [reflexivity |].
      exact (Hzero c v Hc' Hrow).
  - intros c1 c2 Hc1 Hc2 Hne [H12 H21].
    destruct (Hold c1 Hc1) as [-> | Hc1'], (Hold c2 Hc2) as [-> | Hc2'].
    + congruence.
    + exact (Hnot c2 Hc2' H21).
    + exact (Hnot c1 Hc1' H12).
    + exact (Hind c1 c2 Hc1' Hc2' Hne (conj H12 H21)).
Qed.

(** The candidates whose weight is positive. *)
Definition active omega : Z :=
  count_in_range (fun i => s_ltb 0%Q omega.[Uindex.[i]]) 0
    (Z.of_nat (length Uindex)).

Hypothesis U_diag :
  forall i, 0 <= i < Z.of_nat (length Uindex) ->
    in_row A_rowptr A_colinds Uindex.[i] Uindex.[i].

(** When the row of every candidate holds its diagonal entry, each iteration
    removes a candidate for good, and the loop ends. *)
Lemma independent_set_terminates fuel :
  forall s (g : list Q) omega,
    Z.of_nat (length omega) = n ->
    (forall v, (0 <= omega.[v])%Q) ->
    active omega <= Z.of_nat fuel ->
    exists st', CR.independent_set fuel A_rowptr A_colinds Uindex (s, g, omega)
                = Some st'.
Proof.
  induction fuel as [|fuel IH]; intros s g om Hlen Hnn Hact;
    rewrite independent_set_eq; cbv zeta;
    destruct (Z.ltb_spec (snd (CR.heaviest Uindex om)) 0) as [Hneg|Hpos];
    try (eexists; reflexivity);
    destruct (heaviest_positive om) as [[Hm _] | (i & Hi & Hp & Hw)];
    try lia.
  - exfalso.
    pose proof (count_in_range_pos (fun i => s_ltb 0%Q om.[Uindex.[i]]) 0
                  (Z.of_nat (length Uindex)) i Hi
                  (proj2 (Q_ltb_lt _ _) Hw)) as Hc.
    unfold active in Hact. lia.
  - set (p := snd (CR.heaviest Uindex om)) in *.
    pose proof (U_ok i Hi) as Hpn. rewrite <- Hp in Hpn.
    pose proof (remove_neighbours_spec p om Hpn Hlen) as Hrm. cbv zeta in Hrm.
    set (r := CR.remove_neighbours A_rowptr A_colinds p om) in *.
    destruct Hrm as (Hl1 & Hnb & Hz1 & Hor1).
    pose proof (raise_second_neighbours_spec (fst r) (snd r) Hnb Hl1)
      as [Hl2 Hgr].
    set (om2 := CR.raise_second_neighbours A_rowptr A_colinds (fst r) (snd r))
      in *.
    apply IH; [lia | |].
    + intros v. eapply Qle_trans; [| apply (Hgr v)].
      destruct (Hor1 v) as [-> | ->]; [apply Qle_refl | apply Hnn].
    + assert (Hlt : active om2 < active om); [| lia].
      unfold active. apply (count_in_range_lt_sub _ _ 0 _ i Hi).
      * destruct (s_ltb 0%Q om2.[Uindex.[i]]) eqn:Hpos2; [| reflexivity].
        apply Q_ltb_lt in Hpos2. exfalso.
        assert (H0 : (om2.[Uindex.[i]] == 0)%Q).
        { apply (Hgr Uindex.[i]). rewrite (Hz1 Uindex.[i]); [reflexivity |].
          rewrite Hp. apply U_diag, Hi. }
        rewrite H0 in Hpos2. exact (Qlt_irrefl 0 Hpos2).
      * apply Q_ltb_lt. exact Hw.
      * intros k Hk Hk2. apply Q_ltb_lt in Hk2. apply Q_ltb_lt.
        destruct (Hor1 Uindex.[k]) as [Hz | Hsame].
        -- exfalso. assert (H0 : (om2.[Uindex.[k]] == 0)%Q)
             by (apply (Hgr Uindex.[k]); rewrite Hz; reflexivity).
           rewrite H0 in Hk2. exact (Qlt_irrefl 0 Hk2).
        -- destruct (Qlt_le_dec 0 om.[Uindex.[k]]) as [Hgt|Hle]; [exact Hgt |].
           exfalso.
           assert (Hz : (om.[Uindex.[k]] == 0)%Q)
             by (apply Qle_antisym; [exact Hle | apply Hnn]).
           assert (H0 : (om2.[Uindex.[k]] == 0)%Q)
             by (apply (Hgr Uindex.[k]); rewrite Hsame; exact Hz).
           rewrite H0 in Hk2. exact (Qlt_irrefl 0 Hk2).
Qed.

End CRIndependentSet.

(** Step 3.1f: the initial weights are not negative when the measures of
    the candidates are not. *)
Lemma initial_omega_spec n A_rowptr A_colinds splitting (gamma : list Q) Uindex :
  0 <= n ->
  (forall i, 0 <= i < Z.of_nat (length Uindex) -> 0 <= Uindex.[i] < n) ->
  (forall i, 0 <= i < Z.of_nat (length Uindex) -> (0 <= gamma.[Uindex.[i]])%Q) ->
  let omega := CR.initial_omega n A_rowptr A_colinds splitting gamma Uindex in
  Z.of_nat (length omega) = n /\ forall v, (0 <= omega.[v])%Q.
Proof.
  intros Hn HU Hg. cbv zeta. unfold CR.initial_omega.
  apply (for_range_preserves
           (fun om : list Q =>
              Z.of_nat (length om) = n /\ forall v, (0 <= om.[v])%Q)).
  - split; [rewrite length_filled; lia |].
    intros v. destruct (Z.lt_ge_cases v 0) as [Hneg|Hpos].
    + rewrite get_out_of_range by lia. apply Qle_refl.
    + destruct (Z.lt_ge_cases v n) as [Hlt|Hge].
      * rewrite get_filled by lia. apply Qle_refl.
      * rewrite get_out_of_range by (rewrite length_filled; lia). apply Qle_refl.
  - intros i om Hi [Hl Hnn]. cbv zeta.
    split; [rewrite length_set; exact Hl |].
    intros v. destruct (Z.eq_dec Uindex.[i] v) as [<-|Hne].
    + rewrite get_set_eq by (pose proof (HU i Hi); lia).
      cbn [s_add s_of_Z Q_Scalar].
      change (for_range A_rowptr.[Uindex.[i]] A_rowptr.[Uindex.[i] + 1] _ 0)
        with (count_in_range (fun j => splitting.[A_colinds.[j]] =? 0)
                A_rowptr.[Uindex.[i]] A_rowptr.[Uindex.[i] + 1]).
      pose proof (count_in_range_nonneg
                    (fun j => splitting.[A_colinds.[j]] =? 0)
                    A_rowptr.[Uindex.[i]] A_rowptr.[Uindex.[i] + 1]) as Hc.
      rewrite Zle_Qle in Hc.
      rewrite <- (Qplus_0_r 0). apply Qplus_le_compat; [exact Hc | apply Hg, Hi].
    + rewrite get_set_ne by exact Hne. apply Hnn.
Qed.

(** The entries of a list of nodes, read by position. *)
Lemma Forall_get {A} `{Inhabited A} (P : A -> Prop) (l : list A) i :
  Forall P l -> 0 <= i < Z.of_nat (length l) -> P l.[i].
Proof.
  intros Hall Hi. apply (proj1 (Forall_forall P l) Hall), get_elem_of, Hi.
Qed.

(** X13.  Over the rationals, on a well-formed A whose size is that of
    [splitting], with the listed F-points in range: the nodes a run of
    [cr_helper] turns into C-points are independent, no two of them lie in
    each other's row of A (so none are neighbours when the pattern of A is
    symmetric). *)
Theorem cr_helper_new_C_points_independent :
  forall fuel A_rowptr A_colinds (B e : list Q) indices splitting
         (gamma : list Q) (thetacs : Q) (cost : list Q) (res : CR.result Q),
    csr_ok (Z.of_nat (length splitting)) A_rowptr A_colinds ->
    length gamma = length splitting ->
    (forall i, 1 <= i <= indices.[0] ->
       0 <= indices.[i] < Z.of_nat (length splitting)) ->
    CR.cr_helper fuel A_rowptr A_colinds B e indices splitting gamma thetacs cost
      = Some res ->
    forall c1 c2, c1 <> c2 ->
      splitting.[c1] <> 1 -> (CR.r_splitting res).[c1] = 1 ->
      splitting.[c2] <> 1 -> (CR.r_splitting res).[c2] = 1 ->
      ~ (in_row A_rowptr A_colinds c1 c2 /\ in_row A_rowptr A_colinds c2 c1).
Proof.
  intros fuel A_rowptr A_colinds B e indices splitting gamma thetacs cost res
    A_ok Hlg Hind Hrun c1 c2 Hne H10 H11 H20 H21.
  unfold CR.cr_helper in Hrun.
  destruct (CR.scale_error B indices e) as [e' inf_norm].
  pose proof (candidates_spec (Z.of_nat (length splitting)) e' inf_norm thetacs
                indices gamma ltac:(lia) Hind) as Hc. cbv zeta in Hc.
  destruct (CR.candidates e' inf_norm thetacs indices gamma) as [gamma' Uindex].
  cbn [fst snd] in Hc. destruct Hc as (_ & _ & HU & _).
  assert (U_ok : forall i, 0 <= i < Z.of_nat (length Uindex) ->
            0 <= Uindex.[i] < Z.of_nat (length splitting)).
  { intros i Hi. destruct (Forall_get _ _ i HU Hi) as [(j & Hj & Heq) _].
    rewrite <- Heq. apply Hind, Hj. }
  destruct (CR.independent_set fuel A_rowptr A_colinds Uindex _)
    as [[[s' g'] om']|] eqn:Hloop; [| discriminate].
  injection Hrun as <-. cbn [CR.r_splitting] in H11, H21.
  apply (independent_set_chosen_ok (Z.of_nat (length splitting)) A_rowptr A_colinds
           Uindex A_ok U_ok splitting) in Hloop.
  - destruct Hloop as [_ Hindep]. cbn [fst snd] in Hindep.
    apply (Hindep c1 c2); [split; assumption | split; assumption | exact Hne].
  - pose proof (initial_omega_spec (Z.of_nat (length splitting)) A_rowptr A_colinds
                  splitting gamma' Uindex) as Hom.
    unfold CR.initial_omega. apply (for_range_preserves
      (fun om : list Q => Z.of_nat (length om) = Z.of_nat (length splitting))).
    + rewrite length_filled. lia.
    + intros i om _ Hl. cbv zeta. rewrite length_set. exact Hl.
  - split.
    + intros c v [Hc0 Hc1]. contradiction.
    + intros c c' [Hc0 Hc1]. contradiction.
Qed.

(** [cr_helper_new_C_points_independent] on the 1D Laplacian of three nodes,
    all of them F-points on entry, with the error large at both ends: nodes
    0 and 2 are made C-points, and they are not neighbours. *)
Lemma cr_helper_new_C_points_independent_witness :
  csr_ok 3 [0; 2; 5; 7] [0; 1; 0; 1; 2; 1; 2]
  /\ ~ (in_row [0; 2; 5; 7] [0; 1; 0; 1; 2; 1; 2] 0 2
        /\ in_row [0; 2; 5; 7] [0; 1; 0; 1; 2; 1; 2] 2 0).
Proof.
  split; [exact csr_ok_laplacian3 |].
  assert (Hind : forall i, 1 <= i <= [3; 0; 1; 2].[0] ->
            0 <= [3; 0; 1; 2].[i] < Z.of_nat (length [0; 0; 0])).
  { intros i Hi. change ([3; 0; 1; 2].[0]) with 3 in Hi.
    index_cases i Hi; vm_compute; split; (discriminate || reflexivity). }
  pose (res := {| CR.r_e := [0.9; 0.1; 0.9]%Q;
                  CR.r_indices := [1; 1; 2; 0];
                  CR.r_splitting := [1; 0; 1];
                  CR.r_gamma := [0; 10 # 90; 0]%Q;
                  CR.r_cost := [42 # 49]%Q |}).
  assert (Hrun : CR.cr_helper (T:=Q) 5 [0; 2; 5; 7] [0; 1; 0; 1; 2; 1; 2]
                   [1; 1; 1]%Q [0.9; 0.1; 0.9]%Q [3; 0; 1; 2] [0; 0; 0]
                   [0; 0; 0]%Q 0.5%Q [0]%Q = Some res)
    by (vm_compute; reflexivity).
  apply (cr_helper_new_C_points_independent 5
           [0; 2; 5; 7] [0; 1; 0; 1; 2; 1; 2] [1; 1; 1]%Q
           [0.9; 0.1; 0.9]%Q [3; 0; 1; 2] [0; 0; 0] [0; 0; 0]%Q
           0.5%Q [0]%Q res csr_ok_laplacian3 eq_refl Hind Hrun 0 2).
  - discriminate.
  - vm_compute. discriminate.
  - reflexivity.
  - vm_compute. discriminate.
  - reflexivity.
Defined.

(** X14.  Over the rationals, with [thetacs >= 0], on a well-formed A whose
    size is that of [splitting], with the listed F-points in range and the
    diagonal entry stored in the row of each of them: the [while (true)] loop
    of [cr_helper] ends within as many iterations as there are listed
    F-points, and the kernel returns. *)
Theorem cr_helper_returns_when_rows_have_diagonal :
  forall A_rowptr A_colinds (B e : list Q) indices splitting
         (gamma : list Q) (thetacs : Q) (cost : list Q),
    csr_ok (Z.of_nat (length splitting)) A_rowptr A_colinds ->
    length gamma = length splitting ->
    (forall i, 1 <= i <= indices.[0] ->
       0 <= indices.[i] < Z.of_nat (length splitting)) ->
    (0 <= thetacs)%Q ->
    (forall i, 1 <= i <= indices.[0] ->
       in_row A_rowptr A_colinds indices.[i] indices.[i]) ->
    exists res,
      CR.cr_helper (Z.to_nat indices.[0]) A_rowptr A_colinds B e indices
        splitting gamma thetacs cost = Some res.
Proof.
  intros A_rowptr A_colinds B e indices splitting gamma thetacs cost
    A_ok Hlg Hind Hth Hdiag.
  unfold CR.cr_helper.
  destruct (CR.scale_error B indices e) as [e' inf_norm].
  pose proof (candidates_spec (Z.of_nat (length splitting)) e' inf_norm thetacs
                indices gamma ltac:(lia) Hind) as Hc. cbv zeta in Hc.
  destruct (CR.candidates e' inf_norm thetacs indices gamma) as [gamma' Uindex].
  cbn [fst snd] in Hc. destruct Hc as (_ & Hg & HU & HlU).
  assert (U_ok : forall i, 0 <= i < Z.of_nat (length Uindex) ->
            0 <= Uindex.[i] < Z.of_nat (length splitting)).
  { intros i Hi. destruct (Forall_get _ _ i HU Hi) as [(j & Hj & Heq) _].
    rewrite <- Heq. apply Hind, Hj. }
  assert (U_diag : forall i, 0 <= i < Z.of_nat (length Uindex) ->
            in_row A_rowptr A_colinds Uindex.[i] Uindex.[i]).
  { intros i Hi. destruct (Forall_get _ _ i HU Hi) as [(j & Hj & Heq) _].
    rewrite <- Heq. apply Hdiag, Hj. }
  assert (U_pos : forall i, 0 <= i < Z.of_nat (length Uindex) ->
            (0 <= gamma'.[Uindex.[i]])%Q).
  { intros i Hi. destruct (Forall_get _ _ i HU Hi) as [(j & Hj & Heq) Hgt].
    cbv beta in Hgt. rewrite <- Heq in *. rewrite (Hg j Hj).
    apply Q_ltb_lt in Hgt. apply Qlt_le_weak.
    eapply Qle_lt_trans; eassumption. }
  destruct (initial_omega_spec (Z.of_nat (length splitting)) A_rowptr A_colinds
              splitting gamma' Uindex ltac:(lia) U_ok U_pos) as [Hlo Hnn].
  destruct (independent_set_terminates (Z.of_nat (length splitting)) A_rowptr
              A_colinds Uindex A_ok U_ok U_diag (Z.to_nat indices.[0])
              splitting gamma' _ Hlo Hnn) as ([[s' g'] om'] & Hrun).
  { unfold active.
    pose proof (count_in_range_bounds
                  (fun i => s_ltb 0%Q
                     (CR.initial_omega (Z.of_nat (length splitting)) A_rowptr
                        A_colinds splitting gamma' Uindex).[Uindex.[i]])
                  0 (Z.of_nat (length Uindex)) ltac:(lia)).
    lia. }
  rewrite Hrun. eexists. reflexivity.
Qed.

(** [cr_helper_returns_when_rows_have_diagonal] on the 1D Laplacian of three
    nodes, all of them F-points on entry. *)
Lemma cr_helper_returns_when_rows_have_diagonal_witness :
  csr_ok 3 [0; 2; 5; 7] [0; 1; 0; 1; 2; 1; 2]
  /\ exists res,
       CR.cr_helper (T:=Q) 3 [0; 2; 5; 7] [0; 1; 0; 1; 2; 1; 2] [1; 1; 1]%Q
         [0.1; 0.9; 0.2]%Q [3; 0; 1; 2] [0; 0; 0] [0; 0; 0]%Q 0.5%Q [0]%Q
       = Some res.
Proof.
  split; [exact csr_ok_laplacian3 |].
  refine (cr_helper_returns_when_rows_have_diagonal
            [0; 2; 5; 7] [0; 1; 0; 1; 2; 1; 2] [1; 1; 1]%Q
            [0.1; 0.9; 0.2]%Q [3; 0; 1; 2] [0; 0; 0] [0; 0; 0]%Q
            0.5%Q [0]%Q csr_ok_laplacian3 eq_refl _ _ _).
  - intros i Hi. change ([3; 0; 1; 2].[0]) with 3 in Hi.
    index_cases i Hi; vm_compute; split; (discriminate || reflexivity).
  - vm_compute. discriminate.
  - intros i Hi. change ([3; 0; 1; 2].[0]) with 3 in Hi.
    index_cases i Hi.
    + exists 0. vm_compute. repeat split; discriminate.
    + exists 3. vm_compute. repeat split; discriminate.
    + exists 6. vm_compute. repeat split; discriminate.
Defined.

(** X15.  With the listed F-points in range, whatever the scalar type: a run
    of [cr_helper] leaves the label of a node as it was or makes it 1, and a
    node whose label it sets to 1 is a candidate (a listed F-point whose
    measure is above [thetacs]) and ends with the measure [gamma] zero. *)
Theorem cr_helper_changes_only_candidates :
  forall (T : Type) (ST : Scalar T) (IT : Inhabited T) fuel
         A_rowptr A_colinds (B e : list T) indices splitting
         (gamma : list T) (thetacs : T) (cost : list T) (res : CR.result T),
    length gamma = length splitting ->
    (forall i, 1 <= i <= indices.[0] ->
       0 <= indices.[i] < Z.of_nat (length splitting)) ->
    CR.cr_helper fuel A_rowptr A_colinds B e indices splitting gamma thetacs cost
      = Some res ->
    forall v,
      (CR.r_splitting res).[v] = splitting.[v]
      \/ ((CR.r_splitting res).[v] = 1
          /\ (CR.r_gamma res).[v] = s_zero
          /\ cr_candidate B e indices thetacs v).
Proof.
  intros T ST IT fuel A_rowptr A_colinds B e indices splitting gamma thetacs
    cost res Hlg Hind Hrun v.
  unfold cr_candidate. unfold CR.cr_helper in Hrun.
  destruct (CR.scale_error B indices e) as [e' inf_norm]. cbn [fst snd].
  pose proof (candidates_spec (Z.of_nat (length splitting)) e' inf_norm thetacs
                indices gamma ltac:(lia) Hind) as Hc. cbv zeta in Hc.
  destruct (CR.candidates e' inf_norm thetacs indices gamma) as [gamma' Uindex].
  cbn [fst snd] in Hc. destruct Hc as (Hlg' & _ & HU & _).
  assert (U_ok : forall i, 0 <= i < Z.of_nat (length Uindex) ->
            0 <= Uindex.[i] < Z.of_nat (length splitting)).
  { intros i Hi. destruct (Forall_get _ _ i HU Hi) as [(j & Hj & Heq) _].
    rewrite <- Heq. apply Hind, Hj. }
  destruct (CR.independent_set fuel A_rowptr A_colinds Uindex _)
    as [[[s' g'] om']|] eqn:Hloop; [| discriminate].
  injection Hrun as <-. cbn [CR.r_splitting CR.r_gamma].
  destruct (independent_set_changes (Z.of_nat (length splitting)) A_rowptr
              A_colinds Uindex fuel U_ok _ _ _ _ Hloop eq_refl Hlg' v)
    as [[Hs _] | (Hs & Hg & i & Hi & Hv)]; cbn [fst snd] in *.
  - left. exact Hs.
  - right. split; [exact Hs |]. split; [exact Hg |].
    rewrite <- Hv. exact (Forall_get _ _ i HU Hi).
Qed.

(** [cr_helper_changes_only_candidates] on the 1D Laplacian of three nodes,
    all of them F-points on entry: node 1 is made a C-point, so it was a
    candidate. *)
Lemma cr_helper_changes_only_candidates_witness :
  cr_candidate [1; 1; 1]%Q [0.1; 0.9; 0.2]%Q [3; 0; 1; 2] 0.5%Q 1.
Proof.
  assert (Hind : forall i, 1 <= i <= [3; 0; 1; 2].[0] ->
            0 <= [3; 0; 1; 2].[i] < Z.of_nat (length [0; 0; 0])).
  { intros i Hi. change ([3; 0; 1; 2].[0]) with 3 in Hi.
    index_cases i Hi; vm_compute; split; (discriminate || reflexivity). }
  pose (res := {| CR.r_e := [0.1; 0.9; 0.2]%Q;
                  CR.r_indices := [2; 0; 2; 1];
                  CR.r_splitting := [0; 1; 0];
                  CR.r_gamma := [10 # 90; 0; 20 # 90]%Q;
                  CR.r_cost := [42 # 49]%Q |}).
  assert (Hrun : CR.cr_helper (T:=Q) 5 [0; 2; 5; 7] [0; 1; 0; 1; 2; 1; 2]
                   [1; 1; 1]%Q [0.1; 0.9; 0.2]%Q [3; 0; 1; 2] [0; 0; 0]
                   [0; 0; 0]%Q 0.5%Q [0]%Q = Some res)
    by (vm_compute; reflexivity).
  destruct (cr_helper_changes_only_candidates Q _ _ 5
              [0; 2; 5; 7] [0; 1; 0; 1; 2; 1; 2] [1; 1; 1]%Q
              [0.1; 0.9; 0.2]%Q [3; 0; 1; 2] [0; 0; 0] [0; 0; 0]%Q
              0.5%Q [0]%Q res eq_refl Hind Hrun 1) as [Hsame | (_ & _ & Hc)].
  - exfalso. vm_compute in Hsame. discriminate.
  - exact Hc.
Defined.

(** ** Approximate ideal restriction: what pass 1 does to the data of C *)

(** A bounded search. *)
Lemma range_decide (P : Z -> Prop) lo hi :
  (forall i, P i \/ ~ P i) ->
  (exists i, lo <= i < hi /\ P i) \/ (forall i, lo <= i < hi -> ~ P i).
Proof.
  intros Hdec. destruct (Z.le_gt_cases lo hi) as [Hle|Hgt];
    [| right; intros; lia].
  apply (Z_range_ind
           (fun k => (exists i, lo <= i < k /\ P i)
                     \/ (forall i, lo <= i < k -> ~ P i)) lo hi);
    [exact Hle | right; intros; lia |].
  intros k Hk [(i & Hi & HP) | Hnone].
  - left. exists i. split; [lia | exact HP].
  - destruct (Hdec k) as [HP | HnP].
    + left. exists k. split; [lia | exact HP].
    + right. intros i Hi. destruct (Z.eq_dec i k) as [->|]; [exact HnP |].
      apply Hnone. lia.
Qed.

Section AIRRow.
Context {T : Type} `{Scalar T} `{Inhabited T}.
Variables (C_colinds : list Z) (splitting : list Z).

(** The neighbourhood reads the data at the positions of its row only. *)
Lemma neighborhood_ext C_rowptr (d d' : list T) cpoint :
  (forall pos, C_rowptr.[cpoint] <= pos < C_rowptr.[cpoint + 1] ->
     d'.[pos] = d.[pos]) ->
  AIR.neighborhood C_rowptr C_colinds d' splitting cpoint
  = AIR.neighborhood C_rowptr C_colinds d splitting cpoint.
Proof.
  intros Hsame. unfold AIR.neighborhood. apply for_range_ext.
  intros i nb Hi. unfold AIR.strong_F_entry. rewrite (Hsame i Hi). reflexivity.
Qed.

(** Each pair of the neighbourhood holds a position and the value stored
    there, and every entry of the row that passes the test has its pair. *)
Lemma neighborhood_entries C_rowptr (d : list T) cpoint :
  let lo := C_rowptr.[cpoint] in
  let hi := C_rowptr.[cpoint + 1] in
  let nb := AIR.neighborhood C_rowptr C_colinds d splitting cpoint in
  Forall (fun x => snd x = d.[fst x]) nb
  /\ forall pos, lo <= pos < hi ->
       AIR.strong_F_entry C_colinds d splitting pos = true ->
       exists x, x ∈ nb /\ fst x = pos.
Proof.
  cbv zeta. unfold AIR.neighborhood.
  set (lo := C_rowptr.[cpoint]). set (hi := C_rowptr.[cpoint + 1]).
  destruct (Z.le_gt_cases lo hi) as [Hle|Hgt].
  2:{ rewrite for_range_empty by lia. split; [constructor | intros; lia]. }
  pose (P := fun k (nb : list (Z * T)) =>
     Forall (fun x => snd x = d.[fst x]) nb
     /\ forall pos, lo <= pos < k ->
          AIR.strong_F_entry C_colinds d splitting pos = true ->
          exists x, x ∈ nb /\ fst x = pos).
  set (r := for_range lo hi _ []).
  assert (HP : P hi r).
  { subst r. apply (for_range_invariant P lo hi); [exact Hle | |]; unfold P.
    - split; [constructor | intros; lia].
    - intros k nb Hk [Hval Hall].
      destruct (AIR.strong_F_entry C_colinds d splitting k) eqn:Hs.
      + split.
        * apply Forall_app. split; [exact Hval |]. repeat constructor.
        * intros pos Hpos Hp. destruct (Z.eq_dec pos k) as [->|Hne].
          -- exists (k, d.[k]). split; [| reflexivity].
             apply elem_of_app. right. apply list_elem_of_singleton. reflexivity.
          -- destruct (Hall pos ltac:(lia) Hp) as (x & Hx & Hfx).
             exists x. split; [apply elem_of_app; left; exact Hx | exact Hfx].
      + split; [exact Hval |].
        intros pos Hpos Hp. destruct (Z.eq_dec pos k) as [->|Hne];
          [congruence |].
        apply Hall; [lia | exact Hp]. }
  exact HP.
Qed.

(** The truncation stores zero at the positions held by the sorted pairs
    from [max_row] on, and nowhere else. *)
Lemma truncate_row_detail (std_sort : list (Z * T) -> list (Z * T))
    max_row (nb : list (Z * T)) (d : list T) :
  0 <= max_row ->
  (forall i, 0 <= i < Z.of_nat (length nb) ->
     0 <= fst (std_sort nb).[i] < Z.of_nat (length d)) ->
  let d' := AIR.truncate_row std_sort max_row nb d in
  length d' = length d
  /\ forall pos,
       (d'.[pos] = d.[pos]
        /\ (Z.of_nat (length nb) <= max_row
            \/ forall i, max_row <= i < Z.of_nat (length nb) ->
                 fst (std_sort nb).[i] <> pos))
       \/ (d'.[pos] = s_zero
           /\ exists i, max_row <= i < Z.of_nat (length nb)
                        /\ fst (std_sort nb).[i] = pos).
Proof.
  intros Hmax Hin. cbv zeta. unfold AIR.truncate_row.
  destruct (Z.gtb_spec (Z.of_nat (length nb)) max_row) as [Hbig|Hsmall].
  2:{ split; [reflexivity |]. intros pos. left. split; [reflexivity | left; lia]. }
  pose (P := fun k (dk : list T) =>
     length dk = length d
     /\ forall pos,
          (dk.[pos] = d.[pos]
           /\ forall i, max_row <= i < k -> fst (std_sort nb).[i] <> pos)
          \/ (dk.[pos] = s_zero
              /\ exists i, max_row <= i < k /\ fst (std_sort nb).[i] = pos)).
  set (r := for_range max_row (Z.of_nat (length nb)) _ d).
  assert (HP : P (Z.of_nat (length nb)) r).
  { subst r. apply (for_range_invariant P max_row (Z.of_nat (length nb)));
      [lia | |]; unfold P.
    - split; [reflexivity |]. intros pos. left. split; [reflexivity | intros; lia].
    - intros k dk Hk [Hl Hall]. split; [rewrite length_set; exact Hl |].
      intros pos. destruct (Z.eq_dec (fst (std_sort nb).[k]) pos) as [Heq|Hne].
      + right. split.
        * rewrite <- Heq. apply get_set_eq. rewrite Hl. apply Hin. lia.
        * exists k. split; [lia | exact Heq].
      + rewrite get_set_ne by exact Hne.
        destruct (Hall pos) as [[Hsame Hno] | [Hz (i & Hi & Heq)]].
        * left. split; [exact Hsame |].
          intros i Hi. destruct (Z.eq_dec i k) as [->|]; [exact Hne |].
          apply Hno. lia.
        * right. split; [exact Hz |]. exists i. split; [lia | exact Heq]. }
  destruct HP as [Hl Hall]. split; [exact Hl |].
  intros pos. destruct (Hall pos) as [[Hsame Hno] | Hz].
  - left. split; [exact Hsame | right; exact Hno].
  - right. exact Hz.
Qed.

End AIRRow.

Section AIRTruncation.
Context {T : Type} `{Scalar T} `{Inhabited T}.
Variable std_sort : list (Z * T) -> list (Z * T).
Hypothesis std_sort_perm : forall l, Permutation (std_sort l) l.
Variables (n : Z) (C_rowptr C_colinds : list Z) (C_data : list T).
Variables (Cpts splitting : list Z) (max_row : Z).
Hypothesis C_ok : csr_ok n C_rowptr C_colinds.
Hypothesis C_data_len : length C_data = length C_colinds.
Hypothesis Cpts_ok : cpts_ok n Cpts.
Hypothesis max_row_nonneg : 0 <= max_row.

(** The truncation of the row of the [r]-th C-point, on the data as given. *)
Definition truncated_row (r : Z) : list T :=
  AIR.truncate_row std_sort max_row
    (AIR.neighborhood C_rowptr C_colinds C_data splitting Cpts.[r]) C_data.

(** The sorted pairs of a neighbourhood hold positions of its row. *)
Lemma sorted_positions (d : list T) r i :
  0 <= r < Z.of_nat (length Cpts) ->
  let nb := AIR.neighborhood C_rowptr C_colinds d splitting Cpts.[r] in
  0 <= i < Z.of_nat (length nb) ->
  in_cpoint_row C_rowptr Cpts r (fst (std_sort nb).[i])
  /\ AIR.strong_F_entry C_colinds d splitting (fst (std_sort nb).[i]) = true.
Proof.
  intros Hr nb Hi.
  destruct (neighborhood_spec C_colinds splitting C_rowptr d Cpts.[r])
    as (_ & Hall & _). cbv zeta in Hall. fold nb in Hall.
  rewrite <- (std_sort_perm nb) in Hall.
  apply (Forall_get _ _ i Hall).
  rewrite (Permutation_length (std_sort_perm nb)). exact Hi.
Qed.

Lemma cpoint_row_in_data r pos :
  0 <= r < Z.of_nat (length Cpts) -> in_cpoint_row C_rowptr Cpts r pos ->
  0 <= pos < Z.of_nat (length C_data).
Proof.
  intros Hr Hpos. destruct Cpts_ok as [Hrange _].
  destruct (csr_rows _ _ _ C_ok _ (Hrange r Hr)) as [Hrow Hrow'].
  unfold in_cpoint_row in Hpos. rewrite C_data_len. lia.
Qed.

(** Pass 1 treats the row of each C-point on its own: on that row its
    result is the truncation of the row on the data as given, and it leaves
    the rest of the data alone. *)
Lemma air_pass1_rows rowptr0 :
  let out := AIR.approx_ideal_restriction_pass1 std_sort rowptr0 C_rowptr
               C_colinds C_data Cpts splitting max_row in
  length (snd out) = length C_data
  /\ (forall r pos, 0 <= r < Z.of_nat (length Cpts) ->
        in_cpoint_row C_rowptr Cpts r pos ->
        (snd out).[pos] = (truncated_row r).[pos])
  /\ (forall pos,
        (forall r, 0 <= r < Z.of_nat (length Cpts) ->
           ~ in_cpoint_row C_rowptr Cpts r pos) ->
        (snd out).[pos] = C_data.[pos]).
Proof.
  cbv zeta. unfold AIR.approx_ideal_restriction_pass1.
  pose (P := fun k (st : Z * list Z * list T) =>
     length (snd st) = length C_data
     /\ (forall r pos, 0 <= r < k -> in_cpoint_row C_rowptr Cpts r pos ->
           (snd st).[pos] = (truncated_row r).[pos])
     /\ (forall pos,
           (forall r, 0 <= r < k -> ~ in_cpoint_row C_rowptr Cpts r pos) ->
           (snd st).[pos] = C_data.[pos])).
  set (res := for_range 0 (Z.of_nat (length Cpts)) _ _).
  assert (HP : P (Z.of_nat (length Cpts)) res).
  { subst res. apply (for_range_invariant P 0 (Z.of_nat (length Cpts)));
      [lia | |]; unfold P.
    - cbn [fst snd]. split; [reflexivity |]. split; [intros; lia | reflexivity].
    - intros k [[nnz rowptr] d] Hk (Hld & Hdone & Hrest).
      cbn [fst snd] in *. unfold AIR.pass1_row. cbn [fst snd].
      assert (Hrowk : forall pos, in_cpoint_row C_rowptr Cpts k pos ->
                d.[pos] = C_data.[pos]).
      { intros pos Hpos. apply Hrest. intros r Hr Hin.
        destruct (cpoint_rows_disjoint n C_rowptr C_colinds C_data Cpts C_ok
                    C_data_len Cpts_ok k r pos ltac:(lia) ltac:(lia)
                    ltac:(lia) Hpos) as [Hlt|Hge];
          unfold in_cpoint_row in Hin; lia. }
      rewrite (neighborhood_ext C_colinds splitting C_rowptr C_data d Cpts.[k])
        by exact Hrowk.
      set (nb := AIR.neighborhood C_rowptr C_colinds C_data splitting Cpts.[k]).
      assert (Hsp : forall i, 0 <= i < Z.of_nat (length nb) ->
                in_cpoint_row C_rowptr Cpts k (fst (std_sort nb).[i])).
      { intros i Hi. apply (sorted_positions C_data k i); [lia | exact Hi]. }
      assert (Hin : forall (d0 : list T), length d0 = length C_data ->
                forall i, 0 <= i < Z.of_nat (length nb) ->
                  0 <= fst (std_sort nb).[i] < Z.of_nat (length d0)).
      { intros d0 Hl0 i Hi. rewrite Hl0.
        apply (cpoint_row_in_data k); [lia | apply Hsp, Hi]. }
      destruct (truncate_row_detail std_sort max_row nb d max_row_nonneg
                  (Hin d Hld)) as [Hl' Hd'].
      destruct (truncate_row_detail std_sort max_row nb C_data max_row_nonneg
                  (Hin C_data eq_refl)) as [_ Ht].
      set (d' := AIR.truncate_row std_sort max_row nb d) in *.
      split; [congruence |]. split.
      + intros r pos Hr Hpos. destruct (Z.eq_dec r k) as [->|Hne].
        * unfold truncated_row. fold nb.
          destruct (Hd' pos) as [[Hsame Hno] | [Hz (i & Hi & Heq)]],
                   (Ht pos) as [[Hsame' Hno'] | [Hz' (i' & Hi' & Heq')]].
          -- rewrite Hsame, Hsame'. apply Hrowk, Hpos.
          -- exfalso. destruct Hno as [Hno|Hno]; [lia |].
             exact (Hno i' Hi' Heq').
          -- exfalso. destruct Hno' as [Hno'|Hno']; [lia |].
             exact (Hno' i Hi Heq).
          -- congruence.
        * destruct (Hd' pos) as [[Hsame _] | [_ (i & Hi & Heq)]].
          -- rewrite Hsame. apply Hdone; [lia | exact Hpos].
          -- exfalso. pose proof (Hsp i ltac:(lia)) as Hik. rewrite Heq in Hik.
             destruct (cpoint_rows_disjoint n C_rowptr C_colinds C_data Cpts
                         C_ok C_data_len Cpts_ok k r pos ltac:(lia) ltac:(lia)
                         ltac:(lia) Hik) as [Hlt|Hge];
               unfold in_cpoint_row in Hpos; lia.
      + intros pos Hout. destruct (Hd' pos) as [[Hsame _] | [_ (i & Hi & Heq)]].
        * rewrite Hsame. apply Hrest. intros r Hr. apply Hout. lia.
        * exfalso. pose proof (Hsp i ltac:(lia)) as Hik. rewrite Heq in Hik.
          exact (Hout k ltac:(lia) Hik). }
  destruct res as [[nnz rowptr] d]. exact HP.
Qed.

End AIRTruncation.

(** An element of a list is read at some position of it. *)
Lemma elem_of_get {A} `{Inhabited A} (l : list A) x :
  x ∈ l -> exists i, 0 <= i < Z.of_nat (length l) /\ l.[i] = x.
Proof.
  intros Hx. apply list_elem_of_lookup in Hx as [k Hk].
  pose proof (lookup_lt_Some _ _ _ Hk) as Hlt.
  exists (Z.of_nat k). split; [lia |].
  pose proof (get_lookup l (Z.of_nat k) ltac:(lia)) as Hg.
  rewrite Nat2Z.id in Hg. congruence.
Qed.

(** X16.  Pass 2 of the approximate ideal restriction, given the row
    pointer and the data of C that pass 1 leaves, never meets the condition
    of its message "Row pointer does not agree with neighborhood size";
    given the row pointer of pass 1 but the data of C as it was before
    pass 1, it meets the condition in exactly the rows whose C-point has more
    than [max_row] strongly connected F-neighbours. *)
Theorem air_pass2_row_pointer_agrees :
  forall (T : Type) (ST : Scalar T) (IT : Inhabited T)
         (std_sort : list (Z * T) -> list (Z * T)),
    (forall l, Permutation (std_sort l) l) ->
    s_gtb (mynorm s_zero) literal_1em16 = false ->
    forall n (C_rowptr C_colinds : list Z) (C_data : list T)
           (Cpts splitting : list Z) (max_row : Z) (rowptr0 : list Z),
      csr_ok n C_rowptr C_colinds ->
      length C_data = length C_colinds ->
      cpts_ok n Cpts ->
      0 <= max_row ->
      Z.of_nat (length Cpts) + 1 <= Z.of_nat (length rowptr0) ->
      let pass1 := AIR.approx_ideal_restriction_pass1 std_sort rowptr0 C_rowptr
                     C_colinds C_data Cpts splitting max_row in
      forall row colinds, 0 <= row < Z.of_nat (length Cpts) ->
        row_pointer_disagrees (fst pass1) C_rowptr C_colinds (snd pass1) Cpts
          splitting colinds row = false
        /\ row_pointer_disagrees (fst pass1) C_rowptr C_colinds C_data Cpts
             splitting colinds row
           = (max_row <? strong_F_count C_rowptr C_colinds C_data splitting
                           Cpts.[row]).
Proof.
  intros T ST IT std_sort Hsort Hzero n C_rowptr C_colinds C_data Cpts splitting
    max_row rowptr0 HC HCd HCpts Hmax Hlen pass1 row colinds Hrow.
  pose proof (air_pass1_spec std_sort Hsort Hzero n C_rowptr C_colinds C_data
                Cpts splitting max_row HC HCd HCpts Hmax rowptr0 Hlen) as Hp1.
  cbv zeta in Hp1. fold pass1 in Hp1.
  destruct Hp1 as (_ & _ & Hnext & Hcnt).
  unfold row_pointer_disagrees.
  pose proof (fill_colinds_spec C_rowptr C_colinds (snd pass1) splitting
                Cpts.[row] (fst pass1).[row] colinds) as [H1 _].
  pose proof (fill_colinds_spec C_rowptr C_colinds C_data splitting
                Cpts.[row] (fst pass1).[row] colinds) as [H2 _].
  rewrite H1, H2, (Hcnt row Hrow), (Hnext row Hrow).
  split.
  - apply negb_false_iff, Z.eqb_eq. lia.
  - destruct (Z.ltb_spec max_row
                (strong_F_count C_rowptr C_colinds C_data splitting Cpts.[row])).
    + apply negb_true_iff, Z.eqb_neq. lia.
    + apply negb_false_iff, Z.eqb_eq. lia.
Qed.

(** [air_pass2_row_pointer_agrees] on the 1D Laplacian of three nodes with
    the middle node the only C-point and [max_row = 1]: on the data pass 1
    leaves the test fails, on the data as given it holds. *)
Lemma air_pass2_row_pointer_agrees_witness :
  row_pointer_disagrees
    (fst (AIR.approx_ideal_restriction_pass1 insertion_sort [0; 0]
            [0; 2; 5; 7] [0; 1; 0; 1; 2; 1; 2] [2; -1; -1; 2; -1; -1; 2]%Q
            [1] [F_NODE; C_NODE; F_NODE] 1))
    [0; 2; 5; 7] [0; 1; 0; 1; 2; 1; 2]
    (snd (AIR.approx_ideal_restriction_pass1 insertion_sort [0; 0]
            [0; 2; 5; 7] [0; 1; 0; 1; 2; 1; 2] [2; -1; -1; 2; -1; -1; 2]%Q
            [1] [F_NODE; C_NODE; F_NODE] 1))
    [1] [F_NODE; C_NODE; F_NODE] [0; 0] 0 = false
  /\ row_pointer_disagrees
       (fst (AIR.approx_ideal_restriction_pass1 insertion_sort [0; 0]
               [0; 2; 5; 7] [0; 1; 0; 1; 2; 1; 2] [2; -1; -1; 2; -1; -1; 2]%Q
               [1] [F_NODE; C_NODE; F_NODE] 1))
       [0; 2; 5; 7] [0; 1; 0; 1; 2; 1; 2] [2; -1; -1; 2; -1; -1; 2]%Q
       [1] [F_NODE; C_NODE; F_NODE] [0; 0] 0
     = (1 <? strong_F_count [0; 2; 5; 7] [0; 1; 0; 1; 2; 1; 2]
               [2; -1; -1; 2; -1; -1; 2]%Q [F_NODE; C_NODE; F_NODE] [1].[0]).
Proof.
  refine (air_pass2_row_pointer_agrees Q _ _ insertion_sort insertion_sort_perm
            eq_refl 3 [0; 2; 5; 7] [0; 1; 0; 1; 2; 1; 2]
            [2; -1; -1; 2; -1; -1; 2]%Q [1] [F_NODE; C_NODE; F_NODE] 1 [0; 0]
            csr_ok_laplacian3 eq_refl cpts_ok_middle _ _ 0 [0; 0] _).
  - lia.
  - cbn [length]. lia.
  - cbn [length]. lia.
Defined.

(** X17.  Pass 1 of the approximate ideal restriction changes the data of C
    only by storing zero, and only at entries of the row of a C-point with
    more than [max_row] strongly connected F-neighbours that are such
    neighbours themselves: the rows of F-points, the rows within the limit
    and the entries the test does not pass are left as they were. *)
Theorem air_pass1_only_zeroes_excess_entries :
  forall (T : Type) (ST : Scalar T) (IT : Inhabited T)
         (std_sort : list (Z * T) -> list (Z * T)),
    (forall l, Permutation (std_sort l) l) ->
    forall n (C_rowptr C_colinds : list Z) (C_data : list T)
           (Cpts splitting : list Z) (max_row : Z) (rowptr0 : list Z),
      csr_ok n C_rowptr C_colinds ->
      length C_data = length C_colinds ->
      cpts_ok n Cpts ->
      0 <= max_row ->
      let out := snd (AIR.approx_ideal_restriction_pass1 std_sort rowptr0
                        C_rowptr C_colinds C_data Cpts splitting max_row) in
      length out = length C_data
      /\ forall pos,
           out.[pos] = C_data.[pos]
           \/ (out.[pos] = s_zero
               /\ AIR.strong_F_entry C_colinds C_data splitting pos = true
               /\ exists r, 0 <= r < Z.of_nat (length Cpts)
                    /\ in_cpoint_row C_rowptr Cpts r pos
                    /\ max_row < strong_F_count C_rowptr C_colinds C_data
                                   splitting Cpts.[r]).
Proof.
  intros T ST IT std_sort Hsort n C_rowptr C_colinds C_data Cpts splitting
    max_row rowptr0 HC HCd HCpts Hmax out.
  destruct (air_pass1_rows std_sort Hsort n C_rowptr C_colinds C_data Cpts
              splitting max_row HC HCd HCpts Hmax rowptr0)
    as (Hl & Hrows & Hrest).
  fold out in Hl, Hrows, Hrest.
  split; [exact Hl |]. intros pos.
  destruct (range_decide (fun r => in_cpoint_row C_rowptr Cpts r pos) 0
              (Z.of_nat (length Cpts))) as [(r & Hr & Hin) | Hnone].
  { intros r. unfold in_cpoint_row. lia. }
  2:{ left. apply Hrest, Hnone. }
  rewrite (Hrows r pos Hr Hin). unfold truncated_row.
  set (nb := AIR.neighborhood C_rowptr C_colinds C_data splitting Cpts.[r]).
  assert (Hsp : forall i, 0 <= i < Z.of_nat (length nb) ->
            in_cpoint_row C_rowptr Cpts r (fst (std_sort nb).[i])
            /\ AIR.strong_F_entry C_colinds C_data splitting
                 (fst (std_sort nb).[i]) = true).
  { intros i Hi. apply (sorted_positions std_sort Hsort C_rowptr C_colinds Cpts
                          splitting C_data r i Hr Hi). }
  destruct (truncate_row_detail std_sort max_row nb C_data Hmax) as [_ Hd].
  { intros i Hi.
    apply (cpoint_row_in_data n C_rowptr C_colinds C_data Cpts HC HCd HCpts r);
      [exact Hr | apply Hsp, Hi]. }
  destruct (Hd pos) as [[Hsame _] | [Hz (i & Hi & Heq)]]; [left; exact Hsame |].
  right. split; [exact Hz |].
  destruct (Hsp i ltac:(lia)) as [_ Hstrong]. rewrite Heq in Hstrong.
  split; [exact Hstrong |]. exists r. split; [exact Hr |]. split; [exact Hin |].
  destruct (neighborhood_spec C_colinds splitting C_rowptr C_data Cpts.[r])
    as (Hlen & _). cbv zeta in Hlen. fold nb in Hlen.
  unfold strong_F_count. lia.
Qed.

(** [air_pass1_only_zeroes_excess_entries] on the 1D Laplacian of three
    nodes with the middle node the only C-point and [max_row = 1]. *)
Lemma air_pass1_only_zeroes_excess_entries_witness :
  csr_ok 3 [0; 2; 5; 7] [0; 1; 0; 1; 2; 1; 2]
  /\ length (snd (AIR.approx_ideal_restriction_pass1 insertion_sort [0; 0]
                    [0; 2; 5; 7] [0; 1; 0; 1; 2; 1; 2]
                    [2; -1; -1; 2; -1; -1; 2]%Q [1]
                    [F_NODE; C_NODE; F_NODE] 1))
     = length [2; -1; -1; 2; -1; -1; 2]%Q.
Proof.
  split; [exact csr_ok_laplacian3 |].
  refine (proj1 (air_pass1_only_zeroes_excess_entries Q _ _ insertion_sort
                   insertion_sort_perm 3 [0; 2; 5; 7] [0; 1; 0; 1; 2; 1; 2]
                   [2; -1; -1; 2; -1; -1; 2]%Q [1] [F_NODE; C_NODE; F_NODE] 1
                   [0; 0] csr_ok_laplacian3 eq_refl cpts_ok_middle _)).
  lia.
Defined.

(** ** Approximate ideal restriction: which entries the truncation keeps *)

Lemma get_cons_pos {A} `{Inhabited A} (x : A) (l : list A) i :
  0 < i -> (x :: l).[i] = l.[i - 1].
Proof.
  intros Hi. unfold get.
  destruct (Z.leb_spec 0 i); [| lia]. destruct (Z.leb_spec 0 (i - 1)); [| lia].
  replace (Z.to_nat i) with (S (Z.to_nat (i - 1))) by lia. reflexivity.
Qed.

(** A list of pairs in ascending order of the second components: no pair is
    below a pair before it. *)
Fixpoint ascending {T} `{Scalar T} (l : list (Z * T)) : Prop :=
  match l with
  | [] => True
  | x :: r => Forall (fun y => s_ltb (snd y) (snd x) = false) r /\ ascending r
  end.

Lemma ascending_get {T} `{Scalar T} `{Inhabited T} (l : list (Z * T)) :
  ascending l ->
  forall i j, 0 <= i < j -> j < Z.of_nat (length l) ->
    s_ltb (snd l.[j]) (snd l.[i]) = false.
Proof.
  induction l as [|x r IH]; intros Hasc i j Hij Hj; [cbn [length] in Hj; lia |].
  destruct Hasc as [Hall Hasc]. cbn [length] in Hj.
  rewrite (get_cons_pos x r j) by lia.
  destruct (Z.eq_dec i 0) as [->|Hne].
  - rewrite get_cons_0. apply (Forall_get _ _ (j - 1) Hall). lia.
  - rewrite (get_cons_pos x r i) by lia. apply IH; [exact Hasc | lia | lia].
Qed.

(** Over the rationals the insertion sort sorts. *)
Lemma insert_by_second_ascending (p : Z * Q) (l : list (Z * Q)) :
  ascending l -> ascending (insert_by_second p l).
Proof.
  induction l as [|q r IH]; intros Hasc.
  - cbn. split; [constructor | exact I].
  - destruct Hasc as [Hall Hasc]. cbn [insert_by_second].
    destruct (s_ltb (snd q) (snd p)) eqn:Hlt.
    + cbn [ascending]. split; [| apply IH, Hasc].
      rewrite insert_by_second_perm. constructor; [| exact Hall].
      apply Q_ltb_lt in Hlt.
      destruct (s_ltb (snd p) (snd q)) eqn:Hpq; [| reflexivity].
      apply Q_ltb_lt in Hpq. exfalso.
      exact (Qlt_irrefl _ (Qlt_trans _ _ _ Hlt Hpq)).
    + cbn [ascending]. split; [| split; assumption].
      assert (Hpq : (snd p <= snd q)%Q).
      { apply Qnot_lt_le. intros Hc. apply Q_ltb_lt in Hc. congruence. }
      constructor; [exact Hlt |].
      eapply Forall_impl; [exact Hall |]. intros y Hy. cbv beta in *.
      destruct (s_ltb (snd y) (snd p)) eqn:Hyp; [| reflexivity].
      apply Q_ltb_lt in Hyp. exfalso.
      assert (Hqy : (snd q <= snd y)%Q).
      { apply Qnot_lt_le. intros Hc. apply Q_ltb_lt in Hc. congruence. }
      apply (Qlt_irrefl (snd y)).
      eapply Qlt_le_trans; [exact Hyp |]. eapply Qle_trans; eassumption.
Qed.

Lemma insertion_sort_sorts : sorts_by_second (T:=Q) insertion_sort.
Proof.
  intros l. split; [apply insertion_sort_perm |].
  intros i j Hij Hj. apply ascending_get; [| exact Hij |].
  - clear. induction l as [|p l IH]; [exact I |].
    cbn [insertion_sort fold_right]. apply insert_by_second_ascending, IH.
  - rewrite (Permutation_length (insertion_sort_perm l)). exact Hj.
Qed.

(** X18.  With a [std::sort] that sorts by [sort_2nd], in the row of a
    C-point pass 1 of the approximate ideal restriction keeps the strongly
    connected F-neighbours of smallest stored value and zeroes those of
    largest: no entry it zeroes has a value below that of an entry it
    keeps. *)
Theorem air_pass1_zeroes_largest_values :
  forall (T : Type) (ST : Scalar T) (IT : Inhabited T)
         (std_sort : list (Z * T) -> list (Z * T)),
    sorts_by_second std_sort ->
    s_gtb (mynorm s_zero) literal_1em16 = false ->
    forall n (C_rowptr C_colinds : list Z) (C_data : list T)
           (Cpts splitting : list Z) (max_row : Z) (rowptr0 : list Z),
      csr_ok n C_rowptr C_colinds ->
      length C_data = length C_colinds ->
      cpts_ok n Cpts ->
      0 <= max_row ->
      let out := snd (AIR.approx_ideal_restriction_pass1 std_sort rowptr0
                        C_rowptr C_colinds C_data Cpts splitting max_row) in
      forall r (p q : Z), 0 <= r < Z.of_nat (length Cpts) ->
        in_cpoint_row C_rowptr Cpts r p -> in_cpoint_row C_rowptr Cpts r q ->
        AIR.strong_F_entry C_colinds C_data splitting q = true ->
        AIR.strong_F_entry C_colinds out splitting p = true ->
        AIR.strong_F_entry C_colinds out splitting q = false ->
        s_ltb C_data.[q] C_data.[p] = false.
Proof.
  intros T ST IT std_sort Hsorts Hzero n C_rowptr C_colinds C_data Cpts
    splitting max_row rowptr0 HC HCd HCpts Hmax out r p q Hr Hp Hq HqC Hpo Hqo.
  assert (Hsort : forall l, Permutation (std_sort l) l)
    by (intros l; apply Hsorts).
  destruct (air_pass1_rows std_sort Hsort n C_rowptr C_colinds C_data Cpts
              splitting max_row HC HCd HCpts Hmax rowptr0)
    as (Hl & Hrows & _).
  fold out in Hl, Hrows.
  pose proof (Hrows r p Hr Hp) as Hop. pose proof (Hrows r q Hr Hq) as Hoq.
  unfold truncated_row in Hop, Hoq.
  set (nb := AIR.neighborhood C_rowptr C_colinds C_data splitting Cpts.[r]) in *.
  assert (Hsp : forall i, 0 <= i < Z.of_nat (length nb) ->
            in_cpoint_row C_rowptr Cpts r (fst (std_sort nb).[i])).
  { intros i Hi. apply (sorted_positions std_sort Hsort C_rowptr C_colinds Cpts
                          splitting C_data r i Hr Hi). }
  assert (Hpd : forall pos, in_cpoint_row C_rowptr Cpts r pos ->
            0 <= pos < Z.of_nat (length C_data)).
  { intros pos. apply (cpoint_row_in_data n C_rowptr C_colinds C_data Cpts
                         HC HCd HCpts r pos Hr). }
  destruct (truncate_row_detail std_sort max_row nb C_data Hmax) as [_ Hd].
  { intros i Hi. apply Hpd, Hsp, Hi. }
  assert (Hzeroed : forall pos, out.[pos] = s_zero ->
            AIR.strong_F_entry C_colinds out splitting pos = false).
  { intros pos Hz. unfold AIR.strong_F_entry. rewrite Hz, Hzero.
    apply andb_false_r. }
  (* the entry at q is among the sorted pairs from max_row on *)
  destruct (Hd q) as [[Hsame _] | [_ (j & Hj & Hjq)]].
  { exfalso. rewrite <- Hoq in Hsame.
    rewrite (strong_F_entry_same C_colinds splitting C_data out q Hsame) in Hqo.
    congruence. }
  (* the entry at p is kept, so it is one of the pairs before max_row *)
  destruct (Hd p) as [[Hsame Hno] | [Hz _]].
  2:{ exfalso. rewrite <- Hop in Hz. rewrite (Hzeroed p Hz) in Hpo. discriminate. }
  destruct Hno as [Hno|Hno]; [lia |].
  rewrite <- Hop in Hsame.
  rewrite (strong_F_entry_same C_colinds splitting C_data out p Hsame) in Hpo.
  destruct (neighborhood_entries C_colinds splitting C_rowptr C_data Cpts.[r])
    as [Hval Hall]. cbv zeta in Hval, Hall. fold nb in Hval, Hall.
  destruct (Hall p Hp Hpo) as (x & Hx & Hxp).
  rewrite <- (Hsort nb) in Hx, Hval.
  destruct (elem_of_get _ _ Hx) as (i & Hi & Hix).
  rewrite (Permutation_length (Hsort nb)) in Hi.
  assert (Hlt : i < max_row).
  { destruct (Z.lt_ge_cases i max_row) as [Hlt'|Hge]; [exact Hlt' |].
    exfalso. apply (Hno i ltac:(lia)). rewrite Hix. exact Hxp. }
  destruct (Hsorts nb) as [_ Hord].
  pose proof (Hord i j ltac:(lia) ltac:(lia)) as Hij.
  pose proof (Forall_get _ _ i Hval
                ltac:(rewrite (Permutation_length (Hsort nb)); lia)) as Hvi.
  pose proof (Forall_get _ _ j Hval
                ltac:(rewrite (Permutation_length (Hsort nb)); lia)) as Hvj.
  cbv beta in Hvi, Hvj. rewrite Hvi, Hvj, Hjq, Hix, Hxp in Hij. exact Hij.
Qed.

(** [air_pass1_zeroes_largest_values] on a C-point with the two F-neighbours
    of stored values -1 and -2 and [max_row = 1]: the entry -1 is zeroed and
    the entry -2 is kept. *)
Lemma air_pass1_zeroes_largest_values_witness :
  sorts_by_second (T:=Q) insertion_sort
  /\ s_ltb (T:=Q) [2; -1; -1; 2; -2; -1; 2]%Q.[2]
       [2; -1; -1; 2; -2; -1; 2]%Q.[4] = false.
Proof.
  split; [exact insertion_sort_sorts |].
  refine (air_pass1_zeroes_largest_values Q _ _ insertion_sort
            insertion_sort_sorts eq_refl 3 [0; 2; 5; 7] [0; 1; 0; 1; 2; 1; 2]
            [2; -1; -1; 2; -2; -1; 2]%Q [1] [F_NODE; C_NODE; F_NODE] 1 [0; 0]
            csr_ok_laplacian3 eq_refl cpts_ok_middle _ 0 4 2 _ _ _ _ _ _).
  - lia.
  - cbn [length]. lia.
  - vm_compute. split; (discriminate || reflexivity).
  - vm_compute. split; (discriminate || reflexivity).
  - vm_compute. reflexivity.
  - vm_compute. reflexivity.
  - vm_compute. reflexivity.
Defined.

(** ** Approximate ideal restriction: the columns and the values of R *)

Section AIRColumns.
Context {T : Type} `{Scalar T} `{Inhabited T}.
Variable least_squares : list T -> list T -> Z -> Z -> bool -> list T.
Variables (A_rowptr A_colinds : list Z) (A_data : list T).
Variables (C_rowptr C_colinds : list Z) (C_data : list T).
Variables (Cpts splitting rowptr : list Z).

Abbreviation strongC := (AIR.strong_F_entry C_colinds C_data splitting).

(** The search returns the first entry of the row in the column, or zero. *)
Lemma search_row_spec r col :
  (AIR.search_row A_rowptr A_colinds A_data r col = s_zero
   /\ forall k, A_rowptr.[r] <= k < A_rowptr.[r + 1] -> A_colinds.[k] <> col)
  \/ (exists k, A_rowptr.[r] <= k < A_rowptr.[r + 1] /\ A_colinds.[k] = col
        /\ (forall k', A_rowptr.[r] <= k' < k -> A_colinds.[k'] <> col)
        /\ AIR.search_row A_rowptr A_colinds A_data r col = A_data.[k]).
Proof.
  unfold AIR.search_row.
  set (lo := A_rowptr.[r]). set (hi := A_rowptr.[r + 1]).
  destruct (Z.le_gt_cases lo hi) as [Hle|Hgt].
  2:{ rewrite for_range_empty by lia. left. split; [reflexivity | intros; lia]. }
  pose (P := fun m (st : bool * T) =>
     (st = (false, s_zero)
      /\ forall k, lo <= k < m -> A_colinds.[k] <> col)
     \/ (exists k, lo <= k < m /\ A_colinds.[k] = col
           /\ (forall k', lo <= k' < k -> A_colinds.[k'] <> col)
           /\ st = (true, A_data.[k]))).
  set (res := for_range lo hi _ (false, s_zero)).
  assert (HP : P hi res).
  { subst res. apply (for_range_invariant P lo hi); [exact Hle | |]; unfold P.
    - left. split; [reflexivity | intros; lia].
    - intros m st Hm [[-> Hno] | (k & Hk & Hc & Hfirst & ->)].
      + destruct (Z.eqb_spec col A_colinds.[m]) as [Heq|Hne].
        * right. exists m. split; [lia |]. split; [congruence |].
          split; [exact Hno | reflexivity].
        * left. split; [reflexivity |].
          intros k Hk. destruct (Z.eq_dec k m) as [->|]; [congruence |].
          apply Hno. lia.
      + right. exists k. split; [lia |]. repeat split; assumption. }
  destruct HP as [[-> Hno] | (k & Hk & Hc & Hfirst & ->)].
  - left. split; [reflexivity | exact Hno].
  - right. exists k. repeat split; (lia || assumption).
Qed.

(** The column indices of a row, entry by entry. *)
Lemma fill_colinds_columns cpoint ind (colinds : list Z) :
  0 <= ind ->
  ind + strong_F_count C_rowptr C_colinds C_data splitting cpoint
    <= Z.of_nat (length colinds) ->
  let out := AIR.fill_colinds C_rowptr C_colinds C_data splitting cpoint ind
               colinds in
  forall i, C_rowptr.[cpoint] <= i < C_rowptr.[cpoint + 1] ->
    strongC i = true ->
    (snd out).[ind + count_in_range strongC C_rowptr.[cpoint] i] = C_colinds.[i].
Proof.
  intros Hind Hroom. cbv zeta. unfold AIR.fill_colinds, strong_F_count in *.
  set (lo := C_rowptr.[cpoint]) in *. set (hi := C_rowptr.[cpoint + 1]) in *.
  intros i Hi Hs.
  pose (P := fun k (st : Z * list Z) =>
     fst st = ind + count_in_range strongC lo k
     /\ length (snd st) = length colinds
     /\ forall i, lo <= i < k -> strongC i = true ->
          (snd st).[ind + count_in_range strongC lo i] = C_colinds.[i]).
  set (res := for_range lo hi _ (ind, colinds)).
  assert (HP : P hi res).
  { subst res. apply (for_range_invariant P lo hi); [lia | |]; unfold P.
    - rewrite count_in_range_empty by lia. cbn [fst snd].
      split; [lia |]. split; [reflexivity | intros; lia].
    - intros k [ind' cols] Hk (Hind' & Hl & Hall). cbn [fst snd] in *.
      rewrite count_in_range_last by lia.
      destruct (strongC k) eqn:Hsk; cbn [fst snd].
      + pose proof (count_in_range_lt strongC lo k hi Hk Hsk) as Hlt.
        pose proof (count_in_range_nonneg strongC lo k) as Hnn.
        split; [lia |]. split; [rewrite length_set; exact Hl |].
        intros j Hj Hsj. destruct (Z.eq_dec j k) as [->|Hne].
        * rewrite Hind'. apply get_set_eq. lia.
        * pose proof (count_in_range_lt strongC lo j k ltac:(lia) Hsj).
          rewrite get_set_ne by lia. apply Hall; [lia | exact Hsj].
      + split; [lia |]. split; [exact Hl |].
        intros j Hj Hsj. destruct (Z.eq_dec j k) as [->|Hne]; [congruence |].
        apply Hall; [lia | exact Hsj]. }
  destruct HP as (_ & _ & Hall). apply Hall; assumption.
Qed.

(** The solver's result lands at [off], entry by entry. *)
Lemma store_solution_entries off m (x data : list T) t :
  0 <= off -> off + m <= Z.of_nat (length data) -> 0 <= t < m ->
  (AIR.store_solution off m x data).[off + t] = x.[t].
Proof.
  intros Hoff Hroom Ht. unfold AIR.store_solution.
  pose (P := fun k (dk : list T) =>
     length dk = length data
     /\ forall u, 0 <= u < k -> dk.[off + u] = x.[u]).
  assert (HP : P m (for_range 0 m (fun t data => data.[off + t <- x.[t]]) data)).
  { apply (for_range_invariant P 0 m); [lia | |]; unfold P.
    - split; [reflexivity | intros; lia].
    - intros k dk Hk [Hl Hall]. split; [rewrite length_set; exact Hl |].
      intros u Hu. destruct (Z.eq_dec u k) as [->|Hne].
      + apply get_set_eq. lia.
      + rewrite get_set_ne by lia. apply Hall. lia. }
  destruct HP as [_ Hall]. apply Hall, Ht.
Qed.

(** The local system reads the column indices of its own row only. *)
Lemma local_matrix_ext (c c' : list Z) lo ind :
  (forall pos, lo <= pos < ind -> c'.[pos] = c.[pos]) ->
  AIR.local_matrix A_rowptr A_colinds A_data c' lo ind
  = AIR.local_matrix A_rowptr A_colinds A_data c lo ind.
Proof.
  intros Hsame. unfold AIR.local_matrix. f_equal.
  apply for_range_ext. intros j st Hj. cbv zeta. rewrite (Hsame j Hj).
  apply for_range_ext. intros i [temp_A A0] Hi. rewrite (Hsame i Hi).
  reflexivity.
Qed.

Lemma local_rhs_ext (c c' : list Z) cpoint lo ind :
  (forall pos, lo <= pos < ind -> c'.[pos] = c.[pos]) ->
  AIR.local_rhs A_rowptr A_colinds A_data c' cpoint lo ind
  = AIR.local_rhs A_rowptr A_colinds A_data c cpoint lo ind.
Proof.
  intros Hsame. unfold AIR.local_rhs. f_equal.
  apply for_range_ext. intros i [temp_b b0] Hi. rewrite (Hsame i Hi).
  reflexivity.
Qed.

(** The entries of the local matrix: position [u * size_N + v] holds the
    entry of A in the row of the [u]-th and the column of the [v]-th
    neighbour. *)
Lemma local_matrix_entries (c : list Z) lo ind u v :
  lo <= ind -> 0 <= u < ind - lo -> 0 <= v < ind - lo ->
  (AIR.local_matrix A_rowptr A_colinds A_data c lo ind).[u * (ind - lo) + v]
  = AIR.search_row A_rowptr A_colinds A_data c.[lo + u] c.[lo + v].
Proof.
  intros Hle Hu Hv. unfold AIR.local_matrix.
  set (m := ind - lo) in *.
  pose (entry := fun u v =>
          AIR.search_row A_rowptr A_colinds A_data c.[lo + u] c.[lo + v]).
  pose (P := fun j (st : Z * list T) =>
     fst st = (j - lo) * m
     /\ Z.of_nat (length (snd st)) = m * m
     /\ forall u v, 0 <= u < j - lo -> 0 <= v < m ->
          (snd st).[u * m + v] = entry u v).
  set (res := for_range lo ind _ (0, filled (m * m) s_zero)).
  assert (HP : P ind res).
  { subst res. apply (for_range_invariant P lo ind); [exact Hle | |]; unfold P.
    - cbn [fst snd]. rewrite length_filled.
      split; [lia |]. split; [nia | intros; lia].
    - intros j st Hj (Htemp & Hlen & Hall). cbv zeta.
      pose (Q := fun i (st' : Z * list T) =>
         fst st' = (j - lo) * m + (i - lo)
         /\ Z.of_nat (length (snd st')) = m * m
         /\ (forall u v, 0 <= u < j - lo -> 0 <= v < m ->
               (snd st').[u * m + v] = entry u v)
         /\ forall v, 0 <= v < i - lo ->
              (snd st').[(j - lo) * m + v] = entry (j - lo) v).
      set (inner := for_range lo ind _ st).
      assert (HQ : Q ind inner).
      { subst inner. apply (for_range_invariant Q lo ind); [exact Hle | |];
          unfold Q.
        - split; [lia |]. split; [exact Hlen |]. split; [exact Hall |].
          intros; lia.
        - intros i [temp_A A0] Hi (Ht & Hl & Hdone & Hrow). cbn [fst snd] in *.
          subst temp_A.
          split; [lia |]. split; [rewrite length_set; exact Hl |].
          assert (Hin : 0 <= (j - lo) * m + (i - lo) < Z.of_nat (length A0))
            by (unfold m in *; nia).
          split.
          + intros u' v' Hu' Hv'. rewrite get_set_ne by (unfold m in *; nia).
            apply Hdone; assumption.
          + intros v' Hv'. destruct (Z.eq_dec v' (i - lo)) as [->|Hne].
            * rewrite get_set_eq by exact Hin. unfold entry.
              replace (lo + (j - lo)) with j by lia.
              replace (lo + (i - lo)) with i by lia. reflexivity.
            * rewrite get_set_ne by lia. apply Hrow. lia. }
      destruct HQ as (Ht & Hl & Hdone & Hrow).
      split; [unfold m in *; lia |]. split; [exact Hl |].
      intros u' v' Hu' Hv'. destruct (Z.eq_dec u' (j - lo)) as [->|Hne].
      + apply Hrow. unfold m in Hv'. lia.
      + apply Hdone; [lia | exact Hv']. }
  destruct HP as (_ & _ & Hall). apply Hall; assumption.
Qed.

(** The entries of the local right-hand side. *)
Lemma local_rhs_entries (c : list Z) cpoint lo ind v :
  lo <= ind -> 0 <= v < ind - lo ->
  (AIR.local_rhs A_rowptr A_colinds A_data c cpoint lo ind).[v]
  = AIR.search_row A_rowptr A_colinds A_data cpoint c.[lo + v].
Proof.
  intros Hle Hv. unfold AIR.local_rhs.
  pose (P := fun i (st : Z * list T) =>
     fst st = i - lo
     /\ Z.of_nat (length (snd st)) = ind - lo
     /\ forall v, 0 <= v < i - lo ->
          (snd st).[v]
          = AIR.search_row A_rowptr A_colinds A_data cpoint c.[lo + v]).
  set (res := for_range lo ind _ (0, filled (ind - lo) s_zero)).
  assert (HP : P ind res).
  { subst res. apply (for_range_invariant P lo ind); [exact Hle | |]; unfold P.
    - cbn [fst snd]. rewrite length_filled.
      split; [lia |]. split; [lia | intros; lia].
    - intros i [temp_b b0] Hi (Ht & Hl & Hall). cbn [fst snd] in *. subst temp_b.
      split; [lia |]. split; [rewrite length_set; exact Hl |].
      intros v' Hv'. destruct (Z.eq_dec v' (i - lo)) as [->|Hne].
      + rewrite get_set_eq by lia.
        replace (lo + (i - lo)) with i by lia. reflexivity.
      + rewrite get_set_ne by lia. apply Hall. lia. }
  destruct HP as (_ & _ & Hall). apply Hall, Hv.
Qed.

(** One row of pass 2, written out. *)
Lemma pass2_row_eq row (colinds : list Z) (data : list T) :
  let fill := AIR.fill_colinds C_rowptr C_colinds C_data splitting Cpts.[row]
                rowptr.[row] colinds in
  let ind := fst fill in
  let size_N := ind - rowptr.[row] in
  AIR.pass2_row least_squares rowptr A_rowptr A_colinds A_data C_rowptr
    C_colinds C_data Cpts splitting row (colinds, data)
  = ((snd fill).[ind <- Cpts.[row]],
     (AIR.store_solution rowptr.[row] size_N
        (least_squares
           (AIR.local_matrix A_rowptr A_colinds A_data (snd fill)
              rowptr.[row] ind)
           (AIR.local_rhs A_rowptr A_colinds A_data (snd fill) Cpts.[row]
              rowptr.[row] ind)
           size_N size_N true)
        data).[ind <- s_one]).
Proof.
  cbv zeta. unfold AIR.pass2_row.
  destruct (AIR.fill_colinds C_rowptr C_colinds C_data splitting Cpts.[row]
              rowptr.[row] colinds) as [ind cols].
  reflexivity.
Qed.

End AIRColumns.

Section AIRPass2Rows.
Context {T : Type} `{Scalar T} `{Inhabited T}.
Variable least_squares : list T -> list T -> Z -> Z -> bool -> list T.
Variables (A_rowptr A_colinds : list Z) (A_data : list T).
Variables (C_rowptr C_colinds : list Z) (C_data : list T).
Variables (Cpts splitting rowptr : list Z).
Variables (colinds0 : list Z) (data0 : list T).

Abbreviation n_rows := (Z.of_nat (length Cpts)).
Abbreviation Nf2 r := (strong_F_count C_rowptr C_colinds C_data splitting Cpts.[r]).
Abbreviation strong2 := (AIR.strong_F_entry C_colinds C_data splitting).

(** The row pointer agrees with the sizes of the neighbourhoods. *)
Hypothesis rowptr_first : rowptr.[0] = 0.
Hypothesis rowptr_next :
  forall r, 0 <= r < n_rows -> rowptr.[r + 1] = rowptr.[r] + Nf2 r + 1.
Hypothesis colinds_room : rowptr.[n_rows] <= Z.of_nat (length colinds0).
Hypothesis data_room : rowptr.[n_rows] <= Z.of_nat (length data0).

Lemma Nf2_nonneg r : 0 <= Nf2 r.
Proof. apply count_in_range_nonneg. Qed.

Lemma rowptr_mono a b : 0 <= a <= b -> b <= n_rows -> 0 <= rowptr.[a] <= rowptr.[b].
Proof.
  intros Hab Hb.
  assert (Hpos : forall j, 0 <= j <= n_rows -> 0 <= rowptr.[j]).
  { intros j Hj. apply (Z_range_ind (fun j => 0 <= rowptr.[j]) 0 j);
      [lia | lia |].
    intros m Hm IH. rewrite rowptr_next by lia. pose proof (Nf2_nonneg m). lia. }
  split; [apply Hpos; lia |].
  apply (Z_range_ind (fun j => rowptr.[a] <= rowptr.[j]) a b); [lia | lia |].
  intros m Hm IH. rewrite rowptr_next by lia. pose proof (Nf2_nonneg m). lia.
Qed.

(** The solution of the local system of row [r], read off the column
    indices [cols]. *)
Definition local_solution (cols : list Z) (r : Z) : list T :=
  let lo := rowptr.[r] in
  let ind := rowptr.[r] + Nf2 r in
  least_squares
    (AIR.local_matrix A_rowptr A_colinds A_data cols lo ind)
    (AIR.local_rhs A_rowptr A_colinds A_data cols Cpts.[r] lo ind)
    (Nf2 r) (Nf2 r) true.

Lemma local_solution_ext (c c' : list Z) r :
  (forall pos, rowptr.[r] <= pos < rowptr.[r] + Nf2 r -> c'.[pos] = c.[pos]) ->
  local_solution c' r = local_solution c r.
Proof.
  intros Hsame. unfold local_solution. cbv zeta.
  rewrite (local_matrix_ext A_rowptr A_colinds A_data c c') by exact Hsame.
  rewrite (local_rhs_ext A_rowptr A_colinds A_data c c') by exact Hsame.
  reflexivity.
Qed.

(** What pass 2 leaves in every row: its strongly connected F-neighbours
    as columns, in the order of the row of C, and the solution of its local
    system as values. *)
Lemma air_pass2_rows :
  let R := AIR.approx_ideal_restriction_pass2 least_squares rowptr colinds0
             data0 A_rowptr A_colinds A_data C_rowptr C_colinds C_data
             Cpts splitting in
  (forall r i, 0 <= r < n_rows -> in_cpoint_row C_rowptr Cpts r i ->
     strong2 i = true ->
     (fst R).[rowptr.[r] + count_in_range strong2 C_rowptr.[Cpts.[r]] i]
     = C_colinds.[i])
  /\ (forall r t, 0 <= r < n_rows -> 0 <= t < Nf2 r ->
        (snd R).[rowptr.[r] + t] = (local_solution (fst R) r).[t]).
Proof.
  cbv zeta. unfold AIR.approx_ideal_restriction_pass2.
  pose (P := fun k (out : list Z * list T) =>
     length (fst out) = length colinds0 /\ length (snd out) = length data0
     /\ (forall r i, 0 <= r < k -> in_cpoint_row C_rowptr Cpts r i ->
           strong2 i = true ->
           (fst out).[rowptr.[r] + count_in_range strong2 C_rowptr.[Cpts.[r]] i]
           = C_colinds.[i])
     /\ (forall r t, 0 <= r < k -> 0 <= t < Nf2 r ->
           (snd out).[rowptr.[r] + t] = (local_solution (fst out) r).[t])).
  set (R := for_range 0 n_rows _ (colinds0, data0)).
  assert (HP : P n_rows R).
  { subst R. apply (for_range_invariant P 0 n_rows); [lia | |]; unfold P.
    - cbn [fst snd]. split; [reflexivity |]. split; [reflexivity |].
      split; intros; lia.
    - intros k [cols dat] Hk (Hlc & Hld & Hcols & Hdat). cbn [fst snd] in *.
      rewrite pass2_row_eq. cbv zeta.
      pose proof (rowptr_mono k k ltac:(lia) ltac:(lia)) as Hk0.
      pose proof (rowptr_mono (k + 1) n_rows ltac:(lia) ltac:(lia)) as Hk1.
      pose proof (rowptr_next k Hk) as Hnk. pose proof (Nf2_nonneg k) as Hnn.
      pose proof colinds_room as Hcr. pose proof data_room as Hdr.
      set (top := rowptr.[n_rows]) in Hk1, Hcr, Hdr. clearbody top.
      assert (Hroom : rowptr.[k] + Nf2 k < Z.of_nat (length cols))
        by (clear - Hk1 Hcr Hnk Hnn Hlc; lia).
      assert (Hdroom : rowptr.[k] + Nf2 k < Z.of_nat (length dat))
        by (clear - Hk1 Hdr Hnk Hnn Hld; lia).
      pose proof (fill_colinds_spec C_rowptr C_colinds C_data splitting
                    Cpts.[k] rowptr.[k] cols) as Hfill. cbv zeta in Hfill.
      pose proof (fill_colinds_columns C_rowptr C_colinds C_data splitting
                    Cpts.[k] rowptr.[k] cols (proj1 Hk0)
                    (Z.lt_le_incl _ _ Hroom)) as Hfc.
      cbv zeta in Hfc.
      set (fill := AIR.fill_colinds C_rowptr C_colinds C_data splitting
                     Cpts.[k] rowptr.[k] cols) in *.
      destruct Hfill as (Hind & Hlf & Hframe).
      set (ind := fst fill) in *.
      set (cols' := (snd fill).[ind <- Cpts.[k]]).
      assert (Hsol : local_solution cols' k = local_solution (snd fill) k).
      { apply local_solution_ext. intros pos Hpos. unfold cols'.
        apply get_set_ne. lia. }
      rewrite Hind.
      fold (local_solution (snd fill) k).
      match goal with |- context [AIR.store_solution ?off ?m ?x dat] =>
        pose proof (store_solution_spec off m x dat) as Hst; cbv zeta in Hst;
        pose proof (fun t => store_solution_entries off m x dat t) as Hse;
        set (dat' := AIR.store_solution off m x dat) in *
      end.
      destruct Hst as [Hld' Hdframe].
      replace (rowptr.[k] + Nf2 k - rowptr.[k]) with (Nf2 k) in * by lia.
      cbn [fst snd]. rewrite !length_set.
      split; [unfold cols'; rewrite length_set; congruence |].
      split; [congruence |].
      assert (Hold : forall pos, pos < rowptr.[k] ->
                cols'.[pos] = cols.[pos]).
      { intros pos Hpos. unfold cols'. rewrite get_set_ne by lia.
        apply Hframe. left. exact Hpos. }
      split.
      + intros r i Hr Hi Hs. destruct (Z.eq_dec r k) as [->|Hne].
        * pose proof (count_in_range_lt strong2 _ i _ Hi Hs) as Hlt.
          pose proof (count_in_range_nonneg strong2 C_rowptr.[Cpts.[k]] i).
          fold (Nf2 k) in Hlt. unfold strong_F_count in *.
          fold cols'. unfold cols'. rewrite get_set_ne by lia.
          apply Hfc; assumption.
        * pose proof (count_in_range_lt strong2 _ i _ Hi Hs) as Hlt.
          pose proof (count_in_range_nonneg strong2 C_rowptr.[Cpts.[r]] i).
          pose proof (rowptr_mono (r + 1) k ltac:(lia) ltac:(lia)).
          pose proof (rowptr_next r ltac:(lia)). unfold strong_F_count in *.
          fold cols'. rewrite Hold by lia. apply Hcols; [lia | exact Hi | exact Hs].
      + intros r t Hr Ht. fold cols'. destruct (Z.eq_dec r k) as [->|Hne].
        * rewrite get_set_ne by lia. rewrite Hsol.
          apply Hse; lia.
        * pose proof (rowptr_mono (r + 1) k ltac:(lia) ltac:(lia)).
          pose proof (rowptr_next r ltac:(lia)).
          rewrite get_set_ne by lia.
          rewrite Hdframe by lia.
          rewrite (local_solution_ext cols cols' r)
            by (intros pos Hpos; apply Hold; lia).
          apply Hdat; [lia | exact Ht]. }
  destruct HP as (_ & _ & Hcols & Hdat). split; assumption.
Qed.

End AIRPass2Rows.

(** X19.  Given a row pointer that agrees with the sizes of the
    neighbourhoods ([rowptr[r+1] = rowptr[r] + |N_f(r)| + 1]) and output
    arrays long enough, [approx_ideal_restriction_pass2] stores as the
    columns of row [r] of R, ahead of the identity entry, the columns of the
    entries of the C-point's row of C that pass the test of a strongly
    connected F-neighbour, in the order of that row: the [t]-th such entry
    gives the [t]-th column, every one of these columns is an F-node, and
    every position of the row ahead of the last is filled this way. *)
Theorem air_pass2_columns_are_strong_F_neighbours :
  forall (T : Type) (ST : Scalar T) (IT : Inhabited T)
         (least_squares : list T -> list T -> Z -> Z -> bool -> list T)
         (A_rowptr A_colinds : list Z) (A_data : list T)
         (C_rowptr C_colinds : list Z) (C_data : list T)
         (Cpts splitting rowptr colinds0 : list Z) (data0 : list T),
    rowptr.[0] = 0 ->
    (forall r, 0 <= r < Z.of_nat (length Cpts) ->
       rowptr.[r + 1]
       = rowptr.[r] + strong_F_count C_rowptr C_colinds C_data splitting Cpts.[r]
         + 1) ->
    rowptr.[Z.of_nat (length Cpts)] <= Z.of_nat (length colinds0) ->
    rowptr.[Z.of_nat (length Cpts)] <= Z.of_nat (length data0) ->
    let R := AIR.approx_ideal_restriction_pass2 least_squares rowptr colinds0
               data0 A_rowptr A_colinds A_data C_rowptr C_colinds C_data
               Cpts splitting in
    let strong := AIR.strong_F_entry C_colinds C_data splitting in
    (forall r i, 0 <= r < Z.of_nat (length Cpts) ->
       in_cpoint_row C_rowptr Cpts r i -> strong i = true ->
       let t := count_in_range strong C_rowptr.[Cpts.[r]] i in
       0 <= t < rowptr.[r + 1] - 1 - rowptr.[r]
       /\ (fst R).[rowptr.[r] + t] = C_colinds.[i]
       /\ splitting.[(fst R).[rowptr.[r] + t]] = F_NODE)
    /\ (forall r t, 0 <= r < Z.of_nat (length Cpts) ->
          0 <= t < rowptr.[r + 1] - 1 - rowptr.[r] ->
          exists i, in_cpoint_row C_rowptr Cpts r i /\ strong i = true
                    /\ count_in_range strong C_rowptr.[Cpts.[r]] i = t
                    /\ (fst R).[rowptr.[r] + t] = C_colinds.[i]).
Proof.
  intros T ST IT least_squares A_rowptr A_colinds A_data C_rowptr C_colinds
    C_data Cpts splitting rowptr colinds0 data0 H0 Hnext Hcr Hdr R strong.
  destruct (air_pass2_rows least_squares A_rowptr A_colinds A_data C_rowptr
              C_colinds C_data Cpts splitting rowptr colinds0 data0 H0 Hnext
              Hcr Hdr) as [Hcols _].
  fold R in Hcols. fold strong in Hcols.
  split.
  - intros r i Hr Hi Hs t.
    pose proof (count_in_range_lt strong _ i _ Hi Hs) as Hlt.
    pose proof (count_in_range_nonneg strong C_rowptr.[Cpts.[r]] i) as Hnn.
    pose proof (Hnext r Hr) as Hn. unfold strong_F_count in Hn. fold strong in Hn.
    split; [unfold t; lia |].
    unfold t. rewrite (Hcols r i Hr Hi Hs). split; [reflexivity |].
    unfold strong, AIR.strong_F_entry in Hs.
    apply andb_true_iff in Hs as [HF _]. apply Z.eqb_eq in HF. exact HF.
  - intros r t Hr Ht.
    pose proof (Hnext r Hr) as Hn. unfold strong_F_count in Hn. fold strong in Hn.
    assert (Ht' : 0 <= t < count_in_range strong C_rowptr.[Cpts.[r]]
                             C_rowptr.[Cpts.[r] + 1]) by lia.
    destruct (count_in_range_select strong C_rowptr.[Cpts.[r]]
                C_rowptr.[Cpts.[r] + 1] t Ht') as (i & Hi & Hs & Hc).
    exists i. split; [exact Hi |]. split; [exact Hs |]. split; [exact Hc |].
    rewrite <- Hc. apply Hcols; assumption.
Qed.

(** [air_pass2_columns_are_strong_F_neighbours] on the 1D Laplacian of three
    nodes with the middle node the only C-point: the entry of C at position
    4, in column 2, is its second strongly connected F-neighbour and gives
    the second column of the row of R. *)
Lemma air_pass2_columns_are_strong_F_neighbours_witness :
  [0; 3].[0] = 0
  /\ (fst (AIR.approx_ideal_restriction_pass2 least_squares_1x1 [0; 3]
             [0; 0; 0] [0; 0; 0]%Q [0; 2; 5; 7] [0; 1; 0; 1; 2; 1; 2]
             [2; -1; -1; 2; -1; -1; 2]%Q [0; 2; 5; 7] [0; 1; 0; 1; 2; 1; 2]
             [2; -1; -1; 2; -1; -1; 2]%Q [1] [F_NODE; C_NODE; F_NODE])).[
       [0; 3].[0]
       + count_in_range
           (AIR.strong_F_entry [0; 1; 0; 1; 2; 1; 2]
              [2; -1; -1; 2; -1; -1; 2]%Q [F_NODE; C_NODE; F_NODE])
           [0; 2; 5; 7].[[1].[0]] 4]
     = [0; 1; 0; 1; 2; 1; 2].[4].
Proof.
  split; [reflexivity |].
  refine (proj1 (proj2 (proj1
            (air_pass2_columns_are_strong_F_neighbours Q _ _ least_squares_1x1
               [0; 2; 5; 7] [0; 1; 0; 1; 2; 1; 2] [2; -1; -1; 2; -1; -1; 2]%Q
               [0; 2; 5; 7] [0; 1; 0; 1; 2; 1; 2] [2; -1; -1; 2; -1; -1; 2]%Q
               [1] [F_NODE; C_NODE; F_NODE] [0; 3] [0; 0; 0] [0; 0; 0]%Q
               eq_refl _ _ _) 0 4 _ _ _))).
  - intros r Hr. cbn [length] in Hr. assert (r = 0) as -> by lia.
    vm_compute. reflexivity.
  - vm_compute. discriminate.
  - vm_compute. discriminate.
  - cbn [length]. lia.
  - vm_compute. split; (discriminate || reflexivity).
  - vm_compute. reflexivity.
Defined.

(** X20.  Under the same conditions the values [approx_ideal_restriction_pass2]
    stores in row [r] of R ahead of the identity entry are what
    [least_squares] returns for the local system of the row, read off the
    columns of R: with [N_0, N_1, ...] the columns of the row, the matrix
    passed holds at position [u * size + v] the entry of A in row [N_u] and
    column [N_v] and the right-hand side holds at [v] the entry of A in the
    row of the C-point and column [N_v], an entry of A being what the search
    of the row finds. *)
Theorem air_pass2_rows_solve_local_systems :
  forall (T : Type) (ST : Scalar T) (IT : Inhabited T)
         (least_squares : list T -> list T -> Z -> Z -> bool -> list T)
         (A_rowptr A_colinds : list Z) (A_data : list T)
         (C_rowptr C_colinds : list Z) (C_data : list T)
         (Cpts splitting rowptr colinds0 : list Z) (data0 : list T),
    rowptr.[0] = 0 ->
    (forall r, 0 <= r < Z.of_nat (length Cpts) ->
       rowptr.[r + 1]
       = rowptr.[r] + strong_F_count C_rowptr C_colinds C_data splitting Cpts.[r]
         + 1) ->
    rowptr.[Z.of_nat (length Cpts)] <= Z.of_nat (length colinds0) ->
    rowptr.[Z.of_nat (length Cpts)] <= Z.of_nat (length data0) ->
    let R := AIR.approx_ideal_restriction_pass2 least_squares rowptr colinds0
               data0 A_rowptr A_colinds A_data C_rowptr C_colinds C_data
               Cpts splitting in
    forall r, 0 <= r < Z.of_nat (length Cpts) ->
      let lo := rowptr.[r] in
      let size := rowptr.[r + 1] - 1 - rowptr.[r] in
      let A0 := AIR.local_matrix A_rowptr A_colinds A_data (fst R) lo
                  (lo + size) in
      let b0 := AIR.local_rhs A_rowptr A_colinds A_data (fst R) Cpts.[r] lo
                  (lo + size) in
      (forall t, 0 <= t < size ->
         (snd R).[lo + t] = (least_squares A0 b0 size size true).[t])
      /\ (forall u v, 0 <= u < size -> 0 <= v < size ->
            A0.[u * size + v]
            = AIR.search_row A_rowptr A_colinds A_data
                (fst R).[lo + u] (fst R).[lo + v])
      /\ (forall v, 0 <= v < size ->
            b0.[v] = AIR.search_row A_rowptr A_colinds A_data Cpts.[r]
                       (fst R).[lo + v]).
Proof.
  intros T ST IT least_squares A_rowptr A_colinds A_data C_rowptr C_colinds
    C_data Cpts splitting rowptr colinds0 data0 H0 Hnext Hcr Hdr R r Hr
    lo size A0 b0.
  destruct (air_pass2_rows least_squares A_rowptr A_colinds A_data C_rowptr
              C_colinds C_data Cpts splitting rowptr colinds0 data0 H0 Hnext
              Hcr Hdr) as [_ Hdat].
  fold R in Hdat.
  assert (Hsize : size
                  = strong_F_count C_rowptr C_colinds C_data splitting Cpts.[r])
    by (unfold size; rewrite (Hnext r Hr); lia).
  split; [| split].
  - intros t Ht. unfold lo. rewrite (Hdat r t Hr ltac:(lia)).
    unfold local_solution, A0, b0, lo. rewrite <- Hsize. reflexivity.
  - intros u v Hu Hv. unfold A0.
    pose proof (local_matrix_entries A_rowptr A_colinds A_data (fst R) lo
                  (lo + size) u v ltac:(lia) ltac:(lia) ltac:(lia)) as He.
    replace (lo + size - lo) with size in He by lia. exact He.
  - intros v Hv. unfold b0.
    apply (local_rhs_entries A_rowptr A_colinds A_data (fst R) Cpts.[r] lo
             (lo + size) v); lia.
Qed.

(** [air_pass2_rows_solve_local_systems] on the 1D Laplacian of three nodes
    with the middle node the only C-point: the right-hand side of the local
    system holds the entry -1 of A in row 1 and column 0. *)
Lemma air_pass2_rows_solve_local_systems_witness :
  [0; 3].[0] = 0
  /\ (AIR.local_rhs [0; 2; 5; 7] [0; 1; 0; 1; 2; 1; 2]
        [2; -1; -1; 2; -1; -1; 2]%Q
        (fst (AIR.approx_ideal_restriction_pass2 least_squares_1x1 [0; 3]
                [0; 0; 0] [0; 0; 0]%Q [0; 2; 5; 7] [0; 1; 0; 1; 2; 1; 2]
                [2; -1; -1; 2; -1; -1; 2]%Q [0; 2; 5; 7] [0; 1; 0; 1; 2; 1; 2]
                [2; -1; -1; 2; -1; -1; 2]%Q [1] [F_NODE; C_NODE; F_NODE]))
        [1].[0] [0; 3].[0]
        ([0; 3].[0] + ([0; 3].[0 + 1] - 1 - [0; 3].[0]))).[0]
     = AIR.search_row [0; 2; 5; 7] [0; 1; 0; 1; 2; 1; 2]
         [2; -1; -1; 2; -1; -1; 2]%Q [1].[0]
         (fst (AIR.approx_ideal_restriction_pass2 least_squares_1x1 [0; 3]
                 [0; 0; 0] [0; 0; 0]%Q [0; 2; 5; 7] [0; 1; 0; 1; 2; 1; 2]
                 [2; -1; -1; 2; -1; -1; 2]%Q [0; 2; 5; 7]
                 [0; 1; 0; 1; 2; 1; 2] [2; -1; -1; 2; -1; -1; 2]%Q [1]
                 [F_NODE; C_NODE; F_NODE])).[[0; 3].[0] + 0].
Proof.
  split; [reflexivity |].
  refine (proj2 (proj2
            (air_pass2_rows_solve_local_systems Q _ _ least_squares_1x1
               [0; 2; 5; 7] [0; 1; 0; 1; 2; 1; 2] [2; -1; -1; 2; -1; -1; 2]%Q
               [0; 2; 5; 7] [0; 1; 0; 1; 2; 1; 2] [2; -1; -1; 2; -1; -1; 2]%Q
               [1] [F_NODE; C_NODE; F_NODE] [0; 3] [0; 0; 0] [0; 0; 0]%Q
               eq_refl _ _ _ 0 _)) 0 _).
  - intros r Hr. cbn [length] in Hr. assert (r = 0) as -> by lia.
    vm_compute. reflexivity.
  - vm_compute. discriminate.
  - vm_compute. discriminate.
  - cbn [length]. lia.
  - vm_compute. split; (discriminate || reflexivity).
Defined.

(** X21.  The search of a row of A that [approx_ideal_restriction_pass2]
    uses to read an entry: it yields zero when the row has no entry in the
    column, and otherwise the value of the first entry of the row in that
    column, later duplicates being ignored. *)
Theorem air_search_row_first_match :
  forall (T : Type) (ST : Scalar T) (IT : Inhabited T)
         (A_rowptr A_colinds : list Z) (A_data : list T) (r col : Z),
    (AIR.search_row A_rowptr A_colinds A_data r col = s_zero
     /\ forall k, A_rowptr.[r] <= k < A_rowptr.[r + 1] -> A_colinds.[k] <> col)
    \/ (exists k, A_rowptr.[r] <= k < A_rowptr.[r + 1] /\ A_colinds.[k] = col
          /\ (forall k', A_rowptr.[r] <= k' < k -> A_colinds.[k'] <> col)
          /\ AIR.search_row A_rowptr A_colinds A_data r col = A_data.[k]).
Proof.
  intros T ST IT A_rowptr A_colinds A_data r col.
  exact (search_row_spec A_rowptr A_colinds A_data r col).
Qed.

(** ** The splitting array is an output only *)

(** Filling the first [n] entries of an array of [n] entries leaves the
    same array whatever it held. *)
Lemma fill_overwrites {A} `{Inhabited A} n (v : A) (a b : list A) :
  Z.of_nat (length a) = n -> Z.of_nat (length b) = n ->
  for_range 0 n (fun i s => s.[i <- v]) a
  = for_range 0 n (fun i s => s.[i <- v]) b.
Proof.
  intros Ha Hb.
  destruct (fill_loop_spec n v a ltac:(lia)) as [Hla Hva].
  destruct (fill_loop_spec n v b ltac:(lia)) as [Hlb Hvb].
  apply array_ext; [lia |].
  intros i Hi. rewrite Hva, Hvb by lia. reflexivity.
Qed.

Lemma rs_init_ignores_labels n Tp Tj influence (s0 s0' : list Z) :
  Z.of_nat (length s0) = n -> Z.of_nat (length s0') = n ->
  RS.init n Tp Tj influence s0 = RS.init n Tp Tj influence s0'.
Proof.
  intros Hl Hl'. unfold RS.init.
  destruct (RS.compute_lambdas n Tp influence) as [lam lmax].
  destruct (RS.prefix_sums _ _ _) as [[ptr cnt] cs].
  set (st := {| RS.lambda := lam; RS.interval_ptr := ptr;
                RS.interval_count := cnt; RS.index_to_node := filled n 0;
                RS.node_to_index := filled n 0; RS.splitting := s0 |}).
  set (st' := {| RS.lambda := lam; RS.interval_ptr := ptr;
                 RS.interval_count := cnt; RS.index_to_node := filled n 0;
                 RS.node_to_index := filled n 0; RS.splitting := s0' |}).
  pose (R := fun a b : RS.state =>
     RS.lambda a = RS.lambda b /\ RS.interval_ptr a = RS.interval_ptr b
     /\ RS.interval_count a = RS.interval_count b
     /\ RS.index_to_node a = RS.index_to_node b
     /\ RS.node_to_index a = RS.node_to_index b
     /\ RS.splitting a = s0 /\ RS.splitting b = s0').
  assert (HR : R (for_range 0 n RS.place_node st) (for_range 0 n RS.place_node st')).
  { apply (for_range_rel R 0 n); unfold R.
    - cbn. repeat split; reflexivity.
    - intros i a b _ (H1 & H2 & H3 & H4 & H5 & H6 & H7).
      unfold RS.place_node, RS.set_interval_count, RS.set_node_to_index,
        RS.set_index_to_node. cbn.
      rewrite H1, H2, H3, H4, H5. repeat split; assumption. }
  destruct HR as (H1 & H2 & H3 & H4 & H5 & H6 & H7).
  f_equal. unfold RS.set_splitting.
  rewrite H1, H2, H3, H4, H5, H6, H7. f_equal.
  apply fill_overwrites; assumption.
Qed.

(** X22.  [splitting] is an output of both splitters: what the array of
    [n] entries holds on entry has no effect on the splitting
    [rs_cf_splitting] or [cljp_naive_splitting] returns. *)
Theorem splitters_ignore_initial_labels :
  forall n Sp Sj Tp Tj (s0 s0' : list Z),
    Z.of_nat (length s0) = n -> Z.of_nat (length s0') = n ->
    (forall influence,
       RS.rs_cf_splitting n Sp Sj Tp Tj influence s0
       = RS.rs_cf_splitting n Sp Sj Tp Tj influence s0')
    /\ (forall (T : Type) (ST : Scalar T) (IT : Inhabited T) fuel colorflag ext,
          CLJP.cljp_naive_splitting (T:=T) fuel n Sp Sj Tp Tj s0 colorflag ext
          = CLJP.cljp_naive_splitting (T:=T) fuel n Sp Sj Tp Tj s0' colorflag
              ext).
Proof.
  intros n Sp Sj Tp Tj s0 s0' Hl Hl'. split.
  - intros influence. unfold RS.rs_cf_splitting.
    rewrite (rs_init_ignores_labels n Tp Tj influence s0 s0' Hl Hl').
    reflexivity.
  - intros T ST IT fuel colorflag ext. unfold CLJP.cljp_naive_splitting.
    replace (CLJP.init n Sp Sj s0 colorflag ext)
      with (CLJP.init (T:=T) n Sp Sj s0' colorflag ext); [reflexivity |].
    unfold CLJP.init. f_equal. apply fill_overwrites; assumption.
Qed.

(** [splitters_ignore_initial_labels] on the graph of one edge 0 - 1. *)
Lemma splitters_ignore_initial_labels_witness :
  RS.rs_cf_splitting 2 [0; 1; 2] [1; 0] [0; 1; 2] [1; 0] [0; 0] [0; 0]
  = RS.rs_cf_splitting 2 [0; 1; 2] [1; 0] [0; 1; 2] [1; 0] [0; 0] [7; 9].
Proof.
  exact (proj1 (splitters_ignore_initial_labels 2 [0; 1; 2] [1; 0] [0; 1; 2]
                  [1; 0] [0; 0] [7; 9] eq_refl eq_refl) [0; 0]).
Defined.
